(** * Automatic control dependencies (tensorflow/python/framework/auto_control_deps.py)

    A shallow embedding of [AutomaticControlDependencies]: the region manager
    ([__enter__], [mark_as_return], [__exit__]), the pass over the operations
    created inside the region, and [_process_switch].

    The graph is an arena: an operation is known by its position in
    [g_operations] (construction order), a tensor by the pair of its producer
    and its output index.  Python exceptions are results of an error and
    state monad whose state survives a raise, as mutations do in Python. *)

From Stdlib Require Import String.
From stdpp Require Import base gmap strings list fin_maps fin_sets.

Open Scope string_scope.
Open Scope list_scope.
Set Warnings "-register-all,-clear-no-such-hyp".

(** ** Exceptions and the state monad *)

Inductive exn : Type :=
  | RuntimeError (msg : string)
  | IndexError
  | AttributeError
  | RecursionError
  | InvalidHandle.

Inductive outcome (A : Type) : Type :=
  | Ok (a : A)
  | Raise (e : exn).
Arguments Ok {A} a.
Arguments Raise {A} e.

Definition M (S A : Type) : Type := S -> S * outcome A.

Definition ret {S A} (a : A) : M S A := fun s => (s, Ok a).
Definition raise {S A} (e : exn) : M S A := fun s => (s, Raise e).
Definition bind {S A B} (c : M S A) (k : A -> M S B) : M S B :=
  fun s => match c s with
           | (s', Ok a) => k a s'
           | (s', Raise e) => (s', Raise e)
           end.
Definition gets {S A} (f : S -> A) : M S A := fun s => (s, Ok (f s)).
Definition modify {S} (f : S -> S) : M S unit := fun s => (f s, Ok tt).

Declare Scope acd_scope.
Delimit Scope acd_scope with acd.
Notation "'let!' x ':=' c 'in' k" := (bind c (fun x => k))
  (at level 10, x name, c at level 100, k at level 200) : acd_scope.
Notation "c >> k" := (bind c (fun _ => k))
  (at level 90, right associativity) : acd_scope.
Open Scope acd_scope.

(** [for x in l: body x] *)
Fixpoint for_each {S A} (l : list A) (body : A -> M S unit) : M S unit :=
  match l with
  | [] => ret tt
  | x :: l' => body x >> for_each l' body
  end.

(** [l[i]], raising IndexError out of range. *)
Definition index {S A} (l : list A) (i : nat) : M S A :=
  match l !! i with
  | Some x => ret x
  | None => raise IndexError
  end.

(** ** Data model *)

Inductive DType : Type := resource | int32 | float32.

Global Instance DType_eq_dec : EqDecision DType.
Proof. solve_decision. Defined.

(** A control-flow context object: its identity, whether it is a while
    context, and its [outer_context]. *)
Inductive ControlFlowContext : Type :=
  | Context (uid : nat) (is_while : bool) (outer : option ControlFlowContext).

Definition ctx_uid (c : ControlFlowContext) : nat :=
  match c with Context u _ _ => u end.
Definition ctx_is_while (c : ControlFlowContext) : bool :=
  match c with Context _ w _ => w end.
Definition outer_context (c : ControlFlowContext) : option ControlFlowContext :=
  match c with Context _ _ o => o end.

(** Python's [a is b] on two context references, either of which may be
    [None]: object identity, not structure. *)
Definition ctx_is (a b : option ControlFlowContext) : bool :=
  match a, b with
  | None, None => true
  | Some x, Some y => Nat.eqb (ctx_uid x) (ctx_uid y)
  | _, _ => false
  end.

(** The key of a tensor in the identity-keyed maps: [ops.tensor_id]. *)
Abbreviation TensorId := (nat * nat)%type (only parsing).

Record Tensor : Type := mkTensor {
  t_op : nat;             (* the producing operation *)
  t_value_index : nat;    (* which of its outputs *)
  dtype : DType
}.

Definition tensor_id (t : Tensor) : TensorId := (t_op t, t_value_index t).

Record Operation : Type := mkOp {
  type : string;
  inputs : list Tensor;
  output_dtypes : list DType;
  _control_flow_context : option ControlFlowContext;
  _is_stateful : bool;
  control_inputs : gset nat
}.

(** [op.outputs] of the operation at position [i]. *)
Definition outputs (i : nat) (op : Operation) : list Tensor :=
  imap (fun k d => mkTensor i k d) (output_dtypes op).

Record Graph : Type := mkGraph {
  g_uid : nat;                       (* identity of the graph object *)
  g_operations : list Operation;     (* construction order *)
  _registered_ops : gset string;
  g_current_context : option ControlFlowContext;  (* context given to new ops *)
  _add_control_dependencies : bool;
  (* [None]: no attribute [outer_graph]; [Some b]: the outer graph's
     [_add_control_dependencies] is [b] *)
  outer_graph_add_control_dependencies : option bool
}.

Definition set_operations (g : Graph) (ops : list Operation) : Graph :=
  mkGraph (g_uid g) ops (_registered_ops g) (g_current_context g)
          (_add_control_dependencies g) (outer_graph_add_control_dependencies g).

Definition set_add_control_dependencies (g : Graph) (b : bool) : Graph :=
  mkGraph (g_uid g) (g_operations g) (_registered_ops g) (g_current_context g)
          b (outer_graph_add_control_dependencies g).

(** ** Exempt stateful kinds *)

Definition ASYNC_STATEFUL_OPS : list string :=
  [ "CollectiveGather"; "CollectiveReduce"; "CollectiveBcastSend";
    "CollectiveBcastRecv"; "NcclAllReduce" ].

Definition LEGACY_RANDOM_OPS : list string :=
  [ "RandomUniform"; "RandomUniformInt"; "RandomStandardNormal";
    "ParameterizedTruncatedNormal"; "TruncatedNormal"; "RandomShuffle";
    "Multinomial"; "RandomGamma"; "RandomGammaGrad"; "RandomPoisson";
    "RandomPoissonV2" ].

Definition _ORDER_INSENSITIVE_STATEFUL_OPS : list string :=
  [ "CudnnRNNV2"; "CudnnRNNV3"; "CudnnRNNBackpropV2"; "CudnnRNNBackpropV3" ].

Definition _ALL_BLACKLISTED_OPS : gset string :=
  list_to_set ASYNC_STATEFUL_OPS ∪ list_to_set LEGACY_RANDOM_OPS
  ∪ list_to_set _ORDER_INSENSITIVE_STATEFUL_OPS.

Definition op_is_stateful (op : Operation) : bool :=
  _is_stateful op && negb (bool_decide (type op ∈ _ALL_BLACKLISTED_OPS)).

(** Modelled from the spec: [control_flow_util.IsInWhileLoop] is not part of
    this file; an operation is inside an iterative construct when its
    context or one of the enclosing contexts is a while context. *)
Fixpoint in_while_context (c : ControlFlowContext) : bool :=
  match c with
  | Context _ w o =>
      w || match o with Some c' => in_while_context c' | None => false end
  end.

Definition IsInWhileLoop (op : Operation) : bool :=
  match _control_flow_context op with
  | Some c => in_while_context c
  | None => false
  end.

(** ** The working state of one pass

    The three locals of [__exit__] that [_process_switch] receives by
    reference, together with the graph they are about. *)

Record PassState : Type := mkPass {
  ps_graph : Graph;
  last_op_using_resource_tensor : gmap (option TensorId) nat;
  ops_which_must_run : gset nat;
  merge_for_resource : gmap TensorId nat
}.

Definition with_graph (f : Graph -> Graph) (s : PassState) : PassState :=
  mkPass (f (ps_graph s)) (last_op_using_resource_tensor s)
         (ops_which_must_run s) (merge_for_resource s).
Definition with_last_op (f : gmap (option TensorId) nat -> gmap (option TensorId) nat)
    (s : PassState) : PassState :=
  mkPass (ps_graph s) (f (last_op_using_resource_tensor s))
         (ops_which_must_run s) (merge_for_resource s).
Definition with_must_run (f : gset nat -> gset nat) (s : PassState) : PassState :=
  mkPass (ps_graph s) (last_op_using_resource_tensor s)
         (f (ops_which_must_run s)) (merge_for_resource s).
Definition with_merge_for (f : gmap TensorId nat -> gmap TensorId nat)
    (s : PassState) : PassState :=
  mkPass (ps_graph s) (last_op_using_resource_tensor s)
         (ops_which_must_run s) (f (merge_for_resource s)).

(** ** Graph primitives *)

(** Reading through an operation handle. *)
Definition graph_op (g : Graph) (i : nat) : option Operation :=
  g_operations g !! i.

Definition get_op (i : nat) : M PassState Operation :=
  fun s => match graph_op (ps_graph s) i with
           | Some op => (s, Ok op)
           | None => (s, Raise InvalidHandle)
           end.

Definition add_control (srcs : gset nat) (op : Operation) : Operation :=
  mkOp (type op) (inputs op) (output_dtypes op) (_control_flow_context op)
       (_is_stateful op) (control_inputs op ∪ srcs).

Definition set_context (c : option ControlFlowContext) (op : Operation) : Operation :=
  mkOp (type op) (inputs op) (output_dtypes op) c
       (_is_stateful op) (control_inputs op).

(** Modelled from the spec: the graph mutation primitive
    [Operation._add_control_inputs] lives in ops.py; it appends control-only
    edges to an existing operation, whose control inputs form a set. *)
Definition graph_add_control_inputs (target : nat) (srcs : gset nat) (g : Graph) : Graph :=
  set_operations g (alter (add_control srcs) target (g_operations g)).

Definition _add_control_inputs (target : nat) (srcs : gset nat) : M PassState unit :=
  modify (with_graph (graph_add_control_inputs target srcs)).

Definition _add_control_input (target src : nat) : M PassState unit :=
  _add_control_inputs target {[ src ]}.

(** Appending a freshly built operation; its handle is the old length. *)
Definition graph_append (op : Operation) (g : Graph) : Graph :=
  set_operations g (g_operations g ++ [op]).

(** Modelled from the spec: [control_flow_ops.merge] is not part of this
    file; it creates a Merge operation over the given tensors, in the context
    current at creation, with two outputs (the value and its index). *)
Definition new_merge_op (g : Graph) (ins : list Tensor) : Operation :=
  mkOp "Merge" ins
       [ match ins with t :: _ => dtype t | [] => int32 end; int32 ]
       (g_current_context g) false ∅.

Definition merge (ins : list Tensor) : M PassState nat :=
  fun s =>
    let g := ps_graph s in
    (with_graph (graph_append (new_merge_op g ins)) s,
     Ok (length (g_operations g))).

Definition set_control_flow_context (i : nat) (c : option ControlFlowContext)
    : M PassState unit :=
  modify (with_graph (fun g =>
    set_operations g (alter (set_context c) i (g_operations g)))).

(** ** [_process_switch]

    The recursion follows the producers of the switch's input; [fuel] bounds
    its depth and running out of it is Python's RecursionError. *)
Fixpoint _process_switch (fuel : nat) (switch_op : nat) : M PassState unit :=
  match fuel with
  | 0 => raise RecursionError
  | S fuel' =>
    let! sw := get_op switch_op in
    let! inp := index (inputs sw) 0 in
    let input_id := tensor_id inp in
    (if bool_decide (dtype inp = resource) then
       let! producer := get_op (t_op inp) in
       if bool_decide (type producer = "Switch")
       then _process_switch fuel' (t_op inp)
       else ret tt
     else ret tt) >>
    let! output := index (outputs switch_op sw) 0 in
    let output_id := tensor_id output in
    let! merges := gets merge_for_resource in
    if bool_decide (is_Some (merges !! output_id)) then ret tt else
    let! new_merge := merge (outputs switch_op sw) in
    let! outer :=
      match _control_flow_context sw with
      | Some c => ret (outer_context c)
      | None => raise AttributeError
      end in
    set_control_flow_context new_merge outer >>
    (* Ensures the merge always runs *)
    modify (with_must_run (fun s => s ∪ {[ new_merge ]})) >>
    let! last := gets last_op_using_resource_tensor in
    match last !! Some input_id with
    | Some prev => _add_control_input switch_op prev
    | None => ret tt
    end >>
    modify (with_last_op <[ Some input_id := new_merge ]>) >>
    let! merges := gets merge_for_resource in
    match merges !! input_id with
    | Some m => _add_control_input m new_merge
    | None => ret tt
    end >>
    for_each (outputs switch_op sw) (fun o =>
      modify (with_merge_for <[ tensor_id o := new_merge ]>))
  end.

(** A call of [_process_switch] from the pass.  The chain of producers of an
    acyclic graph visits no operation twice, so one level per operation of
    the graph (and one to spare) is all a terminating call needs. *)
Definition call_process_switch (switch_op : nat) : M PassState unit :=
  fun s => _process_switch (S (length (g_operations (ps_graph s)))) switch_op s.

(** ** The pass of [__exit__] *)

(** [c._control_flow_context is op._control_flow_context], [c] a handle. *)
Definition same_context (g : Graph) (ctx : option ControlFlowContext) (c : nat) : bool :=
  match graph_op g c with
  | Some o => ctx_is (_control_flow_context o) ctx
  | None => false
  end.

Definition in_context (g : Graph) (ctx : option ControlFlowContext) (X : gset nat)
    : gset nat :=
  filter (fun c => same_context g ctx c = true) X.

(** The loop over [op.inputs] (lines 322-347); the two sets are the locals
    [control_inputs] and [resource_inputs] of the iteration.  [op] is the
    operation at [op_id]: its type, inputs and context are not written to
    during a pass. *)
Fixpoint process_inputs (op_id : nat) (op : Operation) (ins : list Tensor)
    (control_inputs : gset nat) (resource_inputs : gset TensorId)
    : M PassState (gset nat * gset TensorId) :=
  match ins with
  | [] => ret (control_inputs, resource_inputs)
  | inp :: rest =>
    if negb (bool_decide (dtype inp = resource))
    then process_inputs op_id op rest control_inputs resource_inputs
    else
      let input_id := tensor_id inp in
      (* the same resource tensor twice: skip *)
      if bool_decide (input_id ∈ resource_inputs)
      then process_inputs op_id op rest control_inputs resource_inputs
      else
        let resource_inputs := resource_inputs ∪ {[ input_id ]} in
        (* Deal with switches, finally. *)
        let! producer := get_op (t_op inp) in
        (if bool_decide (type producer = "Switch")
         then call_process_switch (t_op inp)
         else ret tt) >>
        (* Ensure uses of resources are serialized *)
        let! last := gets last_op_using_resource_tensor in
        let! control_inputs :=
          match last !! Some input_id with
          | Some prev =>
              let! prev_op := get_op prev in
              if ctx_is (_control_flow_context prev_op) (_control_flow_context op)
              then ret (control_inputs ∪ {[ prev ]})
              else ret control_inputs
          | None => ret control_inputs
          end in
        (* Ensure merges happen after the closing of a cond block *)
        let! merges := gets merge_for_resource in
        match merges !! input_id with
        | Some m => _add_control_input m op_id
        | None => ret tt
        end >>
        modify (with_last_op <[ Some input_id := op_id ]>) >>
        process_inputs op_id op rest control_inputs resource_inputs
  end.

(** Lines 309-317: a Merge takes every operation that must run as a control
    input and becomes the only operation that must run. *)
Definition absorb_into_merge (op_id : nat) : M PassState unit :=
  let! must := gets ops_which_must_run in
  for_each (elements must) (fun o =>
    _add_control_input op_id o >>
    let! o_op := get_op o in
    for_each (inputs o_op) (fun inp =>
      let! last := gets last_op_using_resource_tensor in
      if bool_decide (is_Some (last !! Some (tensor_id inp)))
      then modify (with_last_op <[ Some (tensor_id inp) := op_id ]>)
      else ret tt)) >>
  modify (with_must_run (fun _ => {[ op_id ]})).

(** Lines 301-304: Ensure stateful ops run. *)
Definition ensure_runs (op_id : nat) (op : Operation) : M PassState unit :=
  let! registered := gets (fun s => _registered_ops (ps_graph s)) in
  if negb (bool_decide (type op ∈ registered)) || op_is_stateful op
  then modify (with_must_run (fun s => s ∪ {[ op_id ]}))
  else ret tt.

(** Line 306: [op.type == "Switch" and op.inputs[0].dtype == resource]. *)
Definition is_resource_switch (op : Operation) : M PassState bool :=
  if bool_decide (type op = "Switch")
  then let! inp0 := index (inputs op) 0 in
       ret (bool_decide (dtype inp0 = resource))
  else ret false.

(** Lines 319-356, for an operation that is neither a resource switch nor a
    Merge. *)
Definition serialize_uses (op_id : nat) (op : Operation) : M PassState unit :=
  let! found := process_inputs op_id op (inputs op) ∅ ∅ in
  let control_inputs := found.1 in
  let resource_inputs := found.2 in
  (if op_is_stateful op && bool_decide (resource_inputs = ∅)
      && bool_decide (_control_flow_context op = None)
   then
     let! last := gets last_op_using_resource_tensor in
     match last !! None with
     | Some prev => _add_control_input op_id prev
     | None => ret tt
     end >>
     modify (with_last_op <[ None := op_id ]>)
   else ret tt) >>
  let! g := gets ps_graph in
  _add_control_inputs op_id (in_context g (_control_flow_context op) control_inputs).

(** The body of [for op in new_operations] (lines 296-356), [op] being the
    operation at [op_id]. *)
Definition process_op_body (op_id : nat) (op : Operation) : M PassState unit :=
  if IsInWhileLoop op then ret tt else
  ensure_runs op_id op >>
  (* Ignore switches (they're handled separately) *)
  let! switch := is_resource_switch op in
  if switch then ret tt else
  (* Make merges trigger all other computation which must run *)
  if bool_decide (type op = "Merge") then absorb_into_merge op_id else
  serialize_uses op_id op.

Definition process_op (op_id : nat) : M PassState unit :=
  let! op := get_op op_id in
  process_op_body op_id op.

(** [get_operations()[n:]], as handles. *)
Definition new_operations (g : Graph) (n : nat) : list nat :=
  seq n (length (g_operations g) - n).

Definition run_pass (ops : list nat) : M PassState unit :=
  for_each ops process_op.

(** ** The region manager *)

(** The object [self]. *)
Record AutomaticControlDependencies : Type := mkACD {
  _returned_tensors : gset TensorId;       (* an ObjectIdentitySet of tensors *)
  self_ops_which_must_run : gset nat;
  _graph : option nat;                     (* unset until a graph-mode [__enter__] *)
  _n_operations : nat
}.

(** What the methods see: the execution mode, the default graph and [self]. *)
Record Scope : Type := mkScope {
  executing_eagerly : bool;
  default_graph : Graph;
  self : AutomaticControlDependencies
}.

Definition __init__ : AutomaticControlDependencies := mkACD ∅ ∅ None 0.

(** Values [mark_as_return] tells apart. *)
Inductive Value : Type :=
  | PlainTensor (t : Tensor)
  | IndexedSlices (values indices : Tensor) (dense_shape : option Tensor)
  | SparseTensor (indices values dense_shape : Tensor)
  | TensorArray (handle flow : Tensor).

(** Modelled from the spec: [array_ops.identity] is not part of this file; it
    creates a new identity operation copying its argument, in the context
    current at creation. *)
Definition new_identity_op (g : Graph) (t : Tensor) : Operation :=
  mkOp "Identity" [t] [dtype t] (g_current_context g) false ∅.

Definition identity (t : Tensor) : M Scope Tensor :=
  fun sc =>
    let g := default_graph sc in
    (mkScope (executing_eagerly sc) (graph_append (new_identity_op g t) g) (self sc),
     Ok (mkTensor (length (g_operations g)) 0 (dtype t))).

Definition returned_add (t : Tensor) : M Scope unit :=
  modify (fun sc =>
    let a := self sc in
    mkScope (executing_eagerly sc) (default_graph sc)
      (mkACD (_returned_tensors a ∪ {[ tensor_id t ]}) (self_ops_which_must_run a)
             (_graph a) (_n_operations a))).

Definition mark_as_return (tensor : Value) : M Scope Value :=
  match tensor with
  | IndexedSlices values indices dense_shape =>
      let! values := identity values in
      let! indices := identity indices in
      returned_add indices >>
      returned_add values >>
      ret (IndexedSlices values indices dense_shape)
  | SparseTensor indices values dense_shape =>
      let! values := identity values in
      let! indices := identity indices in
      returned_add indices >>
      returned_add values >>
      ret (SparseTensor indices values dense_shape)
  | TensorArray handle flow =>
      let! flow := identity flow in
      returned_add flow >>
      ret (TensorArray handle flow)
  | PlainTensor t =>
      let! t := identity t in
      returned_add t >>
      ret (PlainTensor t)
  end.

Definition __enter__ : M Scope unit :=
  fun sc =>
    if executing_eagerly sc then (sc, Ok tt) else
    let g := set_add_control_dependencies (default_graph sc) true in
    let a := self sc in
    (mkScope (executing_eagerly sc) g
       (mkACD (_returned_tensors a) (self_ops_which_must_run a)
              (Some (g_uid g)) (length (g_operations g))),
     Ok tt).

(** Lines 360-364: every returned tensor's producer waits for the operations
    that must run and share its context. *)
Definition anchor_returned (must_run : gset nat) (r : TensorId) : M PassState unit :=
  if bool_decide (must_run = ∅) then ret tt else
  let! r_op := get_op r.1 in
  let! g := gets ps_graph in
  _add_control_inputs r.1 (in_context g (_control_flow_context r_op) must_run).

Definition __exit__ : M Scope unit :=
  fun sc =>
    if executing_eagerly sc then (sc, Ok tt) else
    let a := self sc in
    match _graph a with
    | None => (sc, Raise AttributeError)
    | Some graph =>
      if negb (Nat.eqb graph (g_uid (default_graph sc)))
      then (sc, Raise (RuntimeError
                  "Graph changed while trying to add control dependencies."))
      else
        let g := set_add_control_dependencies (default_graph sc)
                   (match outer_graph_add_control_dependencies (default_graph sc) with
                    | Some outer_val => outer_val
                    | None => false
                    end) in
        let pass :=
          run_pass (new_operations g (_n_operations a)) >>
          (* Ensure all ops which must run do run *)
          gets ops_which_must_run in
        match pass (mkPass g ∅ ∅ ∅) with
        | (s, Raise e) =>
            (mkScope (executing_eagerly sc) (ps_graph s) a, Raise e)
        | (s, Ok must) =>
            let must_run := self_ops_which_must_run a ∪ must in
            let a' := mkACD (_returned_tensors a) must_run (_graph a) (_n_operations a) in
            match for_each (elements (_returned_tensors a)) (anchor_returned must_run) s with
            | (s', r) => (mkScope (executing_eagerly sc) (ps_graph s') a', r)
            end
        end
    end.

(** ** Examples: running the pass *)

Definition var_handle : Tensor := mkTensor 0 0 resource.

Definition plain_op (ty : string) (ins : list Tensor) (outs : list DType)
    (ctx : option ControlFlowContext) (stateful : bool) : Operation :=
  mkOp ty ins outs ctx stateful ∅.

Definition registered_kinds : gset string :=
  list_to_set [ "VarHandleOp"; "AssignVariableOp"; "ReadVariableOp"; "Switch";
                "Merge"; "Identity"; "Const"; "RandomUniform"; "PrintV2";
                "VariableShape" ].

Definition graph_of (ops : list Operation) : Graph :=
  mkGraph 1 ops registered_kinds None false None.

(** [CreateHandle(v), MutateViaHandle(v), ReadViaHandle(v)], no branching. *)
Definition straight_line : Graph :=
  graph_of [ plain_op "VarHandleOp" [] [resource] None true;
             plain_op "AssignVariableOp" [var_handle] [] None true;
             plain_op "ReadVariableOp" [var_handle] [float32] None true ].

Definition control_inputs_of (g : Graph) (i : nat) : list nat :=
  match graph_op g i with
  | Some op => elements (control_inputs op)
  | None => []
  end.

(** ** Relations between states *)

(** A relation between the state before and the state after, whatever the
    outcome. *)
Definition preserves {S A} (R : S -> S -> Prop) (c : M S A) : Prop :=
  forall s s' r, c s = (s', r) -> R s s'.

Definition op_le (a b : Operation) : Prop :=
  type a = type b /\ inputs a = inputs b /\ output_dtypes a = output_dtypes b
  /\ _control_flow_context a = _control_flow_context b
  /\ _is_stateful a = _is_stateful b
  /\ control_inputs a ⊆ control_inputs b.

Definition graph_le (g g' : Graph) : Prop :=
  g_uid g = g_uid g' /\ _registered_ops g = _registered_ops g'
  /\ g_current_context g = g_current_context g'
  /\ _add_control_dependencies g = _add_control_dependencies g'
  /\ outer_graph_add_control_dependencies g = outer_graph_add_control_dependencies g'
  /\ forall i op, graph_op g i = Some op ->
       exists op', graph_op g' i = Some op' /\ op_le op op'.


(** ** Vocabulary of the statements *)

Inductive ValueKind : Type := KPlain | KIndexedSlices | KSparseTensor | KTensorArray.

Definition kind_of (v : Value) : ValueKind :=
  match v with
  | PlainTensor _ => KPlain
  | IndexedSlices _ _ _ => KIndexedSlices
  | SparseTensor _ _ _ => KSparseTensor
  | TensorArray _ _ => KTensorArray
  end.

(** The components [mark_as_return] passes to [identity], in the order of the
    calls. *)
Definition copied_components (v : Value) : list Tensor :=
  match v with
  | PlainTensor t => [t]
  | IndexedSlices values indices _ => [values; indices]
  | SparseTensor indices values _ => [values; indices]
  | TensorArray _ flow => [flow]
  end.

(** The components it hands over as they are. *)
Definition kept_components (v : Value) : list Tensor :=
  match v with
  | PlainTensor _ => []
  | IndexedSlices _ _ dense_shape => option_list dense_shape
  | SparseTensor _ _ dense_shape => [dense_shape]
  | TensorArray handle _ => [handle]
  end.

(** The leaf tensors of a value as the interface describes them: indices,
    values and shape of a sparse value; values, indices and shape of a
    slice value; the sequencing token of an array. *)
Definition leaf_components (v : Value) : list Tensor :=
  match v with
  | PlainTensor t => [t]
  | IndexedSlices values indices dense_shape =>
      values :: indices :: option_list dense_shape
  | SparseTensor indices values dense_shape => [indices; values; dense_shape]
  | TensorArray _ flow => [flow]
  end.

(** The output of the [j]-th identity created from a graph of [n] operations. *)
Definition identity_output (n j : nat) (t : Tensor) : Tensor :=
  mkTensor (n + j) 0 (dtype t).

(** Some operation created after [g] is an identity of [t]. *)
Definition copies_leaf (g g' : Graph) (t : Tensor) : Prop :=
  exists i op, length (g_operations g) <= i /\ graph_op g' i = Some op
    /\ type op = "Identity" /\ inputs op = [t].


(** Every input of every operation names an operation of the graph. *)
Definition inputs_exist (g : Graph) : bool :=
  forallb (fun op =>
    forallb (fun t => Nat.ltb (t_op t) (length (g_operations g))) (inputs op))
    (g_operations g).

(** A sparse value over three constants. *)
Definition sparse_graph : Graph :=
  graph_of [ plain_op "Const" [] [int32] None false;
             plain_op "Const" [] [float32] None false;
             plain_op "Const" [] [int32] None false ].

Definition sparse_value : Value :=
  SparseTensor (mkTensor 0 0 int32) (mkTensor 1 0 float32) (mkTensor 2 0 int32).

Definition sparse_scope (eager : bool) : Scope :=
  mkScope eager sparse_graph (mkACD ∅ ∅ (Some 1) 0).

(** A region entered on graph 7 while graph 1 is the default graph now. *)
Definition changed_scope : Scope :=
  mkScope false straight_line (mkACD ∅ ∅ (Some 7) 0).

(** Across any part of a pass: the graph only gains operations and control
    edges, and the two maps only gain keys. *)
Definition pass_le (s s' : PassState) : Prop :=
  graph_le (ps_graph s) (ps_graph s')
  /\ dom (merge_for_resource s) ⊆ dom (merge_for_resource s')
  /\ dom (last_op_using_resource_tensor s) ⊆ dom (last_op_using_resource_tensor s').


(** The operations that can be given control edges although no resource is
    in sight: a Merge, and a stateful operation outside any context. *)
Definition may_receive (op : Operation) : Prop :=
  type op = "Merge"
  \/ (op_is_stateful op = true /\ _control_flow_context op = None).


(** Two stateful operations without inputs, outside any context. *)
Definition two_prints : Graph :=
  graph_of [ plain_op "PrintV2" [] [] None true;
             plain_op "PrintV2" [] [] None true ].

Definition two_prints_scope : Scope :=
  mkScope false two_prints (mkACD ∅ ∅ (Some 1) 0).

(** [g'] is [g] with more control edges, all of them into the operation
    [op_id]. *)
Definition only_at (op_id : nat) (s s' : PassState) : Prop :=
  length (g_operations (ps_graph s')) = length (g_operations (ps_graph s))
  /\ forall i op, graph_op (ps_graph s) i = Some op ->
       exists op', graph_op (ps_graph s') i = Some op' /\ op_le op op'
         /\ (i <> op_id -> op' = op).

(** The graph is as it was. *)
Definition same_graph (s s' : PassState) : Prop := ps_graph s' = ps_graph s.


(** ** Vocabulary for the absorption by a Merge *)

(** Every handle of the set names an operation of the graph. *)
Definition valid_handles (g : Graph) (X : gset nat) : bool :=
  forallb (fun o => Nat.ltb o (length (g_operations g))) (elements X).

(** [k] is the identity of an input of one of the operations of [must]. *)
Definition input_of_absorbed (g : Graph) (must : gset nat) (k : option TensorId) : Prop :=
  exists o op t, o ∈ must /\ graph_op g o = Some op /\ t ∈ inputs op
    /\ k = Some (tensor_id t).

(** The operations a Merge absorbs: those that must run, the Merge itself
    among them when line 304 has just added it. *)
Definition absorbed (s : PassState) (op_id : nat) (op : Operation) : gset nat :=
  if negb (bool_decide (type op ∈ _registered_ops (ps_graph s))) || op_is_stateful op
  then ops_which_must_run s ∪ {[ op_id ]}
  else ops_which_must_run s.

(** The inner loop of lines 312-315 as one update of the map. *)
Definition repoint (op_id : nat) (ids : list TensorId)
    (last : gmap (option TensorId) nat) : gmap (option TensorId) nat :=
  foldl (fun m id => if bool_decide (is_Some (m !! Some id))
                     then <[ Some id := op_id ]> m else m) last ids.

Definition inputs_of (g : Graph) (o : nat) : list Tensor :=
  match graph_op g o with
  | Some op => inputs op
  | None => []
  end.

Definition all_ids (g : Graph) (os : list nat) : list TensorId :=
  os ≫= (fun o => tensor_id <$> inputs_of g o).

(** The reading of the absorption step under test: the keys whose last user
    becomes the Merge are those whose last user was an absorbed operation. *)
Definition repoints_last_users_of_absorbed (s s' : PassState) (merge : nat)
    (must : gset nat) : Prop :=
  forall k,
    last_op_using_resource_tensor s' !! k = Some merge
    <-> exists o, o ∈ must /\ last_op_using_resource_tensor s !! k = Some o.

(** A write that must run, a later read that need not, and then a Merge. *)
Definition write_read_merge : Graph :=
  graph_of [ plain_op "VarHandleOp" [] [resource] None true;
             plain_op "AssignVariableOp" [var_handle] [] None true;
             plain_op "VariableShape" [var_handle] [int32] None false;
             plain_op "Merge" [mkTensor 2 0 int32] [int32; int32] None false ].

(** The state in which the pass reaches the Merge of [write_read_merge]. *)
Definition before_merge : PassState :=
  (run_pass [1; 2] (mkPass write_read_merge ∅ ∅ ∅)).1.

(** ** Two runs side by side *)

(** Two graphs with the same operations up to a relation [Rop] between the
    operations at the same position; [n0] bounds the positions that existed
    when the comparison started. *)
Definition graph_sim (Rop : nat -> Operation -> Operation -> Prop) (n0 : nat)
    (g1 g2 : Graph) : Prop :=
  g_uid g1 = g_uid g2
  /\ _registered_ops g1 = _registered_ops g2
  /\ g_current_context g1 = g_current_context g2
  /\ _add_control_dependencies g1 = _add_control_dependencies g2
  /\ outer_graph_add_control_dependencies g1 = outer_graph_add_control_dependencies g2
  /\ length (g_operations g1) = length (g_operations g2)
  /\ n0 <= length (g_operations g1)
  /\ forall i a b, graph_op g1 i = Some a -> graph_op g2 i = Some b -> Rop i a b.

(** Two working states that agree, the second having [E] more in the set
    of operations that must run. *)
Definition state_sim (Rop : nat -> Operation -> Operation -> Prop) (n0 : nat)
    (E : gset nat) (s1 s2 : PassState) : Prop :=
  graph_sim Rop n0 (ps_graph s1) (ps_graph s2)
  /\ last_op_using_resource_tensor s1 = last_op_using_resource_tensor s2
  /\ ops_which_must_run s2 = ops_which_must_run s1 ∪ E
  /\ merge_for_resource s1 = merge_for_resource s2.

(** Two computations that keep related states related and end alike. *)
Definition sim {A} (R : PassState -> PassState -> Prop) (c1 c2 : M PassState A) : Prop :=
  forall s1 s2, R s1 s2 -> R (c1 s1).1 (c2 s2).1 /\ (c1 s1).2 = (c2 s2).2.

(** ** Vocabulary for running the pass again *)

Definition switch_at (g : Graph) (i : nat) : bool :=
  match graph_op g i with
  | Some p => bool_decide (type p = "Switch")
  | None => false
  end.

(** No operation consumes a resource tensor produced by a Switch. *)
Definition no_switched_resource (g : Graph) : bool :=
  forallb (fun op =>
    forallb (fun t => negb (bool_decide (dtype t = resource)
                            && switch_at g (t_op t))) (inputs op))
    (g_operations g).

(** The same operations, of the same kinds, with perhaps more control
    edges. *)
Definition same_kinds (s s' : PassState) : Prop :=
  length (g_operations (ps_graph s')) = length (g_operations (ps_graph s))
  /\ forall i, (fun op => (type op, inputs op)) <$> graph_op (ps_graph s') i
              = (fun op => (type op, inputs op)) <$> graph_op (ps_graph s) i.

(** The Prop behind [no_switched_resource]. *)
Definition switch_free (g : Graph) : Prop :=
  forall i op t, graph_op g i = Some op -> t ∈ inputs op ->
    dtype t = resource -> switch_at g (t_op t) = false.

(** [preserves], for the states that satisfy [P]. *)
Definition preserves_if {S A} (P : S -> Prop) (R : S -> S -> Prop) (c : M S A) : Prop :=
  forall s s' r, P s -> c s = (s', r) -> R s s'.

(** The working state a pass starts from. *)
Definition fresh_pass (g : Graph) : PassState := mkPass g ∅ ∅ ∅.

(** Running the pass over the slice of [g] from [n] on, and then once more
    over the same slice, leaves the graph of the first run as it is. *)
Definition rerun_adds_nothing (g : Graph) (n : nat) : Prop :=
  let s1 := (run_pass (new_operations g n) (fresh_pass g)).1 in
  let s2 := (run_pass (new_operations g n) (fresh_pass (ps_graph s1))).1 in
  ps_graph s2 = ps_graph s1.

(** The operation [b] is [a] with the control inputs [D] added. *)
Definition more_edges (D : nat -> gset nat) (i : nat) (a b : Operation) : Prop :=
  type a = type b /\ inputs a = inputs b /\ output_dtypes a = output_dtypes b
  /\ _control_flow_context a = _control_flow_context b
  /\ _is_stateful a = _is_stateful b
  /\ control_inputs b = control_inputs a ∪ D i.

Definition control_inputs_at (g : Graph) (i : nat) : gset nat :=
  match graph_op g i with
  | Some op => control_inputs op
  | None => ∅
  end.

(** A conditional on a variable: the handle goes through the Switch 2, one
    branch writes through output 0 and the other through output 1. *)
Definition branch : ControlFlowContext := Context 1 false None.

Definition cond_graph : Graph :=
  graph_of [ plain_op "VarHandleOp" [] [resource] None true;
             plain_op "Const" [] [int32] None false;
             plain_op "Switch" [var_handle; mkTensor 1 0 int32] [resource; resource]
                      (Some branch) false;
             plain_op "AssignVariableOp" [mkTensor 2 0 resource] [] (Some branch) true;
             plain_op "AssignVariableOp" [mkTensor 2 1 resource] [] (Some branch) true ].

(** ** Vocabulary for the exempt kinds *)

(** Across a part of a pass that absorbs nothing: an operation that must run
    afterwards had to run before, or was created in between. *)
Definition must_only_new (s s' : PassState) : Prop :=
  pass_le s s'
  /\ forall x, x ∈ ops_which_must_run s' ->
       x ∈ ops_which_must_run s \/ length (g_operations (ps_graph s)) <= x.

(** Two operations that differ at most in their kind and stateful flag, and
    are both switches or both not. *)
Definition alike_but_kind (i : nat) (a b : Operation) : Prop :=
  inputs a = inputs b /\ output_dtypes a = output_dtypes b
  /\ _control_flow_context a = _control_flow_context b
  /\ control_inputs a = control_inputs b
  /\ bool_decide (type a = "Switch") = bool_decide (type b = "Switch").

(** A random draw seeded from a variable next to a write of the variable:
    the two graphs differ in the kind of operation 1 only. *)
Definition exempt_graph : Graph :=
  graph_of [ plain_op "VarHandleOp" [] [resource] None true;
             plain_op "RandomUniform" [var_handle] [float32] None true ].

Definition non_exempt_graph : Graph :=
  graph_of [ plain_op "VarHandleOp" [] [resource] None true;
             plain_op "AssignVariableOp" [var_handle] [float32] None true ].

(** The state after lines 301-304 for the operation [op] at [op_id]. *)
Definition ensured (op_id : nat) (op : Operation) (s : PassState) : PassState :=
  if negb (bool_decide (type op ∈ _registered_ops (ps_graph s))) || op_is_stateful op
  then with_must_run (fun m => m ∪ {[ op_id ]}) s
  else s.


(** ** Vocabulary for the switch protocol *)

(** The state [_process_switch] leaves when it resolves the switch [sw]
    (whose record is [opS], in context [c], with first input [input_id]):
    lines 226-241 as one update. *)
Definition resolve (sw : nat) (opS : Operation) (c : ControlFlowContext)
    (input_id : TensorId) (s : PassState) : PassState :=
  let g := ps_graph s in
  let new_merge := length (g_operations g) in
  let g1 := graph_append
              (set_context (outer_context c) (new_merge_op g (outputs sw opS))) g in
  let g2 := match last_op_using_resource_tensor s !! Some input_id with
            | Some prev => graph_add_control_inputs sw {[ prev ]} g1
            | None => g1
            end in
  let g3 := match merge_for_resource s !! input_id with
            | Some m => graph_add_control_inputs m {[ new_merge ]} g2
            | None => g2
            end in
  mkPass g3
         (<[ Some input_id := new_merge ]> (last_op_using_resource_tensor s))
         (ops_which_must_run s ∪ {[ new_merge ]})
         (foldl (fun mf o => <[ tensor_id o := new_merge ]> mf)
                (merge_for_resource s) (outputs sw opS)).

(** [preserves], for the runs that end well. *)
Definition preserves_ok {S A} (R : S -> S -> Prop) (c : M S A) : Prop :=
  forall s s' a, c s = (s', Ok a) -> R s s'.

(** The state after lines 344-347 for the resource input [input_id] of the
    operation [op_id]. *)
Definition use_input (op_id : nat) (input_id : TensorId) (s : PassState) : PassState :=
  mkPass (match merge_for_resource s !! input_id with
          | Some m => graph_add_control_inputs m {[ op_id ]} (ps_graph s)
          | None => ps_graph s
          end)
         (<[ Some input_id := op_id ]> (last_op_using_resource_tensor s))
         (ops_which_must_run s) (merge_for_resource s).

(** Lines 340-343: the candidate control inputs after looking up the last
    user of [input_id]. *)
Definition with_last_user (ctx : option ControlFlowContext) (input_id : TensorId)
    (ci : gset nat) (s : PassState) : gset nat :=
  match last_op_using_resource_tensor s !! Some input_id with
  | Some prev => if same_context (ps_graph s) ctx prev then ci ∪ {[ prev ]} else ci
  | None => ci
  end.

(** The merges synthesized during a pass over a graph that had [n0]
    operations: every entry of [merge_for_resource] leads from an output of
    a switch to the one merge created over its outputs, placed in the outer
    context of the switch; every operation created by the pass is such a
    merge; each of them must run or has been absorbed by a Merge of the
    slice; and the operations that must run exist. *)
Definition merges_ok (n0 : nat) (s : PassState) : Prop :=
  let g := ps_graph s in
  n0 <= length (g_operations g)
  /\ (forall sw k m, merge_for_resource s !! (sw, k) = Some m ->
        exists opS c opM,
          graph_op g sw = Some opS /\ _control_flow_context opS = Some c
          /\ k < length (output_dtypes opS)
          /\ (forall j, j < length (output_dtypes opS) ->
                merge_for_resource s !! (sw, j) = Some m)
          /\ n0 <= m /\ graph_op g m = Some opM /\ type opM = "Merge"
          /\ inputs opM = outputs sw opS
          /\ _control_flow_context opM = outer_context c)
  /\ (forall m opM, n0 <= m -> graph_op g m = Some opM ->
        type opM = "Merge"
        /\ exists sw opS, graph_op g sw = Some opS /\ inputs opM = outputs sw opS
             /\ merge_for_resource s !! (sw, 0) = Some m)
  /\ (forall m, n0 <= m -> m < length (g_operations g) ->
        m ∈ ops_which_must_run s
        \/ exists j opJ, graph_op g j = Some opJ /\ type opJ = "Merge" /\ j < n0
             /\ m ∈ control_inputs opJ)
  /\ (forall x, x ∈ ops_which_must_run s -> x < length (g_operations g)).

Definition merge_kept (s s' : PassState) : Prop :=
  forall key m, merge_for_resource s !! key = Some m ->
    merge_for_resource s' !! key = Some m.

(** From a state with well-formed merges the run reaches a state with
    well-formed merges that has every merge entry of the first. *)
Definition keeps_merges (n0 : nat) (s s' : PassState) : Prop :=
  merges_ok n0 s -> merges_ok n0 s' /\ merge_kept s s'.

(** ** Vocabulary for the consumers of a resource *)

(** An operation the pass handles by lines 319-356: outside any while loop,
    neither a Switch nor a Merge. *)
Definition plain_consumer (op : Operation) : bool :=
  negb (IsInWhileLoop op) && negb (bool_decide (type op = "Switch"))
  && negb (bool_decide (type op = "Merge")).

(** [op] has a resource-typed input whose identity is [id]. *)
Definition uses_resource (op : Operation) (id : TensorId) : bool :=
  existsb (fun t => bool_decide (dtype t = resource) && bool_decide (tensor_id t = id))
          (inputs op).

(** ** Vocabulary for the order of the users of a resource *)

(** [control_chain g b path a]: from [b], taking at each step a control input
    of the operation reached, [path] leads to [a]. *)
Fixpoint control_chain (g : Graph) (b : nat) (path : list nat) (a : nat) : bool :=
  match path with
  | [] => bool_decide (b = a)
  | u :: rest => bool_decide (u ∈ control_inputs_at g b) && control_chain g u rest a
  end.

(** Three users of one handle in one context. *)
Definition three_users : Graph :=
  graph_of [ plain_op "VarHandleOp" [] [resource] None true;
             plain_op "AssignVariableOp" [var_handle] [] None true;
             plain_op "ReadVariableOp" [var_handle] [float32] None true;
             plain_op "AssignVariableOp" [var_handle] [] None true ].

(** No Switch has the tensor [r] as its first input. *)
Definition not_switched (g : Graph) (r : TensorId) : bool :=
  forallb (fun op =>
    negb (bool_decide (type op = "Switch")
          && match inputs op !! 0 with
             | Some inp => bool_decide (tensor_id inp = r)
             | None => false
             end))
    (g_operations g).

(** Strictly between [a] and [b], every operation outside the while loops is
    no Merge and, if it consumes [r], is in the context [ctx]. *)
Definition quiet_between (g : Graph) (r : TensorId) (ctx : option ControlFlowContext)
    (a b : nat) : bool :=
  forallb (fun x =>
    match graph_op g x with
    | Some op =>
        IsInWhileLoop op
        || (negb (bool_decide (type op = "Merge"))
            && (negb (uses_resource op r)
                || ctx_is (_control_flow_context op) ctx))
    | None => true
    end) (seq (S a) (b - S a)).

Definition uses_at (g : Graph) (r : TensorId) (v : nat) : bool :=
  match graph_op g v with
  | Some op => uses_resource op r
  | None => false
  end.

(** The last user on record of [r] is a user [u] of [r] in the context
    [ctx], not before [a] and before [p], from which a chain of control
    edges through users of [r] leads to [a]. *)
Definition chained_to (g0 : Graph) (r : TensorId) (a : nat)
    (ctx : option ControlFlowContext) (p : nat) (s : PassState) : Prop :=
  exists u path,
    last_op_using_resource_tensor s !! Some r = Some u
    /\ a <= u < p /\ uses_at g0 r u = true
    /\ same_context (ps_graph s) ctx u = true
    /\ control_chain (ps_graph s) u path a = true
    /\ Forall (fun v => a <= v < u /\ uses_at g0 r v = true) path.

(** The state after lines 349-356 for the operation [op] at [op_id], whose
    loop over the inputs has found the pair [found]. *)
Definition finish (op_id : nat) (op : Operation)
    (found : gset nat * gset TensorId) (s : PassState) : PassState :=
  let s1 :=
    if op_is_stateful op && bool_decide (found.2 = ∅)
       && bool_decide (_control_flow_context op = None)
    then mkPass (match last_op_using_resource_tensor s !! None with
                 | Some prev => graph_add_control_inputs op_id {[ prev ]} (ps_graph s)
                 | None => ps_graph s
                 end)
                (<[ None := op_id ]> (last_op_using_resource_tensor s))
                (ops_which_must_run s) (merge_for_resource s)
    else s in
  with_graph
    (graph_add_control_inputs op_id
       (in_context (ps_graph s1) (_control_flow_context op) found.1)) s1.

(** ** Vocabulary for the edges of a pass

    The pass runs over the slice [n, length g0) of the graph [g0] and has
    reached the operation [p]. *)

Definition while_at (g : Graph) (v : nat) : bool :=
  match graph_op g v with
  | Some op => IsInWhileLoop op
  | None => true
  end.

(** [v] is an operation of the slice before [p], outside the while loops, or
    an operation the pass has created. *)
Definition tracked (g0 : Graph) (n p : nat) (s : PassState) (v : nat) : Prop :=
  (n <= v < p /\ while_at g0 v = false)
  \/ length (g_operations g0) <= v < length (g_operations (ps_graph s)).

(** An edge the pass may have added: [x] as a control input of the operation
    [opT] at [t].  Its source is tracked; its target is a Switch, an
    operation the pass has created, or an operation of the slice before [p]
    outside the while loops, and then the source comes before the target or
    was created by the pass (a Merge that must run itself absorbs itself). *)
Definition edge_ok (g0 : Graph) (n p : nat) (s : PassState)
    (t : nat) (opT : Operation) (x : nat) : Prop :=
  tracked g0 n p s x
  /\ (type opT = "Switch"
      \/ length (g_operations g0) <= t
      \/ (n <= t < p /\ IsInWhileLoop opT = false
          /\ (x < t \/ length (g_operations g0) <= x
              \/ (x = t /\ type opT = "Merge")))).

(** What the pass keeps true before it processes [p]. *)
Definition region_inv (g0 : Graph) (n p : nat) (s : PassState) : Prop :=
  merges_ok (length (g_operations g0)) s
  /\ graph_le g0 (ps_graph s)
  /\ (forall key v, last_op_using_resource_tensor s !! key = Some v ->
        tracked g0 n p s v)
  /\ (forall x, x ∈ ops_which_must_run s -> tracked g0 n p s x)
  /\ (forall t opT x, graph_op (ps_graph s) t = Some opT -> x ∈ control_inputs opT ->
        x ∈ control_inputs_at g0 t \/ edge_ok g0 n p s t opT x)
  /\ (forall sw k m, merge_for_resource s !! (sw, k) = Some m ->
        switch_at g0 sw = true).

(** While [p] is processed, it is the last user on record only of the
    resources [ri] it has gone through. *)
Definition last_user_of (p : nat) (ri : gset TensorId) (s : PassState) : Prop :=
  forall key, last_op_using_resource_tensor s !! key = Some p ->
    exists id, id ∈ ri /\ key = Some id.

(** ** Vocabulary for the operations that must run *)

(** [o] is kept alive: it is one of the operations that must run, or a chain
    of control edges leads to it from one of them. *)
Definition kept_alive (s : PassState) (o : nat) : Prop :=
  exists m path,
    m ∈ ops_which_must_run s /\ control_chain (ps_graph s) m path o = true.

(** Lines 302-303: the operations the pass forces to run. *)
Definition forced (g : Graph) (op : Operation) : bool :=
  negb (bool_decide (type op ∈ _registered_ops g)) || op_is_stateful op.

(** ** Vocabulary for the passes that end well *)

(** The computation [c] ends well from the state [s]. *)
Definition succeeds {S A} (c : M S A) (s : S) : Prop :=
  exists s' a, c s = (s', Ok a).

(** What the pass needs of the operation [op] at [i]: the producer of each
    of its resource inputs is an operation of the graph; and if it is a
    Switch, it has a first input, an output and a control-flow context, and
    when its first input is a resource produced by a Switch, that Switch was
    created before it. *)
Definition well_formed_at (g : Graph) (i : nat) (op : Operation) : bool :=
  forallb (fun t => negb (bool_decide (dtype t = resource))
                    || Nat.ltb (t_op t) (length (g_operations g)))
          (inputs op)
  && (negb (bool_decide (type op = "Switch"))
      || (match inputs op !! 0 with
          | Some inp =>
              negb (bool_decide (dtype inp = resource))
              || negb (switch_at g (t_op inp))
              || Nat.ltb (t_op inp) i
          | None => false
          end
          && Nat.ltb 0 (length (output_dtypes op))
          && bool_decide (is_Some (_control_flow_context op)))).

Definition well_formed (g : Graph) : bool :=
  forallb (fun i =>
    match graph_op g i with
    | Some op => well_formed_at g i op
    | None => true
    end) (seq 0 (length (g_operations g))).

(** A Switch outside any control-flow context, and a write through it. *)
Definition bare_switch : Graph :=
  graph_of [ plain_op "VarHandleOp" [] [resource] None true;
             plain_op "Const" [] [int32] None false;
             plain_op "Switch" [var_handle; mkTensor 1 0 int32] [resource; resource]
                      None false;
             plain_op "AssignVariableOp" [mkTensor 2 0 resource] [] None true ].

(** The region over the conditional of [cond_graph], entered when the graph
    had its first two operations. *)
Definition cond_scope : Scope :=
  mkScope false cond_graph (mkACD ∅ ∅ (Some 1) 2).

(** ** The decorator [automatic_control_dependencies]

    [wrapper] runs the wrapped function inside a region of a new manager and
    marks each of its results as a return value. *)

(** The [with] statement over a manager.  [__exit__] returns [None], so it
    runs whether the body returns or raises, and an exception of the body is
    raised again unless [__exit__] raises itself. *)
Definition with_manager {A} (body : M Scope A) : M Scope A :=
  fun sc =>
    match __enter__ sc with
    | (sc1, Raise e) => (sc1, Raise e)
    | (sc1, Ok _) =>
        match body sc1 with
        | (sc2, out) =>
            match __exit__ sc2 with
            | (sc3, Raise e) => (sc3, Raise e)
            | (sc3, Ok _) => (sc3, out)
            end
        end
    end.

(** The call of [f] on the arguments of [wrapper]: the wrapped function works on the default
    graph and returns its results or raises.  Its result is taken to be a
    flat list of values, which [nest.flatten] and [nest.pack_sequence_as]
    hand over as it is. *)
Definition call (f : M Graph (list Value)) : M Scope (list Value) :=
  fun sc =>
    match f (default_graph sc) with
    | (g, out) => (mkScope (executing_eagerly sc) g (self sc), out)
    end.

(** [[a.mark_as_return(t) for t in nest.flatten(result)]]. *)
Fixpoint mark_all (result : list Value) : M Scope (list Value) :=
  match result with
  | [] => ret []
  | t :: rest =>
      let! t' := mark_as_return t in
      let! rest' := mark_all rest in
      ret (t' :: rest')
  end.

(** Lines 381-385, in the execution mode [eager] and on the default graph
    given. *)
Definition wrapper (f : M Graph (list Value)) (eager : bool)
    : M Graph (list Value) :=
  fun g =>
    match with_manager (let! result := call f in mark_all result)
                       (mkScope eager g __init__) with
    | (sc, out) => (default_graph sc, out)
    end.

(** A function that writes to the variable of the graph and returns a
    constant it creates. *)
Definition write_and_return : M Graph (list Value) :=
  fun g =>
    (graph_append (plain_op "Const" [] [int32] None false)
       (graph_append (plain_op "AssignVariableOp" [var_handle] [] None true) g),
     Ok [PlainTensor (mkTensor (S (length (g_operations g))) 0 int32)]).

Definition one_variable : Graph :=
  graph_of [ plain_op "VarHandleOp" [] [resource] None true ].

(** A conditional nested in another: the Switch 3 of the inner conditional
    takes the handle from the Switch 2 of the outer one. *)
Definition inner_branch : ControlFlowContext := Context 2 false (Some branch).

Definition nested_cond : Graph :=
  graph_of [ plain_op "VarHandleOp" [] [resource] None true;
             plain_op "Const" [] [int32] None false;
             plain_op "Switch" [var_handle; mkTensor 1 0 int32] [resource; resource]
                      (Some branch) false;
             plain_op "Switch" [mkTensor 2 0 resource; mkTensor 1 0 int32]
                      [resource; resource] (Some inner_branch) false;
             plain_op "AssignVariableOp" [mkTensor 3 0 resource] []
                      (Some inner_branch) true ].

(** ** Vocabulary for the stateful operations without resources *)

(** Lines 349-351: a stateful operation, not of an exempt kind, that has no
    resource input and lies outside any control-flow context. *)
Definition legacy_stateful (op : Operation) : bool :=
  op_is_stateful op
  && forallb (fun t => negb (bool_decide (dtype t = resource))) (inputs op)
  && bool_decide (_control_flow_context op = None).

(** ** Vocabulary for the contexts of the edges *)

(** What the pass keeps true of the contexts: an operation that is neither a
    Switch nor a Merge has received control inputs only from operations of
    its own control-flow context, and the last stateful operation without
    resources on record lies outside any context. *)
Definition ctx_inv (g0 : Graph) (s : PassState) : Prop :=
  (forall t opT x, graph_op (ps_graph s) t = Some opT ->
     type opT <> "Switch" -> type opT <> "Merge" -> x ∈ control_inputs opT ->
     x ∈ control_inputs_at g0 t
     \/ same_context (ps_graph s) (_control_flow_context opT) x = true)
  /\ (forall v, last_op_using_resource_tensor s !! None = Some v ->
        same_context (ps_graph s) None v = true).

(** ** Vocabulary for the users after a conditional *)

(** Every Switch that has [r] as its first input has its merge. *)
Definition settled (r : TensorId) (s : PassState) : Prop :=
  forall sw opS inp,
    graph_op (ps_graph s) sw = Some opS -> type opS = "Switch" ->
    inputs opS !! 0 = Some inp -> tensor_id inp = r ->
    is_Some (merge_for_resource s !! (sw, 0)).

(** [sw] is the only Switch of the graph that has [r] as its first input. *)
Definition only_switch (g : Graph) (r : TensorId) (sw : nat) : bool :=
  forallb (fun i =>
    match graph_op g i with
    | Some op =>
        negb (bool_decide (type op = "Switch")
              && match inputs op !! 0 with
                 | Some inp => bool_decide (tensor_id inp = r)
                 | None => false
                 end)
        || Nat.eqb i sw
    | None => true
    end) (seq 0 (length (g_operations g))).

(** The Switch [sw] over [r] has no merge yet, or its merge is the last user
    of [r]. *)
Definition merge_is_last_user (sw : nat) (r : TensorId) (s : PassState) : Prop :=
  merge_for_resource s !! (sw, 0) = None
  \/ exists m, merge_for_resource s !! (sw, 0) = Some m
       /\ last_op_using_resource_tensor s !! Some r = Some m.

(** A write in a branch of a conditional, then a read after the
    conditional. *)
Definition cond_then_read : Graph :=
  graph_of [ plain_op "VarHandleOp" [] [resource] None true;
             plain_op "Const" [] [int32] None false;
             plain_op "Switch" [var_handle; mkTensor 1 0 int32] [resource; resource]
                      (Some branch) false;
             plain_op "AssignVariableOp" [mkTensor 2 0 resource] [] (Some branch) true;
             plain_op "ReadVariableOp" [var_handle] [float32] None true ].

(** A Switch whose first input is a resource: line 306 skips it. *)
Definition skipped_switch (op : Operation) : bool :=
  bool_decide (type op = "Switch")
  && match inputs op !! 0 with
     | Some inp => bool_decide (dtype inp = resource)
     | None => false
     end.

(** The operation at [x] is in a while loop, is a Switch that line 306
    skips, or is no Merge and does not consume [r]. *)
Definition quiet_at (g : Graph) (r : TensorId) (x : nat) : bool :=
  match graph_op g x with
  | Some op =>
      IsInWhileLoop op || skipped_switch op
      || (negb (bool_decide (type op = "Merge")) && negb (uses_resource op r))
  | None => true
  end.
(** ** Reasoning about the monad *)

Lemma bind_inv {S A B} (c : M S A) (k : A -> M S B) s s' r :
  bind c k s = (s', r) ->
  (exists s1 a, c s = (s1, Ok a) /\ k a s1 = (s', r))
  \/ (exists e, c s = (s', Raise e) /\ r = Raise e).
Proof.
  unfold bind. destruct (c s) as [s1 [a|e]]; intros H.
  - left. eauto.
  - right. inversion H; subst. eauto.
Qed.

Lemma bind_ok_inv {S A B} (c : M S A) (k : A -> M S B) s s' b :
  bind c k s = (s', Ok b) ->
  exists s1 a, c s = (s1, Ok a) /\ k a s1 = (s', Ok b).
Proof.
  intros H. apply bind_inv in H as [H | (e & _ & H)]; [done | discriminate].
Qed.

Section Preserves.
Context {S : Type} (R : S -> S -> Prop) `{!PreOrder R}.

Lemma preserves_ret {A} (a : A) : preserves R (ret a).
Proof. intros s s' r [= <- <-]. reflexivity. Qed.

Lemma preserves_raise {A} e : preserves R (@raise S A e).
Proof. intros s s' r [= <- <-]. reflexivity. Qed.

Lemma preserves_gets {A} (f : S -> A) : preserves R (gets f).
Proof. intros s s' r [= <- <-]. reflexivity. Qed.

Lemma preserves_index {A} (l : list A) i : preserves R (index l i).
Proof.
  unfold index. destruct (l !! i); [apply preserves_ret | apply preserves_raise].
Qed.

Lemma preserves_modify (f : S -> S) :
  (forall s, R s (f s)) -> preserves R (modify f).
Proof. intros Hf s s' r [= <- <-]. apply Hf. Qed.

Lemma preserves_bind {A B} (c : M S A) (k : A -> M S B) :
  preserves R c -> (forall a, preserves R (k a)) -> preserves R (bind c k).
Proof.
  intros Hc Hk s s' r H.
  apply bind_inv in H as [(s1 & a & H1 & H2) | (e & H1 & _)].
  - etransitivity; [eapply Hc | eapply Hk]; eauto.
  - eapply Hc; eauto.
Qed.

Lemma preserves_for_each {A} (l : list A) (body : A -> M S unit) :
  (forall x, x ∈ l -> preserves R (body x)) -> preserves R (for_each l body).
Proof.
  induction l as [|x l IH]; intros Hb; simpl.
  - apply preserves_ret.
  - apply preserves_bind.
    + apply Hb. left.
    + intros _. apply IH. intros y Hy. apply Hb. by right.
Qed.
End Preserves.

Global Instance op_le_preorder : PreOrder op_le.
Proof.
  split.
  - intros a. unfold op_le. set_solver.
  - intros a b c (?&?&?&?&?&?) (?&?&?&?&?&?). unfold op_le.
    repeat split; try congruence. set_solver.
Qed.

Global Instance graph_le_preorder : PreOrder graph_le.
Proof.
  split.
  - intros g. unfold graph_le. repeat split; try done.
    intros i op H. exists op. split; [done | reflexivity].
  - intros a b c (?&?&?&?&?&Hab) (?&?&?&?&?&Hbc). unfold graph_le.
    repeat split; try congruence.
    intros i op Hi. destruct (Hab i op Hi) as (op' & H' & Hle).
    destruct (Hbc i op' H') as (op'' & H'' & Hle').
    exists op''. split; [done | by etransitivity].
Qed.

Lemma graph_le_length g g' :
  graph_le g g' -> length (g_operations g) <= length (g_operations g').
Proof.
  intros (_&_&_&_&_&H).
  destruct (decide (length (g_operations g) = 0)) as [->|Hn]; [lia|].
  destruct (lookup_lt_is_Some_2 (g_operations g) (length (g_operations g) - 1))
    as [op Hop]; [lia|].
  destruct (H _ _ Hop) as (op' & Hop' & _).
  apply lookup_lt_Some in Hop'. lia.
Qed.

Lemma add_control_le X op : op_le op (add_control X op).
Proof. unfold op_le, add_control; simpl. set_solver. Qed.

Lemma graph_add_control_inputs_le t X g :
  graph_le g (graph_add_control_inputs t X g).
Proof.
  unfold graph_le, graph_add_control_inputs, graph_op; simpl.
  repeat split; try done.
  intros i op H. destruct (decide (i = t)) as [->|Hne].
  - exists (add_control X op). rewrite list_lookup_alter_eq, H. simpl.
    split; [done | apply add_control_le].
  - exists op. rewrite list_lookup_alter_ne by done. split; [done | reflexivity].
Qed.

Lemma graph_append_le op g : graph_le g (graph_append op g).
Proof.
  unfold graph_le, graph_append, graph_op; simpl. repeat split; try done.
  intros i o H. exists o. split; [|reflexivity].
  by apply lookup_app_l_Some.
Qed.

(** Creating an operation and then giving it a context leaves the
    operations that existed before as they were. *)
Lemma graph_append_set_context_le op c g :
  graph_le g (set_operations (graph_append op g)
    (alter (set_context c) (length (g_operations g))
       (g_operations (graph_append op g)))).
Proof.
  unfold graph_le, graph_append, graph_op; simpl. repeat split; try done.
  intros i o H. exists o. split; [|reflexivity].
  pose proof (lookup_lt_Some _ _ _ H).
  rewrite list_lookup_alter_ne by lia. by apply lookup_app_l_Some.
Qed.

(** ** [mark_as_return] *)

Lemma mark_as_return_spec (v : Value) (sc : Scope) :
  let g := default_graph sc in
  let n := length (g_operations g) in
  exists sc' v',
    mark_as_return v sc = (sc', Ok v')
    /\ executing_eagerly sc' = executing_eagerly sc
    /\ default_graph sc' =
         set_operations g (g_operations g ++ map (new_identity_op g) (copied_components v))
    /\ _returned_tensors (self sc') =
         _returned_tensors (self sc)
         ∪ list_to_set (imap (fun j t => tensor_id (identity_output n j t))
                             (copied_components v))
    /\ self_ops_which_must_run (self sc') = self_ops_which_must_run (self sc)
    /\ _graph (self sc') = _graph (self sc)
    /\ _n_operations (self sc') = _n_operations (self sc)
    /\ kind_of v' = kind_of v
    /\ copied_components v' = imap (identity_output n) (copied_components v)
    /\ kept_components v' = kept_components v.
Proof.
  destruct sc as [eager g a]. destruct v; simpl;
    (eexists _, _; split; [reflexivity|]; simpl;
     unfold graph_append, set_operations, identity_output; simpl;
     rewrite ?length_app, <- ?app_assoc, ?Nat.add_0_r; simpl;
     repeat split; try done; rewrite ?union_empty_r_L, ?Nat.add_0_r; try done).
  all: apply set_eq; intros x; rewrite !elem_of_union, !elem_of_singleton; tauto.
Qed.

(** ** A pass only adds *)

Global Instance pass_le_preorder : PreOrder pass_le.
Proof.
  split.
  - intros s. unfold pass_le. split; [reflexivity | split; reflexivity].
  - intros a b c (?&?&?) (?&?&?). unfold pass_le.
    split; [by etransitivity | split; by etransitivity].
Qed.

Lemma get_op_inv i s s' r :
  get_op i s = (s', r) ->
  s' = s /\ (forall op, r = Ok op -> graph_op (ps_graph s) i = Some op)
  /\ (forall e, r = Raise e -> graph_op (ps_graph s) i = None).
Proof.
  unfold get_op. destruct (graph_op (ps_graph s) i) eqn:E; intros [= <- <-];
    repeat split; congruence.
Qed.

Lemma preserves_get_op i : preserves pass_le (get_op i).
Proof. intros s s' r H. apply get_op_inv in H as [-> _]. reflexivity. Qed.

Lemma preserves_add_control_inputs t X : preserves pass_le (_add_control_inputs t X).
Proof.
  apply preserves_modify. intros s. unfold pass_le; simpl.
  split; [apply graph_add_control_inputs_le | done].
Qed.

Lemma preserves_add_control_input t x : preserves pass_le (_add_control_input t x).
Proof. apply preserves_add_control_inputs. Qed.

Lemma preserves_with_must_run f : preserves pass_le (modify (with_must_run f)).
Proof.
  apply preserves_modify. intros s. unfold pass_le; simpl.
  split; [reflexivity | done].
Qed.

Lemma preserves_insert_last k v :
  preserves pass_le (modify (with_last_op <[ k := v ]>)).
Proof.
  apply preserves_modify. intros s. unfold pass_le; simpl.
  split; [reflexivity|]. split; [done|]. rewrite dom_insert_L. set_solver.
Qed.

Lemma preserves_insert_merge k v :
  preserves pass_le (modify (with_merge_for <[ k := v ]>)).
Proof.
  apply preserves_modify. intros s. unfold pass_le; simpl.
  split; [reflexivity|]. split; [|done]. rewrite dom_insert_L. set_solver.
Qed.

(** The creation of the merge and the assignment of its context, taken
    together. *)
Lemma preserves_new_merge ins (ctx : option ControlFlowContext)
    (k : nat -> M PassState unit) :
  (forall m, preserves pass_le (k m)) ->
  preserves pass_le
    (let! new_merge := merge ins in
     let! outer := match ctx with
                   | Some c => ret (outer_context c)
                   | None => raise AttributeError
                   end in
     set_control_flow_context new_merge outer >> k new_merge).
Proof.
  intros Hk s s' r. unfold bind at 1. unfold merge.
  destruct ctx as [c|]; simpl.
  - intros H. etransitivity; [|eapply Hk, H].
    unfold pass_le; simpl. split; [|done].
    apply (graph_append_set_context_le (new_merge_op (ps_graph s) ins)
             (outer_context c) (ps_graph s)).
  - unfold bind, raise. intros [= <- <-]. unfold pass_le; simpl. split; [apply graph_append_le | done].
Qed.

Ltac preserves_step :=
  first
    [ apply (preserves_ret pass_le) | apply (preserves_raise pass_le)
    | apply (preserves_gets pass_le)
    | apply (preserves_index pass_le) | apply preserves_get_op
    | apply preserves_add_control_input | apply preserves_add_control_inputs
    | apply preserves_with_must_run | apply preserves_insert_last
    | apply preserves_insert_merge
    | apply preserves_new_merge; intros
    | apply (preserves_bind pass_le); [|intros]
    | apply (preserves_for_each pass_le); intros
    | match goal with
      | |- preserves _ (if ?b then _ else _) => destruct b
      | |- preserves _ (match ?x with _ => _ end) => destruct x
      end ].

Lemma preserves_process_switch fuel sw : preserves pass_le (_process_switch fuel sw).
Proof.
  revert sw. induction fuel as [|fuel IH]; intros sw; simpl.
  - preserves_step.
  - repeat first [ apply IH | preserves_step ].
Qed.

Lemma preserves_call_process_switch sw : preserves pass_le (call_process_switch sw).
Proof. intros s s' r H. eapply preserves_process_switch, H. Qed.

Lemma preserves_process_inputs op_id op ins ci ri :
  preserves pass_le (process_inputs op_id op ins ci ri).
Proof.
  revert ci ri. induction ins as [|inp ins IH]; intros ci ri; simpl.
  - preserves_step.
  - repeat first [ apply IH | apply preserves_call_process_switch | preserves_step ].
Qed.

Lemma preserves_absorb_into_merge op_id : preserves pass_le (absorb_into_merge op_id).
Proof. unfold absorb_into_merge. repeat preserves_step. Qed.

Lemma preserves_process_op op_id : preserves pass_le (process_op op_id).
Proof.
  unfold process_op, process_op_body, ensure_runs, is_resource_switch, serialize_uses.
  repeat first [ apply preserves_process_inputs | apply preserves_absorb_into_merge
               | preserves_step ].
Qed.

Lemma preserves_run_pass ops : preserves pass_le (run_pass ops).
Proof. apply (preserves_for_each pass_le). intros. apply preserves_process_op. Qed.

Lemma preserves_anchor_returned must r : preserves pass_le (anchor_returned must r).
Proof. unfold anchor_returned. repeat preserves_step. Qed.

(** ** Anchoring the returned tensors *)

Lemma anchor_returned_inv must r s s' :
  anchor_returned must r s = (s', Ok tt) ->
  (must = ∅ /\ s' = s)
  \/ (must <> ∅ /\ exists r_op,
        graph_op (ps_graph s) r.1 = Some r_op
        /\ s' = with_graph (graph_add_control_inputs r.1
                  (in_context (ps_graph s) (_control_flow_context r_op) must)) s).
Proof.
  unfold anchor_returned. case_bool_decide as Hm.
  - intros [= <-]. by left.
  - intros H. right. split; [done|].
    apply bind_ok_inv in H as (s1 & r_op & H1 & H2).
    apply get_op_inv in H1 as (-> & H1 & _). specialize (H1 _ eq_refl).
    exists r_op. split; [done|]. cbn in H2. by injection H2 as <-.
Qed.

Lemma anchor_returned_length must r s s' out :
  anchor_returned must r s = (s', out) ->
  length (g_operations (ps_graph s')) = length (g_operations (ps_graph s)).
Proof.
  unfold anchor_returned. case_bool_decide as Hm.
  - by intros [= <- <-].
  - intros H. apply bind_inv in H as [(s1 & r_op & H1 & H2) | (e & H1 & _)].
    + apply get_op_inv in H1 as (-> & _). cbn in H2. injection H2 as <- <-.
      simpl. apply length_alter.
    + by apply get_op_inv in H1 as (-> & _).
Qed.

Lemma for_each_anchor_length must l s s' out :
  for_each l (anchor_returned must) s = (s', out) ->
  length (g_operations (ps_graph s')) = length (g_operations (ps_graph s)).
Proof.
  revert s. induction l as [|x l IH]; intros s; simpl.
  - by intros [= <- <-].
  - intros H. apply bind_inv in H as [(s1 & [] & H1 & H2) | (e & H1 & _)].
    + apply IH in H2. apply anchor_returned_length in H1. congruence.
    + by apply anchor_returned_length in H1.
Qed.

Lemma op_le_lookup g g' i op' :
  graph_le g g' -> graph_op g' i = Some op' ->
  i < length (g_operations g) ->
  exists op, graph_op g i = Some op /\ op_le op op'.
Proof.
  intros (_&_&_&_&_&H) Hop' Hlt.
  destruct (lookup_lt_is_Some_2 (g_operations g) i Hlt) as [op Hop].
  destruct (H i op Hop) as (op'' & Hop'' & Hle).
  exists op. split; [done|]. congruence.
Qed.

Lemma for_each_anchor_edges must l s s' r o opO opR :
  for_each l (anchor_returned must) s = (s', Ok tt) ->
  r ∈ l -> o ∈ must ->
  graph_op (ps_graph s') o = Some opO ->
  graph_op (ps_graph s') r.1 = Some opR ->
  ctx_is (_control_flow_context opO) (_control_flow_context opR) = true ->
  o ∈ control_inputs opR.
Proof.
  revert s. induction l as [|x l IH]; intros s H Hr Ho HO HR Hctx.
  - by apply elem_of_nil in Hr.
  - simpl in H. apply bind_ok_inv in H as (s1 & [] & H1 & H2).
    apply elem_of_cons in Hr as [->|Hr]; [|by eapply IH].
    pose proof (preserves_for_each pass_le _ _
                  (fun y _ => preserves_anchor_returned must y) _ _ _ H2) as (Hle & _).
    pose proof (for_each_anchor_length _ _ _ _ _ H2) as Hlen.
    apply anchor_returned_inv in H1 as [[-> _] | (_ & r_op & Hrop & ->)];
      [by apply not_elem_of_empty in Ho|].
    destruct (op_le_lookup _ _ _ _ Hle HR) as (opR1 & HR1 & HleR).
    { rewrite <- Hlen. by eapply lookup_lt_Some. }
    destruct (op_le_lookup _ _ _ _ Hle HO) as (opO1 & HO1 & HleO).
    { rewrite <- Hlen. by eapply lookup_lt_Some. }
    simpl in HR1, HO1.
    destruct HleR as (_&_&_&HctxR&_&Hsub). apply Hsub.
    destruct HleO as (_&_&_&HctxO&_&_).
    unfold graph_add_control_inputs, graph_op in HR1, HO1; simpl in HR1, HO1.
    rewrite list_lookup_alter_eq in HR1. unfold graph_op in Hrop.
    rewrite Hrop in HR1. simpl in HR1. injection HR1 as <-. simpl.
    apply elem_of_union_r. unfold in_context. apply elem_of_filter. split; [|done].
    unfold same_context, graph_op.
    destruct (decide (o = x.1)) as [->|Hne].
    + rewrite list_lookup_alter_eq, Hrop in HO1. simpl in HO1.
      injection HO1 as <-. rewrite Hrop. simpl in HctxO, HctxR.
      by rewrite <- HctxO, <- HctxR in Hctx.
    + rewrite list_lookup_alter_ne in HO1 by done. rewrite HO1.
      simpl in HctxR. by rewrite <- HctxO, <- HctxR in Hctx.
Qed.

Lemma exit_ok_inv sc sc' :
  executing_eagerly sc = false ->
  __exit__ sc = (sc', Ok tt) ->
  let a := self sc in
  let g := set_add_control_dependencies (default_graph sc)
             (match outer_graph_add_control_dependencies (default_graph sc) with
              | Some outer_val => outer_val
              | None => false
              end) in
  exists s s',
    _graph a = Some (g_uid (default_graph sc))
    /\ run_pass (new_operations g (_n_operations a)) (mkPass g ∅ ∅ ∅) = (s, Ok tt)
    /\ for_each (elements (_returned_tensors a))
         (anchor_returned (self_ops_which_must_run a ∪ ops_which_must_run s)) s
       = (s', Ok tt)
    /\ sc' = mkScope false (ps_graph s')
               (mkACD (_returned_tensors a)
                      (self_ops_which_must_run a ∪ ops_which_must_run s)
                      (_graph a) (_n_operations a)).
Proof.
  intros Heager. unfold __exit__. rewrite Heager.
  destruct (_graph (self sc)) as [gid|]; [|discriminate].
  destruct (Nat.eqb_spec gid (g_uid (default_graph sc))) as [->|]; [|discriminate].
  simpl. unfold bind at 1.
  destruct (run_pass _ _) as [s [[]|e]] eqn:Hpass; [|discriminate].
  cbn. destruct (for_each _ _ s) as [s' out] eqn:Hanchor.
  intros [= <- ->]. exists s, s'. done.
Qed.

(** ** Operations without resource inputs *)

Global Instance only_at_preorder op_id : PreOrder (only_at op_id).
Proof.
  split.
  - intros s. split; [done|]. intros i op H. exists op. by split; [|split].
  - intros a b c [Hl1 H1] [Hl2 H2]. split; [congruence|].
    intros i op H. destruct (H1 _ _ H) as (op' & H' & Hle & Hne).
    destruct (H2 _ _ H') as (op'' & H'' & Hle' & Hne').
    exists op''. split; [done|]. split; [by etransitivity|].
    intros Hi. rewrite Hne', Hne; done.
Qed.






Lemma process_inputs_no_resource op_id op ins ci ri s :
  Forall (fun t => dtype t <> resource) ins ->
  process_inputs op_id op ins ci ri s = (s, Ok (ci, ri)).
Proof.
  induction 1 as [|t ins Ht _ IH]; simpl; [done|].
  by rewrite bool_decide_eq_false_2.
Qed.

Lemma add_control_empty op : add_control ∅ op = op.
Proof. destruct op. unfold add_control; simpl. by rewrite union_empty_r_L. Qed.



Lemma graph_add_control_inputs_empty t g : graph_add_control_inputs t ∅ g = g.
Proof.
  destruct g as [u ops reg cur flag outer].
  unfold graph_add_control_inputs, set_operations; simpl. f_equal.
  apply list_eq. intros i. destruct (decide (i = t)) as [->|Hne].
  - rewrite list_lookup_alter_eq. destruct (ops !! t); simpl; [|done].
    by rewrite add_control_empty.
  - by rewrite list_lookup_alter_ne.
Qed.


Global Instance same_graph_preorder : PreOrder same_graph.
Proof.
  split; [by intros s|]. intros a b c Hab Hbc. unfold same_graph in *. congruence.
Qed.

Lemma same_graph_ensure_runs op_id op : preserves same_graph (ensure_runs op_id op).
Proof.
  unfold ensure_runs. apply (preserves_bind same_graph).
  - apply (preserves_gets same_graph).
  - intros reg. destruct (_ || _).
    + apply (preserves_modify same_graph). by intros s.
    + apply (preserves_ret same_graph).
Qed.

Lemma same_graph_is_resource_switch op : preserves same_graph (is_resource_switch op).
Proof.
  unfold is_resource_switch. destruct (bool_decide _).
  - apply (preserves_bind same_graph); [apply (preserves_index same_graph)|].
    intros. apply (preserves_ret same_graph).
  - apply (preserves_ret same_graph).
Qed.




Lemma may_receive_op_le a b : op_le a b -> may_receive a -> may_receive b.
Proof.
  intros (Ht&_&_&Hc&Hs&_). unfold may_receive, op_is_stateful.
  by rewrite Ht, Hc, Hs.
Qed.








Lemma anchor_returned_cases must r s s' out :
  anchor_returned must r s = (s', out) ->
  s' = s \/ exists X, X ⊆ must /\ s' = with_graph (graph_add_control_inputs r.1 X) s.
Proof.
  unfold anchor_returned. case_bool_decide as Hm; [intros [= <- <-]; by left|].
  intros H. apply bind_inv in H as [(s1 & r_op & H1 & H) | (e & H1 & _)];
    apply get_op_inv in H1 as (-> & _); [|by left].
  cbn in H. injection H as <- <-. right. eexists. split; [|done].
  unfold in_context. intros x [_ ?]%elem_of_filter. done.
Qed.

Lemma for_each_anchor_sub must l s s' out :
  for_each l (anchor_returned must) s = (s', out) ->
  forall i op, graph_op (ps_graph s) i = Some op ->
    exists op', graph_op (ps_graph s') i = Some op' /\ op_le op op'
      /\ forall x, x ∈ control_inputs op' ->
           x ∈ control_inputs op \/ (x ∈ must /\ exists r, r ∈ l /\ r.1 = i).
Proof.
  revert s. induction l as [|y l IH]; intros s H i op Hop.
  - injection H as <- <-. exists op. split; [done|]. split; [reflexivity|]. by left.
  - assert (forall s1 out1, anchor_returned must y s = (s1, out1) ->
        exists op1, graph_op (ps_graph s1) i = Some op1 /\ op_le op op1
          /\ forall x, x ∈ control_inputs op1 ->
               x ∈ control_inputs op \/ (x ∈ must /\ y.1 = i)) as Hstep.
    { intros s1 out1 H1.
      apply anchor_returned_cases in H1 as [-> | (X & HX & ->)].
      - exists op. split; [done|]. split; [reflexivity|]. by left.
      - unfold graph_op in *; simpl. destruct (decide (i = y.1)) as [->|Hne].
        + rewrite list_lookup_alter_eq, Hop. simpl. eexists. split; [done|].
          split; [apply add_control_le|]. simpl. intros x [?|?]%elem_of_union;
            [by left | right; split; [by apply HX | done]].
        + rewrite list_lookup_alter_ne by done. exists op.
          split; [done|]. split; [reflexivity|]. by left. }
    simpl in H. apply bind_inv in H as [(s1 & [] & H1 & H) | (e & H1 & _)].
    + destruct (Hstep _ _ H1) as (op1 & Hop1 & Hle1 & Hx1).
      destruct (IH _ H _ _ Hop1) as (op' & Hop' & Hle' & Hx').
      exists op'. split; [done|]. split; [by etransitivity|].
      intros x Hx. destruct (Hx' _ Hx) as [Hx2 | (Hm & r & Hr & Hri)].
      * destruct (Hx1 _ Hx2) as [?|[? ?]]; [by left|].
        right. split; [done|]. exists y. split; [left | done].
      * right. split; [done|]. exists r. split; [by right | done].
    + destruct (Hstep _ _ H1) as (op1 & Hop1 & Hle1 & Hx1).
      exists op1. split; [done|]. split; [done|].
      intros x Hx. destruct (Hx1 _ Hx) as [?|[? ?]]; [by left|].
      right. split; [done|]. exists y. split; [left | done].
Qed.

(** ** A Merge absorbs what must run *)

Lemma repoint_cons op_id id ids last :
  repoint op_id (id :: ids) last
  = repoint op_id ids (if bool_decide (is_Some (last !! Some id))
                       then <[ Some id := op_id ]> last else last).
Proof. reflexivity. Qed.

Lemma repoint_is_Some op_id ids last k :
  is_Some (repoint op_id ids last !! k) <-> is_Some (last !! k).
Proof.
  revert last. induction ids as [|id ids IH]; intros last; [done|].
  rewrite repoint_cons, IH. case_bool_decide as Hs; [|done].
  destruct (decide (k = Some id)) as [->|Hne].
  - rewrite lookup_insert_eq. split; [done | by eauto].
  - by rewrite lookup_insert_ne.
Qed.

Lemma repoint_lookup_None op_id ids last k :
  last !! k = None -> repoint op_id ids last !! k = None.
Proof.
  intros H. apply eq_None_not_Some. rewrite repoint_is_Some.
  by apply eq_None_not_Some.
Qed.

Lemma repoint_lookup_out op_id ids last k :
  k ∉ (Some <$> ids) -> repoint op_id ids last !! k = last !! k.
Proof.
  revert last. induction ids as [|id ids IH]; intros last Hk; [done|].
  rewrite fmap_cons, not_elem_of_cons in Hk. destruct Hk as [Hne Hk].
  rewrite repoint_cons, IH by done.
  case_bool_decide; [|done]. by rewrite lookup_insert_ne.
Qed.

Lemma repoint_lookup_in op_id ids last k :
  k ∈ (Some <$> ids) -> is_Some (last !! k) ->
  repoint op_id ids last !! k = Some op_id.
Proof.
  revert last. induction ids as [|id ids IH]; intros last Hk Hs.
  { by apply elem_of_nil in Hk. }
  rewrite fmap_cons in Hk. rewrite repoint_cons.
  destruct (decide (k ∈ Some <$> ids)) as [Hin|Hout].
  - apply IH; [done|]. case_bool_decide; [|done].
    destruct (decide (k = Some id)) as [->|Hne].
    + rewrite lookup_insert_eq. by eauto.
    + by rewrite lookup_insert_ne.
  - apply elem_of_cons in Hk as [->|Hk]; [|done].
    rewrite repoint_lookup_out by done.
    rewrite bool_decide_eq_true_2 by done. by rewrite lookup_insert_eq.
Qed.

Lemma repoint_app op_id ids1 ids2 last :
  repoint op_id (ids1 ++ ids2) last = repoint op_id ids2 (repoint op_id ids1 last).
Proof. unfold repoint. by rewrite foldl_app. Qed.

Lemma for_each_repoint op_id ins s :
  for_each ins (fun inp =>
      let! last := gets last_op_using_resource_tensor in
      if bool_decide (is_Some (last !! Some (tensor_id inp)))
      then modify (with_last_op <[ Some (tensor_id inp) := op_id ]>)
      else ret tt) s
  = (mkPass (ps_graph s)
            (repoint op_id (tensor_id <$> ins) (last_op_using_resource_tensor s))
            (ops_which_must_run s) (merge_for_resource s), Ok tt).
Proof.
  revert s. induction ins as [|inp ins IH]; intros s.
  - by destruct s.
  - rewrite fmap_cons, repoint_cons. simpl for_each. unfold bind at 1.
    cbn [bind gets].
    destruct (bool_decide (is_Some (last_op_using_resource_tensor s !! Some (tensor_id inp))));
      cbn [modify ret]; by rewrite IH.
Qed.

Lemma inputs_of_add_control t X g o :
  inputs_of (graph_add_control_inputs t X g) o = inputs_of g o.
Proof.
  unfold inputs_of, graph_add_control_inputs, graph_op; simpl.
  destruct (decide (o = t)) as [->|Hne].
  - rewrite list_lookup_alter_eq. by destruct (g_operations g !! t).
  - by rewrite list_lookup_alter_ne.
Qed.

Lemma all_ids_add_control t X g os :
  all_ids (graph_add_control_inputs t X g) os = all_ids g os.
Proof.
  unfold all_ids. induction os as [|o os IH]; [done|].
  rewrite !bind_cons, IH. by rewrite inputs_of_add_control.
Qed.

Lemma all_ids_cons g o os :
  all_ids g (o :: os) = (tensor_id <$> inputs_of g o) ++ all_ids g os.
Proof. reflexivity. Qed.

Lemma graph_add_control_inputs_twice t X Y g :
  graph_add_control_inputs t Y (graph_add_control_inputs t X g)
  = graph_add_control_inputs t (X ∪ Y) g.
Proof.
  destruct g as [u ops reg cur flag outer].
  unfold graph_add_control_inputs, set_operations; simpl. f_equal.
  apply list_eq. intros i. destruct (decide (i = t)) as [->|Hne].
  - rewrite !list_lookup_alter_eq. destruct (ops !! t) as [op|]; simpl; [|done].
    f_equal. destruct op. unfold add_control; simpl. f_equal.
    by rewrite (assoc_L (∪)).
  - by rewrite !list_lookup_alter_ne.
Qed.

Lemma graph_add_control_inputs_length t X g :
  length (g_operations (graph_add_control_inputs t X g)) = length (g_operations g).
Proof. simpl. apply length_alter. Qed.

Lemma for_each_absorb op_id os s :
  Forall (fun o => o < length (g_operations (ps_graph s))) os ->
  for_each os (fun o =>
    _add_control_input op_id o >>
    let! o_op := get_op o in
    for_each (inputs o_op) (fun inp =>
      let! last := gets last_op_using_resource_tensor in
      if bool_decide (is_Some (last !! Some (tensor_id inp)))
      then modify (with_last_op <[ Some (tensor_id inp) := op_id ]>)
      else ret tt)) s
  = (mkPass (graph_add_control_inputs op_id (list_to_set os) (ps_graph s))
            (repoint op_id (all_ids (ps_graph s) os) (last_op_using_resource_tensor s))
            (ops_which_must_run s) (merge_for_resource s), Ok tt).
Proof.
  revert s. induction os as [|o os IH]; intros s Hv.
  - simpl. rewrite graph_add_control_inputs_empty. by destruct s.
  - apply Forall_cons in Hv as [Ho Hv]. simpl for_each.
    unfold bind at 1. unfold bind at 1.
    cbn [_add_control_input _add_control_inputs modify].
    set (s1 := with_graph (graph_add_control_inputs op_id {[o]}) s).
    assert (Ho1 : o < length (g_operations (ps_graph s1))).
    { subst s1. simpl ps_graph. by rewrite graph_add_control_inputs_length. }
    destruct (lookup_lt_is_Some_2 _ _ Ho1) as [o_op Hop].
    unfold bind at 1, get_op. unfold graph_op at 1. rewrite Hop.
    rewrite for_each_repoint. rewrite IH.
    2:{ eapply Forall_impl; [exact Hv|]. intros x Hx. subst s1.
        cbn [ps_graph with_graph]. by rewrite graph_add_control_inputs_length. }
    f_equal. subst s1.
    cbn [ps_graph with_graph last_op_using_resource_tensor ops_which_must_run
         merge_for_resource] in *.
    rewrite graph_add_control_inputs_twice, all_ids_add_control.
    rewrite all_ids_cons, repoint_app.
    replace (inputs_of (ps_graph s) o) with (inputs o_op); [done|].
    rewrite <- (inputs_of_add_control op_id {[o]}).
    unfold inputs_of, graph_op. by rewrite Hop.
Qed.

Lemma elem_of_all_ids g os k :
  k ∈ (Some <$> all_ids g os)
  <-> exists o op t, o ∈ os /\ graph_op g o = Some op /\ t ∈ inputs op
        /\ k = Some (tensor_id t).
Proof.
  unfold all_ids. rewrite list_elem_of_fmap. split.
  - intros (id & -> & Hid). apply list_elem_of_bind in Hid as (o & Hid & Ho).
    apply list_elem_of_fmap in Hid as (t & -> & Ht).
    unfold inputs_of in Ht. destruct (graph_op g o) as [op|] eqn:E.
    + exists o, op, t. done.
    + by apply elem_of_nil in Ht.
  - intros (o & op & t & Ho & Hop & Ht & ->). exists (tensor_id t). split; [done|].
    apply list_elem_of_bind. exists o. split; [|done].
    apply list_elem_of_fmap. exists t. split; [done|].
    unfold inputs_of. by rewrite Hop.
Qed.

Lemma absorb_into_merge_spec op_id s :
  Forall (fun o => o < length (g_operations (ps_graph s)))
         (elements (ops_which_must_run s)) ->
  absorb_into_merge op_id s
  = (mkPass (graph_add_control_inputs op_id (ops_which_must_run s) (ps_graph s))
            (repoint op_id (all_ids (ps_graph s) (elements (ops_which_must_run s)))
                     (last_op_using_resource_tensor s))
            {[ op_id ]} (merge_for_resource s), Ok tt).
Proof.
  intros HF. unfold absorb_into_merge. unfold bind at 1. cbn [gets].
  unfold bind at 1. rewrite for_each_absorb by done.
  cbn [modify with_must_run ps_graph last_op_using_resource_tensor
       ops_which_must_run merge_for_resource].
  by rewrite list_to_set_elements_L.
Qed.

Lemma process_op_merge s op_id op :
  graph_op (ps_graph s) op_id = Some op ->
  IsInWhileLoop op = false ->
  type op = "Merge" ->
  valid_handles (ps_graph s) (ops_which_must_run s) = true ->
  process_op op_id s
  = (mkPass (graph_add_control_inputs op_id (absorbed s op_id op) (ps_graph s))
            (repoint op_id (all_ids (ps_graph s) (elements (absorbed s op_id op)))
                     (last_op_using_resource_tensor s))
            {[ op_id ]} (merge_for_resource s), Ok tt).
Proof.
  intros Hop Hw Hty Hv.
  assert (Forall (fun o => o < length (g_operations (ps_graph s)))
            (elements (absorbed s op_id op))) as HF.
  { apply Forall_forall. intros o Ho. apply elem_of_elements in Ho.
    unfold absorbed in Ho.
    assert (o ∈ ops_which_must_run s -> o < length (g_operations (ps_graph s))) as Hm.
    { intros Hin. unfold valid_handles in Hv. rewrite forallb_forall in Hv.
      apply Nat.ltb_lt, Hv, list_elem_of_In. by apply elem_of_elements. }
    destruct (_ || _); [|by apply Hm].
    apply elem_of_union in Ho as [Ho|Ho]; [by apply Hm|].
    apply elem_of_singleton in Ho as ->. by eapply lookup_lt_Some. }
  unfold process_op, bind at 1, get_op. rewrite Hop.
  unfold process_op_body. rewrite Hw.
  unfold bind at 1, ensure_runs. cbn [bind gets].
  unfold absorbed in *.
  set (c := negb (bool_decide (type op ∈ _registered_ops (ps_graph s)))
            || op_is_stateful op) in *.
  unfold is_resource_switch. rewrite Hty.
  rewrite (bool_decide_eq_false_2 ("Merge" = "Switch")) by done.
  rewrite (bool_decide_eq_true_2 ("Merge" = "Merge")) by done.
  destruct c; cbn [modify ret bind]; by rewrite absorb_into_merge_spec.
Qed.

(** ** Two runs side by side *)

Lemma sim_ret {A} R (a : A) : sim R (ret a) (ret a).
Proof. by intros s1 s2 H. Qed.

Lemma sim_raise {A} R e : sim R (@raise PassState A e) (raise e).
Proof. by intros s1 s2 H. Qed.

Lemma sim_bind {A B} R (c1 c2 : M PassState A) (k1 k2 : A -> M PassState B) :
  sim R c1 c2 -> (forall a, sim R (k1 a) (k2 a)) -> sim R (bind c1 k1) (bind c2 k2).
Proof.
  intros Hc Hk s1 s2 H. unfold bind. destruct (Hc _ _ H) as [HR Hout].
  destruct (c1 s1) as [s1' [a1|e1]], (c2 s2) as [s2' [a2|e2]]; simpl in *;
    try discriminate.
  - injection Hout as ->. by apply Hk.
  - simpl. injection Hout as ->. by split.
Qed.

Lemma sim_index {A} R (l : list A) i : sim R (index l i) (index l i).
Proof. unfold index. destruct (l !! i); [apply sim_ret | apply sim_raise]. Qed.

Lemma sim_for_each {A} R (l : list A) (b1 b2 : A -> M PassState unit) :
  (forall x, sim R (b1 x) (b2 x)) -> sim R (for_each l b1) (for_each l b2).
Proof.
  intros Hb. induction l as [|x l IH]; simpl.
  - apply sim_ret.
  - apply sim_bind; [apply Hb | intros _; apply IH].
Qed.

Section Simulation.
Variable Rop : nat -> Operation -> Operation -> Prop.
Variable n0 : nat.
Variable E : gset nat.
Hypothesis Rop_inputs : forall i a b, Rop i a b -> inputs a = inputs b.
Hypothesis Rop_outputs : forall i a b, Rop i a b -> output_dtypes a = output_dtypes b.
Hypothesis Rop_context : forall i a b, Rop i a b ->
  _control_flow_context a = _control_flow_context b.
Hypothesis Rop_switch : forall i a b, Rop i a b ->
  bool_decide (type a = "Switch") = bool_decide (type b = "Switch").
Hypothesis Rop_add : forall i a b X, Rop i a b ->
  Rop i (add_control X a) (add_control X b).
Hypothesis Rop_set_context : forall i a b c, Rop i a b ->
  Rop i (set_context c a) (set_context c b).
Hypothesis Rop_new : forall i op, n0 <= i -> Rop i op op.

Local Abbreviation R := (state_sim Rop n0 E).

Lemma sim_get_op {B} i (k1 k2 : Operation -> M PassState B) :
  (forall a b, Rop i a b -> sim R (k1 a) (k2 b)) ->
  sim R (bind (get_op i) k1) (bind (get_op i) k2).
Proof.
  intros Hk s1 s2 H. unfold bind, get_op, graph_op.
  pose proof H as ((_&_&_&_&_&Hlen&_&Hops)&_).
  destruct (g_operations (ps_graph s1) !! i) as [a|] eqn:E1,
           (g_operations (ps_graph s2) !! i) as [b|] eqn:E2.
  - apply Hk; [|done]. by eapply Hops.
  - apply lookup_lt_Some in E1. apply lookup_ge_None in E2. lia.
  - apply lookup_lt_Some in E2. apply lookup_ge_None in E1. lia.
  - done.
Qed.

Lemma sim_gets_last {B} (k1 k2 : gmap (option TensorId) nat -> M PassState B) :
  (forall m, sim R (k1 m) (k2 m)) ->
  sim R (bind (gets last_op_using_resource_tensor) k1)
        (bind (gets last_op_using_resource_tensor) k2).
Proof.
  intros Hk s1 s2 H. unfold bind, gets. pose proof H as (_&<-&_). by apply Hk.
Qed.

Lemma sim_gets_merges {B} (k1 k2 : gmap TensorId nat -> M PassState B) :
  (forall m, sim R (k1 m) (k2 m)) ->
  sim R (bind (gets merge_for_resource) k1) (bind (gets merge_for_resource) k2).
Proof.
  intros Hk s1 s2 H. unfold bind, gets. pose proof H as (_&_&_&<-). by apply Hk.
Qed.

Lemma sim_add_control_inputs t X :
  sim R (_add_control_inputs t X) (_add_control_inputs t X).
Proof.
  intros s1 s2 ((?&?&?&?&?&Hlen&Hn&Hops)&?&?&?). simpl. split; [|done].
  split; [|done]. unfold graph_sim, graph_op; simpl.
  rewrite !length_alter. repeat split; try done.
  intros i a b. destruct (decide (i = t)) as [->|Hne].
  - rewrite !list_lookup_alter_eq.
    destruct (g_operations (ps_graph s1) !! t) as [a0|] eqn:E1; [|done].
    destruct (g_operations (ps_graph s2) !! t) as [b0|] eqn:E2; [|done].
    simpl. intros [= <-] [= <-]. apply Rop_add. by eapply Hops.
  - rewrite !list_lookup_alter_ne by done. apply Hops.
Qed.

Lemma sim_add_control_input t x :
  sim R (_add_control_input t x) (_add_control_input t x).
Proof. apply sim_add_control_inputs. Qed.

Lemma sim_insert_last k v :
  sim R (modify (with_last_op <[ k := v ]>)) (modify (with_last_op <[ k := v ]>)).
Proof.
  intros s1 s2 (?&Hl&?&?). split; [|done]. unfold state_sim; simpl.
  rewrite Hl. done.
Qed.

Lemma sim_insert_merge k v :
  sim R (modify (with_merge_for <[ k := v ]>)) (modify (with_merge_for <[ k := v ]>)).
Proof.
  intros s1 s2 (?&?&?&Hmf). split; [|done]. unfold state_sim; simpl.
  rewrite Hmf. done.
Qed.

Lemma sim_must_add x :
  sim R (modify (with_must_run (fun s => s ∪ {[ x ]})))
        (modify (with_must_run (fun s => s ∪ {[ x ]}))).
Proof.
  intros s1 s2 (?&?&Hm&?). split; [|done]. unfold state_sim; simpl.
  split; [done|]. split; [done|]. split; [|done]. rewrite Hm.
  apply set_eq. intros y. rewrite !elem_of_union. tauto.
Qed.

Lemma sim_merge {B} ins (k1 k2 : nat -> M PassState B) :
  (forall m, sim R (k1 m) (k2 m)) ->
  sim R (bind (merge ins) k1) (bind (merge ins) k2).
Proof.
  intros Hk s1 s2 H. unfold bind, merge.
  pose proof H as ((Hu&Hr&Hc&Hf&Ho&Hlen&Hn&Hops)&Hl&Hm&Hmf).
  rewrite <- Hlen. apply Hk. split; [|done].
  unfold graph_sim, graph_op; simpl. rewrite !length_app; simpl.
  repeat split; try done; try lia.
  intros i a b Ha Hb. unfold new_merge_op in *. rewrite Hc in Ha.
  apply lookup_app_Some in Ha as [Ha|[Hge Ha]].
  - rewrite lookup_app_l in Hb by (rewrite <- Hlen; by eapply lookup_lt_Some).
    by eapply Hops.
  - rewrite lookup_app_r in Hb by lia. rewrite <- Hlen in Hb.
    rewrite Ha in Hb. injection Hb as <-. apply Rop_new. lia.
Qed.

Lemma sim_set_control_flow_context i c :
  sim R (set_control_flow_context i c) (set_control_flow_context i c).
Proof.
  intros s1 s2 ((?&?&?&?&?&Hlen&Hn&Hops)&?&?&?). simpl. split; [|done].
  split; [|done]. unfold graph_sim, graph_op; simpl.
  rewrite !length_alter. repeat split; try done.
  intros j a b. destruct (decide (j = i)) as [->|Hne].
  - rewrite !list_lookup_alter_eq.
    destruct (g_operations (ps_graph s1) !! i) as [a0|] eqn:E1; [|done].
    destruct (g_operations (ps_graph s2) !! i) as [b0|] eqn:E2; [|done].
    simpl. intros [= <-] [= <-]. apply Rop_set_context. by eapply Hops.
  - rewrite !list_lookup_alter_ne by done. apply Hops.
Qed.

Lemma outputs_sim i a b : Rop i a b -> outputs i a = outputs i b.
Proof. intros H. unfold outputs. by rewrite (Rop_outputs _ _ _ H). Qed.

Lemma sim_process_switch fuel sw :
  sim R (_process_switch fuel sw) (_process_switch fuel sw).
Proof.
  revert sw. induction fuel as [|fuel IH]; intros sw; simpl.
  - apply sim_raise.
  - apply sim_get_op. intros a b Hab.
    rewrite (Rop_inputs _ _ _ Hab), (outputs_sim _ _ _ Hab), (Rop_context _ _ _ Hab).
    apply sim_bind; [apply sim_index|]. intros inp.
    apply sim_bind.
    { destruct (bool_decide (dtype inp = resource)); [|apply sim_ret].
      apply sim_get_op. intros p q Hpq. rewrite (Rop_switch _ _ _ Hpq).
      destruct (bool_decide (type q = "Switch")); [apply IH | apply sim_ret]. }
    intros _. apply sim_bind; [apply sim_index|]. intros output.
    apply sim_gets_merges. intros merges.
    destruct (bool_decide _); [apply sim_ret|].
    apply sim_merge. intros new_merge.
    apply sim_bind.
    { destruct (_control_flow_context b); [apply sim_ret | apply sim_raise]. }
    intros outer. apply sim_bind; [apply sim_set_control_flow_context|]. intros _.
    apply sim_bind; [apply sim_must_add|]. intros _.
    apply sim_gets_last. intros last.
    apply sim_bind.
    { destruct (last !! _); [apply sim_add_control_input | apply sim_ret]. }
    intros _. apply sim_bind; [apply sim_insert_last|]. intros _.
    apply sim_gets_merges. intros merges'.
    apply sim_bind.
    { destruct (merges' !! _); [apply sim_add_control_input | apply sim_ret]. }
    intros _. apply sim_for_each. intros o. apply sim_insert_merge.
Qed.

Lemma sim_call_process_switch sw :
  sim R (call_process_switch sw) (call_process_switch sw).
Proof.
  intros s1 s2 H. unfold call_process_switch.
  pose proof H as ((_&_&_&_&_&Hlen&_)&_). rewrite <- Hlen.
  by apply sim_process_switch.
Qed.

Lemma sim_process_inputs op_id op1 op2 ins ci ri :
  _control_flow_context op1 = _control_flow_context op2 ->
  sim R (process_inputs op_id op1 ins ci ri) (process_inputs op_id op2 ins ci ri).
Proof.
  intros Hctx. revert ci ri. induction ins as [|inp ins IH]; intros ci ri; simpl.
  - apply sim_ret.
  - destruct (negb _); [apply IH|].
    destruct (bool_decide (tensor_id inp ∈ ri)); [apply IH|].
    apply sim_get_op. intros p q Hpq. rewrite (Rop_switch _ _ _ Hpq).
    apply sim_bind.
    { destruct (bool_decide (type q = "Switch"));
        [apply sim_call_process_switch | apply sim_ret]. }
    intros _. apply sim_gets_last. intros last.
    apply sim_bind.
    { destruct (last !! _) as [prev|]; [|apply sim_ret].
      apply sim_get_op. intros u v Huv.
      rewrite (Rop_context _ _ _ Huv), Hctx.
      destruct (ctx_is _ _); apply sim_ret. }
    intros ci'. apply sim_gets_merges. intros merges.
    apply sim_bind.
    { destruct (merges !! _); [apply sim_add_control_input | apply sim_ret]. }
    intros _. apply sim_bind; [apply sim_insert_last|]. intros _. apply IH.
Qed.

Lemma in_context_sim s1 s2 ctx X :
  R s1 s2 -> in_context (ps_graph s1) ctx X = in_context (ps_graph s2) ctx X.
Proof.
  intros ((_&_&_&_&_&Hlen&_&Hops)&_). unfold in_context.
  apply set_eq. intros x. rewrite !elem_of_filter.
  assert (same_context (ps_graph s1) ctx x = same_context (ps_graph s2) ctx x) as ->;
    [|done].
  unfold same_context, graph_op.
  destruct (g_operations (ps_graph s1) !! x) as [a|] eqn:E1,
           (g_operations (ps_graph s2) !! x) as [b|] eqn:E2.
  - by rewrite (Rop_context x a b (Hops _ _ _ E1 E2)).
  - apply lookup_lt_Some in E1. apply lookup_ge_None in E2. lia.
  - apply lookup_lt_Some in E2. apply lookup_ge_None in E1. lia.
  - done.
Qed.

Lemma sim_add_in_context op_id ctx X :
  sim R (let! g := gets ps_graph in _add_control_inputs op_id (in_context g ctx X))
        (let! g := gets ps_graph in _add_control_inputs op_id (in_context g ctx X)).
Proof.
  intros s1 s2 H. unfold bind, gets. rewrite (in_context_sim _ _ _ _ H).
  by apply sim_add_control_inputs.
Qed.

Section SameKinds.
Hypothesis Rop_type : forall i a b, Rop i a b -> type a = type b.
Hypothesis Rop_stateful : forall i a b, Rop i a b -> _is_stateful a = _is_stateful b.
Hypothesis E_empty : E = ∅.

Lemma sim_gets_must {B} (k1 k2 : gset nat -> M PassState B) :
  (forall m, sim R (k1 m) (k2 m)) ->
  sim R (bind (gets ops_which_must_run) k1) (bind (gets ops_which_must_run) k2).
Proof.
  intros Hk s1 s2 H. unfold bind, gets. pose proof H as (_&_&Hm&_).
  rewrite E_empty, union_empty_r_L in Hm. rewrite Hm. by apply Hk.
Qed.

Lemma sim_must_reset x :
  sim R (modify (with_must_run (fun _ => {[ x ]})))
        (modify (with_must_run (fun _ => {[ x ]}))).
Proof.
  intros s1 s2 (?&?&Hm&?). split; [|done]. unfold state_sim; simpl.
  split; [done|]. split; [done|]. split; [|done].
  by rewrite E_empty, union_empty_r_L.
Qed.

Lemma sim_absorb_into_merge op_id :
  sim R (absorb_into_merge op_id) (absorb_into_merge op_id).
Proof.
  unfold absorb_into_merge. apply sim_gets_must. intros must.
  apply sim_bind; [|intros _; apply sim_must_reset].
  apply sim_for_each. intros o.
  apply sim_bind; [apply sim_add_control_input|]. intros _.
  apply sim_get_op. intros a b Hab. rewrite (Rop_inputs _ _ _ Hab).
  apply sim_for_each. intros inp. apply sim_gets_last. intros last.
  destruct (bool_decide _); [apply sim_insert_last | apply sim_ret].
Qed.

Lemma op_is_stateful_sim i a b : Rop i a b -> op_is_stateful a = op_is_stateful b.
Proof.
  intros H. unfold op_is_stateful.
  by rewrite (Rop_type _ _ _ H), (Rop_stateful _ _ _ H).
Qed.

Lemma IsInWhileLoop_sim i a b : Rop i a b -> IsInWhileLoop a = IsInWhileLoop b.
Proof. intros H. unfold IsInWhileLoop. by rewrite (Rop_context _ _ _ H). Qed.

Lemma sim_ensure_runs op_id a b :
  Rop op_id a b -> sim R (ensure_runs op_id a) (ensure_runs op_id b).
Proof.
  intros Hab s1 s2 H. unfold ensure_runs, bind, gets.
  pose proof H as ((_&Hreg&_)&_). rewrite Hreg.
  rewrite (Rop_type _ _ _ Hab), (op_is_stateful_sim _ _ _ Hab).
  destruct (_ || _); [by apply sim_must_add | by apply sim_ret].
Qed.

Lemma sim_serialize_uses op_id a b :
  Rop op_id a b -> sim R (serialize_uses op_id a) (serialize_uses op_id b).
Proof.
  intros Hab. unfold serialize_uses.
  rewrite (Rop_inputs _ _ _ Hab), (op_is_stateful_sim _ _ _ Hab),
    (Rop_context _ _ _ Hab).
  apply sim_bind; [apply sim_process_inputs; by eapply Rop_context|].
  intros found.
  apply sim_bind; [|intros _; apply sim_add_in_context].
  destruct (_ && _); [|apply sim_ret].
  apply sim_gets_last. intros last.
  apply sim_bind; [|intros _; apply sim_insert_last].
  destruct (last !! None); [apply sim_add_control_input | apply sim_ret].
Qed.

Lemma sim_process_op_body op_id a b :
  Rop op_id a b -> sim R (process_op_body op_id a) (process_op_body op_id b).
Proof.
  intros Hab. unfold process_op_body.
  rewrite (IsInWhileLoop_sim _ _ _ Hab).
  destruct (IsInWhileLoop b); [apply sim_ret|].
  apply sim_bind; [by apply sim_ensure_runs|]. intros _.
  unfold is_resource_switch.
  rewrite (Rop_type _ _ _ Hab), (Rop_inputs _ _ _ Hab).
  apply sim_bind.
  { destruct (bool_decide (type b = "Switch")); [|apply sim_ret].
    apply sim_bind; [apply sim_index|]. intros inp0. apply sim_ret. }
  intros [|]; [apply sim_ret|].
  destruct (bool_decide (type b = "Merge"));
    [apply sim_absorb_into_merge | by apply sim_serialize_uses].
Qed.

Lemma sim_process_op op_id : sim R (process_op op_id) (process_op op_id).
Proof. apply sim_get_op. intros a b Hab. by apply sim_process_op_body. Qed.

Lemma sim_run_pass ops : sim R (run_pass ops) (run_pass ops).
Proof. apply sim_for_each. intros x. apply sim_process_op. Qed.

End SameKinds.

End Simulation.

(** ** Running the pass again *)

Lemma preserves_if_weaken {S A} (P : S -> Prop) R (c : M S A) :
  preserves R c -> preserves_if P R c.
Proof. intros H s s' r _. apply H. Qed.

Lemma preserves_if_bind {S A B} (P : S -> Prop) (R : S -> S -> Prop) `{!PreOrder R}
    (c : M S A) (k : A -> M S B) :
  (forall s s', P s -> R s s' -> P s') ->
  preserves_if P R c -> (forall a, preserves_if P R (k a)) ->
  preserves_if P R (bind c k).
Proof.
  intros HP Hc Hk s s' r Hs H.
  apply bind_inv in H as [(s1 & a & H1 & H2) | (e & H1 & _)].
  - pose proof (Hc _ _ _ Hs H1) as HR. etransitivity; [exact HR|].
    eapply Hk; [|exact H2]. by eapply HP.
  - by eapply Hc.
Qed.

Global Instance same_kinds_preorder : PreOrder same_kinds.
Proof.
  split.
  - by intros s.
  - intros a b c [Hl1 H1] [Hl2 H2]. split; [congruence|].
    intros i. by rewrite H2, H1.
Qed.

Lemma same_kinds_add_control_inputs t X :
  preserves same_kinds (_add_control_inputs t X).
Proof.
  apply preserves_modify. intros s. split.
  - simpl. apply length_alter.
  - intros i. simpl. unfold graph_op; simpl.
    destruct (decide (i = t)) as [->|Hne].
    + rewrite list_lookup_alter_eq. by destruct (g_operations (ps_graph s) !! t).
    + by rewrite list_lookup_alter_ne.
Qed.

Lemma same_kinds_locals (f : PassState -> PassState) :
  (forall s, ps_graph (f s) = ps_graph s) -> preserves same_kinds (modify f).
Proof.
  intros Hf. apply preserves_modify. intros s. unfold same_kinds. by rewrite Hf.
Qed.

Lemma same_kinds_get_op i : preserves same_kinds (get_op i).
Proof. intros s s' r H. apply get_op_inv in H as [-> _]. reflexivity. Qed.

Ltac same_kinds_step :=
  first
    [ apply (preserves_ret same_kinds) | apply (preserves_raise same_kinds)
    | apply (preserves_gets same_kinds)
    | apply (preserves_index same_kinds) | apply same_kinds_get_op
    | apply same_kinds_add_control_inputs
    | apply same_kinds_locals; intros; reflexivity
    | apply (preserves_bind same_kinds); [|intros]
    | apply (preserves_for_each same_kinds); intros
    | match goal with
      | |- preserves _ (if ?b then _ else _) => destruct b
      | |- preserves _ (match ?x with _ => _ end) => destruct x
      end ].

Lemma same_kinds_absorb_into_merge op_id :
  preserves same_kinds (absorb_into_merge op_id).
Proof. unfold absorb_into_merge. repeat same_kinds_step. Qed.

Lemma switch_at_same_kinds s s' i :
  same_kinds s s' -> switch_at (ps_graph s') i = switch_at (ps_graph s) i.
Proof.
  intros [_ H]. specialize (H i). unfold switch_at.
  destruct (graph_op (ps_graph s') i), (graph_op (ps_graph s) i);
    simpl in H; try done. by injection H as -> _.
Qed.

Lemma switch_free_same_kinds s s' :
  same_kinds s s' -> switch_free (ps_graph s) -> switch_free (ps_graph s').
Proof.
  intros Hk Hf i op' t Hop' Ht Hd. rewrite (switch_at_same_kinds _ _ _ Hk).
  destruct Hk as [_ Hk]. specialize (Hk i). rewrite Hop' in Hk.
  destruct (graph_op (ps_graph s) i) as [op|] eqn:Hop; [|done].
  simpl in Hk. injection Hk as _ Hin. rewrite Hin in Ht. by eapply Hf.
Qed.

Lemma process_inputs_same_kinds op_id op ins ci ri :
  preserves_if
    (fun s => Forall (fun t => dtype t = resource ->
                        switch_at (ps_graph s) (t_op t) = false) ins)
    same_kinds (process_inputs op_id op ins ci ri).
Proof.
  revert ci ri. induction ins as [|inp ins IH]; intros ci ri; simpl.
  - apply preserves_if_weaken, (preserves_ret same_kinds).
  - intros s s' r HP H. apply Forall_cons in HP as [Hinp HP].
    case_bool_decide as Hd; simpl in H; [|by eapply IH].
    case_bool_decide as Hdup; [by eapply IH|].
    apply bind_inv in H as [(s1 & p & H1 & H) | (e & H1 & _)];
      apply get_op_inv in H1 as (-> & Hp & _); [|reflexivity].
    specialize (Hp _ eq_refl). specialize (Hinp Hd).
    unfold switch_at in Hinp. rewrite Hp in Hinp. rewrite Hinp in H.
    assert (forall s s', Forall (fun t => dtype t = resource ->
                          switch_at (ps_graph s) (t_op t) = false) ins ->
              same_kinds s s' ->
              Forall (fun t => dtype t = resource ->
                          switch_at (ps_graph s') (t_op t) = false) ins) as Hst.
    { intros s0 s0' HF Hk. eapply Forall_impl; [exact HF|]. simpl.
      intros t Ht Hdt. rewrite (switch_at_same_kinds _ _ _ Hk). by apply Ht. }
    match type of H with
    | ?c s = _ =>
        assert (preserves_if
          (fun s => Forall (fun t => dtype t = resource ->
                              switch_at (ps_graph s) (t_op t) = false) ins)
          same_kinds c) as Hrest
    end.
    { repeat first
        [ apply IH
        | apply (preserves_if_bind _ same_kinds); [exact Hst | | intros]
        | apply preserves_if_weaken; repeat same_kinds_step ]. }
    exact (Hrest _ _ _ HP H).
Qed.

Lemma process_op_body_same_kinds op_id op :
  preserves_if
    (fun s => Forall (fun t => dtype t = resource ->
                        switch_at (ps_graph s) (t_op t) = false) (inputs op))
    same_kinds (process_op_body op_id op).
Proof.
  assert (forall s s', Forall (fun t => dtype t = resource ->
                        switch_at (ps_graph s) (t_op t) = false) (inputs op) ->
            same_kinds s s' ->
            Forall (fun t => dtype t = resource ->
                        switch_at (ps_graph s') (t_op t) = false) (inputs op)) as Hst.
  { intros s0 s0' HF Hk. eapply Forall_impl; [exact HF|]. simpl.
    intros t Ht Hdt. rewrite (switch_at_same_kinds _ _ _ Hk). by apply Ht. }
  unfold process_op_body, ensure_runs, is_resource_switch, serialize_uses.
  destruct (IsInWhileLoop op);
    [apply preserves_if_weaken, (preserves_ret same_kinds)|].
  apply (preserves_if_bind _ same_kinds); [exact Hst | |intros _].
  { apply preserves_if_weaken. repeat same_kinds_step. }
  apply (preserves_if_bind _ same_kinds); [exact Hst | |intros sw].
  { apply preserves_if_weaken. repeat same_kinds_step. }
  destruct sw; [apply preserves_if_weaken, (preserves_ret same_kinds)|].
  destruct (bool_decide (type op = "Merge"));
    [apply preserves_if_weaken, same_kinds_absorb_into_merge|].
  apply (preserves_if_bind _ same_kinds);
    [exact Hst | apply process_inputs_same_kinds | intros found].
  apply preserves_if_weaken. repeat same_kinds_step.
Qed.

Lemma process_op_same_kinds op_id :
  preserves_if (fun s => switch_free (ps_graph s)) same_kinds (process_op op_id).
Proof.
  intros s s' r HP H. unfold process_op in H.
  apply bind_inv in H as [(s1 & op & H1 & H) | (e & H1 & _)];
    apply get_op_inv in H1 as (-> & Hop & _); [|reflexivity].
  specialize (Hop _ eq_refl).
  eapply process_op_body_same_kinds; [|exact H].
  apply Forall_forall. intros t Ht Hd. by eapply HP.
Qed.

Lemma run_pass_same_kinds l :
  preserves_if (fun s => switch_free (ps_graph s)) same_kinds (run_pass l).
Proof.
  unfold run_pass. induction l as [|x l IH]; simpl.
  - apply preserves_if_weaken, (preserves_ret same_kinds).
  - apply (preserves_if_bind _ same_kinds).
    + intros s s' Hs Hk. by eapply switch_free_same_kinds.
    + apply process_op_same_kinds.
    + intros _. apply IH.
Qed.

Lemma no_switched_resource_switch_free g :
  no_switched_resource g = true -> switch_free g.
Proof.
  unfold no_switched_resource. rewrite forallb_forall.
  intros H i op t Hop Ht Hd. unfold graph_op in Hop.
  apply list_elem_of_lookup_2, list_elem_of_In, H in Hop.
  rewrite forallb_forall in Hop. apply list_elem_of_In, Hop in Ht.
  apply negb_true_iff, andb_false_iff in Ht as [Ht|Ht]; [|done].
  by apply bool_decide_eq_false in Ht.
Qed.


Lemma more_edges_run_pass D n0 ops :
  (forall i, n0 <= i -> D i = ∅) ->
  sim (state_sim (more_edges D) n0 ∅) (run_pass ops) (run_pass ops).
Proof.
  intros HD. apply sim_run_pass; try done.
  - by intros i a b (?&?&?).
  - by intros i a b (?&?&?&?).
  - by intros i a b (?&?&?&?&?).
  - intros i a b (Ht&_). by rewrite Ht.
  - intros i a b X (?&?&?&?&?&Hc). unfold more_edges, add_control; simpl.
    repeat split; try done. rewrite Hc.
    apply set_eq. intros x. rewrite !elem_of_union. tauto.
  - intros i a b c (?&?&?&?&?&Hc). unfold more_edges, set_context; simpl. done.
  - intros i op Hi. unfold more_edges. repeat split; try done.
    by rewrite (HD i Hi), union_empty_r_L.
  - by intros i a b (?&?).
  - by intros i a b (?&?&?&?&?&?).
Qed.

Lemma graph_eq_intro g1 g2 :
  g_uid g1 = g_uid g2 -> _registered_ops g1 = _registered_ops g2 ->
  g_current_context g1 = g_current_context g2 ->
  _add_control_dependencies g1 = _add_control_dependencies g2 ->
  outer_graph_add_control_dependencies g1 = outer_graph_add_control_dependencies g2 ->
  g_operations g1 = g_operations g2 -> g1 = g2.
Proof. destruct g1, g2; simpl. by intros -> -> -> -> -> ->. Qed.

Lemma rerun_is_identity g l s1 r :
  switch_free g ->
  run_pass l (fresh_pass g) = (s1, r) ->
  run_pass l (fresh_pass (ps_graph s1)) = (s1, r).
Proof.
  intros Hf Hrun.
  pose proof (run_pass_same_kinds l (fresh_pass g) _ _ Hf Hrun) as [Hlen _].
  pose proof (preserves_run_pass l _ _ _ Hrun) as [Hle _].
  simpl in Hlen, Hle.
  set (D := control_inputs_at (ps_graph s1)).
  assert (forall i, length (g_operations g) <= i -> D i = ∅) as HD.
  { intros i Hi. unfold D, control_inputs_at, graph_op.
    rewrite lookup_ge_None_2; [done | lia]. }
  destruct (more_edges_run_pass D _ l HD (fresh_pass g) (fresh_pass (ps_graph s1)))
    as [Hsim Hout].
  { destruct Hle as (?&?&?&?&?&Hops). split; [|done]. simpl.
    unfold graph_sim. do 7 (split; [done|]).
    intros i a b Ha Hb. destruct (Hops _ _ Ha) as (b' & Hb' & Hab).
    assert (b' = b) as -> by congruence.
    destruct Hab as (?&?&?&?&?&Hsub). unfold more_edges. repeat split; try done.
    unfold D, control_inputs_at. rewrite Hb.
    apply set_eq. intros x. rewrite elem_of_union. split; [tauto|].
    intros [?|?]; [by apply Hsub | done]. }
  rewrite Hrun in Hsim, Hout. simpl in Hsim, Hout.
  destruct (run_pass l (fresh_pass (ps_graph s1))) as [s2 r2]. simpl in *.
  subst r2. f_equal.
  destruct Hsim as ((?&?&?&?&?&Hl2&_&Hops)&Hlast&Hmust&Hmf).
  rewrite union_empty_r_L in Hmust.
  destruct s1 as [g1 l1 m1 f1], s2 as [g2 l2 m2 f2]. simpl in *. subst.
  f_equal. symmetry. apply graph_eq_intro; try done.
  apply list_eq_same_length with (length (g_operations g1)); [done | done |].
  intros i a b Hi Ha Hb. specialize (Hops i a b Ha Hb).
  destruct Hops as (?&?&?&?&?&Hc).
  unfold D, control_inputs_at, graph_op in Hc. simpl in Hc. rewrite Ha in Hc.
  rewrite union_idemp_L in Hc. destruct a, b; simpl in *. by subst.
Qed.

(** ** Exempt kinds *)

Global Instance must_only_new_preorder : PreOrder must_only_new.
Proof.
  split.
  - intros s. split; [reflexivity|]. intros x Hx. by left.
  - intros a b c [Hab Hmab] [Hbc Hmbc]. split; [by etransitivity|].
    intros x Hx. destruct (Hmbc _ Hx) as [Hb|Hb]; [by apply Hmab|].
    right. destruct Hab as [Hab _]. apply graph_le_length in Hab. lia.
Qed.

Lemma must_only_new_modify (f : PassState -> PassState) :
  (forall s, pass_le s (f s)) ->
  (forall s, ops_which_must_run (f s) = ops_which_must_run s) ->
  preserves must_only_new (modify f).
Proof.
  intros Hle Hm. apply preserves_modify. intros s. split; [apply Hle|].
  intros x. rewrite Hm. by left.
Qed.

Lemma must_only_new_add_control_inputs t X :
  preserves must_only_new (_add_control_inputs t X).
Proof.
  apply must_only_new_modify; [|done]. intros s.
  exact (preserves_add_control_inputs t X s _ _ eq_refl).
Qed.

Lemma must_only_new_insert_last k v :
  preserves must_only_new (modify (with_last_op <[ k := v ]>)).
Proof.
  apply must_only_new_modify; [|done]. intros s.
  exact (preserves_insert_last k v s _ _ eq_refl).
Qed.

Lemma must_only_new_insert_merge k v :
  preserves must_only_new (modify (with_merge_for <[ k := v ]>)).
Proof.
  apply must_only_new_modify; [|done]. intros s.
  exact (preserves_insert_merge k v s _ _ eq_refl).
Qed.

Lemma must_only_new_get_op i : preserves must_only_new (get_op i).
Proof. intros s s' r H. apply get_op_inv in H as [-> _]. reflexivity. Qed.

Lemma must_only_new_new_merge ins (ctx : option ControlFlowContext)
    (k : nat -> M PassState unit) :
  (forall m, preserves must_only_new (k m)) ->
  preserves must_only_new
    (let! new_merge := merge ins in
     let! outer := match ctx with
                   | Some c => ret (outer_context c)
                   | None => raise AttributeError
                   end in
     set_control_flow_context new_merge outer >>
     modify (with_must_run (fun s => s ∪ {[ new_merge ]})) >>
     k new_merge).
Proof.
  intros Hk s s' r. unfold bind at 1. unfold merge.
  destruct ctx as [c|]; simpl.
  - intros H. etransitivity; [|eapply Hk, H]. split.
    + unfold pass_le; simpl. split; [|done].
      apply (graph_append_set_context_le (new_merge_op (ps_graph s) ins)
               (outer_context c) (ps_graph s)).
    + simpl. intros x [Hx|Hx]%elem_of_union; [by left|].
      apply elem_of_singleton in Hx as ->. by right.
  - unfold bind, raise. intros [= <- <-]. split.
    + unfold pass_le; simpl. split; [apply graph_append_le | done].
    + simpl. intros x Hx. by left.
Qed.

Ltac must_only_new_step :=
  first
    [ apply (preserves_ret must_only_new) | apply (preserves_raise must_only_new)
    | apply (preserves_gets must_only_new)
    | apply (preserves_index must_only_new) | apply must_only_new_get_op
    | apply must_only_new_add_control_inputs
    | apply must_only_new_insert_last
    | apply must_only_new_insert_merge
    | apply must_only_new_new_merge; intros
    | apply (preserves_bind must_only_new); [|intros]
    | apply (preserves_for_each must_only_new); intros
    | match goal with
      | |- preserves _ (if ?b then _ else _) => destruct b
      | |- preserves _ (match ?x with _ => _ end) => destruct x
      end ].

Lemma must_only_new_process_switch fuel sw :
  preserves must_only_new (_process_switch fuel sw).
Proof.
  revert sw. induction fuel as [|fuel IH]; intros sw; simpl.
  - must_only_new_step.
  - repeat first [ apply IH | must_only_new_step ].
Qed.

Lemma must_only_new_call_process_switch sw :
  preserves must_only_new (call_process_switch sw).
Proof. intros s s' r H. eapply must_only_new_process_switch, H. Qed.

Lemma must_only_new_process_inputs op_id op ins ci ri :
  preserves must_only_new (process_inputs op_id op ins ci ri).
Proof.
  revert ci ri. induction ins as [|inp ins IH]; intros ci ri; simpl.
  - must_only_new_step.
  - repeat first [ apply IH | apply must_only_new_call_process_switch
                 | must_only_new_step ].
Qed.

Lemma blacklisted_not_control_flow ty :
  ty ∈ _ALL_BLACKLISTED_OPS -> ty <> "Switch" /\ ty <> "Merge".
Proof.
  intros H. split; intros ->.
  - assert (bool_decide ("Switch" ∈ _ALL_BLACKLISTED_OPS) = false) as E
      by (vm_compute; reflexivity).
    by apply bool_decide_eq_false in E.
  - assert (bool_decide ("Merge" ∈ _ALL_BLACKLISTED_OPS) = false) as E
      by (vm_compute; reflexivity).
    by apply bool_decide_eq_false in E.
Qed.

Lemma blacklisted_not_stateful op :
  type op ∈ _ALL_BLACKLISTED_OPS -> op_is_stateful op = false.
Proof.
  intros H. unfold op_is_stateful. rewrite bool_decide_eq_true_2 by done.
  apply andb_false_r.
Qed.

Lemma must_only_new_exempt s s' r op_id op :
  type op ∈ _ALL_BLACKLISTED_OPS ->
  type op ∈ _registered_ops (ps_graph s) ->
  process_op_body op_id op s = (s', r) ->
  must_only_new s s'.
Proof.
  intros Hb Hreg. destruct (blacklisted_not_control_flow _ Hb) as [HnS HnM].
  unfold process_op_body. destruct (IsInWhileLoop op).
  { intros [= <- <-]. reflexivity. }
  unfold bind at 1, ensure_runs. cbn [bind gets].
  rewrite (bool_decide_eq_true_2 _ Hreg), (blacklisted_not_stateful _ Hb).
  cbn [negb orb ret]. unfold is_resource_switch.
  rewrite (bool_decide_eq_false_2 _ HnS), (bool_decide_eq_false_2 _ HnM).
  cbn [bind ret]. unfold serialize_uses. rewrite (blacklisted_not_stateful _ Hb).
  cbn [andb]. revert s s' r Hreg.
  change (preserves_if (fun s => type op ∈ _registered_ops (ps_graph s)) must_only_new
    (let! found := process_inputs op_id op (inputs op) ∅ ∅ in
     ret tt >>
     let! g := gets ps_graph in
     _add_control_inputs op_id (in_context g (_control_flow_context op) found.1))).
  apply preserves_if_weaken.
  repeat first [ apply must_only_new_process_inputs | must_only_new_step ].
Qed.

Lemma process_inputs_resource_inputs op_id op ins ci ri s s' found :
  process_inputs op_id op ins ci ri s = (s', Ok found) ->
  ri ⊆ found.2
  /\ forall t, t ∈ ins -> dtype t = resource -> tensor_id t ∈ found.2.
Proof.
  revert ci ri s. induction ins as [|inp ins IH]; intros ci ri s H; simpl in H.
  - injection H as <- <-. split; [done|]. intros t Ht. by apply elem_of_nil in Ht.
  - case_bool_decide as Hd; simpl in H.
    2:{ destruct (IH _ _ _ H) as [Hsub Hall]. split; [done|].
        intros t [->|Ht]%elem_of_cons Hdt; [done | by apply Hall]. }
    case_bool_decide as Hdup.
    { destruct (IH _ _ _ H) as [Hsub Hall]. split; [done|].
      intros t [->|Ht]%elem_of_cons Hdt; [by apply Hsub | by apply Hall]. }
    apply bind_ok_inv in H as (sa & p & _ & H).
    apply bind_ok_inv in H as (sb & [] & _ & H).
    apply bind_ok_inv in H as (sc & last & _ & H).
    apply bind_ok_inv in H as (sd & ci' & _ & H).
    apply bind_ok_inv in H as (se & merges & _ & H).
    apply bind_ok_inv in H as (sf & [] & _ & H).
    apply bind_ok_inv in H as (sg & [] & _ & H).
    destruct (IH _ _ _ H) as [Hsub Hall]. split.
    + intros x Hx. apply Hsub. by apply elem_of_union_l.
    + intros t [->|Ht]%elem_of_cons Hdt; [|by apply Hall].
      apply Hsub. apply elem_of_union_r. by apply elem_of_singleton.
Qed.

Lemma alike_but_kind_process_inputs E op_id op1 op2 ins ci ri :
  _control_flow_context op1 = _control_flow_context op2 ->
  sim (state_sim alike_but_kind 0 E)
      (process_inputs op_id op1 ins ci ri) (process_inputs op_id op2 ins ci ri).
Proof.
  intros Hctx. apply sim_process_inputs; try done.
  - by intros i a b (?&?).
  - by intros i a b (?&?&?).
  - by intros i a b (?&?&?&?).
  - by intros i a b (?&?&?&?&?).
  - intros i a b X (?&?&?&Hc&?). unfold alike_but_kind, add_control; simpl.
    by rewrite Hc.
  - intros i a b c (?&?&?&?&?). unfold alike_but_kind, set_context; simpl. done.
Qed.

Lemma alike_but_kind_add_in_context E op_id ctx X :
  sim (state_sim alike_but_kind 0 E)
      (let! g := gets ps_graph in _add_control_inputs op_id (in_context g ctx X))
      (let! g := gets ps_graph in _add_control_inputs op_id (in_context g ctx X)).
Proof.
  apply sim_add_in_context.
  - by intros i a b (?&?&?&?).
  - intros i a b Y (?&?&?&Hc&?). unfold alike_but_kind, add_control; simpl.
    by rewrite Hc.
Qed.

Lemma process_op_lookup op_id op s :
  graph_op (ps_graph s) op_id = Some op ->
  process_op op_id s = process_op_body op_id op s.
Proof. intros H. unfold process_op, bind, get_op. by rewrite H. Qed.

Lemma process_op_body_plain op_id op s :
  IsInWhileLoop op = false -> type op <> "Switch" -> type op <> "Merge" ->
  process_op_body op_id op s = serialize_uses op_id op (ensured op_id op s).
Proof.
  intros Hw HnS HnM. unfold process_op_body, ensured. rewrite Hw.
  unfold ensure_runs, is_resource_switch.
  rewrite (bool_decide_eq_false_2 _ HnS), (bool_decide_eq_false_2 _ HnM).
  unfold bind, gets, modify, ret. destruct (_ || _); reflexivity.
Qed.

Lemma serialize_uses_unfold op_id op s :
  serialize_uses op_id op s
  = match process_inputs op_id op (inputs op) ∅ ∅ s with
    | (s', Ok found) =>
        ((if op_is_stateful op && bool_decide (found.2 = ∅)
             && bool_decide (_control_flow_context op = None)
          then
            let! last := gets last_op_using_resource_tensor in
            match last !! None with
            | Some prev => _add_control_input op_id prev
            | None => ret tt
            end >>
            modify (with_last_op <[ None := op_id ]>)
          else ret tt) >>
         let! g := gets ps_graph in
         _add_control_inputs op_id
           (in_context g (_control_flow_context op) found.1)) s'
    | (s', Raise e) => (s', Raise e)
    end.
Proof. reflexivity. Qed.

Lemma exempt_tracked_like_non_exempt s1 s2 op_id op1 op2 :
  state_sim alike_but_kind 0 ∅ s1 s2 ->
  graph_op (ps_graph s1) op_id = Some op1 ->
  graph_op (ps_graph s2) op_id = Some op2 ->
  type op1 ∈ _ALL_BLACKLISTED_OPS ->
  type op1 ∈ _registered_ops (ps_graph s1) ->
  IsInWhileLoop op1 = false ->
  (exists t, t ∈ inputs op1 /\ dtype t = resource) ->
  type op2 ∈ _registered_ops (ps_graph s2) ->
  type op2 ∉ _ALL_BLACKLISTED_OPS ->
  type op2 <> "Switch" -> type op2 <> "Merge" ->
  state_sim alike_but_kind 0 (if _is_stateful op2 then {[ op_id ]} else ∅)
    (process_op op_id s1).1 (process_op op_id s2).1
  /\ (process_op op_id s1).2 = (process_op op_id s2).2.
Proof.
  intros Hsim Hop1 Hop2 Hb Hreg1 Hw1 (t & Ht & Hdt) Hreg2 Hnb HnS2 HnM2.
  destruct (blacklisted_not_control_flow _ Hb) as [HnS1 HnM1].
  pose proof Hsim as ((_&_&_&_&_&_&_&Hops)&_).
  pose proof (Hops _ _ _ Hop1 Hop2) as (Hin&_&Hctx&_).
  assert (IsInWhileLoop op2 = false) as Hw2.
  { unfold IsInWhileLoop in *. by rewrite <- Hctx. }
  assert (op_is_stateful op2 = _is_stateful op2) as Hst2.
  { unfold op_is_stateful. rewrite (bool_decide_eq_false_2 _ Hnb). apply andb_true_r. }
  pose proof (blacklisted_not_stateful _ Hb) as Hst1.
  rewrite (process_op_lookup _ _ _ Hop1), (process_op_lookup _ _ _ Hop2).
  rewrite process_op_body_plain, (process_op_body_plain op_id op2) by done.
  set (E := if _is_stateful op2 then {[ op_id ]} else ∅).
  assert (state_sim alike_but_kind 0 E (ensured op_id op1 s1) (ensured op_id op2 s2))
    as Hsim'.
  { unfold ensured, E.
    rewrite (bool_decide_eq_true_2 _ Hreg1), (bool_decide_eq_true_2 _ Hreg2), Hst1, Hst2.
    cbn [negb orb]. destruct Hsim as (Hg&Hl&Hm&Hmf).
    destruct (_is_stateful op2).
    - split; [done|]. split; [done|]. split; [|done]. simpl.
      by rewrite Hm, union_empty_r_L.
    - by split. }
  generalize dependent (ensured op_id op1 s1). intros s1a.
  generalize dependent (ensured op_id op2 s2). intros s2a Hsim'.
  rewrite !serialize_uses_unfold, <- Hin, <- Hctx, Hst1, Hst2.
  destruct (alike_but_kind_process_inputs E op_id op1 op2 (inputs op1) ∅ ∅ Hctx
              _ _ Hsim') as [Hs Hr].
  destruct (process_inputs op_id op1 (inputs op1) ∅ ∅ s1a) as [s1b [found|e]] eqn:E1;
    destruct (process_inputs op_id op2 (inputs op1) ∅ ∅ s2a) as [s2b [found2|e2]] eqn:E2;
    simpl in Hs, Hr; try discriminate.
  2:{ injection Hr as ->. done. }
  injection Hr as <-.
  destruct (process_inputs_resource_inputs _ _ _ _ _ _ _ _ E1) as [_ Hall].
  assert (found.2 <> ∅) as Hne.
  { intros Hempty. specialize (Hall _ Ht Hdt). rewrite Hempty in Hall.
    by apply not_elem_of_empty in Hall. }
  rewrite (bool_decide_eq_false_2 _ Hne), !andb_false_r. cbn [andb].
  unfold bind at 1 3. cbn [ret].
  by apply alike_but_kind_add_in_context.
Qed.

(** ** The switch protocol, step by step *)

Lemma for_each_insert_merge m outs s :
  for_each outs (fun o => modify (with_merge_for <[ tensor_id o := m ]>)) s
  = (with_merge_for (fun mf => foldl (fun mf o => <[ tensor_id o := m ]> mf) mf outs) s,
     Ok tt).
Proof.
  revert s. induction outs as [|o outs IH]; intros s; simpl.
  - by destruct s.
  - unfold bind at 1. cbn [modify]. rewrite IH. by destruct s.
Qed.

Lemma alter_length_app {A} (f : A -> A) (l : list A) x :
  alter f (length l) (l ++ [x]) = l ++ [f x].
Proof.
  apply list_eq. intros i. destruct (decide (i = length l)) as [->|Hne].
  - rewrite list_lookup_alter_eq. rewrite !lookup_app_r by lia.
    rewrite Nat.sub_diag. done.
  - rewrite list_lookup_alter_ne by done.
    destruct (decide (i < length l)).
    + by rewrite !lookup_app_l by done.
    + rewrite !lookup_ge_None_2; [done| |]; rewrite length_app; simpl; lia.
Qed.

Lemma outputs_lookup_0 sw opS o :
  outputs sw opS !! 0 = Some o ->
  tensor_id o = (sw, 0) /\ 0 < length (output_dtypes opS).
Proof.
  unfold outputs. destruct (output_dtypes opS) as [|d ds]; simpl; [done|].
  intros [= <-]. split; [done | lia].
Qed.

Lemma process_switch_inv fuel sw s s' :
  _process_switch (S fuel) sw s = (s', Ok tt) ->
  exists opS inp sa,
    graph_op (ps_graph s) sw = Some opS /\ inputs opS !! 0 = Some inp
    /\ ((dtype inp = resource /\ switch_at (ps_graph s) (t_op inp) = true
         /\ _process_switch fuel (t_op inp) s = (sa, Ok tt))
        \/ ((dtype inp <> resource \/ switch_at (ps_graph s) (t_op inp) = false)
            /\ sa = s))
    /\ 0 < length (output_dtypes opS)
    /\ ((is_Some (merge_for_resource sa !! (sw, 0)) /\ s' = sa)
        \/ (merge_for_resource sa !! (sw, 0) = None
            /\ exists c, _control_flow_context opS = Some c
                 /\ s' = resolve sw opS c (tensor_id inp) sa)).
Proof.
  intros H. simpl in H.
  apply bind_ok_inv in H as (s0 & opS & H0 & H).
  apply get_op_inv in H0 as (-> & HopS & _). specialize (HopS _ eq_refl).
  apply bind_ok_inv in H as (s0 & inp0 & H0 & H).
  unfold index in H0. destruct (inputs opS !! 0) as [inp|] eqn:Hinp; [|done].
  injection H0 as <- <-.
  apply bind_ok_inv in H as (sa & [] & Hrec & H).
  exists opS, inp, sa. split; [done|]. split; [done|]. split.
  { case_bool_decide as Hd.
    - apply bind_ok_inv in Hrec as (s0 & p & H0 & Hrec).
      apply get_op_inv in H0 as (-> & Hp & _). specialize (Hp _ eq_refl).
      case_bool_decide as Hsw.
      + left. split; [done|]. split; [|done]. unfold switch_at. rewrite Hp.
        by apply bool_decide_eq_true.
      + right. injection Hrec as <-. split; [|done]. right. unfold switch_at.
        rewrite Hp. by apply bool_decide_eq_false.
    - right. injection Hrec as <-. split; [|done]. by left. }
  apply bind_ok_inv in H as (s0 & output & H0 & H).
  unfold index in H0. destruct (outputs sw opS !! 0) as [o|] eqn:Hout; [|done].
  injection H0 as <- <-. apply outputs_lookup_0 in Hout as [Hid Hlen].
  split; [done|]. rewrite Hid in H. cbn [bind gets] in H.
  case_bool_decide as Hres.
  { left. injection H as <-. done. }
  right. split; [by apply eq_None_not_Some|].
  unfold bind at 1, merge in H.
  destruct (_control_flow_context opS) as [c|]; [|done].
  exists c. split; [done|].
  cbn [bind ret set_control_flow_context modify gets] in H.
  unfold resolve.
  destruct (last_op_using_resource_tensor sa !! Some (tensor_id inp)) as [prev|] eqn:Hlast;
    destruct (merge_for_resource sa !! tensor_id inp) as [mm|] eqn:Hmf;
    repeat (first [ rewrite Hlast in H | rewrite Hmf in H
                  | progress cbn [with_graph with_must_run with_last_op ps_graph
                      last_op_using_resource_tensor ops_which_must_run
                      merge_for_resource bind ret modify gets
                      _add_control_input _add_control_inputs] in H ]);
    rewrite for_each_insert_merge in H; injection H as <-;
    unfold with_merge_for; cbn [ps_graph last_op_using_resource_tensor
         ops_which_must_run merge_for_resource];
    f_equal; unfold graph_append, set_operations; simpl;
    by rewrite alter_length_app.
Qed.

(** ** The merges of a pass *)

Lemma foldl_insert_merge_lookup (m sw : nat) (opS : Operation)
    (mf : gmap (nat * nat) nat) (a b : nat) :
  foldl (fun mf o => <[ tensor_id o := m ]> mf) mf (outputs sw opS) !! (a, b)
  = if bool_decide (a = sw /\ b < length (output_dtypes opS))
    then Some m else mf !! (a, b).
Proof.
  unfold outputs. generalize (output_dtypes opS). intros ds.
  induction ds as [|d ds IH] using rev_ind; simpl.
  - rewrite bool_decide_eq_false_2; [done|]. intros [_ ?]. lia.
  - rewrite imap_app, foldl_app. simpl. rewrite Nat.add_0_r.
    unfold tensor_id at 1. simpl. rewrite length_app. simpl.
    destruct (decide ((sw, length ds) = (a, b))) as [[= <- <-]|Hne].
    + rewrite lookup_insert_eq. rewrite bool_decide_eq_true_2; [done|].
      split; [done|lia].
    + rewrite lookup_insert_ne by done. rewrite IH.
      rewrite (bool_decide_ext (a = sw /\ b < length ds)
                               (a = sw /\ b < length ds + 1)); [done|].
      split.
      * intros [-> ?]. split; [done|lia].
      * intros [-> ?]. split; [done|].
        destruct (decide (b = length ds)) as [->|]; [done|lia].
Qed.

Lemma resolve_length sw opS c id s :
  length (g_operations (ps_graph (resolve sw opS c id s)))
  = S (length (g_operations (ps_graph s))).
Proof.
  unfold resolve. cbn [ps_graph].
  destruct (last_op_using_resource_tensor s !! Some id),
           (merge_for_resource s !! id);
    rewrite ?graph_add_control_inputs_length; simpl;
    rewrite length_app; simpl; lia.
Qed.

Lemma graph_op_add_control_inputs t X g i :
  graph_op (graph_add_control_inputs t X g) i
  = (if bool_decide (i = t) then add_control X else id) <$> graph_op g i.
Proof.
  unfold graph_add_control_inputs, graph_op; simpl. case_bool_decide as H.
  - subst. by rewrite list_lookup_alter_eq.
  - rewrite list_lookup_alter_ne by done. by destruct (g_operations g !! i).
Qed.

Lemma op_le_add_control_if (b : bool) X op :
  op_le op ((if b then add_control X else id) op).
Proof. destruct b; [apply add_control_le | reflexivity]. Qed.

(** The graph of a resolved state, position by position. *)
Lemma resolve_lookup sw opS c id s i :
  let m := length (g_operations (ps_graph s)) in
  (forall op, graph_op (ps_graph s) i = Some op ->
     exists op', graph_op (ps_graph (resolve sw opS c id s)) i = Some op'
       /\ op_le op op'
       /\ forall x, x ∈ control_inputs op' ->
            x ∈ control_inputs op
            \/ (i = sw /\ last_op_using_resource_tensor s !! Some id = Some x)
            \/ (x = m /\ merge_for_resource s !! id = Some i))
  /\ (i = m ->
      exists opM, graph_op (ps_graph (resolve sw opS c id s)) i = Some opM
        /\ type opM = "Merge" /\ inputs opM = outputs sw opS
        /\ _control_flow_context opM = outer_context c).
Proof.
  intros m. unfold resolve. cbn [ps_graph].
  set (g1 := graph_append _ (ps_graph s)).
  assert (forall op, graph_op (ps_graph s) i = Some op -> graph_op g1 i = Some op) as H1.
  { intros op Hop. unfold g1, graph_append, graph_op; simpl.
    by apply lookup_app_l_Some. }
  assert (graph_op g1 m
          = Some (set_context (outer_context c)
                    (new_merge_op (ps_graph s) (outputs sw opS)))) as Hm.
  { unfold g1, graph_append, graph_op; simpl. rewrite lookup_app_r by done.
    by rewrite Nat.sub_diag. }
  split.
  - intros op Hop. specialize (H1 _ Hop).
    destruct (last_op_using_resource_tensor s !! Some id) as [prev|],
             (merge_for_resource s !! id) as [mm|];
      rewrite ?graph_op_add_control_inputs, H1; simpl; eexists; (split; [done|]).
    + split; [etransitivity; apply op_le_add_control_if|].
      intros x. repeat case_bool_decide; simpl; rewrite ?elem_of_union, ?elem_of_singleton;
        subst; naive_solver.
    + split; [apply op_le_add_control_if|].
      intros x. case_bool_decide; simpl; rewrite ?elem_of_union, ?elem_of_singleton;
        subst; naive_solver.
    + split; [apply op_le_add_control_if|].
      intros x. case_bool_decide; simpl; rewrite ?elem_of_union, ?elem_of_singleton;
        subst; naive_solver.
    + split; [reflexivity|]. naive_solver.
  - intros ->.
    destruct (last_op_using_resource_tensor s !! Some id) as [prev|],
             (merge_for_resource s !! id) as [mm|];
      rewrite ?graph_op_add_control_inputs, Hm; simpl; eexists; (split; [done|]);
      repeat case_bool_decide; done.
Qed.

Lemma resolve_lookup_old sw opS c id s i op :
  graph_op (ps_graph s) i = Some op ->
  exists op', graph_op (ps_graph (resolve sw opS c id s)) i = Some op' /\ op_le op op'.
Proof.
  intros H. destruct (resolve_lookup sw opS c id s i) as [Hold _].
  destruct (Hold _ H) as (op' & ? & ? & _). eauto.
Qed.

Lemma resolve_lookup_inv sw opS c id s i op' :
  graph_op (ps_graph (resolve sw opS c id s)) i = Some op' ->
  i < length (g_operations (ps_graph s)) ->
  exists op, graph_op (ps_graph s) i = Some op /\ op_le op op'.
Proof.
  intros H Hlt. destruct (lookup_lt_is_Some_2 _ _ Hlt) as [op Hop].
  destruct (resolve_lookup_old sw opS c id s i op Hop) as (op'' & H' & Hle).
  exists op. split; [done|]. congruence.
Qed.

Lemma merges_ok_unresolved n0 s sw j :
  merges_ok n0 s -> merge_for_resource s !! (sw, 0) = None ->
  merge_for_resource s !! (sw, j) = None.
Proof.
  intros (_ & M1 & _) H0.
  destruct (merge_for_resource s !! (sw, j)) as [m|] eqn:E; [|done].
  destruct (M1 _ _ _ E) as (opS & c & opM & _ & _ & Hj & Hall & _).
  rewrite Hall in H0 by lia. done.
Qed.

Lemma merges_ok_resolve n0 sw opS opS' c id s :
  merges_ok n0 s ->
  graph_op (ps_graph s) sw = Some opS' ->
  output_dtypes opS' = output_dtypes opS ->
  _control_flow_context opS' = Some c ->
  0 < length (output_dtypes opS) ->
  merge_for_resource s !! (sw, 0) = None ->
  merges_ok n0 (resolve sw opS c id s) /\ merge_kept s (resolve sw opS c id s).
Proof.
  intros Hok HopS Hout Hctx Hlen Hnone.
  pose proof Hok as (Hn0 & M1 & M2 & M3 & V).
  set (s' := resolve sw opS c id s).
  set (m := length (g_operations (ps_graph s))).
  assert (forall a b, merge_for_resource s' !! (a, b)
            = if bool_decide (a = sw /\ b < length (output_dtypes opS))
              then Some m else merge_for_resource s !! (a, b)) as Hmf.
  { intros a b. unfold s', resolve. cbn [merge_for_resource].
    apply foldl_insert_merge_lookup. }
  assert (length (g_operations (ps_graph s')) = S m) as Hlen' by apply resolve_length.
  assert (outputs sw opS' = outputs sw opS) as Houts.
  { unfold outputs. by rewrite Hout. }
  destruct (resolve_lookup sw opS c id s m) as [_ HM]. specialize (HM eq_refl).
  destruct HM as (opM & HopM & HtyM & HinM & HctxM).
  destruct (resolve_lookup_old sw opS c id s sw opS' HopS)
    as (opS'' & HopS'' & (_&_&HoutS&HctxS&_)).
  assert (merge_kept s s') as Hkept.
  { intros [a b] x Hx. rewrite Hmf. case_bool_decide as Hc; [|done].
    destruct Hc as [-> _].
    by rewrite (merges_ok_unresolved n0 s sw b Hok Hnone) in Hx. }
  split; [|done].
  split; [lia|]. split; [|split; [|split]].
  - intros a b x Hx. rewrite Hmf in Hx. case_bool_decide as Hc.
    + destruct Hc as [-> Hb]. injection Hx as <-.
      exists opS'', c, opM. rewrite <- HoutS, <- HctxS, Hout.
      repeat split; try done; try lia.
      * intros j Hj. rewrite Hmf. by rewrite bool_decide_eq_true_2.
      * rewrite HinM. unfold outputs. by rewrite <- HoutS, Hout.
    + destruct (M1 _ _ _ Hx) as (opA & cA & opMA & HA & HcA & Hb & Hall & Hnx & HMA
                                  & HtyA & HinA & HctxA).
      destruct (resolve_lookup_old sw opS c id s a opA HA)
        as (opA' & HA' & (_&_&HoutA&HctxA'&_)).
      destruct (resolve_lookup_old sw opS c id s x opMA HMA)
        as (opMA' & HMA' & (HtyA'&HinA'&_&HctxMA'&_)).
      exists opA', cA, opMA'. rewrite <- HoutA, <- HctxA', <- HtyA', <- HinA', <- HctxMA'.
      repeat split; try done.
      * intros j Hj. by apply Hkept, Hall.
      * rewrite HinA. unfold outputs. by rewrite HoutA.
  - intros x opX Hx HopX. destruct (decide (x = m)) as [->|Hne].
    + assert (opX = opM) as ->.
      { unfold s' in HopX. rewrite HopM in HopX. by injection HopX. }
      split; [done|].
      exists sw, opS''. split; [done|]. split.
      * rewrite HinM. unfold outputs. by rewrite <- HoutS, Hout.
      * rewrite Hmf. by rewrite bool_decide_eq_true_2.
    + assert (x < m) as Hlt.
      { apply lookup_lt_Some in HopX. fold m in Hlen'. unfold graph_op in *. lia. }
      destruct (resolve_lookup_inv _ _ _ _ _ _ _ HopX Hlt)
        as (opX0 & HopX0 & (HtyX&HinX&_)).
      destruct (M2 _ _ Hx HopX0) as (HtyX0 & a & opA & HA & HinA & HmfA).
      split; [congruence|].
      destruct (resolve_lookup_old sw opS c id s a opA HA)
        as (opA' & HA' & (_&_&HoutA&_)).
      exists a, opA'. split; [done|]. split; [|by apply Hkept].
      rewrite <- HinX, HinA. unfold outputs. by rewrite HoutA.
  - intros x Hx Hlt. destruct (decide (x = m)) as [->|Hne].
    + left. unfold s', resolve. cbn [ops_which_must_run].
      apply elem_of_union_r. by apply elem_of_singleton.
    + destruct (M3 x Hx) as [Hin | (j & opJ & HJ & HtyJ & Hj & Hin)]; [fold m; lia| |].
      * left. unfold s', resolve. cbn [ops_which_must_run]. by apply elem_of_union_l.
      * right. destruct (resolve_lookup_old sw opS c id s j opJ HJ)
          as (opJ' & HJ' & (HtyJ'&_&_&_&_&Hsub)).
        exists j, opJ'. rewrite <- HtyJ'. repeat split; try done. by apply Hsub.
  - intros x Hx. rewrite Hlen'. unfold s', resolve in Hx. cbn [ops_which_must_run] in Hx.
    apply elem_of_union in Hx as [Hx|Hx].
    + apply V in Hx. fold m in Hx. lia.
    + apply elem_of_singleton in Hx as ->. lia.
Qed.

Lemma preserves_ok_ret {S A} (R : S -> S -> Prop) `{!Reflexive R} (a : A) :
  preserves_ok R (ret a).
Proof. intros s s' x [= <- _]. reflexivity. Qed.

Lemma preserves_ok_raise {S A} (R : S -> S -> Prop) e : preserves_ok R (@raise S A e).
Proof. intros s s' x H. discriminate. Qed.

Lemma preserves_ok_gets {S A} (R : S -> S -> Prop) `{!Reflexive R} (f : S -> A) :
  preserves_ok R (gets f).
Proof. intros s s' x [= <- _]. reflexivity. Qed.

Lemma preserves_ok_index {S A} (R : S -> S -> Prop) `{!Reflexive R} (l : list A) i :
  preserves_ok R (index l i).
Proof.
  unfold index.
  destruct (l !! i); [apply (preserves_ok_ret R) | apply preserves_ok_raise].
Qed.

Lemma preserves_ok_modify {S} (R : S -> S -> Prop) (f : S -> S) :
  (forall s, R s (f s)) -> preserves_ok R (modify f).
Proof. intros Hf s s' x [= <- _]. apply Hf. Qed.

Lemma preserves_ok_bind {S A B} (R : S -> S -> Prop) `{!Transitive R}
    (c : M S A) (k : A -> M S B) :
  preserves_ok R c -> (forall a, preserves_ok R (k a)) -> preserves_ok R (bind c k).
Proof.
  intros Hc Hk s s' b H. apply bind_ok_inv in H as (s1 & a & H1 & H2).
  etransitivity; [eapply Hc | eapply Hk]; eauto.
Qed.

Lemma preserves_ok_for_each {S A} (R : S -> S -> Prop) `{!PreOrder R}
    (l : list A) (body : A -> M S unit) :
  (forall x, x ∈ l -> preserves_ok R (body x)) -> preserves_ok R (for_each l body).
Proof.
  induction l as [|x l IH]; intros Hb; simpl.
  - apply (preserves_ok_ret R).
  - apply (preserves_ok_bind R); [apply Hb; left |].
    intros _. apply IH. intros y Hy. apply Hb. by right.
Qed.

Lemma preserves_ok_get_op (R : PassState -> PassState -> Prop) `{!Reflexive R} i :
  preserves_ok R (get_op i).
Proof. intros s s' x H. apply get_op_inv in H as [-> _]. reflexivity. Qed.

Global Instance keeps_merges_preorder n0 : PreOrder (keeps_merges n0).
Proof.
  split.
  - intros s Hs. split; [done|]. by intros key m.
  - intros a b c Hab Hbc Ha. destruct (Hab Ha) as [Hb Hk1].
    destruct (Hbc Hb) as [Hc Hk2]. split; [done|].
    intros key m Hm. by apply Hk2, Hk1.
Qed.

(** Adding control edges, last users or operations that must run leaves
    the merges well formed. *)
Lemma merges_ok_frame n0 s s' :
  merges_ok n0 s ->
  graph_le (ps_graph s) (ps_graph s') ->
  length (g_operations (ps_graph s')) = length (g_operations (ps_graph s)) ->
  merge_for_resource s' = merge_for_resource s ->
  ops_which_must_run s ⊆ ops_which_must_run s' ->
  (forall x, x ∈ ops_which_must_run s' -> x < length (g_operations (ps_graph s'))) ->
  merges_ok n0 s'.
Proof.
  intros (Hn0 & M1 & M2 & M3 & V) Hle Hlen Hmf Hmust V'.
  pose proof Hle as (_&_&_&_&_&Hops).
  split; [lia|]. split; [|split; [|split]]; [| | |done].
  - intros sw k m Hm. rewrite Hmf in Hm.
    destruct (M1 _ _ _ Hm) as (opS & c & opM & HS & Hc & Hk & Hall & Hnm & HM
                                & Hty & Hin & HcM).
    destruct (Hops _ _ HS) as (opS' & HS' & (_&_&HoutS&HctxS&_)).
    destruct (Hops _ _ HM) as (opM' & HM' & (HtyM&HinM&_&HctxM&_)).
    exists opS', c, opM'. rewrite Hmf, <- HoutS, <- HctxS, <- HtyM, <- HinM, <- HctxM.
    repeat split; try done. rewrite Hin. unfold outputs. by rewrite HoutS.
  - intros m opM' Hm HM'.
    destruct (op_le_lookup _ _ _ _ Hle HM') as (opM & HM & (HtyM&HinM&_)).
    { rewrite <- Hlen. by eapply lookup_lt_Some. }
    destruct (M2 _ _ Hm HM) as (Hty & sw & opS & HS & Hin & Hmfs).
    split; [congruence|].
    destruct (Hops _ _ HS) as (opS' & HS' & (_&_&HoutS&_)).
    exists sw, opS'. rewrite Hmf. repeat split; try done.
    rewrite <- HinM, Hin. unfold outputs. by rewrite HoutS.
  - intros m Hm Hlt. rewrite Hlen in Hlt.
    destruct (M3 m Hm Hlt) as [Hin | (j & opJ & HJ & HtyJ & Hj & Hin)].
    + left. by apply Hmust.
    + right. destruct (Hops _ _ HJ) as (opJ' & HJ' & (HtyJ'&_&_&_&_&Hsub)).
      exists j, opJ'. rewrite <- HtyJ'. repeat split; try done. by apply Hsub.
Qed.

Lemma keeps_merges_add_control_inputs n0 t X :
  preserves_ok (keeps_merges n0) (_add_control_inputs t X).
Proof.
  apply preserves_ok_modify. intros s Hs. split; [|by intros key m].
  pose proof Hs as (_&_&_&_&V).
  apply (merges_ok_frame n0 s); [done | | | done | done |].
  - apply graph_add_control_inputs_le.
  - apply graph_add_control_inputs_length.
  - intros x Hx. cbn [ps_graph with_graph].
    rewrite graph_add_control_inputs_length. by apply V.
Qed.

Lemma keeps_merges_insert_last n0 k v :
  preserves_ok (keeps_merges n0) (modify (with_last_op <[ k := v ]>)).
Proof.
  apply preserves_ok_modify. intros s Hs. split; [|by intros key m].
  pose proof Hs as (_&_&_&_&V).
  apply (merges_ok_frame n0 s); [done | reflexivity | done | done | done | done].
Qed.

Lemma keeps_merges_process_switch n0 fuel sw :
  preserves_ok (keeps_merges n0) (_process_switch fuel sw).
Proof.
  revert sw. induction fuel as [|fuel IH]; intros sw s s' [] H; [done|].
  apply process_switch_inv in H
    as (opS & inp & sa & HopS & Hinp & Hrec & Hlen & Hres).
  assert (keeps_merges n0 s sa /\ pass_le s sa) as [Hsa Hle].
  { destruct Hrec as [(_ & _ & Hrec) | (_ & ->)].
    - split; [by eapply IH | by eapply preserves_process_switch].
    - split; reflexivity. }
  destruct Hres as [[_ ->] | (Hnone & c & Hctx & ->)]; [done|].
  intros Hs. destruct (Hsa Hs) as [Hoksa Hkept].
  destruct Hle as ((_&_&_&_&_&Hops)&_).
  destruct (Hops _ _ HopS) as (opS' & HopS' & (_&_&Hout&Hctx'&_)).
  destruct (merges_ok_resolve n0 sw opS opS' c (tensor_id inp) sa)
    as [Hok' Hkept']; try done; [congruence|].
  split; [done|]. intros key m Hm. by apply Hkept', Hkept.
Qed.

Lemma keeps_merges_call_process_switch n0 sw :
  preserves_ok (keeps_merges n0) (call_process_switch sw).
Proof. intros s s' a H. eapply keeps_merges_process_switch, H. Qed.

Ltac keeps_merges_step n0 :=
  first
    [ apply (preserves_ok_ret (keeps_merges n0))
    | apply (preserves_ok_raise (keeps_merges n0))
    | apply (preserves_ok_gets (keeps_merges n0))
    | apply (preserves_ok_index (keeps_merges n0))
    | apply (preserves_ok_get_op (keeps_merges n0))
    | apply keeps_merges_add_control_inputs
    | apply keeps_merges_insert_last
    | apply keeps_merges_call_process_switch
    | apply (preserves_ok_bind (keeps_merges n0)); [|intros]
    | apply (preserves_ok_for_each (keeps_merges n0)); intros
    | match goal with
      | |- preserves_ok _ (if ?b then _ else _) => destruct b
      | |- preserves_ok _ (match ?x with _ => _ end) => destruct x
      end ].

Lemma keeps_merges_process_inputs n0 op_id op ins ci ri :
  preserves_ok (keeps_merges n0) (process_inputs op_id op ins ci ri).
Proof.
  revert ci ri. induction ins as [|inp ins IH]; intros ci ri; simpl.
  - keeps_merges_step n0.
  - repeat first [ apply IH | keeps_merges_step n0 ].
Qed.

Lemma valid_handles_of_lt g (X : gset nat) :
  (forall x, x ∈ X -> x < length (g_operations g)) ->
  Forall (fun o => o < length (g_operations g)) (elements X).
Proof. intros H. apply Forall_forall. intros x Hx. apply H. by apply elem_of_elements. Qed.

Lemma keeps_merges_absorb n0 op_id s s' op :
  op_id < n0 -> graph_op (ps_graph s) op_id = Some op -> type op = "Merge" ->
  absorb_into_merge op_id s = (s', Ok tt) -> keeps_merges n0 s s'.
Proof.
  intros Hlt Hop Hty H Hs. pose proof Hs as (Hn0 & _ & _ & M3 & V).
  rewrite absorb_into_merge_spec in H by (by apply valid_handles_of_lt).
  injection H as <-. split; [|by intros key m].
  set (g' := graph_add_control_inputs op_id (ops_which_must_run s) (ps_graph s)).
  assert (merges_ok n0 (mkPass g' (last_op_using_resource_tensor s)
                          (ops_which_must_run s ∪ {[ op_id ]})
                          (merge_for_resource s))) as (_ & M1' & M2' & _ & _).
  { apply (merges_ok_frame n0 s); [done | apply graph_add_control_inputs_le
      | apply graph_add_control_inputs_length | done | |].
    - simpl. intros x Hx. by apply elem_of_union_l.
    - simpl. intros x Hx. rewrite length_alter.
      apply elem_of_union in Hx as [Hx|Hx]; [by apply V|].
      apply elem_of_singleton in Hx as ->. lia. }
  cbn [ps_graph merge_for_resource] in M1', M2'.
  split; [|split; [|split; [|split]]]; cbn [ps_graph merge_for_resource ops_which_must_run].
  - unfold g'. rewrite graph_add_control_inputs_length. lia.
  - exact M1'.
  - exact M2'.
  - intros m Hm Hml. unfold g' in Hml. rewrite graph_add_control_inputs_length in Hml.
    right. destruct (M3 m Hm Hml) as [Hin | (j & opJ & HJ & HtyJ & Hj & Hin)].
    + exists op_id, (add_control (ops_which_must_run s) op).
      unfold g'. rewrite graph_op_add_control_inputs, Hop.
      rewrite bool_decide_eq_true_2 by done. simpl.
      repeat split; try done. by apply elem_of_union_r.
    + exists j, ((if bool_decide (j = op_id)
                  then add_control (ops_which_must_run s) else id) opJ).
      unfold g'. rewrite graph_op_add_control_inputs, HJ. simpl.
      split; [done|]. case_bool_decide; simpl; repeat split; try done.
      by apply elem_of_union_l.
  - intros x Hx. apply elem_of_singleton in Hx as ->.
    unfold g'. rewrite graph_add_control_inputs_length. lia.
Qed.

Lemma keeps_merges_ensure_runs n0 op_id op :
  op_id < n0 -> preserves_ok (keeps_merges n0) (ensure_runs op_id op).
Proof.
  intros Hlt. unfold ensure_runs.
  apply (preserves_ok_bind (keeps_merges n0));
    [apply (preserves_ok_gets (keeps_merges n0))|]. intros reg.
  destruct (_ || _); [|apply (preserves_ok_ret (keeps_merges n0))].
  apply preserves_ok_modify. intros s Hs. split; [|by intros key m].
  pose proof Hs as (Hn0&_&_&_&V).
  apply (merges_ok_frame n0 s); [done | reflexivity | done | done | |].
  - simpl. intros x Hx. by apply elem_of_union_l.
  - simpl. intros x Hx. apply elem_of_union in Hx as [Hx|Hx]; [by apply V|].
    apply elem_of_singleton in Hx as ->. lia.
Qed.

Lemma keeps_merges_serialize_uses n0 op_id op :
  preserves_ok (keeps_merges n0) (serialize_uses op_id op).
Proof.
  unfold serialize_uses.
  repeat first [ apply keeps_merges_process_inputs | keeps_merges_step n0 ].
Qed.

Lemma keeps_merges_process_op n0 op_id :
  op_id < n0 -> preserves_ok (keeps_merges n0) (process_op op_id).
Proof.
  intros Hlt s s' [] H. unfold process_op in H.
  apply bind_ok_inv in H as (s0 & op & H0 & H).
  apply get_op_inv in H0 as (-> & Hop & _). specialize (Hop _ eq_refl).
  unfold process_op_body in H. destruct (IsInWhileLoop op).
  { injection H as <-. reflexivity. }
  apply bind_ok_inv in H as (s1 & [] & H1 & H).
  pose proof (same_graph_ensure_runs _ _ _ _ _ H1) as Hg. unfold same_graph in Hg.
  pose proof (keeps_merges_ensure_runs n0 op_id op Hlt _ _ _ H1) as H01.
  etransitivity; [exact H01|].
  apply bind_ok_inv in H as (s2 & sw & H2 & H).
  pose proof (same_graph_is_resource_switch _ _ _ _ H2) as Hg2. unfold same_graph in Hg2.
  assert (keeps_merges n0 s1 s2) as H12.
  { revert H2. unfold is_resource_switch.
    generalize s1 s2 sw. change (preserves_ok (keeps_merges n0)
      (if bool_decide (type op = "Switch")
       then let! inp0 := index (inputs op) 0 in
            ret (bool_decide (dtype inp0 = resource))
       else ret false)).
    repeat keeps_merges_step n0. }
  etransitivity; [exact H12|].
  destruct sw; [injection H as <-; reflexivity|].
  case_bool_decide as Hty.
  - eapply keeps_merges_absorb; [exact Hlt | | exact Hty | exact H].
    by rewrite Hg2, Hg.
  - exact (keeps_merges_serialize_uses n0 op_id op _ _ _ H).
Qed.

Lemma keeps_merges_run_pass n0 l :
  Forall (fun i => i < n0) l -> preserves_ok (keeps_merges n0) (run_pass l).
Proof.
  intros Hl. apply (preserves_ok_for_each (keeps_merges n0)). intros x Hx.
  apply keeps_merges_process_op. rewrite Forall_forall in Hl. by apply Hl.
Qed.

Lemma merges_ok_fresh g : merges_ok (length (g_operations g)) (fresh_pass g).
Proof.
  split; [done|]. split; [|split; [|split]]; simpl.
  - intros sw k m Hm. by rewrite lookup_empty in Hm.
  - intros m opM Hm HM. apply lookup_lt_Some in HM. lia.
  - intros m Hm Hlt. lia.
  - intros x Hx. by apply not_elem_of_empty in Hx.
Qed.

(** ** The loop over the inputs, step by step *)

Lemma process_inputs_cons_inv op_id op inp rest ci ri s s' found :
  process_inputs op_id op (inp :: rest) ci ri s = (s', Ok found) ->
  ((dtype inp <> resource \/ (tensor_id inp ∈ ri))
   /\ process_inputs op_id op rest ci ri s = (s', Ok found))
  \/ (dtype inp = resource /\ (tensor_id inp ∉ ri)
      /\ exists sa,
           (((switch_at (ps_graph s) (t_op inp) = true
              /\ call_process_switch (t_op inp) s = (sa, Ok tt))
             \/ (switch_at (ps_graph s) (t_op inp) = false /\ sa = s)))
           /\ process_inputs op_id op rest
                (with_last_user (_control_flow_context op) (tensor_id inp) ci sa)
                (ri ∪ {[ tensor_id inp ]})
                (use_input op_id (tensor_id inp) sa)
              = (s', Ok found)).
Proof.
  intros H. simpl in H. case_bool_decide as Hd; simpl in H; [|left; by split; [left|]].
  case_bool_decide as Hdup; [left; by split; [right|]|].
  right. split; [done|]. split; [done|].
  apply bind_ok_inv in H as (s0 & p & H0 & H).
  apply get_op_inv in H0 as (-> & Hp & _). specialize (Hp _ eq_refl).
  apply bind_ok_inv in H as (sa & [] & Hsw & H).
  exists sa. split.
  { unfold switch_at. rewrite Hp. case_bool_decide.
    - left. by split.
    - right. injection Hsw as <-. by split. }
  cbn [bind gets] in H.
  apply bind_ok_inv in H as (s1 & ci' & Hci & H).
  assert (s1 = sa /\ ci' = with_last_user (_control_flow_context op) (tensor_id inp) ci sa)
    as [-> ->].
  { unfold with_last_user.
    destruct (last_op_using_resource_tensor sa !! Some (tensor_id inp)) as [prev|];
      [|by injection Hci as <- <-].
    apply bind_ok_inv in Hci as (s2 & prev_op & H2 & Hci).
    apply get_op_inv in H2 as (-> & Hprev & _). specialize (Hprev _ eq_refl).
    unfold same_context. rewrite Hprev.
    destruct (ctx_is _ _); by injection Hci as <- <-. }
  cbn [bind gets] in H.
  apply bind_ok_inv in H as (s2 & [] & Hadd & H).
  apply bind_ok_inv in H as (s3 & [] & Hmod & H).
  assert (s3 = use_input op_id (tensor_id inp) sa) as ->; [|done].
  unfold use_input.
  destruct (merge_for_resource sa !! tensor_id inp) as [m|];
    injection Hadd as <-; injection Hmod as <-; by destruct sa.
Qed.

Lemma use_input_keeps n0 op_id id s :
  keeps_merges n0 s (use_input op_id id s).
Proof.
  intros Hs. split; [|by intros key m]. pose proof Hs as (_&_&_&_&V).
  apply (merges_ok_frame n0 s); [done | | | done | done |];
    unfold use_input; cbn [ps_graph ops_which_must_run];
    destruct (merge_for_resource s !! id).
  - apply graph_add_control_inputs_le.
  - reflexivity.
  - apply graph_add_control_inputs_length.
  - done.
  - intros x Hx. rewrite graph_add_control_inputs_length. by apply V.
  - done.
Qed.

Lemma use_input_pass_le op_id id s : pass_le s (use_input op_id id s).
Proof.
  unfold pass_le, use_input; simpl. split; [|split; [done|]].
  - destruct (merge_for_resource s !! id);
      [apply graph_add_control_inputs_le | reflexivity].
  - rewrite dom_insert_L. intros x Hx. by apply elem_of_union_r.
Qed.

Lemma control_inputs_at_mono g g' i x :
  graph_le g g' -> x ∈ control_inputs_at g i -> x ∈ control_inputs_at g' i.
Proof.
  intros (_&_&_&_&_&Hops). unfold control_inputs_at.
  destruct (graph_op g i) as [op|] eqn:E; [|by intros ?%not_elem_of_empty].
  destruct (Hops _ _ E) as (op' & -> & (_&_&_&_&_&Hsub)). apply Hsub.
Qed.

(** A consumer of an output of a switch is a control input of the merge
    synthesized for that switch. *)
Lemma process_inputs_feeds_merge n0 op_id op ins ci ri s s' found sw k opS t :
  process_inputs op_id op ins ci ri s = (s', Ok found) ->
  merges_ok n0 s ->
  graph_op (ps_graph s) sw = Some opS -> type opS = "Switch" ->
  k < length (output_dtypes opS) ->
  t ∈ ins -> dtype t = resource -> tensor_id t = (sw, k) -> (sw, k) ∉ ri ->
  exists m, merge_for_resource s' !! (sw, k) = Some m
    /\ op_id ∈ control_inputs_at (ps_graph s') m.
Proof.
  revert ci ri s opS. induction ins as [|inp rest IH];
    intros ci ri s opS H Hok HS Hty Hk Ht Hdt Hid Hri.
  { by apply elem_of_nil in Ht. }
  apply process_inputs_cons_inv in H
    as [[Hskip H] | (Hd & Hnew & sa & Hsw & H)].
  - apply elem_of_cons in Ht as [->|Ht]; [|by eapply IH].
    destruct Hskip as [?|Hin]; [done|]. by rewrite Hid in Hin.
  - assert (keeps_merges n0 s sa /\ pass_le s sa) as [Hk1 Hle1].
    { destruct Hsw as [[_ Hsw] | [_ ->]]; [|split; reflexivity].
      split; [by eapply keeps_merges_call_process_switch
             | by eapply preserves_call_process_switch]. }
    destruct (Hk1 Hok) as [Hoksa _].
    destruct (use_input_keeps n0 op_id (tensor_id inp) sa Hoksa) as [Hoku _].
    pose proof (use_input_pass_le op_id (tensor_id inp) sa) as Hle2.
    destruct Hle1 as ((_&_&_&_&_&Hops1)&_).
    destruct (Hops1 _ _ HS) as (opSa & HSa & (HtySa & _ & HoutSa & _)).
    pose proof Hle2 as ((_&_&_&_&_&Hops2)&_).
    destruct (Hops2 _ _ HSa) as (opSu & HSu & (HtySu & _ & HoutSu & _)).
    destruct (decide (tensor_id inp = (sw, k))) as [Heq|Hne].
    + (* this input is the one: the switch gets resolved here *)
      assert (t_op inp = sw) as Hop by (by injection Heq).
      assert (switch_at (ps_graph s) (t_op inp) = true) as Hsat.
      { unfold switch_at. rewrite Hop, HS. by apply bool_decide_eq_true. }
      destruct Hsw as [[_ Hsw] | [Hf _]]; [|congruence].
      assert (is_Some (merge_for_resource sa !! (sw, 0))) as [m0 Hm0].
      { rewrite Hop in Hsw. unfold call_process_switch in Hsw.
        apply process_switch_inv in Hsw
          as (o & i0 & sb & Ho & _ & _ & _ & [[Hres ->] | (_ & c & _ & ->)]); [done|].
        assert (o = opS) as -> by congruence.
        unfold resolve. cbn [merge_for_resource].
        rewrite foldl_insert_merge_lookup. rewrite bool_decide_eq_true_2; [by eexists|].
        split; [done|lia]. }
      pose proof Hoksa as (_ & M1 & _).
      destruct (M1 _ _ _ Hm0) as (o & c & opM & Ho & _ & _ & Hall & _ & HM & _).
      assert (o = opSa) as -> by congruence.
      assert (merge_for_resource sa !! (sw, k) = Some m0) as Hmk.
      { apply Hall. by rewrite <- HoutSa. }
      assert (op_id ∈ control_inputs_at
                (ps_graph (use_input op_id (tensor_id inp) sa)) m0) as Hin.
      { unfold use_input. cbn [ps_graph]. rewrite Heq, Hmk.
        unfold control_inputs_at. rewrite graph_op_add_control_inputs, HM.
        rewrite bool_decide_eq_true_2 by done. simpl.
        apply elem_of_union_r. by apply elem_of_singleton. }
      exists m0. split.
      * destruct (keeps_merges_process_inputs n0 _ _ _ _ _ _ _ _ H Hoku) as [_ Hkept].
        apply Hkept. unfold use_input. cbn [merge_for_resource]. done.
      * eapply control_inputs_at_mono; [|exact Hin].
        by destruct (preserves_process_inputs _ _ _ _ _ _ _ _ H) as [? _].
    + eapply (IH _ _ _ opSu H Hoku HSu); try done; [congruence | congruence | |].
      * apply elem_of_cons in Ht as [->|Ht]; [done|done].
      * intros [?|?%elem_of_singleton]%elem_of_union; done.
Qed.

(** ** Resolving a switch twice *)

Lemma process_switch_producer fuel sw s s' opS inp :
  _process_switch (S fuel) sw s = (s', Ok tt) ->
  graph_op (ps_graph s) sw = Some opS -> inputs opS !! 0 = Some inp ->
  dtype inp = resource -> is_Some (graph_op (ps_graph s) (t_op inp)).
Proof.
  intros H HopS Hinp Hd. simpl in H.
  apply bind_ok_inv in H as (s0 & o & H0 & H).
  apply get_op_inv in H0 as (-> & Ho & _). specialize (Ho _ eq_refl).
  assert (o = opS) as -> by congruence.
  apply bind_ok_inv in H as (s0 & inp0 & H0 & H).
  unfold index in H0. rewrite Hinp in H0. injection H0 as <- <-.
  apply bind_ok_inv in H as (sa & [] & Hrec & _).
  rewrite bool_decide_eq_true_2 in Hrec by done.
  apply bind_ok_inv in Hrec as (s0 & p & H0 & _).
  apply get_op_inv in H0 as (_ & Hp & _). specialize (Hp _ eq_refl). by eexists.
Qed.

Lemma bind_ok {S A B} (c : M S A) (k : A -> M S B) s s1 a :
  c s = (s1, Ok a) -> bind c k s = k a s1.
Proof. intros H. unfold bind. by rewrite H. Qed.

Lemma get_op_ok i s op : graph_op (ps_graph s) i = Some op -> get_op i s = (s, Ok op).
Proof. intros H. unfold get_op. by rewrite H. Qed.

Lemma index_ok {S A} (l : list A) i x (s : S) : l !! i = Some x -> index l i s = (s, Ok x).
Proof. intros H. unfold index. by rewrite H. Qed.

Lemma process_switch_noop fuel sw s opS inp :
  graph_op (ps_graph s) sw = Some opS -> inputs opS !! 0 = Some inp ->
  (dtype inp = resource ->
     (switch_at (ps_graph s) (t_op inp) = true
      /\ _process_switch fuel (t_op inp) s = (s, Ok tt))
     \/ (switch_at (ps_graph s) (t_op inp) = false
         /\ is_Some (graph_op (ps_graph s) (t_op inp)))) ->
  0 < length (output_dtypes opS) ->
  is_Some (merge_for_resource s !! (sw, 0)) ->
  _process_switch (S fuel) sw s = (s, Ok tt).
Proof.
  intros HopS Hinp Hrec Hlen Hres. simpl.
  rewrite (bind_ok _ _ _ _ _ (get_op_ok _ _ _ HopS)).
  rewrite (bind_ok _ _ _ _ _ (index_ok _ _ _ _ Hinp)).
  assert ((if bool_decide (dtype inp = resource)
           then let! producer := get_op (t_op inp) in
                if bool_decide (type producer = "Switch")
                then _process_switch fuel (t_op inp)
                else ret tt
           else ret tt) s = (s, Ok tt)) as Hr.
  { case_bool_decide as Hd; [|done].
    unfold switch_at in Hrec.
    destruct (Hrec Hd) as [[Hsw Hp] | [Hsw [p Hp]]].
    - destruct (graph_op (ps_graph s) (t_op inp)) as [p|] eqn:E; [|done].
      rewrite (bind_ok _ _ _ _ _ (get_op_ok _ _ _ E)). by rewrite Hsw.
    - rewrite (bind_ok _ _ _ _ _ (get_op_ok _ _ _ Hp)).
      rewrite Hp in Hsw. by rewrite Hsw. }
  rewrite (bind_ok _ _ _ _ _ Hr).
  assert (exists o, outputs sw opS !! 0 = Some o /\ tensor_id o = (sw, 0))
    as (o & Ho & Hid).
  { unfold outputs. destruct (output_dtypes opS); simpl in *; [lia|].
    by eexists. }
  rewrite (bind_ok _ _ _ _ _ (index_ok _ _ _ _ Ho)).
  cbn [bind gets]. rewrite Hid. by rewrite bool_decide_eq_true_2.
Qed.

Lemma switch_at_graph_le g g' i :
  graph_le g g' -> is_Some (graph_op g i) -> switch_at g' i = switch_at g i.
Proof.
  intros (_&_&_&_&_&Hops) [op Hop]. unfold switch_at.
  destruct (Hops _ _ Hop) as (op' & -> & (Hty&_)). by rewrite Hop, Hty.
Qed.

Lemma switch_at_true_is_Some g i : switch_at g i = true -> is_Some (graph_op g i).
Proof. unfold switch_at. destruct (graph_op g i); [by eexists | done]. Qed.

Lemma resolved_chain_mono fuel sw s s' :
  _process_switch fuel sw s = (s, Ok tt) -> pass_le s s' ->
  _process_switch fuel sw s' = (s', Ok tt).
Proof.
  revert sw. induction fuel as [|fuel IH]; intros sw H Hle; [done|].
  pose proof H as Hinv. apply process_switch_inv in Hinv
    as (opS & inp & sa & HopS & Hinp & Hrec & Hlen & Hres).
  assert (pass_le s sa) as Hsa.
  { destruct Hrec as [(_&_&Hrec) | (_ & ->)];
      [by eapply preserves_process_switch | reflexivity]. }
  assert (sa = s) as ->.
  { destruct Hres as [[_ ?] | (_ & c & _ & Heq)]; [done|].
    destruct Hsa as [Hg _]. apply graph_le_length in Hg.
    apply (f_equal (fun x => length (g_operations (ps_graph x)))) in Heq.
    rewrite resolve_length in Heq. lia. }
  assert (is_Some (merge_for_resource s !! (sw, 0))) as Hs.
  { destruct Hres as [[? _] | (_ & c & _ & Heq)]; [done|].
    rewrite Heq. unfold resolve. cbn [merge_for_resource].
    rewrite foldl_insert_merge_lookup. rewrite bool_decide_eq_true_2; by eauto. }
  pose proof Hle as ((_&_&_&_&_&Hops) & Hdom & _).
  destruct (Hops _ _ HopS) as (opS' & HopS' & (_&Hin&Hout&_)).
  apply (process_switch_noop fuel sw s' opS' inp); [done | congruence | | congruence |].
  - intros Hd. pose proof (process_switch_producer _ _ _ _ _ _ H HopS Hinp Hd) as Hp.
    rewrite (switch_at_graph_le _ _ _ (proj1 Hle) Hp).
    destruct Hrec as [(_&Hsw&Hrec) | ([?|Hsw] & _)]; [| done |].
    + left. split; [done|]. by apply IH.
    + right. split; [done|]. destruct Hp as [p Hp].
      destruct (Hops _ _ Hp) as (p' & -> & _). by eexists.
  - apply elem_of_dom, Hdom, elem_of_dom. done.
Qed.

Lemma resolve_pass_le sw opS c id s : pass_le s (resolve sw opS c id s).
Proof.
  split; [|split].
  - unfold graph_le. repeat split;
      try (unfold resolve; cbn [ps_graph];
           destruct (last_op_using_resource_tensor s !! Some id),
                    (merge_for_resource s !! id); reflexivity).
    intros i op Hop. by apply resolve_lookup_old.
  - intros [a b] Hx. apply elem_of_dom in Hx. apply elem_of_dom.
    unfold resolve. cbn [merge_for_resource]. rewrite foldl_insert_merge_lookup.
    by case_bool_decide.
  - unfold resolve. cbn [last_op_using_resource_tensor]. rewrite dom_insert_L.
    intros x Hx. by apply elem_of_union_r.
Qed.

(** Invoking the protocol on a switch it has just resolved changes
    nothing. *)
Lemma process_switch_idempotent fuel sw s s1 :
  _process_switch fuel sw s = (s1, Ok tt) ->
  _process_switch fuel sw s1 = (s1, Ok tt).
Proof.
  revert sw s s1. induction fuel as [|fuel IH]; intros sw s s1 H; [done|].
  pose proof H as Hinv. apply process_switch_inv in Hinv
    as (opS & inp & sa & HopS & Hinp & Hrec & Hlen & Hres).
  assert (pass_le s sa) as Hsa.
  { destruct Hrec as [(_&_&Hrec) | (_ & ->)];
      [by eapply preserves_process_switch | reflexivity]. }
  assert (pass_le sa s1) as Hs1.
  { destruct Hres as [[_ ->] | (_ & c & _ & ->)];
      [reflexivity | apply resolve_pass_le]. }
  assert (pass_le s s1) as Hle by (by etransitivity).
  pose proof Hle as ((_&_&_&_&_&Hops) & _).
  destruct (Hops _ _ HopS) as (opS' & HopS' & (_&Hin&Hout&_)).
  apply (process_switch_noop fuel sw s1 opS' inp); [done | congruence | | congruence |].
  - intros Hd. pose proof (process_switch_producer _ _ _ _ _ _ H HopS Hinp Hd) as Hp.
    rewrite (switch_at_graph_le _ _ _ (proj1 Hle) Hp).
    destruct Hrec as [(_&Hsw&Hrec) | ([?|Hsw] & _)]; [| done |].
    + left. split; [done|]. apply IH in Hrec. by eapply resolved_chain_mono.
    + right. split; [done|]. destruct Hp as [p Hp].
      destruct (Hops _ _ Hp) as (p' & -> & _). by eexists.
  - destruct Hres as [[? ->] | (_ & c & _ & ->)]; [done|].
    unfold resolve. cbn [merge_for_resource].
    rewrite foldl_insert_merge_lookup. rewrite bool_decide_eq_true_2; by eauto.
Qed.

Lemma resolved_chain_fuel fuel sw s :
  _process_switch fuel sw s = (s, Ok tt) ->
  _process_switch (S fuel) sw s = (s, Ok tt).
Proof.
  revert sw. induction fuel as [|fuel IH]; intros sw H; [done|].
  pose proof H as Hinv. apply process_switch_inv in Hinv
    as (opS & inp & sa & HopS & Hinp & Hrec & Hlen & Hres).
  assert (pass_le s sa) as Hsa.
  { destruct Hrec as [(_&_&Hrec) | (_ & ->)];
      [by eapply preserves_process_switch | reflexivity]. }
  assert (sa = s) as ->.
  { destruct Hres as [[_ ?] | (_ & c & _ & Heq)]; [done|].
    destruct Hsa as [Hg _]. apply graph_le_length in Hg.
    apply (f_equal (fun x => length (g_operations (ps_graph x)))) in Heq.
    rewrite resolve_length in Heq. lia. }
  apply (process_switch_noop (S fuel) sw s opS inp); [done | done | | done |].
  - intros Hd. pose proof (process_switch_producer _ _ _ _ _ _ H HopS Hinp Hd) as Hp.
    destruct Hrec as [(_&Hsw&Hrec) | ([?|Hsw] & _)]; [| done |].
    + left. split; [done|]. by apply IH.
    + right. by split.
  - destruct Hres as [[? _] | (_ & c & _ & Heq)]; [done|].
    rewrite Heq. unfold resolve. cbn [merge_for_resource].
    rewrite foldl_insert_merge_lookup. rewrite bool_decide_eq_true_2; by eauto.
Qed.

Lemma resolved_chain_more_fuel fuel extra sw s :
  _process_switch fuel sw s = (s, Ok tt) ->
  _process_switch (extra + fuel) sw s = (s, Ok tt).
Proof.
  intros H. induction extra as [|extra IH]; [done|].
  by apply resolved_chain_fuel in IH.
Qed.

(** Once a call from the pass has resolved a switch, any later call on it
    returns at once. *)
Lemma call_process_switch_again sw s s1 s2 :
  call_process_switch sw s = (s1, Ok tt) -> pass_le s1 s2 ->
  call_process_switch sw s2 = (s2, Ok tt).
Proof.
  unfold call_process_switch. intros H Hle.
  pose proof (preserves_process_switch _ _ _ _ _ H) as Hle1.
  apply process_switch_idempotent in H.
  apply (resolved_chain_mono _ _ _ s2) in H; [|done].
  assert (length (g_operations (ps_graph s)) <= length (g_operations (ps_graph s2)))
    as Hlen.
  { destruct Hle1 as [H1 _], Hle as [H2 _].
    apply graph_le_length in H1, H2. lia. }
  replace (S (length (g_operations (ps_graph s2))))
    with ((length (g_operations (ps_graph s2)) - length (g_operations (ps_graph s)))
          + S (length (g_operations (ps_graph s)))) by lia.
  by apply resolved_chain_more_fuel.
Qed.

Lemma for_each_app_inv {S A} (l1 l2 : list A) (body : A -> M S unit) s s' :
  for_each (l1 ++ l2) body s = (s', Ok tt) ->
  exists s1, for_each l1 body s = (s1, Ok tt) /\ for_each l2 body s1 = (s', Ok tt).
Proof.
  revert s. induction l1 as [|x l1 IH]; intros s H; simpl in *.
  - by exists s.
  - apply bind_ok_inv in H as (s0 & [] & H0 & H).
    destruct (IH _ H) as (s1 & H1 & H2). exists s1. split; [|done].
    by rewrite (bind_ok _ _ _ _ _ H0).
Qed.

Lemma new_operations_split g n w :
  n <= w < length (g_operations g) ->
  new_operations g n
  = seq n (w - n) ++ w :: seq (S w) (length (g_operations g) - S w).
Proof.
  intros Hw. unfold new_operations.
  replace (length (g_operations g) - n)
    with ((w - n) + S (length (g_operations g) - S w)) by lia.
  rewrite seq_app. simpl. by replace (n + (w - n)) with w by lia.
Qed.

Lemma new_operations_lt g n :
  Forall (fun i => i < length (g_operations g)) (new_operations g n).
Proof.
  apply Forall_forall. intros i Hi. unfold new_operations in Hi.
  apply list_elem_of_In, in_seq in Hi. lia.
Qed.

Lemma plain_consumer_true op :
  plain_consumer op = true ->
  IsInWhileLoop op = false /\ type op <> "Switch" /\ type op <> "Merge".
Proof.
  unfold plain_consumer. rewrite !andb_true_iff, !negb_true_iff.
  intros [[? ?%bool_decide_eq_false] ?%bool_decide_eq_false]. done.
Qed.

Lemma uses_resource_true op id :
  uses_resource op id = true ->
  exists t, t ∈ inputs op /\ dtype t = resource /\ tensor_id t = id.
Proof.
  unfold uses_resource. rewrite existsb_exists.
  intros (t & Ht & [?%bool_decide_eq_true ?%bool_decide_eq_true]%andb_true_iff).
  exists t. by rewrite list_elem_of_In.
Qed.

Lemma process_op_feeds_merge n0 w s s' opW sw k opS :
  w < n0 -> merges_ok n0 s -> process_op w s = (s', Ok tt) ->
  graph_op (ps_graph s) w = Some opW -> plain_consumer opW = true ->
  graph_op (ps_graph s) sw = Some opS -> type opS = "Switch" ->
  k < length (output_dtypes opS) ->
  uses_resource opW (sw, k) = true ->
  exists m, merge_for_resource s' !! (sw, k) = Some m
    /\ w ∈ control_inputs_at (ps_graph s') m.
Proof.
  intros Hw Hok H HopW Hplain HopS Hty Hk Huses.
  apply plain_consumer_true in Hplain as (Hwh & HnS & HnM).
  apply uses_resource_true in Huses as (t & Ht & Hdt & Hid).
  rewrite (process_op_lookup _ _ _ HopW), process_op_body_plain in H by done.
  assert (merges_ok n0 (ensured w opW s)) as Hok1.
  { unfold ensured. destruct (_ || _); [|done].
    pose proof Hok as (Hn0&_&_&_&V).
    apply (merges_ok_frame n0 s); [done | reflexivity | done | done | |].
    - simpl. intros x Hx. by apply elem_of_union_l.
    - simpl. intros x Hx. apply elem_of_union in Hx as [Hx|Hx]; [by apply V|].
      apply elem_of_singleton in Hx as ->. lia. }
  assert (ps_graph (ensured w opW s) = ps_graph s) as Hg.
  { unfold ensured. by destruct (_ || _). }
  unfold serialize_uses in H.
  apply bind_ok_inv in H as (sb & found & Hin & H).
  destruct (process_inputs_feeds_merge n0 w opW (inputs opW) ∅ ∅ _ _ _ sw k opS t
              Hin Hok1) as (m & Hm & Hcm); try done; [by rewrite Hg|].
  destruct (keeps_merges_process_inputs n0 _ _ _ _ _ _ _ _ Hin Hok1) as [Hokb _].
  assert (keeps_merges n0 sb s' /\ pass_le sb s') as [Hkm Hle].
  { match type of H with
    | ?c sb = _ =>
        assert (preserves_ok (keeps_merges n0) c) as Hp1
          by (repeat keeps_merges_step n0);
        assert (preserves pass_le c) as Hp2 by (repeat preserves_step)
    end.
    split; [exact (Hp1 _ _ _ H) | exact (Hp2 _ _ _ H)]. }
  destruct (Hkm Hokb) as [_ Hkept]. exists m. split; [by apply Hkept|].
  eapply control_inputs_at_mono; [|exact Hcm]. by destruct Hle.
Qed.

(** ** The order of the users of a resource *)

Lemma ctx_is_refl c : ctx_is c c = true.
Proof. destruct c as [c|]; simpl; [apply Nat.eqb_refl|done]. Qed.

Lemma ctx_is_sym c d : ctx_is c d = ctx_is d c.
Proof. destruct c, d; simpl; try done. apply Nat.eqb_sym. Qed.

Lemma ctx_is_trans c d e : ctx_is c d = true -> ctx_is d e = true -> ctx_is c e = true.
Proof.
  destruct c, d, e; simpl; try done.
  rewrite !Nat.eqb_eq. congruence.
Qed.

Lemma same_context_mono g g' ctx u :
  graph_le g g' -> same_context g ctx u = true -> same_context g' ctx u = true.
Proof.
  intros (_&_&_&_&_&Hops). unfold same_context.
  destruct (graph_op g u) as [o|] eqn:Ho; [|done].
  destruct (Hops _ _ Ho) as (o' & -> & (_&_&_&Hc&_)). by rewrite Hc.
Qed.

Lemma control_chain_mono g g' b path a :
  graph_le g g' -> control_chain g b path a = true -> control_chain g' b path a = true.
Proof.
  intros Hle. revert b. induction path as [|u rest IH]; intros b; simpl; [done|].
  rewrite !andb_true_iff, !bool_decide_eq_true. intros [Hu Hr].
  split; [by eapply control_inputs_at_mono | by apply IH].
Qed.

Lemma merges_ok_ensured n0 p op s :
  p < n0 -> merges_ok n0 s -> merges_ok n0 (ensured p op s).
Proof.
  intros Hp Hok. unfold ensured. destruct (_ || _); [|done].
  pose proof Hok as (Hn0&_&_&_&V).
  apply (merges_ok_frame n0 s); [done | reflexivity | done | done | |].
  - simpl. intros x Hx. by apply elem_of_union_l.
  - simpl. intros x Hx. apply elem_of_union in Hx as [Hx|Hx]; [by apply V|].
    apply elem_of_singleton in Hx as ->. lia.
Qed.

Lemma ensured_graph p op s : ps_graph (ensured p op s) = ps_graph s.
Proof. unfold ensured. by destruct (_ || _). Qed.

Lemma ensured_last p op s :
  last_op_using_resource_tensor (ensured p op s) = last_op_using_resource_tensor s.
Proof. unfold ensured. by destruct (_ || _). Qed.

Lemma process_op_inv p s s' :
  process_op p s = (s', Ok tt) ->
  exists op, graph_op (ps_graph s) p = Some op
    /\ ((IsInWhileLoop op = true /\ s' = s)
        \/ (IsInWhileLoop op = false
            /\ ((type op = "Switch" /\ s' = ensured p op s)
                \/ (type op = "Merge"
                    /\ absorb_into_merge p (ensured p op s) = (s', Ok tt))
                \/ (type op <> "Merge"
                    /\ serialize_uses p op (ensured p op s) = (s', Ok tt))))).
Proof.
  intros H. unfold process_op in H.
  apply bind_ok_inv in H as (s1 & op & Hget & H).
  apply get_op_inv in Hget as (-> & Hop & _). specialize (Hop _ eq_refl).
  exists op. split; [done|]. unfold process_op_body in H.
  destruct (IsInWhileLoop op); [left; split; [done|]; by injection H|].
  right. split; [done|].
  apply bind_ok_inv in H as (s2 & [] & He & H).
  assert (s2 = ensured p op s) as ->.
  { unfold ensure_runs, ensured in *. unfold bind, gets in He.
    destruct (_ || _); unfold modify, ret in He; by injection He. }
  apply bind_ok_inv in H as (s3 & sw & Hsw & H).
  assert (s3 = ensured p op s /\ (sw = true -> type op = "Switch")) as [-> Hty].
  { unfold is_resource_switch in Hsw.
    destruct (decide (type op = "Switch")) as [Ht|Ht];
      [rewrite bool_decide_eq_true_2 in Hsw by done
      |rewrite bool_decide_eq_false_2 in Hsw by done].
    - apply bind_ok_inv in Hsw as (s4 & inp & Hi & Hsw).
      unfold index in Hi. destruct (inputs op !! 0); [|done].
      injection Hi as <- <-. unfold ret in Hsw. by injection Hsw as <- <-.
    - unfold ret in Hsw. by injection Hsw as <- <-. }
  destruct sw.
  - left. split; [by apply Hty|]. unfold ret in H. by injection H.
  - right. case_bool_decide as Hm; [left | right]; done.
Qed.

Lemma serialize_uses_inv p op s s' :
  serialize_uses p op s = (s', Ok tt) ->
  exists sb found,
    process_inputs p op (inputs op) ∅ ∅ s = (sb, Ok found)
    /\ s' = finish p op found sb.
Proof.
  intros H. unfold serialize_uses in H.
  apply bind_ok_inv in H as (sb & found & Hin & H).
  exists sb, found. split; [done|]. unfold finish.
  apply bind_ok_inv in H as (s1 & [] & H1 & H).
  unfold bind, gets, _add_control_inputs, modify in H. injection H as <-.
  destruct (_ && _).
  - unfold bind, gets in H1.
    destruct (last_op_using_resource_tensor sb !! None) as [prev|];
      unfold _add_control_input, _add_control_inputs, modify, ret in H1;
      injection H1 as <-; reflexivity.
  - unfold ret in H1. by injection H1 as <-.
Qed.

Lemma not_switched_at g0 r s sw opS inp :
  not_switched g0 r = true ->
  merges_ok (length (g_operations g0)) s -> graph_le g0 (ps_graph s) ->
  graph_op (ps_graph s) sw = Some opS -> type opS = "Switch" ->
  inputs opS !! 0 = Some inp -> tensor_id inp <> r.
Proof.
  intros Hns (_ & _ & M2 & _) Hle HopS Hty Hinp Heq.
  destruct (decide (sw < length (g_operations g0))) as [Hlt|Hge].
  - destruct (op_le_lookup _ _ _ _ Hle HopS Hlt) as (op & Hop & (Ht & Hi & _)).
    unfold not_switched in Hns. rewrite forallb_forall in Hns.
    specialize (Hns op). rewrite Ht, Hi, Hinp in Hns.
    rewrite !bool_decide_eq_true_2 in Hns by done.
    assert (In op (g_operations g0)) as HIn.
    { apply list_elem_of_In. by eapply list_elem_of_lookup_2. }
    by specialize (Hns HIn).
  - destruct (M2 sw opS) as [Hm _]; [lia | done | congruence].
Qed.

(** ** Leaving a region, whatever the outcome *)

Lemma exit_any_inv sc sc' out :
  __exit__ sc = (sc', out) ->
  executing_eagerly sc' = executing_eagerly sc
  /\ _returned_tensors (self sc') = _returned_tensors (self sc)
  /\ _graph (self sc') = _graph (self sc)
  /\ _n_operations (self sc') = _n_operations (self sc)
  /\ self_ops_which_must_run (self sc) ⊆ self_ops_which_must_run (self sc')
  /\ g_uid (default_graph sc') = g_uid (default_graph sc)
  /\ _registered_ops (default_graph sc') = _registered_ops (default_graph sc)
  /\ g_current_context (default_graph sc') = g_current_context (default_graph sc)
  /\ forall i op, graph_op (default_graph sc) i = Some op ->
       exists op', graph_op (default_graph sc') i = Some op' /\ op_le op op'.
Proof.
  unfold __exit__. destruct (executing_eagerly sc) eqn:Heager.
  { intros [= <- <-]. repeat split; try done. intros i op Hop. by exists op. }
  destruct (_graph (self sc)) as [graph|] eqn:Hgraph.
  2:{ intros [= <- <-]. repeat split; try done. intros i op Hop. by exists op. }
  destruct (negb _).
  { intros [= <- <-]. repeat split; try done. intros i op Hop. by exists op. }
  set (g := set_add_control_dependencies _ _).
  unfold bind.
  destruct (run_pass (new_operations g (_n_operations (self sc))) (mkPass g ∅ ∅ ∅))
    as [s [[]|e]] eqn:Hrun.
  - unfold gets.
    destruct (for_each _ _ s) as [s' r] eqn:Hanchor.
    intros [= <- <-]. simpl.
    pose proof (preserves_run_pass _ _ _ _ Hrun) as [Hle1 _].
    assert (preserves pass_le
              (for_each (elements (_returned_tensors (self sc)))
                 (anchor_returned (self_ops_which_must_run (self sc)
                                   ∪ ops_which_must_run s)))) as Hp.
    { apply (preserves_for_each pass_le). intros. apply preserves_anchor_returned. }
    pose proof (Hp _ _ _ Hanchor) as [Hle2 _].
    assert (graph_le g (ps_graph s')) as (Hu & Hr & Hc & _ & _ & Hops)
      by (by etransitivity).
    simpl in *. repeat split; try done.
    intros x Hx. by apply elem_of_union_l.
  - intros [= <- <-]. simpl.
    pose proof (preserves_run_pass _ _ _ _ Hrun) as [(Hu & Hr & Hc & _ & _ & Hops) _].
    simpl in *. repeat split; done.
Qed.

(** ** The edges of a pass *)

Lemma tracked_mono g0 n p p' s s' v :
  p <= p' ->
  length (g_operations (ps_graph s)) <= length (g_operations (ps_graph s')) ->
  tracked g0 n p s v -> tracked g0 n p' s' v.
Proof. unfold tracked. intros Hp Hl [[Hv Hw]|Hv]; [left; split; [lia|done] | right; lia]. Qed.

Lemma edge_ok_mono g0 n p p' s s' t opT opT' x :
  p <= p' ->
  length (g_operations (ps_graph s)) <= length (g_operations (ps_graph s')) ->
  op_le opT opT' ->
  edge_ok g0 n p s t opT x -> edge_ok g0 n p' s' t opT' x.
Proof.
  intros Hp Hl (Hty & _ & _ & Hctx & _) [Hx Ht].
  split; [by eapply tracked_mono|].
  unfold IsInWhileLoop in *. rewrite <- Hty, <- Hctx.
  destruct Ht as [Ht | [Ht | (Ht & Hw & Hxt)]]; [by left | right; by left |].
  right; right. split; [lia|]. done.
Qed.

Lemma region_inv_step g0 n p p' s s' :
  p <= p' ->
  region_inv g0 n p s ->
  merges_ok (length (g_operations g0)) s' ->
  graph_le (ps_graph s) (ps_graph s') ->
  (forall key v, last_op_using_resource_tensor s' !! key = Some v ->
     last_op_using_resource_tensor s !! key = Some v \/ tracked g0 n p' s' v) ->
  (forall x, x ∈ ops_which_must_run s' ->
     x ∈ ops_which_must_run s \/ tracked g0 n p' s' x) ->
  (forall t opT' x, graph_op (ps_graph s') t = Some opT' -> x ∈ control_inputs opT' ->
     (exists opT, graph_op (ps_graph s) t = Some opT /\ op_le opT opT'
                  /\ x ∈ control_inputs opT)
     \/ edge_ok g0 n p' s' t opT' x) ->
  (forall sw k m, merge_for_resource s' !! (sw, k) = Some m ->
     merge_for_resource s !! (sw, k) = Some m \/ switch_at g0 sw = true) ->
  region_inv g0 n p' s'.
Proof.
  intros Hp (R1 & R2 & R3 & R4 & R5 & R6) Hok Hle Hlast Hmust Hedge Hmf.
  pose proof (graph_le_length _ _ Hle) as Hlen.
  split; [done|]. split; [by etransitivity|].
  split; [|split; [|split]].
  - intros key v Hv. destruct (Hlast _ _ Hv) as [Ho|Hn]; [|done].
    eapply tracked_mono; [done | done | by eapply R3].
  - intros x Hx. destruct (Hmust _ Hx) as [Ho|Hn]; [|done].
    eapply tracked_mono; [done | done | by apply R4].
  - intros t opT' x Ht Hx.
    destruct (Hedge _ _ _ Ht Hx) as [(opT & HopT & Hople & Hxo)|Hn]; [|by right].
    destruct (R5 _ _ _ HopT Hxo) as [Ho|Ho]; [by left|right].
    by eapply edge_ok_mono.
  - intros sw k m Hm. destruct (Hmf _ _ _ Hm) as [Ho|Hn]; [by eapply R6 | done].
Qed.

Lemma region_inv_weaken g0 n p p' s :
  p <= p' -> region_inv g0 n p s -> region_inv g0 n p' s.
Proof.
  intros Hp Hr. pose proof Hr as (R1 & _).
  apply (region_inv_step g0 n p p' s s); try done; try by left.
  intros t opT' x Ht Hx. left. by exists opT'.
Qed.

Lemma region_inv_fresh g n : region_inv g n n (fresh_pass g).
Proof.
  split; [apply merges_ok_fresh|]. split; [reflexivity|].
  split; [|split; [|split]]; simpl.
  - intros key v Hv. by rewrite lookup_empty in Hv.
  - intros x Hx. by apply not_elem_of_empty in Hx.
  - intros t opT x Ht Hx. left. unfold control_inputs_at. by rewrite Ht.
  - intros sw k m Hm. by rewrite lookup_empty in Hm.
Qed.

Lemma region_inv_ensured g0 n p op s :
  n <= p < length (g_operations g0) -> while_at g0 p = false ->
  region_inv g0 n (S p) s -> region_inv g0 n (S p) (ensured p op s).
Proof.
  intros Hp Hw Hr. pose proof Hr as (R1 & _).
  apply (region_inv_step g0 n (S p) (S p) s); try done.
  - apply merges_ok_ensured; [lia|done].
  - by rewrite ensured_graph.
  - intros key v Hv. left. by rewrite ensured_last in Hv.
  - intros x Hx. unfold ensured in Hx. destruct (_ || _); [|by left].
    simpl in Hx. apply elem_of_union in Hx as [Hx|Hx]; [by left|].
    apply elem_of_singleton in Hx as ->. right. left. split; [lia|done].
  - intros t opT' x Ht Hx. left. rewrite ensured_graph in Ht. by exists opT'.
  - intros sw k m Hm. left. unfold ensured in Hm. by destruct (_ || _).
Qed.

Lemma region_inv_use_input g0 n p id s :
  n <= p < length (g_operations g0) -> while_at g0 p = false ->
  region_inv g0 n (S p) s -> region_inv g0 n (S p) (use_input p id s).
Proof.
  intros Hp Hw Hr. pose proof Hr as (R1 & R2 & _).
  pose proof R1 as (Hn0 & M1 & _).
  assert (tracked g0 n (S p) (use_input p id s) p) as Htp.
  { left. split; [lia|done]. }
  apply (region_inv_step g0 n (S p) (S p) s); try done.
  - by apply use_input_keeps.
  - apply use_input_pass_le.
  - intros key v Hv. unfold use_input in Hv. cbn [last_op_using_resource_tensor] in Hv.
    destruct (decide (key = Some id)) as [->|Hne].
    + rewrite lookup_insert_eq in Hv. injection Hv as <-. by right.
    + rewrite lookup_insert_ne in Hv by done. by left.
  - intros x Hx. by left.
  - intros t opT' x Ht Hx. unfold use_input in Ht. cbn [ps_graph] in Ht.
    destruct (merge_for_resource s !! id) as [m|] eqn:Hm; [|left; by exists opT'].
    rewrite graph_op_add_control_inputs in Ht.
    destruct (graph_op (ps_graph s) t) as [opT|] eqn:HopT; [|done].
    simpl in Ht. injection Ht as <-.
    case_bool_decide as Htm.
    + subst t. simpl in Hx. apply elem_of_union in Hx as [Hx|Hx].
      * left. exists opT. split; [done|]. split; [apply add_control_le|done].
      * apply elem_of_singleton in Hx as ->. right. split; [done|].
        right; left. destruct id as [sw k].
        destruct (M1 _ _ _ Hm) as (_&_&_&_&_&_&_&Hnm&_). done.
    + left. exists opT. split; [done|]. split; [reflexivity|done].
  - intros sw k m Hm. by left.
Qed.

Lemma resolve_lookup_new sw opS c id s :
  sw < length (g_operations (ps_graph s)) ->
  (forall m, merge_for_resource s !! id = Some m ->
     m < length (g_operations (ps_graph s))) ->
  graph_op (ps_graph (resolve sw opS c id s)) (length (g_operations (ps_graph s)))
  = Some (set_context (outer_context c) (new_merge_op (ps_graph s) (outputs sw opS))).
Proof.
  intros Hsw Hm. unfold resolve. cbn [ps_graph].
  set (g1 := graph_append _ (ps_graph s)).
  assert (graph_op g1 (length (g_operations (ps_graph s)))
          = Some (set_context (outer_context c)
                    (new_merge_op (ps_graph s) (outputs sw opS)))) as H1.
  { unfold g1, graph_append, graph_op; simpl. rewrite lookup_app_r by done.
    by rewrite Nat.sub_diag. }
  destruct (last_op_using_resource_tensor s !! Some id) as [prev|],
           (merge_for_resource s !! id) as [mm|] eqn:Hmm;
    rewrite ?graph_op_add_control_inputs, H1; simpl; try done.
  - specialize (Hm _ eq_refl).
    rewrite !bool_decide_eq_false_2 by lia. done.
  - rewrite bool_decide_eq_false_2 by lia. done.
  - specialize (Hm _ eq_refl). rewrite bool_decide_eq_false_2 by lia. done.
Qed.

Lemma switch_at_back g0 s sw :
  merges_ok (length (g_operations g0)) s -> graph_le g0 (ps_graph s) ->
  switch_at (ps_graph s) sw = true -> switch_at g0 sw = true.
Proof.
  intros (_ & _ & M2 & _) Hle Hsw. unfold switch_at in *.
  destruct (graph_op (ps_graph s) sw) as [op'|] eqn:Hop'; [|done].
  apply bool_decide_eq_true in Hsw.
  destruct (decide (sw < length (g_operations g0))) as [Hlt|Hge].
  - destruct (op_le_lookup _ _ _ _ Hle Hop' Hlt) as (op & -> & (Ht & _)).
    apply bool_decide_eq_true. congruence.
  - destruct (M2 sw op') as [Hm _]; [lia | done | congruence].
Qed.

Lemma region_inv_resolve g0 n p sw opS opS' c id s :
  region_inv g0 n p s ->
  graph_op (ps_graph s) sw = Some opS' -> type opS' = "Switch" ->
  output_dtypes opS' = output_dtypes opS ->
  _control_flow_context opS' = Some c ->
  0 < length (output_dtypes opS) ->
  merge_for_resource s !! (sw, 0) = None ->
  region_inv g0 n p (resolve sw opS c id s).
Proof.
  intros Hr HopS Hty Hout Hctx Hlen Hnone.
  pose proof Hr as (R1 & R2 & R3 & _). pose proof R1 as (Hn0 & M1 & _).
  destruct (merges_ok_resolve _ sw opS opS' c id s R1 HopS Hout Hctx Hlen Hnone)
    as [Hok' _].
  assert (tracked g0 n p (resolve sw opS c id s)
            (length (g_operations (ps_graph s)))) as Hnew.
  { right. rewrite resolve_length. lia. }
  assert (forall m, merge_for_resource s !! id = Some m ->
            length (g_operations g0) <= m < length (g_operations (ps_graph s))) as Hmid.
  { intros m Hm. destruct id as [a b].
    destruct (M1 _ _ _ Hm) as (_&_&opM&_&_&_&_&Hnm&HopM&_).
    split; [done|]. by eapply lookup_lt_Some. }
  apply (region_inv_step g0 n p p s); try done.
  - by destruct (resolve_pass_le sw opS c id s).
  - intros key v Hv. unfold resolve in Hv. cbn [last_op_using_resource_tensor] in Hv.
    destruct (decide (key = Some id)) as [->|Hne].
    + rewrite lookup_insert_eq in Hv. injection Hv as <-. by right.
    + rewrite lookup_insert_ne in Hv by done. by left.
  - intros x Hx. unfold resolve in Hx. cbn [ops_which_must_run] in Hx.
    apply elem_of_union in Hx as [Hx|Hx]; [by left|].
    apply elem_of_singleton in Hx as ->. by right.
  - intros t opT' x Ht Hx.
    destruct (decide (t < length (g_operations (ps_graph s)))) as [Hlt|Hge].
    + destruct (lookup_lt_is_Some_2 _ _ Hlt) as [opT HopT].
      destruct (resolve_lookup sw opS c id s t) as [Hold _].
      destruct (Hold _ HopT) as (op' & Hop' & Hople & Hxs).
      assert (op' = opT') as -> by congruence.
      destruct (Hxs _ Hx) as [Hxo | [[-> Hl] | [-> Hm]]].
      * left. by exists opT.
      * right. split.
        { eapply tracked_mono; [done | | by eapply R3]. rewrite resolve_length. lia. }
        left. destruct Hople as (Ht' & _). unfold graph_op in HopS. congruence.
      * right. split; [done|]. right; left. by apply Hmid.
    + assert (t = length (g_operations (ps_graph s))) as ->.
      { apply lookup_lt_Some in Ht. rewrite resolve_length in Ht. lia. }
      rewrite resolve_lookup_new in Ht.
      * injection Ht as <-. simpl in Hx. by apply not_elem_of_empty in Hx.
      * by eapply lookup_lt_Some.
      * intros m Hm. by apply Hmid.
  - intros a b m Hm. unfold resolve in Hm. cbn [merge_for_resource] in Hm.
    rewrite foldl_insert_merge_lookup in Hm. case_bool_decide as Hab; [|by left].
    right. destruct Hab as [-> _]. apply (switch_at_back g0 s); [done | done |].
    unfold switch_at. rewrite HopS. by apply bool_decide_eq_true.
Qed.

Lemma region_inv_process_switch g0 n p fuel sw s s' :
  _process_switch fuel sw s = (s', Ok tt) ->
  switch_at (ps_graph s) sw = true ->
  region_inv g0 n p s -> region_inv g0 n p s'.
Proof.
  revert sw s s'. induction fuel as [|fuel IH]; intros sw s s' H Hsw Hr; [done|].
  apply process_switch_inv in H
    as (opS & inp & sa & HopS & Hinp & Hrec & Hlen & Hres).
  assert (region_inv g0 n p sa /\ pass_le s sa) as [Hsa Hle].
  { destruct Hrec as [(_ & Hsw' & Hrec) | (_ & ->)].
    - split; [by eapply IH | by eapply preserves_process_switch].
    - split; [done | reflexivity]. }
  destruct Hres as [[_ ->] | (Hnone & c & Hctx & ->)]; [done|].
  destruct Hle as ((_&_&_&_&_&Hops)&_).
  destruct (Hops _ _ HopS) as (opS' & HopS' & (Hty&_&Hout&Hctx'&_)).
  apply (region_inv_resolve g0 n p sw opS opS' c); try done; try congruence.
  unfold switch_at in Hsw. rewrite HopS in Hsw. apply bool_decide_eq_true in Hsw.
  congruence.
Qed.

Lemma process_switch_last_new fuel sw s s' key v :
  _process_switch fuel sw s = (s', Ok tt) ->
  last_op_using_resource_tensor s' !! key = Some v ->
  last_op_using_resource_tensor s !! key = Some v
  \/ length (g_operations (ps_graph s)) <= v.
Proof.
  revert sw s s'. induction fuel as [|fuel IH]; intros sw s s' H Hv; [done|].
  apply process_switch_inv in H
    as (opS & inp & sa & HopS & Hinp & Hrec & Hlen & Hres).
  assert (pass_le s sa
          /\ (last_op_using_resource_tensor sa !! key = Some v ->
              last_op_using_resource_tensor s !! key = Some v
              \/ length (g_operations (ps_graph s)) <= v)) as [Hle Hsa].
  { destruct Hrec as [(_ & _ & Hrec) | (_ & ->)].
    - split; [by eapply preserves_process_switch | by eapply IH].
    - split; [reflexivity | by left]. }
  destruct Hres as [[_ ->] | (Hnone & c & Hctx & ->)]; [by apply Hsa|].
  unfold resolve in Hv. cbn [last_op_using_resource_tensor] in Hv.
  destruct (decide (key = Some (tensor_id inp))) as [->|Hne].
  - rewrite lookup_insert_eq in Hv. injection Hv as <-. right.
    destruct Hle as [Hle _]. by apply graph_le_length.
  - rewrite lookup_insert_ne in Hv by done. by apply Hsa.
Qed.

Lemma tracked_strict g0 n p s v :
  tracked g0 n (S p) s v -> v <> p -> tracked g0 n p s v.
Proof. unfold tracked. intros [[Hv Hw]|Hv] Hne; [left; split; [lia|done] | by right]. Qed.

Lemma region_inv_process_inputs g0 n p op ins ci ri s s' found :
  process_inputs p op ins ci ri s = (s', Ok found) ->
  n <= p < length (g_operations g0) -> while_at g0 p = false ->
  region_inv g0 n (S p) s -> last_user_of p ri s ->
  (forall x, x ∈ ci -> tracked g0 n p s x) ->
  region_inv g0 n (S p) s' /\ last_user_of p found.2 s'
  /\ (forall x, x ∈ found.1 -> tracked g0 n p s' x).
Proof.
  intros H Hp Hw. revert ci ri s H.
  induction ins as [|inp ins IH]; intros ci ri s H Hr Hl Hci.
  { simpl in H. unfold ret in H. by injection H as <- <-. }
  apply process_inputs_cons_inv in H
    as [[_ H] | (Hres & Hnew & sa & Hsa & H)]; [by eapply IH|].
  assert (region_inv g0 n (S p) sa /\ pass_le s sa
          /\ last_user_of p ri sa) as (Hra & Hle & Hla).
  { destruct Hsa as [[Hsw Hcall] | [_ ->]]; [|split; [done|split; [reflexivity|done]]].
    split; [by eapply region_inv_process_switch|].
    split; [by eapply preserves_call_process_switch|].
    intros key Hkey.
    destruct (process_switch_last_new _ _ _ _ _ _ Hcall Hkey) as [Hold|Hge];
      [by apply Hl|].
    destruct Hr as ((Hn0 & _) & _). lia. }
  pose proof (graph_le_length _ _ (proj1 Hle)) as Hlen.
  eapply (IH _ _ _ H).
  - by apply region_inv_use_input.
  - intros key Hkey. unfold use_input in Hkey.
    cbn [last_op_using_resource_tensor] in Hkey.
    destruct (decide (key = Some (tensor_id inp))) as [->|Hne].
    + exists (tensor_id inp). split; [|done].
      apply elem_of_union_r. by apply elem_of_singleton.
    + rewrite lookup_insert_ne in Hkey by done.
      destruct (Hla _ Hkey) as (id & Hid & ->). exists id. split; [|done].
      by apply elem_of_union_l.
  - intros x Hx.
    assert (tracked g0 n p sa x) as Hxa.
    { unfold with_last_user in Hx.
      assert (forall y, y ∈ ci -> tracked g0 n p sa y) as Hci'.
      { intros y Hy. eapply tracked_mono; [done | done | by apply Hci]. }
      destruct (last_op_using_resource_tensor sa !! Some (tensor_id inp))
        as [prev|] eqn:Hprev; [|by apply Hci'].
      destruct (same_context _ _ prev); [|by apply Hci'].
      apply elem_of_union in Hx as [Hx|Hx]; [by apply Hci'|].
      apply elem_of_singleton in Hx as ->.
      apply tracked_strict.
      - destruct Hra as (_ & _ & R3 & _). by eapply R3.
      - intros ->. destruct (Hla _ Hprev) as (id & Hid & Heq).
        injection Heq as <-. done. }
    eapply tracked_mono; [done | | exact Hxa].
    destruct (use_input_pass_le p (tensor_id inp) sa) as [Hle' _].
    by apply graph_le_length.
Qed.

Lemma while_at_current g0 g p op :
  graph_le g0 g -> p < length (g_operations g0) -> graph_op g p = Some op ->
  IsInWhileLoop op = while_at g0 p.
Proof.
  intros Hle Hp Hop.
  destruct (op_le_lookup _ _ _ _ Hle Hop Hp) as (op0 & Hop0 & (_&_&_&Hctx&_)).
  unfold while_at, IsInWhileLoop. by rewrite Hop0, Hctx.
Qed.

Lemma finish_graph p op found s :
  exists X Y,
    ps_graph (finish p op found s)
    = graph_add_control_inputs p Y (graph_add_control_inputs p X (ps_graph s))
    /\ (forall x, x ∈ X -> last_op_using_resource_tensor s !! None = Some x)
    /\ Y ⊆ found.1
    /\ ops_which_must_run (finish p op found s) = ops_which_must_run s
    /\ merge_for_resource (finish p op found s) = merge_for_resource s
    /\ (forall key v,
          last_op_using_resource_tensor (finish p op found s) !! key = Some v ->
          last_op_using_resource_tensor s !! key = Some v \/ v = p).
Proof.
  unfold finish. destruct (_ && _).
  - destruct (last_op_using_resource_tensor s !! None) as [prev|] eqn:Hprev.
    + exists {[ prev ]}, (in_context (graph_add_control_inputs p {[ prev ]} (ps_graph s))
                          (_control_flow_context op) found.1).
      cbn [ps_graph with_graph ops_which_must_run merge_for_resource
           last_op_using_resource_tensor].
      split; [done|]. split; [by intros x ->%elem_of_singleton|].
      split; [intros x Hx; by apply elem_of_filter in Hx as [_ Hx]|].
      split; [done|]. split; [done|]. intros key v Hv.
      destruct (decide (key = None)) as [->|Hne].
      * rewrite lookup_insert_eq in Hv. injection Hv as <-. by right.
      * rewrite lookup_insert_ne in Hv by done. by left.
    + exists ∅, (in_context (ps_graph s) (_control_flow_context op) found.1).
      cbn [ps_graph with_graph ops_which_must_run merge_for_resource
           last_op_using_resource_tensor].
      rewrite graph_add_control_inputs_empty.
      split; [done|]. split; [by intros x ?%not_elem_of_empty|].
      split; [intros x Hx; by apply elem_of_filter in Hx as [_ Hx]|].
      split; [done|]. split; [done|]. intros key v Hv.
      destruct (decide (key = None)) as [->|Hne].
      * rewrite lookup_insert_eq in Hv. injection Hv as <-. by right.
      * rewrite lookup_insert_ne in Hv by done. by left.
  - exists ∅, (in_context (ps_graph s) (_control_flow_context op) found.1).
    cbn [ps_graph with_graph ops_which_must_run merge_for_resource
         last_op_using_resource_tensor].
    rewrite graph_add_control_inputs_empty.
    split; [done|]. split; [by intros x ?%not_elem_of_empty|].
    split; [intros x Hx; by apply elem_of_filter in Hx as [_ Hx]|].
    split; [done|]. split; [done|]. intros key v Hv. by left.
Qed.

Lemma region_inv_finish g0 n p op found s :
  n <= p < length (g_operations g0) -> while_at g0 p = false ->
  region_inv g0 n (S p) s -> last_user_of p found.2 s ->
  (forall x, x ∈ found.1 -> tracked g0 n p s x) ->
  region_inv g0 n (S p) (finish p op found s).
Proof.
  intros Hp Hw Hr Hl Hci. pose proof Hr as (R1 & R2 & R3 & _).
  pose proof R1 as (Hn0 & _ & _ & _ & V).
  destruct (finish_graph p op found s) as (X & Y & Hg & HX & HY & Hmust & Hmf & Hlast).
  assert (graph_le (ps_graph s) (ps_graph (finish p op found s))) as Hle.
  { rewrite Hg. etransitivity; apply graph_add_control_inputs_le. }
  assert (length (g_operations (ps_graph (finish p op found s)))
          = length (g_operations (ps_graph s))) as Hlen.
  { rewrite Hg. by rewrite !graph_add_control_inputs_length. }
  assert (forall x, tracked g0 n p s x ->
            tracked g0 n p (finish p op found s) x) as Hmono.
  { intros x. apply tracked_mono; [done | lia]. }
  apply (region_inv_step g0 n (S p) (S p) s); try done.
  - apply (merges_ok_frame _ s); try done.
    + by rewrite Hmust.
    + intros x Hx. rewrite Hlen. apply V. by rewrite <- Hmust.
  - intros key v Hv. destruct (Hlast _ _ Hv) as [Ho| ->]; [by left|].
    right. left. split; [lia|done].
  - intros x Hx. left. by rewrite <- Hmust.
  - intros t opT' x Ht Hx. rewrite Hg in Ht.
    rewrite !graph_op_add_control_inputs in Ht.
    destruct (graph_op (ps_graph s) t) as [opT|] eqn:HopT; [|done].
    simpl in Ht. injection Ht as <-.
    case_bool_decide as Htp; [|left; exists opT; split; [done|]; by split].
    subst t. simpl in Hx. rewrite !elem_of_union in Hx.
    assert (tracked g0 n p s x
            \/ x ∈ control_inputs opT) as [Hxt|Hxo].
    { destruct Hx as [[Hx|Hx]|Hx]; [by right| |].
      - left. apply tracked_strict; [by eapply R3, HX|].
        intros ->. destruct (Hl None (HX _ Hx)) as (id & _ & Hid). done.
      - left. by apply Hci, HY. }
    2:{ left. exists opT. split; [done|]. split; [|done].
        etransitivity; apply add_control_le. }
    right. split; [eapply tracked_mono; [| |exact Hxt]; lia|].
    right; right. split; [lia|]. split.
    + unfold IsInWhileLoop; simpl. fold (IsInWhileLoop opT).
      rewrite (while_at_current g0 (ps_graph s) p opT); [done | done | lia | done].
    + destruct Hxt as [[Hxp _]|Hxn]; [left; lia | right; left; lia].
  - intros sw k m Hm. left. by rewrite <- Hmf.
Qed.

Lemma repoint_lookup_cases op_id ids last k v :
  repoint op_id ids last !! k = Some v -> last !! k = Some v \/ v = op_id.
Proof.
  revert last. induction ids as [|id ids IH]; intros last; [by left|].
  rewrite repoint_cons. intros H. destruct (IH _ H) as [Ho| ->]; [|by right].
  case_bool_decide; [|by left].
  destruct (decide (k = Some id)) as [->|Hne].
  - rewrite lookup_insert_eq in Ho. injection Ho as <-. by right.
  - rewrite lookup_insert_ne in Ho by done. by left.
Qed.

Lemma region_inv_absorb g0 n p op s s' :
  n <= p < length (g_operations g0) -> while_at g0 p = false ->
  graph_op (ps_graph s) p = Some op -> type op = "Merge" ->
  absorb_into_merge p s = (s', Ok tt) ->
  region_inv g0 n (S p) s -> region_inv g0 n (S p) s'.
Proof.
  intros Hp Hw Hop Hty H Hr. pose proof Hr as (R1 & R2 & R3 & R4 & _).
  pose proof R1 as (Hn0 & _ & _ & _ & V).
  destruct (keeps_merges_absorb _ p s s' op (proj2 Hp) Hop Hty H R1) as [Hok' _].
  rewrite absorb_into_merge_spec in H by (by apply valid_handles_of_lt).
  injection H as <-.
  assert (tracked g0 n (S p) s p) as Htp by (left; split; [lia|done]).
  apply (region_inv_step g0 n (S p) (S p) s); try done;
    cbn [ps_graph last_op_using_resource_tensor ops_which_must_run merge_for_resource].
  - apply graph_add_control_inputs_le.
  - intros key v Hv. destruct (repoint_lookup_cases _ _ _ _ _ Hv) as [Ho| ->];
      [by left|]. right. eapply tracked_mono; [| |exact Htp]; [done|].
    cbn [ps_graph]. by rewrite graph_add_control_inputs_length.
  - intros x Hx. apply elem_of_singleton in Hx as ->. right.
    eapply tracked_mono; [| |exact Htp]; [done|].
    cbn [ps_graph]. by rewrite graph_add_control_inputs_length.
  - intros t opT' x Ht Hx. rewrite graph_op_add_control_inputs in Ht.
    destruct (graph_op (ps_graph s) t) as [opT|] eqn:HopT; [|done].
    simpl in Ht. injection Ht as <-.
    case_bool_decide as Htp'; [|left; exists opT; split; [done|]; by split].
    subst t. simpl in Hx. apply elem_of_union in Hx as [Hx|Hx].
    { left. exists opT. split; [done|]. split; [apply add_control_le|done]. }
    right. pose proof (R4 _ Hx) as Hxt. split.
    { eapply tracked_mono; [| |exact Hxt]; [done|].
      cbn [ps_graph]. by rewrite graph_add_control_inputs_length. }
    right; right. split; [lia|]. split.
    + unfold IsInWhileLoop; simpl. fold (IsInWhileLoop opT).
      rewrite (while_at_current g0 (ps_graph s) p opT); [done | done | lia | done].
    + simpl. assert (opT = op) as -> by congruence.
      destruct Hxt as [[Hxp _]|Hxn]; [|right; left; lia].
      destruct (decide (x = p)) as [->|Hne]; [right; by right | left; lia].
  - intros sw k m Hm. by left.
Qed.

Lemma region_inv_process_op g0 n p s s' :
  n <= p < length (g_operations g0) ->
  process_op p s = (s', Ok tt) ->
  region_inv g0 n p s -> region_inv g0 n (S p) s'.
Proof.
  intros Hp H Hr. pose proof Hr as (R1 & R2 & R3 & _).
  assert (region_inv g0 n (S p) s) as Hr1 by (eapply region_inv_weaken; [|done]; lia).
  apply process_op_inv in H as (op & Hop & [[_ ->] | (Hwh & H)]); [done|].
  assert (while_at g0 p = false) as Hw.
  { rewrite <- (while_at_current g0 (ps_graph s) p op); [done | done | lia | done]. }
  pose proof (region_inv_ensured g0 n p op s Hp Hw Hr1) as Hre.
  destruct H as [[_ ->] | [[Hty H] | [_ H]]]; [done | |].
  - apply (region_inv_absorb g0 n p op (ensured p op s) s');
      [done | done | by rewrite ensured_graph | done | done | done].
  - apply serialize_uses_inv in H as (sb & found & Hin & ->).
    destruct (region_inv_process_inputs g0 n p op _ ∅ ∅ _ _ _ Hin Hp Hw Hre)
      as (Hrb & Hlb & Hcb).
    + intros key Hkey. rewrite ensured_last in Hkey.
      destruct (R3 _ _ Hkey) as [[Hlt _]|Hge]; lia.
    + intros x Hx. by apply not_elem_of_empty in Hx.
    + by apply region_inv_finish.
Qed.

Lemma region_inv_run g0 n len p s s' :
  n <= p -> p + len <= length (g_operations g0) ->
  run_pass (seq p len) s = (s', Ok tt) ->
  region_inv g0 n p s -> region_inv g0 n (p + len) s'.
Proof.
  revert p s. induction len as [|len IH]; intros p s Hn Hlen H Hr.
  { simpl in H. unfold ret in H. injection H as <-. by rewrite Nat.add_0_r. }
  simpl in H. apply bind_ok_inv in H as (s1 & [] & Hstep & Hrest).
  replace (p + S len) with (S p + len) by lia.
  apply (IH (S p) s1); [lia | lia | done |].
  eapply region_inv_process_op; [|done|done]. lia.
Qed.

Lemma region_inv_pass g n s' :
  run_pass (new_operations g n) (fresh_pass g) = (s', Ok tt) ->
  region_inv g n (Nat.max n (length (g_operations g))) s'.
Proof.
  intros H. unfold new_operations in H.
  destruct (decide (n <= length (g_operations g))) as [Hle|Hgt].
  - replace (Nat.max n (length (g_operations g)))
      with (n + (length (g_operations g) - n)) by lia.
    eapply region_inv_run; [done | lia | done | apply region_inv_fresh].
  - replace (length (g_operations g) - n) with 0 in H by lia.
    simpl in H. unfold ret in H. injection H as <-.
    replace (Nat.max n (length (g_operations g))) with n by lia.
    apply region_inv_fresh.
Qed.

(** ** The operations that must run *)

Lemma must_grows_process_switch fuel sw s s' :
  _process_switch fuel sw s = (s', Ok tt) ->
  ops_which_must_run s ⊆ ops_which_must_run s'.
Proof.
  revert sw s s'. induction fuel as [|fuel IH]; intros sw s s' H; [done|].
  apply process_switch_inv in H
    as (opS & inp & sa & HopS & Hinp & Hrec & Hlen & Hres).
  assert (ops_which_must_run s ⊆ ops_which_must_run sa) as Hsa.
  { destruct Hrec as [(_ & _ & Hrec) | (_ & ->)]; [by eapply IH | done]. }
  destruct Hres as [[_ ->] | (Hnone & c & Hctx & ->)]; [done|].
  unfold resolve. cbn [ops_which_must_run].
  intros x Hx. apply elem_of_union_l. by apply Hsa.
Qed.

Lemma must_grows_process_inputs p op ins ci ri s s' found :
  process_inputs p op ins ci ri s = (s', Ok found) ->
  ops_which_must_run s ⊆ ops_which_must_run s'.
Proof.
  revert ci ri s. induction ins as [|inp ins IH]; intros ci ri s H.
  { simpl in H. unfold ret in H. by injection H as <- <-. }
  apply process_inputs_cons_inv in H
    as [[_ H] | (Hres & Hnew & sa & Hsa & H)]; [by eapply IH|].
  apply IH in H. unfold use_input in H. cbn [ops_which_must_run] in H.
  etransitivity; [|exact H].
  destruct Hsa as [[_ Hcall] | [_ ->]]; [|done].
  by eapply must_grows_process_switch.
Qed.

Lemma kept_alive_mono s s' o :
  graph_le (ps_graph s) (ps_graph s') ->
  ops_which_must_run s ⊆ ops_which_must_run s' ->
  kept_alive s o -> kept_alive s' o.
Proof.
  intros Hle Hsub (m & path & Hm & Hpath). exists m, path.
  split; [by apply Hsub | by eapply control_chain_mono].
Qed.

Lemma kept_alive_ensured p op s :
  (forall o, kept_alive s o -> kept_alive (ensured p op s) o)
  /\ (forced (ps_graph s) op = true -> kept_alive (ensured p op s) p).
Proof.
  split.
  - intros o. apply kept_alive_mono; [by rewrite ensured_graph|].
    unfold ensured. destruct (_ || _); [|done].
    simpl. intros x Hx. by apply elem_of_union_l.
  - intros Hf. exists p, []. unfold ensured, forced in *. rewrite Hf.
    split; [|simpl; by apply bool_decide_eq_true].
    simpl. apply elem_of_union_r. by apply elem_of_singleton.
Qed.

Lemma kept_alive_process_op n0 p s s' :
  p < n0 -> merges_ok n0 s ->
  process_op p s = (s', Ok tt) ->
  (forall o, kept_alive s o -> kept_alive s' o)
  /\ (forall op, graph_op (ps_graph s) p = Some op -> IsInWhileLoop op = false ->
        forced (ps_graph s) op = true -> kept_alive s' p).
Proof.
  intros Hp Hok H.
  apply process_op_inv in H as (op & Hop & [[Hwh ->] | (Hwh & H)]).
  { split; [done|]. intros op' Hop'. congruence. }
  destruct (kept_alive_ensured p op s) as [He1 He2].
  assert ((forall o, kept_alive (ensured p op s) o -> kept_alive s' o)) as Hstep.
  { destruct H as [[_ ->] | [[Hty H] | [_ H]]]; [done | |].
    - pose proof (merges_ok_ensured n0 p op s Hp Hok) as (_ & _ & _ & _ & V).
      rewrite absorb_into_merge_spec in H by (by apply valid_handles_of_lt).
      injection H as <-. intros o (m & path & Hm & Hpath).
      exists p, (m :: path). cbn [ops_which_must_run].
      split; [by apply elem_of_singleton|].
      cbn [control_chain ps_graph]. apply andb_true_iff. split.
      + apply bool_decide_eq_true. unfold control_inputs_at.
        rewrite graph_op_add_control_inputs, ensured_graph, Hop. simpl.
        rewrite bool_decide_eq_true_2 by done. simpl. by apply elem_of_union_r.
      + eapply control_chain_mono; [|exact Hpath].
        apply graph_add_control_inputs_le.
    - apply serialize_uses_inv in H as (sb & found & Hin & ->).
      intros o Ho.
      destruct (finish_graph p op found sb) as (X & Y & Hg & _ & _ & Hmust & _).
      apply (kept_alive_mono sb).
      + rewrite Hg. etransitivity; apply graph_add_control_inputs_le.
      + by rewrite Hmust.
      + revert Ho. apply kept_alive_mono.
        * by destruct (preserves_process_inputs _ _ _ _ _ _ _ _ Hin).
        * by eapply must_grows_process_inputs. }
  split.
  - intros o Ho. by apply Hstep, He1.
  - intros op' Hop' _ Hf. assert (op' = op) as -> by congruence.
    by apply Hstep, He2.
Qed.

Lemma forced_current g0 g p op0 op :
  graph_le g0 g -> graph_op g0 p = Some op0 -> graph_op g p = Some op ->
  forced g op = forced g0 op0 /\ IsInWhileLoop op = IsInWhileLoop op0.
Proof.
  intros (_ & Hreg & _ & _ & _ & Hops) Hop0 Hop.
  destruct (Hops _ _ Hop0) as (op' & Hop' & (Ht & _ & _ & Hc & Hs & _)).
  assert (op' = op) as -> by congruence.
  unfold forced, op_is_stateful, IsInWhileLoop. by rewrite Hreg, Ht, Hc, Hs.
Qed.

Lemma kept_alive_run g0 n len p s s' :
  p + len <= length (g_operations g0) ->
  run_pass (seq p len) s = (s', Ok tt) ->
  merges_ok (length (g_operations g0)) s -> graph_le g0 (ps_graph s) ->
  (forall o op, n <= o < p -> graph_op g0 o = Some op ->
     IsInWhileLoop op = false -> forced g0 op = true -> kept_alive s o) ->
  forall o op, n <= o < p + len -> graph_op g0 o = Some op ->
    IsInWhileLoop op = false -> forced g0 op = true -> kept_alive s' o.
Proof.
  revert p s. induction len as [|len IH]; intros p s Hlen H Hok Hle Hinv.
  { simpl in H. unfold ret in H. injection H as <-. by rewrite Nat.add_0_r. }
  simpl in H. apply bind_ok_inv in H as (s1 & [] & Hstep & Hrest).
  replace (p + S len) with (S p + len) by lia.
  assert (p < length (g_operations g0)) as Hp by lia.
  destruct (kept_alive_process_op _ p s s1 Hp Hok Hstep) as [Hkeep Hnew].
  apply (IH (S p) s1); [lia | done | | |].
  - by destruct (keeps_merges_process_op _ p Hp _ _ _ Hstep Hok).
  - etransitivity; [exact Hle|]. by destruct (preserves_process_op _ _ _ _ Hstep).
  - intros o op Ho Hop Hwh Hf.
    destruct (decide (o = p)) as [->|Hne].
    + destruct Hle as (Ha & Hb & Hc & Hd & He & Hops).
      destruct (Hops _ _ Hop) as (op' & Hop' & Hople).
      destruct (forced_current g0 (ps_graph s) p op op'
                  (conj Ha (conj Hb (conj Hc (conj Hd (conj He Hops))))) Hop Hop')
        as [Hf' Hw'].
      apply (Hnew op'); [done | congruence | congruence].
    + apply Hkeep. apply (Hinv o op); [lia | done | done | done].
Qed.

(** ** The users of a resource *)

Lemma process_switch_last_frame g0 n p r fuel sw s s' :
  not_switched g0 r = true -> region_inv g0 n p s ->
  switch_at (ps_graph s) sw = true ->
  _process_switch fuel sw s = (s', Ok tt) ->
  last_op_using_resource_tensor s' !! Some r
  = last_op_using_resource_tensor s !! Some r.
Proof.
  intros Hns Hr. revert sw s'.
  induction fuel as [|fuel IH]; intros sw s' Hsw H; [done|].
  apply process_switch_inv in H
    as (opS & inp & sa & HopS & Hinp & Hrec & Hlen & Hres).
  assert (last_op_using_resource_tensor sa !! Some r
          = last_op_using_resource_tensor s !! Some r) as Hsa.
  { destruct Hrec as [(_ & Hsw' & Hrec) | (_ & ->)]; [by eapply IH | done]. }
  destruct Hres as [[_ ->] | (Hnone & c & Hctx & ->)]; [done|].
  unfold resolve. cbn [last_op_using_resource_tensor].
  rewrite lookup_insert_ne; [done|].
  intros [= Heq]. destruct Hr as (R1 & R2 & _).
  eapply (not_switched_at g0 r s sw opS inp); try done.
  unfold switch_at in Hsw. rewrite HopS in Hsw.
  by apply bool_decide_eq_true in Hsw.
Qed.

Lemma process_inputs_last_user g0 n p r op ins ci ri s s' found :
  not_switched g0 r = true ->
  n <= p < length (g_operations g0) -> while_at g0 p = false ->
  process_inputs p op ins ci ri s = (s', Ok found) ->
  region_inv g0 n (S p) s ->
  ci ⊆ found.1
  /\ ((r ∈ ri) \/ (forall t, t ∈ ins -> dtype t = resource -> tensor_id t <> r) ->
      last_op_using_resource_tensor s' !! Some r
      = last_op_using_resource_tensor s !! Some r)
  /\ ((r ∉ ri) -> (exists t, t ∈ ins /\ dtype t = resource /\ tensor_id t = r) ->
      last_op_using_resource_tensor s' !! Some r = Some p
      /\ forall u, last_op_using_resource_tensor s !! Some r = Some u ->
           same_context (ps_graph s) (_control_flow_context op) u = true ->
           u ∈ found.1).
Proof.
  intros Hns Hp Hw. revert ci ri s.
  induction ins as [|inp ins IH]; intros ci ri s H Hr.
  { simpl in H. unfold ret in H. injection H as <- <-. simpl.
    split; [done|]. split; [done|].
    intros _ (t & Ht & _). by apply elem_of_nil in Ht. }
  apply process_inputs_cons_inv in H
    as [[Hskip H] | (Hres & Hnew & sa & Hsa & H)].
  - destruct (IH _ _ _ H Hr) as (Ha & Hb & Hc).
    split; [done|]. split.
    + intros [Hri | Hno]; apply Hb; [by left | right].
      intros t Ht. apply Hno. by right.
    + intros Hri (t & Ht & Hdt & Hid). apply Hc; [done|].
      apply elem_of_cons in Ht as [-> | Ht]; [|by exists t].
      destruct Hskip as [Hnr | Hin]; [done|]. by rewrite Hid in Hin.
  - assert (region_inv g0 n (S p) sa /\ pass_le s sa
            /\ last_op_using_resource_tensor sa !! Some r
               = last_op_using_resource_tensor s !! Some r) as (Hra & Hle & Hla).
    { destruct Hsa as [[Hsw Hcall] | [_ ->]];
        [|split; [done|]; split; [reflexivity|done]].
      split; [by eapply region_inv_process_switch|].
      split; [by eapply preserves_call_process_switch|].
      by eapply process_switch_last_frame. }
    pose proof (region_inv_use_input g0 n p (tensor_id inp) sa Hp Hw Hra) as Hr1.
    destruct (IH _ _ _ H Hr1) as (Ha & Hb & Hc).
    assert (ci ⊆ with_last_user (_control_flow_context op) (tensor_id inp) ci sa)
      as Hci.
    { unfold with_last_user.
      destruct (last_op_using_resource_tensor sa !! Some (tensor_id inp)) as [prev|];
        [|reflexivity].
      destruct (same_context (ps_graph sa) (_control_flow_context op) prev);
        [|reflexivity].
      intros x Hx. by apply elem_of_union_l. }
    split; [by etransitivity|].
    destruct (decide (tensor_id inp = r)) as [Heq|Hne].
    + split.
      * intros [Hri | Hno]; [by rewrite Heq in Hnew|].
        exfalso. apply (Hno inp); [by left | done | done].
      * intros _ _.
        assert (last_op_using_resource_tensor s' !! Some r = Some p) as Hlast.
        { rewrite Hb.
          - unfold use_input. cbn [last_op_using_resource_tensor].
            rewrite Heq. apply lookup_insert_eq.
          - left. rewrite <- Heq. apply elem_of_union_r. by apply elem_of_singleton. }
        split; [done|]. intros u Hu Hctx. apply Ha.
        unfold with_last_user. rewrite Heq, Hla, Hu.
        rewrite (same_context_mono _ _ _ _ (proj1 Hle) Hctx).
        apply elem_of_union_r. by apply elem_of_singleton.
    + assert (last_op_using_resource_tensor (use_input p (tensor_id inp) sa) !! Some r
              = last_op_using_resource_tensor s !! Some r) as Hl1.
      { unfold use_input. cbn [last_op_using_resource_tensor].
        rewrite lookup_insert_ne by congruence. done. }
      split.
      * intros Hcase. rewrite Hb; [done|].
        destruct Hcase as [Hri | Hno]; [left; by apply elem_of_union_l | right].
        intros t Ht. apply Hno. by right.
      * intros Hri (t & Ht & Hdt & Hid).
        destruct Hc as [Hlast Hu].
        -- rewrite elem_of_union, elem_of_singleton. intros [?|?]; [done | congruence].
        -- apply elem_of_cons in Ht as [-> | Ht]; [done | by exists t].
        -- split; [done|]. intros u Hu' Hctx. apply Hu; [by rewrite Hl1|].
           eapply same_context_mono; [|exact Hctx].
           etransitivity; [exact (proj1 Hle)|].
           by destruct (use_input_pass_le p (tensor_id inp) sa).
Qed.

Lemma finish_last_Some p op found s r :
  last_op_using_resource_tensor (finish p op found s) !! Some r
  = last_op_using_resource_tensor s !! Some r.
Proof.
  unfold finish. destruct (_ && _); cbn [with_graph last_op_using_resource_tensor];
    [by rewrite lookup_insert_ne | done].
Qed.

Lemma finish_le p op found s : graph_le (ps_graph s) (ps_graph (finish p op found s)).
Proof.
  destruct (finish_graph p op found s) as (X & Y & Hg & _). rewrite Hg.
  etransitivity; apply graph_add_control_inputs_le.
Qed.

Lemma finish_adds p op found s opP u :
  graph_op (ps_graph s) p = Some opP ->
  u ∈ found.1 -> same_context (ps_graph s) (_control_flow_context op) u = true ->
  u ∈ control_inputs_at (ps_graph (finish p op found s)) p.
Proof.
  intros Hop Hu Hctx.
  assert (forall g1, graph_le (ps_graph s) g1 ->
            u ∈ control_inputs_at
                  (graph_add_control_inputs p
                     (in_context g1 (_control_flow_context op) found.1) g1) p)
    as Hany.
  { intros g1 Hle. unfold control_inputs_at. rewrite graph_op_add_control_inputs.
    pose proof Hle as (_&_&_&_&_&Hops).
    destruct (Hops _ _ Hop) as (op1 & Hop1 & _). rewrite Hop1. simpl.
    rewrite bool_decide_eq_true_2 by done. simpl. apply elem_of_union_r.
    apply elem_of_filter. split; [|done]. by eapply same_context_mono. }
  unfold finish. destruct (_ && _); cbn [ps_graph with_graph].
  - apply Hany. destruct (last_op_using_resource_tensor s !! None);
      [apply graph_add_control_inputs_le | reflexivity].
  - apply Hany. reflexivity.
Qed.

Lemma uses_resource_false op id :
  uses_resource op id = false ->
  forall t, t ∈ inputs op -> dtype t = resource -> tensor_id t <> id.
Proof.
  unfold uses_resource. intros H t Ht Hdt Hid.
  apply not_true_iff_false in H. apply H. apply existsb_exists.
  exists t. split; [by apply list_elem_of_In|].
  by rewrite !bool_decide_eq_true_2.
Qed.

Lemma serialize_uses_last_user g0 n p r op s s' :
  not_switched g0 r = true ->
  n <= p < length (g_operations g0) -> while_at g0 p = false ->
  region_inv g0 n (S p) s -> graph_op (ps_graph s) p = Some op ->
  serialize_uses p op s = (s', Ok tt) ->
  (uses_resource op r = false ->
   last_op_using_resource_tensor s' !! Some r
   = last_op_using_resource_tensor s !! Some r)
  /\ (uses_resource op r = true ->
      last_op_using_resource_tensor s' !! Some r = Some p
      /\ forall u, last_op_using_resource_tensor s !! Some r = Some u ->
           same_context (ps_graph s) (_control_flow_context op) u = true ->
           u ∈ control_inputs_at (ps_graph s') p).
Proof.
  intros Hns Hp Hw Hr Hop H.
  apply serialize_uses_inv in H as (sb & found & Hin & ->).
  destruct (process_inputs_last_user g0 n p r op _ ∅ ∅ _ _ _ Hns Hp Hw Hin Hr)
    as (_ & Hb & Hc).
  pose proof (preserves_process_inputs _ _ _ _ _ _ _ _ Hin) as [Hle _].
  split.
  - intros Hu. rewrite finish_last_Some. apply Hb. right.
    by apply uses_resource_false.
  - intros Hu. apply uses_resource_true in Hu.
    destruct Hc as [Hlast Hfound]; [by apply not_elem_of_empty | done |].
    split; [by rewrite finish_last_Some|].
    intros u Hlu Hctx. pose proof Hle as (_&_&_&_&_&Hops).
    destruct (Hops _ _ Hop) as (opb & Hopb & _).
    apply (finish_adds p op found sb opb); [done | by apply Hfound |].
    by eapply same_context_mono.
Qed.

Lemma op_facts_current g0 g p op0 op :
  graph_le g0 g -> graph_op g0 p = Some op0 -> graph_op g p = Some op ->
  type op = type op0 /\ inputs op = inputs op0
  /\ _control_flow_context op = _control_flow_context op0.
Proof.
  intros (_&_&_&_&_&Hops) Hop0 Hop.
  destruct (Hops _ _ Hop0) as (op' & Hop' & (Ht & Hi & _ & Hc & _)).
  assert (op' = op) as -> by congruence. done.
Qed.

Lemma process_op_last_user g0 n p r s s' op :
  not_switched g0 r = true -> n <= p < length (g_operations g0) ->
  region_inv g0 n p s ->
  graph_op (ps_graph s) p = Some op -> process_op p s = (s', Ok tt) ->
  type op <> "Merge" \/ IsInWhileLoop op = true ->
  (last_op_using_resource_tensor s' !! Some r
   = last_op_using_resource_tensor s !! Some r
   /\ (plain_consumer op = true -> uses_resource op r = false))
  \/ (IsInWhileLoop op = false /\ uses_resource op r = true
      /\ last_op_using_resource_tensor s' !! Some r = Some p
      /\ forall u, last_op_using_resource_tensor s !! Some r = Some u ->
           same_context (ps_graph s) (_control_flow_context op) u = true ->
           u ∈ control_inputs_at (ps_graph s') p).
Proof.
  intros Hns Hp Hr Hop H Hquiet. pose proof Hr as (_ & R2 & _).
  apply process_op_inv in H as (op' & Hop' & H).
  assert (op' = op) as -> by congruence.
  destruct H as [[Hwh ->] | (Hwh & H)].
  { left. split; [done|]. unfold plain_consumer. by rewrite Hwh. }
  destruct H as [[Hty ->] | [[Hty H] | [Hty H]]].
  - left. split; [by rewrite ensured_last|].
    unfold plain_consumer. rewrite (bool_decide_eq_true_2 _ Hty).
    by rewrite andb_false_r.
  - destruct Hquiet as [Hq|Hq]; congruence.
  - assert (while_at g0 p = false) as Hw.
    { rewrite <- (while_at_current g0 (ps_graph s) p op); [done | done | lia | done]. }
    assert (region_inv g0 n (S p) (ensured p op s)) as Hre.
    { apply region_inv_ensured; [done | done |].
      eapply region_inv_weaken; [|done]. lia. }
    destruct (serialize_uses_last_user g0 n p r op (ensured p op s) s'
                Hns Hp Hw Hre) as [Hno Hyes];
      [by rewrite ensured_graph | done |].
    rewrite ensured_last, ensured_graph in *.
    destruct (uses_resource op r) eqn:Hu.
    + right. destruct (Hyes eq_refl) as [Hl Hedge]. done.
    + left. split; [by apply Hno | done].
Qed.

Lemma same_context_trans g c d u :
  same_context g c u = true -> ctx_is c d = true -> same_context g d u = true.
Proof.
  unfold same_context. destruct (graph_op g u) as [o|]; [|done].
  apply ctx_is_trans.
Qed.

Lemma chained_to_step g0 n r a ctx x s s' op0 :
  not_switched g0 r = true -> n <= a -> a < x < length (g_operations g0) ->
  region_inv g0 n x s -> chained_to g0 r a ctx x s ->
  graph_op g0 x = Some op0 ->
  IsInWhileLoop op0
  || (negb (bool_decide (type op0 = "Merge"))
      && (negb (uses_resource op0 r) || ctx_is (_control_flow_context op0) ctx))
  = true ->
  process_op x s = (s', Ok tt) -> chained_to g0 r a ctx (S x) s'.
Proof.
  intros Hns Hn Hx Hr (u & path & Hlast & Hu & Huses & Hctx & Hchain & Hpath)
         Hop0 Hquiet H.
  pose proof Hr as (_ & R2 & _).
  pose proof R2 as (_&_&_&_&_&Hops).
  destruct (Hops _ _ Hop0) as (op & Hop & _).
  destruct (op_facts_current g0 _ x op0 op R2 Hop0 Hop) as (Hty & Hin & Hc).
  assert (IsInWhileLoop op = IsInWhileLoop op0) as Hwh
    by (unfold IsInWhileLoop; by rewrite Hc).
  assert (uses_resource op r = uses_resource op0 r) as Hur
    by (unfold uses_resource; by rewrite Hin).
  pose proof (preserves_process_op _ _ _ _ H) as [Hle _].
  destruct (process_op_last_user g0 n x r s s' op Hns) as [[Hsame _] | Hnew];
    try done; [lia | |  |].
  { apply orb_true_iff in Hquiet as [Hq|Hq]; [right; congruence|left].
    apply andb_true_iff in Hq as [Hq _]. apply negb_true_iff in Hq.
    apply bool_decide_eq_false in Hq. congruence. }
  - exists u, path. rewrite Hsame. split; [done|]. split; [lia|].
    split; [done|]. split; [by eapply same_context_mono|].
    split; [by eapply control_chain_mono | done].
  - destruct Hnew as (Hnw & Huse & Hl' & Hedge).
    assert (ctx_is (_control_flow_context op0) ctx = true) as Hctx0.
    { apply orb_true_iff in Hquiet as [Hq|Hq]; [congruence|].
      apply andb_true_iff in Hq as [_ Hq].
      apply orb_true_iff in Hq as [Hq|Hq]; [|done].
      apply negb_true_iff in Hq. congruence. }
    exists x, (u :: path). split; [done|]. split; [lia|].
    split; [unfold uses_at; rewrite Hop0; congruence|].
    split.
    { unfold same_context. destruct Hle as (_&_&_&_&_&Hops').
      destruct (Hops' _ _ Hop) as (op' & -> & (_&_&_&Hc'&_)). congruence. }
    split.
    { cbn [control_chain]. apply andb_true_iff. split.
      - apply bool_decide_eq_true. apply Hedge; [done|].
        apply (same_context_trans _ ctx); [done|].
        rewrite Hc, ctx_is_sym. done.
      - by eapply control_chain_mono. }
    apply Forall_cons. split; [split; [lia|done]|].
    eapply Forall_impl; [exact Hpath|]. intros v [Hv Hvu]. split; [lia|done].
Qed.

Lemma chained_to_start g0 n r a s s' op0 :
  not_switched g0 r = true -> n <= a < length (g_operations g0) ->
  region_inv g0 n a s -> graph_op g0 a = Some op0 ->
  plain_consumer op0 = true -> uses_resource op0 r = true ->
  process_op a s = (s', Ok tt) ->
  chained_to g0 r a (_control_flow_context op0) (S a) s'.
Proof.
  intros Hns Ha Hr Hop0 Hplain Huses H.
  pose proof Hr as (_ & R2 & _).
  pose proof R2 as (_&_&_&_&_&Hops).
  destruct (Hops _ _ Hop0) as (op & Hop & _).
  destruct (op_facts_current g0 _ a op0 op R2 Hop0 Hop) as (Hty & Hin & Hc).
  assert (plain_consumer op = true) as Hplain'.
  { revert Hplain. unfold plain_consumer, IsInWhileLoop. by rewrite Hty, Hc. }
  assert (uses_resource op r = true) as Huses'
    by (unfold uses_resource; by rewrite Hin).
  pose proof (preserves_process_op _ _ _ _ H) as [Hle _].
  destruct (process_op_last_user g0 n a r s s' op Hns) as [[_ Hno] | Hnew];
    try done.
  { left. by apply plain_consumer_true in Hplain' as (_ & _ & ?). }
  { specialize (Hno Hplain'). congruence. }
  destruct Hnew as (_ & _ & Hl' & _).
  exists a, []. split; [done|]. split; [lia|].
  split; [unfold uses_at; by rewrite Hop0|].
  split.
  { unfold same_context. destruct Hle as (_&_&_&_&_&Hops').
    destruct (Hops' _ _ Hop) as (op' & -> & (_&_&_&Hc'&_)).
    rewrite <- Hc', Hc. apply ctx_is_refl. }
  split; [simpl; by apply bool_decide_eq_true | by apply Forall_nil].
Qed.

Lemma chained_to_run g0 n r a ctx len p s s' :
  not_switched g0 r = true -> n <= a -> a < p ->
  p + len <= length (g_operations g0) ->
  forallb (fun x =>
    match graph_op g0 x with
    | Some op =>
        IsInWhileLoop op
        || (negb (bool_decide (type op = "Merge"))
            && (negb (uses_resource op r)
                || ctx_is (_control_flow_context op) ctx))
    | None => true
    end) (seq p len) = true ->
  run_pass (seq p len) s = (s', Ok tt) ->
  region_inv g0 n p s -> chained_to g0 r a ctx p s ->
  region_inv g0 n (p + len) s' /\ chained_to g0 r a ctx (p + len) s'.
Proof.
  intros Hns Hn. revert p s.
  induction len as [|len IH]; intros p s Hp Hlen Hq H Hr Hch.
  { simpl in H. unfold ret in H. injection H as <-. by rewrite Nat.add_0_r. }
  simpl in H. apply bind_ok_inv in H as (s1 & [] & Hstep & Hrest).
  simpl in Hq. apply andb_true_iff in Hq as [Hqp Hq].
  replace (p + S len) with (S p + len) by lia.
  destruct (lookup_lt_is_Some_2 (g_operations g0) p) as [op0 Hop0]; [lia|].
  unfold graph_op in Hqp. rewrite Hop0 in Hqp.
  apply (IH (S p) s1); [lia | lia | done | done | |].
  - eapply region_inv_process_op; [|done|done]. lia.
  - eapply (chained_to_step g0 n r a ctx p s s1 op0); try done. lia.
Qed.

Lemma chained_to_end g0 n r a b ctx s s' op0 :
  not_switched g0 r = true -> n <= b < length (g_operations g0) ->
  region_inv g0 n b s -> chained_to g0 r a ctx b s ->
  graph_op g0 b = Some op0 ->
  plain_consumer op0 = true -> uses_resource op0 r = true ->
  ctx_is ctx (_control_flow_context op0) = true ->
  process_op b s = (s', Ok tt) ->
  exists u path,
    control_chain (ps_graph s') b (u :: path) a = true
    /\ Forall (fun v => a <= v < b /\ uses_at g0 r v = true) (u :: path).
Proof.
  intros Hns Hb Hr (u & path & Hlast & Hu & Huses & Hctx & Hchain & Hpath)
         Hop0 Hplain Hub Hcc H.
  pose proof Hr as (_ & R2 & _).
  pose proof R2 as (_&_&_&_&_&Hops).
  destruct (Hops _ _ Hop0) as (op & Hop & _).
  destruct (op_facts_current g0 _ b op0 op R2 Hop0 Hop) as (Hty & Hin & Hc).
  assert (plain_consumer op = true) as Hplain'.
  { revert Hplain. unfold plain_consumer, IsInWhileLoop. by rewrite Hty, Hc. }
  assert (uses_resource op r = true) as Huses'
    by (unfold uses_resource; by rewrite Hin).
  pose proof (preserves_process_op _ _ _ _ H) as [Hle _].
  destruct (process_op_last_user g0 n b r s s' op Hns) as [[_ Hno] | Hnew];
    try done.
  { left. by apply plain_consumer_true in Hplain' as (_ & _ & ?). }
  { specialize (Hno Hplain'). congruence. }
  destruct Hnew as (_ & _ & _ & Hedge).
  exists u, path. split.
  - cbn [control_chain]. apply andb_true_iff. split.
    + apply bool_decide_eq_true. apply Hedge; [done|].
      apply (same_context_trans _ ctx); [done|]. by rewrite Hc.
    + by eapply control_chain_mono.
  - apply Forall_cons. split; [split; [lia|done]|].
    eapply Forall_impl; [exact Hpath|]. intros v [Hv Hvu]. split; [lia|done].
Qed.

Lemma seq_split p len w :
  p <= w < p + len ->
  seq p len = seq p (w - p) ++ w :: seq (S w) (p + len - S w).
Proof.
  intros Hw. replace len with ((w - p) + S (p + len - S w)) at 1 by lia.
  rewrite seq_app. simpl. by replace (p + (w - p)) with w by lia.
Qed.

Lemma last_user_kept_run g0 n r a ctx len p s s' :
  not_switched g0 r = true -> n <= p ->
  p + len <= length (g_operations g0) ->
  forallb (fun x =>
    match graph_op g0 x with
    | Some op =>
        IsInWhileLoop op
        || (negb (bool_decide (type op = "Merge")) && negb (uses_resource op r))
    | None => true
    end) (seq p len) = true ->
  run_pass (seq p len) s = (s', Ok tt) ->
  region_inv g0 n p s ->
  last_op_using_resource_tensor s !! Some r = Some a ->
  same_context (ps_graph s) ctx a = true ->
  region_inv g0 n (p + len) s'
  /\ last_op_using_resource_tensor s' !! Some r = Some a
  /\ same_context (ps_graph s') ctx a = true.
Proof.
  intros Hns. revert p s.
  induction len as [|len IH]; intros p s Hp Hlen Hq H Hr Hl Hc.
  { simpl in H. unfold ret in H. injection H as <-. by rewrite Nat.add_0_r. }
  simpl in H. apply bind_ok_inv in H as (s1 & [] & Hstep & Hrest).
  simpl in Hq. apply andb_true_iff in Hq as [Hqp Hq].
  replace (p + S len) with (S p + len) by lia.
  destruct (lookup_lt_is_Some_2 (g_operations g0) p) as [op0 Hop0]; [lia|].
  unfold graph_op in Hqp. rewrite Hop0 in Hqp.
  pose proof Hr as (_ & R2 & _). pose proof R2 as (_&_&_&_&_&Hops).
  destruct (Hops _ _ Hop0) as (op & Hop & _).
  destruct (op_facts_current g0 _ p op0 op R2 Hop0 Hop) as (Hty & Hin & Hcx).
  assert (IsInWhileLoop op = IsInWhileLoop op0) as Hwh
    by (unfold IsInWhileLoop; by rewrite Hcx).
  assert (uses_resource op r = uses_resource op0 r) as Hur
    by (unfold uses_resource; by rewrite Hin).
  pose proof (preserves_process_op _ _ _ _ Hstep) as [Hle _].
  apply (IH (S p) s1); [lia | lia | done | done | | |].
  - eapply region_inv_process_op; [|done|done]. lia.
  - destruct (process_op_last_user g0 n p r s s1 op Hns) as [[Hsame _] | Hnew];
      try done; [lia | | congruence |].
    + apply orb_true_iff in Hqp as [Hq'|Hq']; [right; congruence|left].
      apply andb_true_iff in Hq' as [Hq' _]. apply negb_true_iff in Hq'.
      apply bool_decide_eq_false in Hq'. congruence.
    + destruct Hnew as (Hnw & Huse & _).
      apply orb_true_iff in Hqp as [Hq'|Hq']; [congruence|].
      apply andb_true_iff in Hq' as [_ Hq']. apply negb_true_iff in Hq'. congruence.
  - by eapply same_context_mono.
Qed.

(** ** Passes that end well *)

Lemma succeeds_ret {S A} (a : A) (s : S) : succeeds (ret a) s.
Proof. by exists s, a. Qed.

Lemma succeeds_gets {S A} (f : S -> A) (s : S) : succeeds (gets f) s.
Proof. by exists s, (f s). Qed.

Lemma succeeds_modify {S} (f : S -> S) (s : S) : succeeds (modify f) s.
Proof. by exists (f s), tt. Qed.

Lemma succeeds_bind {S A B} (c : M S A) (k : A -> M S B) s s1 a :
  c s = (s1, Ok a) -> succeeds (k a) s1 -> succeeds (bind c k) s.
Proof. intros H (s' & b & Hk). exists s', b. by rewrite (bind_ok _ _ _ _ _ H). Qed.

Lemma succeeds_bind_all {S A B} (c : M S A) (k : A -> M S B) s :
  succeeds c s -> (forall s1 a, succeeds (k a) s1) -> succeeds (bind c k) s.
Proof. intros (s1 & a & H) Hk. eapply succeeds_bind; [exact H | apply Hk]. Qed.

Lemma succeeds_for_each_all {S A} (l : list A) (body : A -> M S unit) s :
  (forall x s1, succeeds (body x) s1) -> succeeds (for_each l body) s.
Proof.
  intros Hb. revert s. induction l as [|x l IH]; intros s; simpl.
  - apply succeeds_ret.
  - apply succeeds_bind_all; [apply Hb | intros; apply IH].
Qed.

Lemma succeeds_merge ins s : succeeds (merge ins) s.
Proof. unfold succeeds, merge. by eexists _, _. Qed.

Ltac succeeds_step :=
  first
    [ apply succeeds_ret
    | apply succeeds_gets
    | apply succeeds_modify
    | apply succeeds_merge
    | apply succeeds_for_each_all; intros
    | apply succeeds_bind_all; [|intros]
    | match goal with
      | |- succeeds (match ?x with _ => _ end) _ => destruct x
      end ].

Lemma well_formed_op g i op :
  well_formed g = true -> graph_op g i = Some op ->
  (forall t, t ∈ inputs op -> dtype t = resource ->
     t_op t < length (g_operations g))
  /\ (type op = "Switch" ->
      exists inp c,
        inputs op !! 0 = Some inp
        /\ (dtype inp = resource -> switch_at g (t_op inp) = true -> t_op inp < i)
        /\ 0 < length (output_dtypes op)
        /\ _control_flow_context op = Some c).
Proof.
  intros Hwf Hop. unfold well_formed in Hwf. rewrite forallb_forall in Hwf.
  specialize (Hwf i). rewrite Hop in Hwf.
  assert (In i (seq 0 (length (g_operations g)))) as Hi.
  { apply in_seq. apply lookup_lt_Some in Hop. lia. }
  specialize (Hwf Hi). unfold well_formed_at in Hwf.
  apply andb_true_iff in Hwf as [Hin Hsw]. split.
  - intros t Ht Hdt. rewrite forallb_forall in Hin.
    specialize (Hin t). rewrite (bool_decide_eq_true_2 _ Hdt) in Hin. simpl in Hin.
    apply Nat.ltb_lt, Hin. by apply list_elem_of_In.
  - intros Hty. rewrite (bool_decide_eq_true_2 _ Hty) in Hsw. simpl in Hsw.
    apply andb_true_iff in Hsw as [Hsw Hctx].
    apply andb_true_iff in Hsw as [Hinp Hout].
    destruct (inputs op !! 0) as [inp|]; [|done].
    apply bool_decide_eq_true in Hctx as [c Hc].
    exists inp, c. split; [done|]. split; [|split; [by apply Nat.ltb_lt | done]].
    intros Hdt Hs. rewrite (bool_decide_eq_true_2 _ Hdt), Hs in Hinp.
    simpl in Hinp. by apply Nat.ltb_lt.
Qed.

(** The facts of [well_formed_op], read in a state of the pass. *)
Lemma well_formed_current g0 n p s i op :
  well_formed g0 = true -> region_inv g0 n p s ->
  graph_op (ps_graph s) i = Some op ->
  (i < length (g_operations g0) ->
   forall t, t ∈ inputs op -> dtype t = resource ->
     is_Some (graph_op (ps_graph s) (t_op t)))
  /\ (type op = "Switch" ->
      exists inp c,
        inputs op !! 0 = Some inp
        /\ (dtype inp = resource -> switch_at (ps_graph s) (t_op inp) = true ->
            t_op inp < i)
        /\ 0 < length (output_dtypes op)
        /\ _control_flow_context op = Some c).
Proof.
  intros Hwf (R1 & R2 & _) Hop. pose proof R1 as (Hn0 & _ & M2 & _). split.
  - intros Hi t Ht Hdt.
    destruct (op_le_lookup _ _ _ _ R2 Hop Hi) as (op0 & Hop0 & (_ & Hin & _)).
    destruct (well_formed_op g0 i op0 Hwf Hop0) as [Hex _].
    apply lookup_lt_is_Some_2. rewrite Hin in Hex.
    specialize (Hex t Ht Hdt). lia.
  - intros Hty.
    destruct (decide (i < length (g_operations g0))) as [Hi|Hi].
    2:{ destruct (M2 i op) as [Hm _]; [lia | done | congruence]. }
    destruct (op_le_lookup _ _ _ _ R2 Hop Hi)
      as (op0 & Hop0 & (Ht0 & Hin & Hout & Hctx & _)).
    destruct (well_formed_op g0 i op0 Hwf Hop0) as [_ Hsw].
    destruct Hsw as (inp & c & Hinp & Hlt & Hlen & Hc); [congruence|].
    exists inp, c. rewrite <- Hin, <- Hout, <- Hctx. split; [done|].
    split; [|done]. intros Hdt Hs. apply Hlt; [done|].
    by apply (switch_at_back g0 s).
Qed.

Lemma process_switch_succeeds g0 n p fuel sw s :
  well_formed g0 = true -> region_inv g0 n p s ->
  switch_at (ps_graph s) sw = true -> sw < fuel ->
  succeeds (_process_switch fuel sw) s.
Proof.
  intros Hwf Hr. revert sw.
  induction fuel as [|fuel IH]; intros sw Hsw Hfuel; [lia|].
  pose proof Hsw as Hsw'. unfold switch_at in Hsw'.
  destruct (graph_op (ps_graph s) sw) as [opS|] eqn:HopS; [|done].
  apply bool_decide_eq_true in Hsw'.
  destruct (well_formed_current g0 n p s sw opS Hwf Hr HopS) as [Hex Hfacts].
  destruct (Hfacts Hsw') as (inp & c & Hinp & Hlt & Hlen & Hc).
  assert (sw < length (g_operations g0)) as Hsw0.
  { destruct Hr as ((_ & _ & M2 & _) & _).
    destruct (decide (sw < length (g_operations g0))) as [?|Hge]; [done|].
    destruct (M2 sw opS) as [Hm _]; [lia | done | congruence]. }
  simpl.
  eapply succeeds_bind; [by apply get_op_ok|].
  eapply succeeds_bind; [by apply index_ok|].
  assert (exists sa,
            (if bool_decide (dtype inp = resource)
             then let! producer := get_op (t_op inp) in
                  if bool_decide (type producer = "Switch")
                  then _process_switch fuel (t_op inp)
                  else ret tt
             else ret tt) s = (sa, Ok tt)) as [sa Hsa].
  { case_bool_decide as Hd; [|by exists s].
    destruct (Hex Hsw0 inp) as [producer Hp];
      [by eapply list_elem_of_lookup_2 | done |].
    rewrite (bind_ok _ _ _ _ _ (get_op_ok _ _ _ Hp)).
    case_bool_decide as Hty; [|by exists s].
    destruct (IH (t_op inp)) as (sa & [] & Hsa).
    - unfold switch_at. rewrite Hp. by apply bool_decide_eq_true.
    - assert (t_op inp < sw); [|lia]. apply Hlt; [done|].
      unfold switch_at. rewrite Hp. by apply bool_decide_eq_true.
    - by exists sa. }
  eapply succeeds_bind; [exact Hsa|].
  assert (exists o, outputs sw opS !! 0 = Some o) as [o Ho].
  { unfold outputs. destruct (output_dtypes opS); simpl in *; [lia|]. by eexists. }
  eapply succeeds_bind; [by apply index_ok|].
  rewrite Hc. unfold _add_control_input, _add_control_inputs, set_control_flow_context.
  repeat succeeds_step.
Qed.

Lemma process_inputs_cons_new p op inp rest ci ri s sa producer :
  dtype inp = resource -> tensor_id inp ∉ ri ->
  graph_op (ps_graph s) (t_op inp) = Some producer ->
  (if bool_decide (type producer = "Switch")
   then call_process_switch (t_op inp) else ret tt) s = (sa, Ok tt) ->
  (forall prev, last_op_using_resource_tensor sa !! Some (tensor_id inp) = Some prev ->
     is_Some (graph_op (ps_graph sa) prev)) ->
  process_inputs p op (inp :: rest) ci ri s
  = process_inputs p op rest
      (with_last_user (_control_flow_context op) (tensor_id inp) ci sa)
      (ri ∪ {[ tensor_id inp ]})
      (use_input p (tensor_id inp) sa).
Proof.
  intros Hd Hnew Hp Hsw Hvalid. simpl.
  rewrite (bool_decide_eq_true_2 _ Hd). simpl.
  rewrite (bool_decide_eq_false_2 _ Hnew).
  rewrite (bind_ok _ _ _ _ _ (get_op_ok _ _ _ Hp)).
  rewrite (bind_ok _ _ _ _ _ Hsw).
  cbn [bind gets].
  assert ((match last_op_using_resource_tensor sa !! Some (tensor_id inp) with
           | Some prev =>
               let! prev_op := get_op prev in
               if ctx_is (_control_flow_context prev_op) (_control_flow_context op)
               then ret (ci ∪ {[ prev ]}) else ret ci
           | None => ret ci
           end) sa
          = (sa, Ok (with_last_user (_control_flow_context op) (tensor_id inp) ci sa)))
    as Hci.
  { unfold with_last_user, same_context.
    destruct (last_op_using_resource_tensor sa !! Some (tensor_id inp))
      as [prev|] eqn:Hprev; [|done].
    destruct (Hvalid _ eq_refl) as [prev_op Hpo].
    rewrite (bind_ok _ _ _ _ _ (get_op_ok _ _ _ Hpo)), Hpo.
    by destruct (ctx_is _ _). }
  rewrite (bind_ok _ _ _ _ _ Hci).
  cbn [bind gets].
  unfold use_input, _add_control_input, _add_control_inputs, modify, ret, bind.
  destruct (merge_for_resource sa !! tensor_id inp); by destruct sa.
Qed.

Lemma tracked_valid g0 n p s v :
  p <= length (g_operations g0) ->
  length (g_operations g0) <= length (g_operations (ps_graph s)) ->
  tracked g0 n p s v -> is_Some (graph_op (ps_graph s) v).
Proof.
  intros Hp Hn0 Hv. apply lookup_lt_is_Some_2.
  destruct Hv as [[Hv _]|Hv]; lia.
Qed.

Lemma process_inputs_succeeds g0 n p op ins ci ri s :
  well_formed g0 = true ->
  n <= p < length (g_operations g0) -> while_at g0 p = false ->
  region_inv g0 n (S p) s ->
  (forall t, t ∈ ins -> dtype t = resource ->
     t_op t < length (g_operations g0)) ->
  succeeds (process_inputs p op ins ci ri) s.
Proof.
  intros Hwf Hp Hw. revert ci ri s.
  induction ins as [|inp ins IH]; intros ci ri s Hr Hex.
  { apply succeeds_ret. }
  assert (forall t, t ∈ ins -> dtype t = resource ->
            t_op t < length (g_operations g0)) as Hex'.
  { intros t Ht. apply Hex. by right. }
  destruct (decide (dtype inp = resource)) as [Hd|Hd].
  2:{ simpl. rewrite (bool_decide_eq_false_2 _ Hd). simpl. by apply IH. }
  destruct (decide (tensor_id inp ∈ ri)) as [Hdup|Hnew].
  { simpl. rewrite (bool_decide_eq_true_2 _ Hd). simpl.
    rewrite (bool_decide_eq_true_2 _ Hdup). by apply IH. }
  pose proof Hr as ((Hn0 & _) & _).
  destruct (lookup_lt_is_Some_2 (g_operations (ps_graph s)) (t_op inp))
    as [producer Hprod].
  { specialize (Hex inp). assert (t_op inp < length (g_operations g0)); [|lia].
    apply Hex; [by left | done]. }
  assert (exists sa,
            (if bool_decide (type producer = "Switch")
             then call_process_switch (t_op inp) else ret tt) s = (sa, Ok tt)
            /\ region_inv g0 n (S p) sa) as (sa & Hsa & Hra).
  { case_bool_decide as Hty; [|by exists s].
    destruct (process_switch_succeeds g0 n (S p)
                (S (length (g_operations (ps_graph s)))) (t_op inp) s Hwf Hr)
      as (sa & [] & Hsa).
    - unfold switch_at, graph_op. rewrite Hprod. by apply bool_decide_eq_true.
    - apply lookup_lt_Some in Hprod. lia.
    - exists sa. split; [done|].
      eapply region_inv_process_switch; [exact Hsa | | done].
      unfold switch_at, graph_op. rewrite Hprod. by apply bool_decide_eq_true. }
  unfold succeeds.
  rewrite (process_inputs_cons_new p op inp ins ci ri s sa producer); try done.
  - apply IH; [|done]. by apply region_inv_use_input.
  - intros prev Hprev. destruct Hra as ((Hn0' & _) & _ & R3 & _).
    eapply (tracked_valid g0 n (S p)); [lia | done | by eapply R3].
Qed.

Lemma ensure_runs_ensured p op s : ensure_runs p op s = (ensured p op s, Ok tt).
Proof.
  unfold ensure_runs, ensured. unfold bind, gets.
  by destruct (_ || _).
Qed.

Lemma process_op_succeeds g0 n p s :
  well_formed g0 = true -> n <= p < length (g_operations g0) ->
  region_inv g0 n p s -> succeeds (process_op p) s.
Proof.
  intros Hwf Hp Hr. pose proof Hr as (R1 & R2 & _). pose proof R1 as (Hn0 & _).
  destruct (lookup_lt_is_Some_2 (g_operations (ps_graph s)) p) as [op Hop]; [lia|].
  unfold process_op. eapply succeeds_bind; [by apply get_op_ok|].
  unfold process_op_body.
  destruct (IsInWhileLoop op) eqn:Hwh; [apply succeeds_ret|].
  assert (while_at g0 p = false) as Hw.
  { rewrite <- (while_at_current g0 (ps_graph s) p op); [done | done | lia | done]. }
  assert (region_inv g0 n (S p) (ensured p op s)) as Hre.
  { apply region_inv_ensured; [done | done |].
    eapply region_inv_weaken; [|done]. lia. }
  eapply succeeds_bind; [apply ensure_runs_ensured|].
  destruct (well_formed_current g0 n p s p op Hwf Hr Hop) as [Hex Hfacts].
  assert (exists b, is_resource_switch op (ensured p op s) = (ensured p op s, Ok b))
    as [b Hb].
  { unfold is_resource_switch. case_bool_decide as Hty; [|by eexists].
    destruct (Hfacts Hty) as (inp & _ & Hinp & _).
    rewrite (bind_ok _ _ _ _ _ (index_ok _ _ _ _ Hinp)). by eexists. }
  eapply succeeds_bind; [exact Hb|].
  destruct b; [apply succeeds_ret|].
  case_bool_decide as Hm.
  - unfold succeeds. rewrite absorb_into_merge_spec; [by eexists _, _|].
    apply valid_handles_of_lt. by destruct Hre as ((_ & _ & _ & _ & V) & _).
  - unfold serialize_uses. apply succeeds_bind_all.
    + apply (process_inputs_succeeds g0 n p); try done.
      intros t Ht Hdt.
      destruct (op_le_lookup _ _ _ _ R2 Hop (proj2 Hp)) as (op0 & Hop0 & (_ & Hin & _)).
      destruct (well_formed_op g0 p op0 Hwf Hop0) as [Hex0 _].
      apply Hex0; [by rewrite Hin | done].
    + intros s1 found. unfold _add_control_input, _add_control_inputs.
      repeat succeeds_step.
Qed.

Lemma run_pass_succeeds g0 n len p s :
  well_formed g0 = true -> n <= p -> p + len <= length (g_operations g0) ->
  region_inv g0 n p s ->
  exists s', run_pass (seq p len) s = (s', Ok tt).
Proof.
  intros Hwf. revert p s. induction len as [|len IH]; intros p s Hn Hlen Hr.
  { by exists s. }
  destruct (process_op_succeeds g0 n p s Hwf) as (s1 & [] & Hstep); [lia | done |].
  destruct (IH (S p) s1) as [s' Hs']; [lia | lia | |].
  { eapply region_inv_process_op; [|done|done]. lia. }
  exists s'.
  change (run_pass (seq p (S len)) s)
    with (bind (process_op p) (fun _ => run_pass (seq (S p) len)) s).
  by rewrite (bind_ok _ _ _ _ _ Hstep).
Qed.

Lemma anchor_returned_succeeds must r s :
  r.1 < length (g_operations (ps_graph s)) ->
  exists s', anchor_returned must r s = (s', Ok tt)
    /\ length (g_operations (ps_graph s')) = length (g_operations (ps_graph s)).
Proof.
  intros Hr. unfold anchor_returned. case_bool_decide; [by exists s|].
  destruct (lookup_lt_is_Some_2 _ _ Hr) as [r_op Hop].
  rewrite (bind_ok _ _ _ _ _ (get_op_ok _ _ _ Hop)).
  cbn [bind gets]. unfold _add_control_inputs, modify. eexists. split; [done|].
  cbn [ps_graph with_graph]. apply graph_add_control_inputs_length.
Qed.

Lemma for_each_anchor_succeeds must (l : list TensorId) s :
  (forall r, r ∈ l -> r.1 < length (g_operations (ps_graph s))) ->
  exists s', for_each l (anchor_returned must) s = (s', Ok tt).
Proof.
  revert s. induction l as [|r l IH]; intros s Hl; [by exists s|].
  destruct (anchor_returned_succeeds must r s) as (s1 & H1 & Hlen);
    [apply Hl; by left|].
  destruct (IH s1) as [s' Hs'].
  { intros x Hx. rewrite Hlen. apply Hl. by right. }
  exists s'. simpl. by rewrite (bind_ok _ _ _ _ _ H1).
Qed.

Lemma well_formed_set_flag g b :
  well_formed (set_add_control_dependencies g b) = well_formed g.
Proof. reflexivity. Qed.

Lemma pass_succeeds g n :
  well_formed g = true -> n <= length (g_operations g) ->
  exists s', run_pass (new_operations g n) (fresh_pass g) = (s', Ok tt).
Proof.
  intros Hwf Hn. unfold new_operations.
  apply (run_pass_succeeds g n); [done | done | lia | apply region_inv_fresh].
Qed.

Lemma exit_succeeds sc :
  executing_eagerly sc = false ->
  _graph (self sc) = Some (g_uid (default_graph sc)) ->
  well_formed (default_graph sc) = true ->
  _n_operations (self sc) <= length (g_operations (default_graph sc)) ->
  (forall r, r ∈ _returned_tensors (self sc) ->
     r.1 < length (g_operations (default_graph sc))) ->
  exists sc', __exit__ sc = (sc', Ok tt).
Proof.
  intros Heager Hgraph Hwf Hn Hret. unfold __exit__.
  rewrite Heager, Hgraph, Nat.eqb_refl. simpl negb. cbv iota.
  set (g := set_add_control_dependencies _ _).
  destruct (pass_succeeds g (_n_operations (self sc))) as [s Hs]; [done | done |].
  unfold fresh_pass in Hs. rewrite (bind_ok _ _ _ _ _ Hs). cbn [gets].
  destruct (for_each_anchor_succeeds
              (self_ops_which_must_run (self sc) ∪ ops_which_must_run s)
              (elements (_returned_tensors (self sc))) s) as [s' Hs'].
  { intros r Hr. apply elem_of_elements in Hr.
    pose proof (preserves_run_pass _ _ _ _ Hs) as [Hle _].
    apply graph_le_length in Hle. simpl in Hle. specialize (Hret r Hr).
    unfold g in Hle. simpl in Hle. lia. }
  rewrite Hs'. by eexists.
Qed.

Lemma op_le_eq op op' :
  op_le op op' -> control_inputs op' ⊆ control_inputs op -> op' = op.
Proof.
  intros (Ht & Hi & Ho & Hc & Hs & Hci) Hsub.
  assert (control_inputs op' = control_inputs op) as Heq.
  { apply set_eq. intros x. split; [apply Hsub | apply Hci]. }
  destruct op, op'. simpl in *. by subst.
Qed.

Lemma region_leaves_operation g n s' t op :
  n <= length (g_operations g) ->
  run_pass (new_operations g n) (fresh_pass g) = (s', Ok tt) ->
  graph_op g t = Some op -> type op <> "Switch" ->
  t < n \/ IsInWhileLoop op = true ->
  graph_op (ps_graph s') t = Some op.
Proof.
  intros Hn H Hop Hty Hout. apply region_inv_pass in H.
  rewrite Nat.max_r in H by done.
  destruct H as (_ & Hle & _ & _ & R5 & _).
  destruct Hle as (_&_&_&_&_&Hops).
  destruct (Hops _ _ Hop) as (op' & Hop' & Hople).
  rewrite Hop'. f_equal. apply op_le_eq; [done|].
  pose proof Hople as (Ht & _ & _ & Hc & _).
  intros x Hx.
  destruct (R5 _ _ _ Hop' Hx) as [Hold | [_ Hnew]].
  - unfold control_inputs_at in Hold. by rewrite Hop in Hold.
  - apply lookup_lt_Some in Hop.
    destruct Hnew as [Hsw | [Hge | (Ht' & Hw & _)]]; [congruence | lia |].
    destruct Hout as [Hlt | Hwh]; [lia|].
    unfold IsInWhileLoop in *. rewrite <- Hc in Hw. congruence.
Qed.

Lemma process_switch_no_context fuel sw s opS inp :
  graph_op (ps_graph s) sw = Some opS -> inputs opS !! 0 = Some inp ->
  dtype inp <> resource \/ switch_at (ps_graph s) (t_op inp) = false
                           /\ is_Some (graph_op (ps_graph s) (t_op inp)) ->
  0 < length (output_dtypes opS) ->
  merge_for_resource s !! (sw, 0) = None ->
  _control_flow_context opS = None ->
  _process_switch (S fuel) sw s
  = (with_graph (graph_append (new_merge_op (ps_graph s) (outputs sw opS))) s,
     Raise AttributeError).
Proof.
  intros HopS Hinp Hprod Hlen Hnone Hctx. simpl.
  rewrite (bind_ok _ _ _ _ _ (get_op_ok _ _ _ HopS)).
  rewrite (bind_ok _ _ _ _ _ (index_ok _ _ _ _ Hinp)).
  assert ((if bool_decide (dtype inp = resource)
           then let! producer := get_op (t_op inp) in
                if bool_decide (type producer = "Switch")
                then _process_switch fuel (t_op inp)
                else ret tt
           else ret tt) s = (s, Ok tt)) as Hr.
  { case_bool_decide as Hd; [|done].
    destruct Hprod as [Hnr | [Hsw [p Hp]]]; [done|].
    rewrite (bind_ok _ _ _ _ _ (get_op_ok _ _ _ Hp)).
    unfold switch_at in Hsw. rewrite Hp in Hsw. by rewrite Hsw. }
  rewrite (bind_ok _ _ _ _ _ Hr).
  assert (exists o, outputs sw opS !! 0 = Some o /\ tensor_id o = (sw, 0))
    as (o & Ho & Hid).
  { unfold outputs. destruct (output_dtypes opS); simpl in *; [lia|].
    by eexists. }
  rewrite (bind_ok _ _ _ _ _ (index_ok _ _ _ _ Ho)).
  cbn [bind gets]. rewrite Hid, Hnone.
  rewrite bool_decide_eq_false_2 by (by intros [? ?]).
  rewrite Hctx. reflexivity.
Qed.

(** ** The operations that must run, when no Merge absorbs them *)

Lemma must_kept_process_op p s s' op :
  process_op p s = (s', Ok tt) -> graph_op (ps_graph s) p = Some op ->
  (IsInWhileLoop op = true \/ type op <> "Merge" ->
   ops_which_must_run s ⊆ ops_which_must_run s')
  /\ (IsInWhileLoop op = false -> forced (ps_graph s) op = true ->
      p ∈ ops_which_must_run s').
Proof.
  intros H Hop.
  apply process_op_inv in H as (op' & Hop' & H).
  assert (op' = op) as -> by congruence.
  assert (ops_which_must_run s ⊆ ops_which_must_run (ensured p op s)) as Hens.
  { unfold ensured. destruct (_ || _); [|done].
    simpl. intros x Hx. by apply elem_of_union_l. }
  assert (forced (ps_graph s) op = true -> p ∈ ops_which_must_run (ensured p op s))
    as Hp.
  { intros Hf. unfold ensured, forced in *. rewrite Hf. simpl.
    apply elem_of_union_r. by apply elem_of_singleton. }
  destruct H as [[Hwh ->] | (Hwh & H)]; [split; [done | congruence]|].
  destruct H as [[Hty ->] | [[Hty H] | [Hty H]]].
  - split; [done | by intros _].
  - split; [intros [?|?]; congruence|]. intros _ Hf.
    unfold absorb_into_merge in H.
    apply bind_ok_inv in H as (s1 & must & Hg & H).
    apply bind_ok_inv in H as (s2 & [] & Hfe & H).
    unfold modify in H. injection H as <-.
    simpl. by apply elem_of_singleton.
  - apply serialize_uses_inv in H as (sb & found & Hin & ->).
    destruct (finish_graph p op found sb) as (X & Y & _ & _ & _ & Hmust & _).
    rewrite Hmust.
    pose proof (must_grows_process_inputs _ _ _ _ _ _ _ _ Hin) as Hg.
    split; [intros _; by etransitivity|]. intros _ Hf. by apply Hg, Hp.
Qed.

Lemma must_kept_run g0 len p s s' :
  p + len <= length (g_operations g0) ->
  graph_le g0 (ps_graph s) ->
  forallb (fun x =>
    match graph_op g0 x with
    | Some op => IsInWhileLoop op || negb (bool_decide (type op = "Merge"))
    | None => true
    end) (seq p len) = true ->
  run_pass (seq p len) s = (s', Ok tt) ->
  ops_which_must_run s ⊆ ops_which_must_run s'.
Proof.
  revert p s. induction len as [|len IH]; intros p s Hlen Hle Hq H.
  { simpl in H. unfold ret in H. by injection H as <-. }
  simpl in H. apply bind_ok_inv in H as (s1 & [] & Hstep & Hrest).
  simpl in Hq. apply andb_true_iff in Hq as [Hqp Hq].
  destruct (lookup_lt_is_Some_2 (g_operations g0) p) as [op0 Hop0]; [lia|].
  unfold graph_op in Hqp. rewrite Hop0 in Hqp.
  pose proof Hle as (_&_&_&_&_&Hops).
  destruct (Hops _ _ Hop0) as (op & Hop & _).
  destruct (op_facts_current g0 _ p op0 op Hle Hop0 Hop) as (Hty & _ & Hc).
  destruct (must_kept_process_op p s s1 op Hstep Hop) as [Hkeep _].
  etransitivity; [apply Hkeep|].
  - unfold IsInWhileLoop in *. rewrite Hty, Hc.
    apply orb_true_iff in Hqp as [Hq'|Hq']; [by left|right].
    apply negb_true_iff in Hq'. by apply bool_decide_eq_false in Hq'.
  - apply (IH (S p) s1); [lia | | done | done].
    etransitivity; [exact Hle|]. by destruct (preserves_process_op _ _ _ _ Hstep).
Qed.

Lemma forced_must_run g n s' o op :
  run_pass (new_operations g n) (fresh_pass g) = (s', Ok tt) ->
  n <= o -> graph_op g o = Some op ->
  IsInWhileLoop op = false -> forced g op = true ->
  forallb (fun x =>
    match graph_op g x with
    | Some op => IsInWhileLoop op || negb (bool_decide (type op = "Merge"))
    | None => true
    end) (seq (S o) (length (g_operations g) - S o)) = true ->
  o ∈ ops_which_must_run s'.
Proof.
  intros H Hn Hop Hwh Hf Hq. pose proof (lookup_lt_Some _ _ _ Hop) as Hlt.
  unfold new_operations in H. rewrite (seq_split n _ o) in H by lia.
  apply for_each_app_inv in H as (s1 & H1 & H).
  simpl in H. apply bind_ok_inv in H as (s2 & [] & Ho & H).
  replace (n + (length (g_operations g) - n) - S o)
    with (length (g_operations g) - S o) in H by lia.
  pose proof (preserves_run_pass _ _ _ _ H1) as [Hle1 _]. simpl in Hle1.
  pose proof (preserves_process_op _ _ _ _ Ho) as [Hle2 _].
  pose proof Hle1 as (_&_&_&_&_&Hops).
  destruct (Hops _ _ Hop) as (op1 & Hop1 & _).
  destruct (forced_current g (ps_graph s1) o op op1 Hle1 Hop Hop1) as [Hf1 Hw1].
  destruct (must_kept_process_op o s1 s2 op1 Ho Hop1) as [_ Hin].
  apply (must_kept_run g (length (g_operations g) - S o) (S o) s2 s');
    [lia | by etransitivity | done | done |].
  apply Hin; congruence.
Qed.

(** ** The decorator *)

Lemma mark_all_spec vs sc sc' vs' :
  mark_all vs sc = (sc', Ok vs') ->
  executing_eagerly sc' = executing_eagerly sc
  /\ self_ops_which_must_run (self sc') = self_ops_which_must_run (self sc)
  /\ _graph (self sc') = _graph (self sc)
  /\ _n_operations (self sc') = _n_operations (self sc)
  /\ _returned_tensors (self sc) ⊆ _returned_tensors (self sc')
  /\ (exists ids,
        default_graph sc'
        = set_operations (default_graph sc) (g_operations (default_graph sc) ++ ids)
        /\ Forall (fun op => type op = "Identity"
                    /\ _control_flow_context op
                       = g_current_context (default_graph sc)) ids)
  /\ Forall2 (fun v v' => kind_of v' = kind_of v
                          /\ kept_components v' = kept_components v
                          /\ length (copied_components v')
                             = length (copied_components v)) vs vs'
  /\ (forall v' t', v' ∈ vs' -> t' ∈ copied_components v' ->
        tensor_id t' ∈ _returned_tensors (self sc')
        /\ length (g_operations (default_graph sc)) <= t_op t'
           < length (g_operations (default_graph sc'))).
Proof.
  revert sc sc' vs'. induction vs as [|v vs IH]; intros sc sc' vs' H.
  { simpl in H. unfold ret in H. injection H as <- <-.
    do 5 (split; [done|]). split; [|split].
    - exists []. split; [|done]. rewrite app_nil_r. by destruct sc as [? [] ?].
    - apply Forall2_nil_2.
    - intros v' t' Hv. by apply elem_of_nil in Hv. }
  simpl in H. apply bind_ok_inv in H as (sc1 & v1 & H1 & H).
  apply bind_ok_inv in H as (sc2 & vs2 & H2 & H).
  unfold ret in H. injection H as <- <-.
  destruct (mark_as_return_spec v sc)
    as (sc1' & v1' & H1' & He & Hg & Hr & Hm & Hgr & Hn & Hk & Hc & Hkept).
  rewrite H1 in H1'. injection H1' as <- <-.
  destruct (IH _ _ _ H2)
    as (He2 & Hm2 & Hgr2 & Hn2 & Hr2 & (ids2 & Hg2 & Hids2) & Hvs & Hcop).
  assert (length (g_operations (default_graph sc1))
          = length (g_operations (default_graph sc))
            + length (copied_components v)) as Hlen1.
  { rewrite Hg. simpl. by rewrite length_app, length_map. }
  split; [congruence|]. split; [congruence|]. split; [congruence|].
  split; [congruence|]. split.
  { etransitivity; [|exact Hr2]. rewrite Hr. intros x Hx. by apply elem_of_union_l. }
  split.
  { exists (map (new_identity_op (default_graph sc)) (copied_components v) ++ ids2).
    split.
    - rewrite Hg2, Hg. unfold set_operations. simpl. by rewrite app_assoc.
    - apply Forall_app. split.
      + apply Forall_forall. intros op Hop.
        apply list_elem_of_fmap in Hop as (t & -> & _). done.
      + eapply Forall_impl; [exact Hids2|]. intros op [Ht Hctx].
        split; [done|]. rewrite Hctx, Hg. done. }
  split.
  { apply Forall2_cons. split; [|done]. split; [done|]. split; [done|].
    rewrite Hc. by rewrite length_imap. }
  intros v' t' Hv' Ht'. apply elem_of_cons in Hv' as [-> | Hv'].
  - rewrite Hc in Ht'. apply elem_of_lookup_imap in Ht' as (j & t & -> & Hj).
    split.
    + apply Hr2. rewrite Hr. apply elem_of_union_r.
      apply elem_of_list_to_set. apply elem_of_lookup_imap. by exists j, t.
    + unfold identity_output. simpl. apply lookup_lt_Some in Hj.
      rewrite Hg2. simpl. rewrite length_app. lia.
  - destruct (Hcop _ _ Hv' Ht') as [Hin Hb]. split; [done|]. lia.
Qed.

Lemma exit_forced_anchored (sc sc' : Scope) (o : nat) (op : Operation) :
  executing_eagerly sc = false ->
  __exit__ sc = (sc', Ok tt) ->
  _n_operations (self sc) <= o ->
  graph_op (default_graph sc) o = Some op ->
  IsInWhileLoop op = false -> forced (default_graph sc) op = true ->
  forallb (fun x =>
    match graph_op (default_graph sc) x with
    | Some op => IsInWhileLoop op || negb (bool_decide (type op = "Merge"))
    | None => true
    end) (seq (S o) (length (g_operations (default_graph sc)) - S o)) = true ->
  o ∈ self_ops_which_must_run (self sc')
  /\ forall r opR,
       r ∈ _returned_tensors (self sc) ->
       graph_op (default_graph sc') r.1 = Some opR ->
       ctx_is (_control_flow_context op) (_control_flow_context opR) = true ->
       o ∈ control_inputs opR.
Proof.
  intros Heager H Hn Hop Hwh Hf Hq.
  destruct (exit_ok_inv sc sc' Heager H) as (s & s' & _ & Hrun & Hanchor & ->).
  cbn [default_graph self self_ops_which_must_run].
  assert (o ∈ ops_which_must_run s) as Ho.
  { match type of Hrun with
    | run_pass (new_operations ?g _) _ = _ =>
        exact (forced_must_run g _ s o op Hrun Hn Hop Hwh Hf Hq)
    end. }
  split; [by apply elem_of_union_r|].
  intros r opR Hr HopR Hctx.
  pose proof (preserves_run_pass _ _ _ _ Hrun) as [Hle1 _]. simpl in Hle1.
  assert (preserves pass_le
            (for_each (elements (_returned_tensors (self sc)))
               (anchor_returned (self_ops_which_must_run (self sc)
                                 ∪ ops_which_must_run s)))) as Hp.
  { apply (preserves_for_each pass_le). intros. apply preserves_anchor_returned. }
  pose proof (Hp _ _ _ Hanchor) as [Hle2 _].
  destruct Hle1 as (_&_&_&_&_&Hops1).
  destruct (Hops1 _ _ Hop) as (op1 & Hop1 & (_&_&_&Hc1&_)).
  destruct Hle2 as (_&_&_&_&_&Hops2).
  destruct (Hops2 _ _ Hop1) as (opO & HopO & (_&_&_&HcO&_)).
  apply (for_each_anchor_edges _ _ _ _ r o opO opR Hanchor);
    [by apply elem_of_elements | by apply elem_of_union_r | done | done | congruence].
Qed.

Lemma mark_all_succeeds vs sc : exists sc' vs', mark_all vs sc = (sc', Ok vs').
Proof.
  revert sc. induction vs as [|v vs IH]; intros sc; [by eexists _, _|].
  destruct (mark_as_return_spec v sc) as (sc1 & v1 & H1 & _).
  destruct (IH sc1) as (sc2 & vs2 & H2).
  exists sc2, (v1 :: vs2). simpl.
  rewrite (bind_ok _ _ _ _ _ H1), (bind_ok _ _ _ _ _ H2). done.
Qed.

Lemma wrapper_graph_mode_inv f g g1 vs g' vs' :
  f (set_add_control_dependencies g true) = (g1, Ok vs) ->
  wrapper f false g = (g', Ok vs') ->
  exists sc3 sc4,
    mark_all vs (mkScope false g1
                   (mkACD ∅ ∅ (Some (g_uid g)) (length (g_operations g))))
    = (sc3, Ok vs')
    /\ __exit__ sc3 = (sc4, Ok tt)
    /\ g' = default_graph sc4.
Proof.
  intros Hf Hw. unfold wrapper, with_manager in Hw.
  unfold __enter__ in Hw.
  cbn [executing_eagerly default_graph self __init__ _returned_tensors
       self_ops_which_must_run set_add_control_dependencies g_uid g_operations] in Hw.
  unfold bind at 1 in Hw. unfold call in Hw.
  cbn [default_graph executing_eagerly self] in Hw.
  change (mkGraph (g_uid g) (g_operations g) (_registered_ops g) (g_current_context g)
            true (outer_graph_add_control_dependencies g))
    with (set_add_control_dependencies g true) in Hw.
  rewrite Hf in Hw.
  destruct (mark_all vs _) as [sc3 [vs3|e3]] eqn:Hmark.
  - destruct (__exit__ sc3) as [sc4 [[]|e4]] eqn:Hexit; [|done].
    injection Hw as <- <-. by exists sc3, sc4.
  - by destruct (__exit__ sc3) as [sc4 [[]|e4]].
Qed.

(** ** One resolution of a switch *)

Lemma process_switch_resolved n0 fuel sw s s' opS k :
  _process_switch fuel sw s = (s', Ok tt) -> merges_ok n0 s ->
  graph_op (ps_graph s) sw = Some opS -> k < length (output_dtypes opS) ->
  is_Some (merge_for_resource s' !! (sw, k)).
Proof.
  intros H Hok HopS Hk. destruct fuel as [|fuel]; [done|].
  pose proof (keeps_merges_process_switch n0 _ _ _ _ _ H Hok) as [Hok' _].
  pose proof (preserves_process_switch _ _ _ _ _ H) as [Hle _].
  apply process_switch_inv in H
    as (o & inp & sb & Ho & _ & _ & _ & [[[m0 Hres] ->] | (_ & c & _ & ->)]).
  - destruct Hok' as (_ & M1 & _).
    destruct (M1 _ _ _ Hres) as (opS' & _ & _ & HopS' & _ & _ & Hall & _).
    destruct Hle as (_&_&_&_&_&Hops).
    destruct (Hops _ _ HopS) as (opS2 & HopS2 & (_ & _ & Hout & _)).
    assert (opS2 = opS') as -> by congruence.
    exists m0. apply Hall. by rewrite <- Hout.
  - assert (o = opS) as -> by congruence.
    unfold resolve. cbn [merge_for_resource].
    rewrite foldl_insert_merge_lookup, bool_decide_eq_true_2; [by eexists | done].
Qed.

Lemma control_inputs_at_add t X g x :
  is_Some (graph_op g t) -> x ∈ X ->
  x ∈ control_inputs_at (graph_add_control_inputs t X g) t.
Proof.
  intros [op Hop] Hx. unfold control_inputs_at.
  rewrite graph_op_add_control_inputs, Hop. simpl.
  rewrite bool_decide_eq_true_2 by done. simpl. by apply elem_of_union_r.
Qed.

Lemma resolve_facts sw opS c id s :
  is_Some (graph_op (ps_graph s) sw) ->
  let m := length (g_operations (ps_graph s)) in
  let s' := resolve sw opS c id s in
  length (g_operations (ps_graph s')) = S m
  /\ last_op_using_resource_tensor s' !! Some id = Some m
  /\ (forall key, key <> Some id ->
        last_op_using_resource_tensor s' !! key
        = last_op_using_resource_tensor s !! key)
  /\ ops_which_must_run s' = ops_which_must_run s ∪ {[ m ]}
  /\ (forall prev, last_op_using_resource_tensor s !! Some id = Some prev ->
        prev ∈ control_inputs_at (ps_graph s') sw)
  /\ (forall m0, merge_for_resource s !! id = Some m0 ->
        is_Some (graph_op (ps_graph s) m0) ->
        m ∈ control_inputs_at (ps_graph s') m0)
  /\ (forall a b, merge_for_resource s' !! (a, b)
        = if bool_decide (a = sw /\ b < length (output_dtypes opS))
          then Some m else merge_for_resource s !! (a, b)).
Proof.
  intros Hsw m s'. split; [apply resolve_length|].
  split; [unfold s', resolve; cbn [last_op_using_resource_tensor];
          apply lookup_insert_eq|].
  split.
  { intros key Hkey. unfold s', resolve. cbn [last_op_using_resource_tensor].
    by rewrite lookup_insert_ne. }
  split; [done|].
  assert (forall i op, graph_op (ps_graph s) i = Some op ->
            is_Some (graph_op
              (graph_append (set_context (outer_context c)
                               (new_merge_op (ps_graph s) (outputs sw opS)))
                            (ps_graph s)) i)) as Happ.
  { intros i op Hop. exists op. unfold graph_append, graph_op, set_operations.
    simpl. by apply lookup_app_l_Some. }
  split; [|split].
  - intros prev Hprev. unfold s', resolve. cbn [ps_graph]. rewrite Hprev.
    destruct Hsw as [opS0 HopS0].
    destruct (merge_for_resource s !! id) as [m0|].
    + eapply control_inputs_at_mono; [apply graph_add_control_inputs_le|].
      apply control_inputs_at_add; [by eapply Happ | by apply elem_of_singleton].
    + apply control_inputs_at_add; [by eapply Happ | by apply elem_of_singleton].
  - intros m0 Hm0 [opM HopM]. unfold s', resolve. cbn [ps_graph]. rewrite Hm0.
    apply control_inputs_at_add; [|by apply elem_of_singleton].
    destruct (last_op_using_resource_tensor s !! Some id) as [prev|].
    + destruct (Happ _ _ HopM) as [op1 Hop1].
      rewrite graph_op_add_control_inputs, Hop1. by eexists.
    + by eapply Happ.
  - intros a b. unfold s', resolve. cbn [merge_for_resource].
    apply foldl_insert_merge_lookup.
Qed.

(** ** The stateful operations without resources *)

Lemma process_switch_last_None fuel sw s s' :
  _process_switch fuel sw s = (s', Ok tt) ->
  last_op_using_resource_tensor s' !! None = last_op_using_resource_tensor s !! None.
Proof.
  revert sw s s'. induction fuel as [|fuel IH]; intros sw s s' H; [done|].
  apply process_switch_inv in H
    as (opS & inp & sa & HopS & Hinp & Hrec & Hlen & Hres).
  assert (last_op_using_resource_tensor sa !! None
          = last_op_using_resource_tensor s !! None) as Hsa.
  { destruct Hrec as [(_ & _ & Hrec) | (_ & ->)]; [by eapply IH | done]. }
  destruct Hres as [[_ ->] | (Hnone & c & Hctx & ->)]; [done|].
  unfold resolve. cbn [last_op_using_resource_tensor].
  by rewrite lookup_insert_ne.
Qed.

Lemma process_inputs_last_None p op ins ci ri s s' found :
  process_inputs p op ins ci ri s = (s', Ok found) ->
  last_op_using_resource_tensor s' !! None = last_op_using_resource_tensor s !! None.
Proof.
  revert ci ri s. induction ins as [|inp ins IH]; intros ci ri s H.
  { simpl in H. unfold ret in H. by injection H as <- <-. }
  apply process_inputs_cons_inv in H
    as [[_ H] | (Hres & Hnew & sa & Hsa & H)]; [by eapply IH|].
  rewrite (IH _ _ _ H). unfold use_input. cbn [last_op_using_resource_tensor].
  rewrite lookup_insert_ne by done.
  destruct Hsa as [[_ Hcall] | [_ ->]]; [|done].
  by eapply process_switch_last_None.
Qed.

Lemma legacy_stateful_true op :
  legacy_stateful op = true ->
  op_is_stateful op = true
  /\ Forall (fun t => dtype t <> resource) (inputs op)
  /\ _control_flow_context op = None.
Proof.
  unfold legacy_stateful. rewrite !andb_true_iff, bool_decide_eq_true.
  intros [[Hs Hin] Hc]. split; [done|]. split; [|done].
  apply Forall_forall. intros t Ht. rewrite forallb_forall in Hin.
  specialize (Hin t (proj1 (list_elem_of_In _ _) Ht)).
  apply negb_true_iff in Hin. by apply bool_decide_eq_false in Hin.
Qed.

Lemma process_op_last_None n0 p s s' op :
  p < n0 -> merges_ok n0 s ->
  process_op p s = (s', Ok tt) -> graph_op (ps_graph s) p = Some op ->
  (legacy_stateful op = true -> type op <> "Switch" -> type op <> "Merge" ->
   last_op_using_resource_tensor s' !! None = Some p
   /\ forall u, last_op_using_resource_tensor s !! None = Some u ->
        u ∈ control_inputs_at (ps_graph s') p)
  /\ (legacy_stateful op = false ->
      last_op_using_resource_tensor s' !! None
      = last_op_using_resource_tensor s !! None).
Proof.
  intros Hp Hok H Hop.
  apply process_op_inv in H as (op' & Hop' & H).
  assert (op' = op) as -> by congruence.
  destruct H as [[Hwh ->] | (Hwh & H)].
  { split; [|done]. intros Hleg. apply legacy_stateful_true in Hleg as (_ & _ & Hc).
    unfold IsInWhileLoop in Hwh. by rewrite Hc in Hwh. }
  destruct H as [[Hty ->] | [[Hty H] | [Hty H]]].
  - split; [done|]. intros _. by rewrite ensured_last.
  - split; [done|]. intros _.
    pose proof (merges_ok_ensured n0 p op s Hp Hok) as (_ & _ & _ & _ & V).
    rewrite absorb_into_merge_spec in H by (by apply valid_handles_of_lt).
    injection H as <-. cbn [last_op_using_resource_tensor].
    rewrite repoint_lookup_out, ensured_last; [done|].
    intros Hin. apply list_elem_of_fmap in Hin as (? & ? & _). done.
  - apply serialize_uses_inv in H as (sb & found & Hin & ->). split.
    + intros Hleg _ _. apply legacy_stateful_true in Hleg as (Hst & Hnr & Hc).
      rewrite (process_inputs_no_resource p op _ ∅ ∅ _ Hnr) in Hin.
      injection Hin as <- <-.
      unfold finish. cbn [fst snd]. rewrite Hst, Hc.
      rewrite !bool_decide_eq_true_2 by done. cbn [andb].
      cbn [with_graph ps_graph last_op_using_resource_tensor].
      split; [apply lookup_insert_eq|].
      intros u Hu. rewrite ensured_last, Hu, ensured_graph.
      eapply control_inputs_at_mono; [apply graph_add_control_inputs_le|].
      apply control_inputs_at_add; [by eexists | by apply elem_of_singleton].
    + intros Hleg.
      rewrite <- (ensured_last p op s), <- (process_inputs_last_None _ _ _ _ _ _ _ _ Hin).
      unfold finish.
      destruct (op_is_stateful op && bool_decide (found.2 = ∅)
                && bool_decide (_control_flow_context op = None)) eqn:Hcond; [|done].
      exfalso. apply andb_true_iff in Hcond as [Hcond Hc].
      apply andb_true_iff in Hcond as [Hst Hempty].
      apply bool_decide_eq_true in Hempty.
      unfold legacy_stateful in Hleg. rewrite Hst, Hc, andb_true_r in Hleg.
      simpl in Hleg. apply not_true_iff_false in Hleg. apply Hleg.
      apply forallb_forall. intros t Ht. apply negb_true_iff.
      apply bool_decide_eq_false. intros Hdt.
      destruct (process_inputs_resource_inputs _ _ _ _ _ _ _ _ Hin) as [_ Hall].
      specialize (Hall t (proj2 (list_elem_of_In _ _) Ht) Hdt).
      rewrite Hempty in Hall. by apply not_elem_of_empty in Hall.
Qed.

Lemma legacy_current g0 g p op0 op :
  graph_le g0 g -> graph_op g0 p = Some op0 -> graph_op g p = Some op ->
  legacy_stateful op = legacy_stateful op0 /\ type op = type op0.
Proof.
  intros (_&_&_&_&_&Hops) Hop0 Hop.
  destruct (Hops _ _ Hop0) as (op' & Hop' & (Ht & Hi & _ & Hc & Hs & _)).
  assert (op' = op) as -> by congruence.
  unfold legacy_stateful, op_is_stateful. by rewrite Ht, Hi, Hc, Hs.
Qed.

Lemma last_None_kept_run g0 len p s s' :
  p + len <= length (g_operations g0) ->
  merges_ok (length (g_operations g0)) s -> graph_le g0 (ps_graph s) ->
  forallb (fun x =>
    match graph_op g0 x with
    | Some op => negb (legacy_stateful op)
    | None => true
    end) (seq p len) = true ->
  run_pass (seq p len) s = (s', Ok tt) ->
  merges_ok (length (g_operations g0)) s' /\ graph_le g0 (ps_graph s')
  /\ last_op_using_resource_tensor s' !! None
     = last_op_using_resource_tensor s !! None.
Proof.
  revert p s. induction len as [|len IH]; intros p s Hlen Hok Hle Hq H.
  { simpl in H. unfold ret in H. by injection H as <-. }
  simpl in H. apply bind_ok_inv in H as (s1 & [] & Hstep & Hrest).
  simpl in Hq. apply andb_true_iff in Hq as [Hqp Hq].
  destruct (lookup_lt_is_Some_2 (g_operations g0) p) as [op0 Hop0]; [lia|].
  unfold graph_op in Hqp. rewrite Hop0 in Hqp. apply negb_true_iff in Hqp.
  pose proof Hle as (_&_&_&_&_&Hops).
  destruct (Hops _ _ Hop0) as (op & Hop & _).
  destruct (legacy_current g0 _ p op0 op Hle Hop0 Hop) as [Hleg _].
  assert (p < length (g_operations g0)) as Hp by lia.
  destruct (process_op_last_None _ p s s1 op Hp Hok Hstep Hop) as [_ Hframe].
  destruct (IH (S p) s1) as (Hok' & Hle' & Hl'); [lia | | | done | done |].
  - by destruct (keeps_merges_process_op _ p Hp _ _ _ Hstep Hok).
  - etransitivity; [exact Hle|]. by destruct (preserves_process_op _ _ _ _ Hstep).
  - split; [done|]. split; [done|]. rewrite Hl'. apply Hframe. congruence.
Qed.

(** ** The contexts of the edges *)

Lemma ctx_inv_step g0 s s' :
  ctx_inv g0 s -> graph_le (ps_graph s) (ps_graph s') ->
  (forall t opT' x, graph_op (ps_graph s') t = Some opT' ->
     type opT' <> "Switch" -> type opT' <> "Merge" -> x ∈ control_inputs opT' ->
     (exists opT, graph_op (ps_graph s) t = Some opT /\ op_le opT opT'
                  /\ x ∈ control_inputs opT)
     \/ same_context (ps_graph s') (_control_flow_context opT') x = true) ->
  (forall v, last_op_using_resource_tensor s' !! None = Some v ->
     last_op_using_resource_tensor s !! None = Some v
     \/ same_context (ps_graph s') None v = true) ->
  ctx_inv g0 s'.
Proof.
  intros [J1 J2] Hle Hedge Hlast. split.
  - intros t opT' x Ht HnS HnM Hx.
    destruct (Hedge _ _ _ Ht HnS HnM Hx) as [(opT & HopT & Hople & Hxo) | Hnew];
      [|by right].
    pose proof Hople as (Hty & _ & _ & Hc & _).
    assert (type opT <> "Switch") as HnS' by congruence.
    assert (type opT <> "Merge") as HnM' by congruence.
    destruct (J1 _ _ _ HopT HnS' HnM' Hxo) as [Hold | Hctx]; [by left|].
    right. rewrite <- Hc. by eapply same_context_mono.
  - intros v Hv. destruct (Hlast _ Hv) as [Hold | Hnew]; [|done].
    eapply same_context_mono; [done|]. by apply J2.
Qed.

Lemma ctx_inv_fresh g : ctx_inv g (fresh_pass g).
Proof.
  split; simpl.
  - intros t opT x Ht _ _ Hx. left. unfold control_inputs_at. by rewrite Ht.
  - intros v Hv. by rewrite lookup_empty in Hv.
Qed.

Lemma ctx_inv_resolve g0 n0 sw opS c id s :
  merges_ok n0 s -> switch_at (ps_graph s) sw = true ->
  ctx_inv g0 s -> ctx_inv g0 (resolve sw opS c id s).
Proof.
  intros Hok Hsw HJ. pose proof Hok as (_ & M1 & _).
  apply (ctx_inv_step g0 s); [done | by destruct (resolve_pass_le sw opS c id s) | |].
  - intros t opT' x Ht HnS HnM Hx.
    destruct (decide (t < length (g_operations (ps_graph s)))) as [Hlt|Hge].
    + destruct (lookup_lt_is_Some_2 _ _ Hlt) as [opT HopT].
      destruct (resolve_lookup sw opS c id s t) as [Hold _].
      destruct (Hold _ HopT) as (op' & Hop' & Hople & Hxs).
      assert (op' = opT') as -> by congruence.
      pose proof Hople as (Hty & _).
      destruct (Hxs _ Hx) as [Hxo | [[-> Hl] | [-> Hm]]].
      * left. by exists opT.
      * exfalso. unfold switch_at in Hsw. unfold graph_op in HopT.
        unfold graph_op in Hsw. rewrite HopT in Hsw.
        apply bool_decide_eq_true in Hsw. congruence.
      * exfalso. destruct id as [a b].
        destruct (M1 _ _ _ Hm) as (_&_&opM&_&_&_&_&_&HopM&HtyM&_).
        unfold graph_op in HopT, HopM. congruence.
    + exfalso. assert (t = length (g_operations (ps_graph s))) as ->.
      { apply lookup_lt_Some in Ht. rewrite resolve_length in Ht. lia. }
      destruct (resolve_lookup sw opS c id s (length (g_operations (ps_graph s))))
        as [_ Hnew].
      destruct (Hnew eq_refl) as (opM & HopM & HtyM & _). congruence.
  - intros v Hv. left. unfold resolve in Hv.
    cbn [last_op_using_resource_tensor] in Hv. by rewrite lookup_insert_ne in Hv.
Qed.

Lemma ctx_inv_process_switch g0 n0 fuel sw s s' :
  _process_switch fuel sw s = (s', Ok tt) ->
  switch_at (ps_graph s) sw = true -> merges_ok n0 s ->
  ctx_inv g0 s -> ctx_inv g0 s'.
Proof.
  revert sw s s'. induction fuel as [|fuel IH]; intros sw s s' H Hsw Hok HJ; [done|].
  apply process_switch_inv in H
    as (opS & inp & sa & HopS & Hinp & Hrec & Hlen & Hres).
  assert (ctx_inv g0 sa /\ merges_ok n0 sa /\ pass_le s sa) as (HJa & Hoka & Hle).
  { destruct Hrec as [(_ & Hsw' & Hrec) | (_ & ->)].
    - split; [by eapply IH|].
      split; [by destruct (keeps_merges_process_switch n0 _ _ _ _ _ Hrec Hok)
             | by eapply preserves_process_switch].
    - split; [done|]. split; [done | reflexivity]. }
  destruct Hres as [[_ ->] | (Hnone & c & Hctx & ->)]; [done|].
  apply (ctx_inv_resolve g0 n0); [done | | done].
  rewrite (switch_at_graph_le _ _ _ (proj1 Hle)); [done | by eexists].
Qed.

Lemma ctx_inv_use_input g0 n0 p id s :
  merges_ok n0 s -> ctx_inv g0 s -> ctx_inv g0 (use_input p id s).
Proof.
  intros Hok HJ. pose proof Hok as (_ & M1 & _).
  apply (ctx_inv_step g0 s); [done | by destruct (use_input_pass_le p id s) | |].
  - intros t opT' x Ht HnS HnM Hx. left.
    unfold use_input in Ht. cbn [ps_graph] in Ht.
    destruct (merge_for_resource s !! id) as [m|] eqn:Hm;
      [|exists opT'; split; [done|]; by split].
    rewrite graph_op_add_control_inputs in Ht.
    destruct (graph_op (ps_graph s) t) as [opT|] eqn:HopT; [|done].
    simpl in Ht. injection Ht as <-.
    case_bool_decide as Htm; [|exists opT; split; [done|]; by split].
    exfalso. subst t. destruct id as [a b].
    destruct (M1 _ _ _ Hm) as (_&_&opM&_&_&_&_&_&HopM&HtyM&_).
    simpl in HnM. congruence.
  - intros v Hv. left. unfold use_input in Hv.
    cbn [last_op_using_resource_tensor] in Hv. by rewrite lookup_insert_ne in Hv.
Qed.

Lemma ctx_inv_process_inputs g0 n0 p op ins ci ri s s' found :
  process_inputs p op ins ci ri s = (s', Ok found) ->
  merges_ok n0 s -> ctx_inv g0 s -> ctx_inv g0 s'.
Proof.
  revert ci ri s. induction ins as [|inp ins IH]; intros ci ri s H Hok HJ.
  { simpl in H. unfold ret in H. by injection H as <- <-. }
  apply process_inputs_cons_inv in H
    as [[_ H] | (Hres & Hnew & sa & Hsa & H)]; [by eapply IH|].
  assert (ctx_inv g0 sa /\ merges_ok n0 sa) as [HJa Hoka].
  { destruct Hsa as [[Hsw Hcall] | [_ ->]]; [|done].
    split; [by eapply ctx_inv_process_switch|].
    by destruct (keeps_merges_call_process_switch n0 _ _ _ _ Hcall Hok). }
  eapply (IH _ _ _ H).
  - by destruct (use_input_keeps n0 p (tensor_id inp) sa Hoka).
  - by eapply ctx_inv_use_input.
Qed.

Lemma ctx_inv_finish g0 p op opP found s :
  graph_op (ps_graph s) p = Some opP ->
  _control_flow_context opP = _control_flow_context op ->
  ctx_inv g0 s -> ctx_inv g0 (finish p op found s).
Proof.
  intros Hop Hc HJ. pose proof HJ as [_ J2].
  apply (ctx_inv_step g0 s); [done | apply finish_le | |].
  - intros t opT' x Ht HnS HnM Hx.
    destruct (lookup_lt_is_Some_2 (g_operations (ps_graph s)) t) as [opT HopT].
    { apply lookup_lt_Some in Ht.
      destruct (finish_graph p op found s) as (X & Y & Hg & _).
      rewrite Hg, !graph_add_control_inputs_length in Ht. done. }
    pose proof (finish_le p op found s) as Hle.
    pose proof Hle as (_&_&_&_&_&Hops).
    destruct (Hops _ _ HopT) as (op' & Hop' & Hople).
    assert (op' = opT') as -> by congruence.
    destruct (decide (x ∈ control_inputs opT)) as [Hin|Hnin];
      [left; by exists opT|]. right.
    revert Ht Hx. unfold finish.
    destruct (op_is_stateful op && bool_decide (found.2 = ∅)
              && bool_decide (_control_flow_context op = None)) eqn:Hcond;
      cbn [ps_graph with_graph].
    + apply andb_true_iff in Hcond as [_ HcN]. apply bool_decide_eq_true in HcN.
      destruct (last_op_using_resource_tensor s !! None) as [prev|] eqn:Hprev.
      * rewrite !graph_op_add_control_inputs. unfold graph_op in HopT.
        unfold graph_op at 1. rewrite HopT. simpl.
        case_bool_decide as Htp; simpl; [|intros [= <-] ?; done].
        subst t. intros [= <-]. simpl.
        rewrite !elem_of_union, elem_of_singleton.
        intros [[?| ->]|Hx]; [done| |].
        -- assert (opT = opP) as -> by (unfold graph_op in Hop; congruence).
           rewrite Hc, HcN.
           eapply same_context_mono; [apply graph_add_control_inputs_le|].
           eapply same_context_mono; [apply graph_add_control_inputs_le|].
           by apply J2.
        -- assert (opT = opP) as -> by (unfold graph_op in Hop; congruence).
           apply elem_of_filter in Hx as [Hx _]. rewrite Hc.
           eapply same_context_mono; [apply graph_add_control_inputs_le|]. done.
      * rewrite !graph_op_add_control_inputs. unfold graph_op in HopT.
        unfold graph_op at 1. rewrite HopT. simpl.
        case_bool_decide as Htp; simpl; [|intros [= <-] ?; done].
        subst t. intros [= <-]. simpl. rewrite !elem_of_union.
        intros [?|Hx]; [done|].
        assert (opT = opP) as -> by (unfold graph_op in Hop; congruence).
        apply elem_of_filter in Hx as [Hx _]. rewrite Hc.
        eapply same_context_mono; [apply graph_add_control_inputs_le|]. done.
    + clear Hcond. rewrite !graph_op_add_control_inputs. unfold graph_op in HopT.
      unfold graph_op at 1. rewrite HopT. simpl.
      case_bool_decide as Htp; simpl; [|intros [= <-] ?; done].
      subst t. intros [= <-]. simpl. rewrite !elem_of_union.
      intros [?|Hx]; [done|].
      assert (opT = opP) as -> by (unfold graph_op in Hop; congruence).
      apply elem_of_filter in Hx as [Hx _]. rewrite Hc.
      eapply same_context_mono; [apply graph_add_control_inputs_le|]. done.
  - intros v Hv. unfold finish in *.
    destruct (op_is_stateful op && bool_decide (found.2 = ∅)
              && bool_decide (_control_flow_context op = None)) eqn:Hcond;
      cbn [with_graph last_op_using_resource_tensor ps_graph] in *; [|by left].
    rewrite lookup_insert_eq in Hv. injection Hv as <-. right.
    apply andb_true_iff in Hcond as [_ HcN]. apply bool_decide_eq_true in HcN.
    unfold same_context. rewrite graph_op_add_control_inputs.
    assert (is_Some (graph_op
              (match last_op_using_resource_tensor s !! None with
               | Some prev => graph_add_control_inputs p {[ prev ]} (ps_graph s)
               | None => ps_graph s
               end) p)) as [op1 Hop1].
    { destruct (last_op_using_resource_tensor s !! None);
        [rewrite graph_op_add_control_inputs, Hop | rewrite Hop]; by eexists. }
    assert (_control_flow_context op1 = None) as Hc1.
    { destruct (last_op_using_resource_tensor s !! None).
      - rewrite graph_op_add_control_inputs, Hop in Hop1. simpl in Hop1.
        injection Hop1 as <-. rewrite bool_decide_eq_true_2 by done.
        simpl. congruence.
      - assert (op1 = opP) as -> by congruence. congruence. }
    rewrite Hop1. simpl. rewrite bool_decide_eq_true_2 by done. simpl.
    by rewrite Hc1.
Qed.

Lemma ctx_inv_ensured g0 p op s : ctx_inv g0 s -> ctx_inv g0 (ensured p op s).
Proof. unfold ctx_inv. by rewrite ensured_graph, ensured_last. Qed.

Lemma ctx_inv_absorb g0 n0 p op s s' :
  merges_ok n0 s -> graph_op (ps_graph s) p = Some op -> type op = "Merge" ->
  absorb_into_merge p s = (s', Ok tt) -> ctx_inv g0 s -> ctx_inv g0 s'.
Proof.
  intros Hok Hop Hty H HJ. pose proof Hok as (_ & _ & _ & _ & V).
  rewrite absorb_into_merge_spec in H by (by apply valid_handles_of_lt).
  injection H as <-.
  apply (ctx_inv_step g0 s); [done | apply graph_add_control_inputs_le | |];
    cbn [ps_graph last_op_using_resource_tensor].
  - intros t opT' x Ht HnS HnM Hx. left.
    rewrite graph_op_add_control_inputs in Ht.
    destruct (graph_op (ps_graph s) t) as [opT|] eqn:HopT; [|done].
    simpl in Ht. injection Ht as <-.
    case_bool_decide as Htp; [|exists opT; split; [done|]; by split].
    exfalso. subst t. simpl in HnM. congruence.
  - intros v Hv. left. rewrite repoint_lookup_out in Hv; [done|].
    intros Hin. apply list_elem_of_fmap in Hin as (? & ? & _). done.
Qed.

Lemma ctx_inv_process_op g0 n0 p s s' :
  p < n0 -> merges_ok n0 s ->
  process_op p s = (s', Ok tt) -> ctx_inv g0 s -> ctx_inv g0 s'.
Proof.
  intros Hp Hok H HJ.
  apply process_op_inv in H as (op & Hop & [[_ ->] | (Hwh & H)]); [done|].
  pose proof (ctx_inv_ensured g0 p op s HJ) as HJe.
  pose proof (merges_ok_ensured n0 p op s Hp Hok) as Hoke.
  destruct H as [[_ ->] | [[Hty H] | [_ H]]]; [done | |].
  - eapply (ctx_inv_absorb g0 n0 p op); try done. by rewrite ensured_graph.
  - apply serialize_uses_inv in H as (sb & found & Hin & ->).
    pose proof (preserves_process_inputs _ _ _ _ _ _ _ _ Hin) as [(_&_&_&_&_&Hops) _].
    rewrite ensured_graph in Hops.
    destruct (Hops _ _ Hop) as (opb & Hopb & (_&_&_&Hc&_)).
    apply (ctx_inv_finish g0 p op opb); [done | done |].
    by eapply ctx_inv_process_inputs.
Qed.

Lemma ctx_inv_run g0 (l : list nat) s s' :
  Forall (fun i => i < length (g_operations g0)) l ->
  merges_ok (length (g_operations g0)) s ->
  run_pass l s = (s', Ok tt) -> ctx_inv g0 s -> ctx_inv g0 s'.
Proof.
  revert s. induction l as [|p l IH]; intros s Hl Hok H HJ.
  { simpl in H. unfold ret in H. by injection H as <-. }
  simpl in H. apply bind_ok_inv in H as (s1 & [] & Hstep & Hrest).
  apply Forall_cons in Hl as [Hp Hl].
  apply (IH s1); [done | | done |].
  - by destruct (keeps_merges_process_op _ p Hp _ _ _ Hstep Hok).
  - by eapply ctx_inv_process_op.
Qed.

(** ** The users after a conditional *)

Lemma settled_mono n0 r s s' :
  merges_ok n0 s -> merges_ok n0 s' -> pass_le s s' ->
  settled r s -> settled r s'.
Proof.
  intros (Hn0 & _) (_ & _ & M2 & _) (Hle & Hdom & _) Hs sw opS inp Hop Hty Hinp Hid.
  destruct (decide (sw < length (g_operations (ps_graph s)))) as [Hlt|Hge].
  - destruct (op_le_lookup _ _ _ _ Hle Hop Hlt) as (op & Hop0 & (Ht & Hi & _)).
    assert (is_Some (merge_for_resource s !! (sw, 0))) as Hsome.
    { apply (Hs sw op inp); [done | congruence | congruence | done]. }
    apply elem_of_dom. apply Hdom. by apply elem_of_dom.
  - destruct (M2 sw opS) as [Hm _]; [lia | done | congruence].
Qed.

Lemma process_switch_last_settled r fuel sw s s' :
  settled r s -> switch_at (ps_graph s) sw = true ->
  _process_switch fuel sw s = (s', Ok tt) ->
  last_op_using_resource_tensor s' !! Some r
  = last_op_using_resource_tensor s !! Some r.
Proof.
  intros Hs. revert sw s'.
  induction fuel as [|fuel IH]; intros sw s' Hsw H; [done|].
  apply process_switch_inv in H
    as (opS & inp & sa & HopS & Hinp & Hrec & Hlen & Hres).
  assert (last_op_using_resource_tensor sa !! Some r
          = last_op_using_resource_tensor s !! Some r /\ pass_le s sa) as [Hsa Hle].
  { destruct Hrec as [(_ & Hsw' & Hrec) | (_ & ->)]; [|done].
    split; [by eapply IH | by eapply preserves_process_switch]. }
  destruct Hres as [[_ ->] | (Hnone & c & Hctx & ->)]; [done|].
  unfold resolve. cbn [last_op_using_resource_tensor].
  rewrite lookup_insert_ne; [done|].
  intros [= Heq]. unfold switch_at in Hsw. rewrite HopS in Hsw.
  apply bool_decide_eq_true in Hsw.
  destruct (Hs sw opS inp HopS Hsw Hinp Heq) as [m Hm].
  destruct Hle as (_ & Hdom & _).
  assert ((sw, 0) ∈ dom (merge_for_resource sa)) as Hin
    by (apply Hdom, elem_of_dom; by eexists).
  apply elem_of_dom in Hin as [? Hin]. congruence.
Qed.

Lemma process_inputs_last_settled g0 n p r op ins ci ri s s' found :
  n <= p < length (g_operations g0) -> while_at g0 p = false ->
  process_inputs p op ins ci ri s = (s', Ok found) ->
  region_inv g0 n (S p) s -> settled r s ->
  ci ⊆ found.1
  /\ ((r ∈ ri) \/ (forall t, t ∈ ins -> dtype t = resource -> tensor_id t <> r) ->
      last_op_using_resource_tensor s' !! Some r
      = last_op_using_resource_tensor s !! Some r)
  /\ ((r ∉ ri) -> (exists t, t ∈ ins /\ dtype t = resource /\ tensor_id t = r) ->
      last_op_using_resource_tensor s' !! Some r = Some p
      /\ forall u, last_op_using_resource_tensor s !! Some r = Some u ->
           same_context (ps_graph s) (_control_flow_context op) u = true ->
           u ∈ found.1).
Proof.
  intros Hp Hw. revert ci ri s.
  induction ins as [|inp ins IH]; intros ci ri s H Hr Hs.
  { simpl in H. unfold ret in H. injection H as <- <-. simpl.
    split; [done|]. split; [done|].
    intros _ (t & Ht & _). by apply elem_of_nil in Ht. }
  apply process_inputs_cons_inv in H
    as [[Hskip H] | (Hres & Hnew & sa & Hsa & H)].
  - destruct (IH _ _ _ H Hr Hs) as (Ha & Hb & Hc).
    split; [done|]. split.
    + intros [Hri | Hno]; apply Hb; [by left | right].
      intros t Ht. apply Hno. by right.
    + intros Hri (t & Ht & Hdt & Hid). apply Hc; [done|].
      apply elem_of_cons in Ht as [-> | Ht]; [|by exists t].
      destruct Hskip as [Hnr | Hin]; [done|]. by rewrite Hid in Hin.
  - assert (region_inv g0 n (S p) sa /\ pass_le s sa
            /\ last_op_using_resource_tensor sa !! Some r
               = last_op_using_resource_tensor s !! Some r) as (Hra & Hle & Hla).
    { destruct Hsa as [[Hsw Hcall] | [_ ->]];
        [|split; [done|]; split; [reflexivity|done]].
      split; [by eapply region_inv_process_switch|].
      split; [by eapply preserves_call_process_switch|].
      by eapply process_switch_last_settled. }
    pose proof (region_inv_use_input g0 n p (tensor_id inp) sa Hp Hw Hra) as Hr1.
    assert (settled r (use_input p (tensor_id inp) sa)) as Hs1.
    { apply (settled_mono (length (g_operations g0)) r s);
        [by destruct Hr | by destruct Hr1 | | done].
      etransitivity; [exact Hle | apply use_input_pass_le]. }
    destruct (IH _ _ _ H Hr1 Hs1) as (Ha & Hb & Hc).
    assert (ci ⊆ with_last_user (_control_flow_context op) (tensor_id inp) ci sa)
      as Hci.
    { unfold with_last_user.
      destruct (last_op_using_resource_tensor sa !! Some (tensor_id inp)) as [prev|];
        [|reflexivity].
      destruct (same_context (ps_graph sa) (_control_flow_context op) prev);
        [|reflexivity].
      intros x Hx. by apply elem_of_union_l. }
    split; [by etransitivity|].
    destruct (decide (tensor_id inp = r)) as [Heq|Hne].
    + split.
      * intros [Hri | Hno]; [by rewrite Heq in Hnew|].
        exfalso. apply (Hno inp); [by left | done | done].
      * intros _ _.
        assert (last_op_using_resource_tensor s' !! Some r = Some p) as Hlast.
        { rewrite Hb.
          - unfold use_input. cbn [last_op_using_resource_tensor].
            rewrite Heq. apply lookup_insert_eq.
          - left. rewrite <- Heq. apply elem_of_union_r. by apply elem_of_singleton. }
        split; [done|]. intros u Hu Hctx. apply Ha.
        unfold with_last_user. rewrite Heq, Hla, Hu.
        rewrite (same_context_mono _ _ _ _ (proj1 Hle) Hctx).
        apply elem_of_union_r. by apply elem_of_singleton.
    + assert (last_op_using_resource_tensor (use_input p (tensor_id inp) sa) !! Some r
              = last_op_using_resource_tensor s !! Some r) as Hl1.
      { unfold use_input. cbn [last_op_using_resource_tensor].
        rewrite lookup_insert_ne by congruence. done. }
      split.
      * intros Hcase. rewrite Hb; [done|].
        destruct Hcase as [Hri | Hno]; [left; by apply elem_of_union_l | right].
        intros t Ht. apply Hno. by right.
      * intros Hri (t & Ht & Hdt & Hid).
        destruct Hc as [Hlast Hu].
        -- rewrite elem_of_union, elem_of_singleton. intros [?|?]; [done | congruence].
        -- apply elem_of_cons in Ht as [-> | Ht]; [done | by exists t].
        -- split; [done|]. intros u Hu' Hctx. apply Hu; [by rewrite Hl1|].
           eapply same_context_mono; [|exact Hctx].
           etransitivity; [exact (proj1 Hle)|].
           by destruct (use_input_pass_le p (tensor_id inp) sa).
Qed.

Lemma process_op_last_settled g0 n p r s s' op :
  n <= p < length (g_operations g0) ->
  region_inv g0 n p s -> settled r s ->
  graph_op (ps_graph s) p = Some op -> process_op p s = (s', Ok tt) ->
  plain_consumer op = true -> uses_resource op r = true ->
  last_op_using_resource_tensor s' !! Some r = Some p
  /\ forall u, last_op_using_resource_tensor s !! Some r = Some u ->
       same_context (ps_graph s) (_control_flow_context op) u = true ->
       u ∈ control_inputs_at (ps_graph s') p.
Proof.
  intros Hp Hr Hs Hop H Hplain Huses. pose proof Hr as (_ & R2 & _).
  apply plain_consumer_true in Hplain as (Hwh & HnS & HnM).
  apply process_op_inv in H as (op' & Hop' & H).
  assert (op' = op) as -> by congruence.
  destruct H as [[Hwh' _] | (_ & H)]; [congruence|].
  destruct H as [[Hty _] | [[Hty _] | [_ H]]]; [done | done |].
  assert (while_at g0 p = false) as Hw.
  { rewrite <- (while_at_current g0 (ps_graph s) p op); [done | done | lia | done]. }
  assert (region_inv g0 n (S p) (ensured p op s)) as Hre.
  { apply region_inv_ensured; [done | done |].
    eapply region_inv_weaken; [|done]. lia. }
  assert (settled r (ensured p op s)) as Hse.
  { intros sw opS inp. rewrite ensured_graph. intros Ho Ht Hi Hid.
    destruct (Hs sw opS inp Ho Ht Hi Hid) as [m Hm]. exists m.
    unfold ensured. by destruct (_ || _). }
  apply serialize_uses_inv in H as (sb & found & Hin & ->).
  destruct (process_inputs_last_settled g0 n p r op _ ∅ ∅ _ _ _ Hp Hw Hin Hre Hse)
    as (_ & _ & Hc).
  pose proof (preserves_process_inputs _ _ _ _ _ _ _ _ Hin) as [Hle _].
  apply uses_resource_true in Huses.
  destruct Hc as [Hlast Hfound]; [by apply not_elem_of_empty | done |].
  rewrite ensured_last, ensured_graph in *.
  split; [by rewrite finish_last_Some|].
  intros u Hlu Hctx. pose proof Hle as (_&_&_&_&_&Hops).
  destruct (Hops _ _ Hop) as (opb & Hopb & _).
  apply (finish_adds p op found sb opb); [done | by apply Hfound |].
  by eapply same_context_mono.
Qed.

Lemma only_switch_at g0 r sw s sw' opS inp :
  only_switch g0 r sw = true ->
  merges_ok (length (g_operations g0)) s -> graph_le g0 (ps_graph s) ->
  graph_op (ps_graph s) sw' = Some opS -> type opS = "Switch" ->
  inputs opS !! 0 = Some inp -> tensor_id inp = r -> sw' = sw.
Proof.
  intros Hos (_ & _ & M2 & _) Hle HopS Hty Hinp Heq.
  destruct (decide (sw' < length (g_operations g0))) as [Hlt|Hge].
  - destruct (op_le_lookup _ _ _ _ Hle HopS Hlt) as (op & Hop & (Ht & Hi & _)).
    unfold only_switch in Hos. rewrite forallb_forall in Hos.
    specialize (Hos sw'). rewrite Hop, Ht, Hi, Hinp in Hos.
    rewrite !bool_decide_eq_true_2 in Hos by done. simpl in Hos.
    apply Nat.eqb_eq, Hos, in_seq. lia.
  - destruct (M2 sw' opS) as [Hm _]; [lia | done | congruence].
Qed.

Lemma process_op_skips_switch p s s' op :
  process_op p s = (s', Ok tt) -> graph_op (ps_graph s) p = Some op ->
  IsInWhileLoop op = false -> skipped_switch op = true ->
  s' = ensured p op s.
Proof.
  intros H Hop Hwh Hsk. rewrite (process_op_lookup _ _ _ Hop) in H.
  unfold skipped_switch in Hsk. apply andb_true_iff in Hsk as [Hty Hin].
  destruct (inputs op !! 0) as [inp|] eqn:Hinp; [|done].
  unfold process_op_body in H. rewrite Hwh in H.
  apply bind_ok_inv in H as (s2 & [] & He & H).
  assert (s2 = ensured p op s) as ->.
  { unfold ensure_runs, ensured in *. unfold bind, gets in He.
    destruct (_ || _); unfold modify, ret in He; by injection He. }
  apply bool_decide_eq_true in Hty, Hin.
  unfold is_resource_switch in H.
  rewrite (bool_decide_eq_true_2 _ Hty) in H.
  unfold bind, index, ret in H. rewrite Hinp in H.
  rewrite (bool_decide_eq_true_2 _ Hin) in H. by injection H.
Qed.

Lemma last_merge_process_switch g0 n p r sw opS0 inp0 fuel sw' s s' :
  only_switch g0 r sw = true ->
  graph_op g0 sw = Some opS0 -> inputs opS0 !! 0 = Some inp0 ->
  tensor_id inp0 = r ->
  _process_switch fuel sw' s = (s', Ok tt) -> switch_at (ps_graph s) sw' = true ->
  region_inv g0 n p s ->
  merge_is_last_user sw r s -> merge_is_last_user sw r s'.
Proof.
  intros Hos HopS0 Hinp0 Hr. revert sw' s s'.
  induction fuel as [|fuel IH]; intros sw' s s' H Hsw Hreg Hm; [done|].
  pose proof Hreg as (R1 & R2 & _).
  apply process_switch_inv in H
    as (opS & inp & sa & HopS & Hinp & Hrec & Hlen & Hres).
  assert (merge_is_last_user sw r sa /\ pass_le s sa) as [Hma Hle].
  { destruct Hrec as [(_ & Hsw' & Hrec) | (_ & ->)]; [|done].
    split; [by eapply IH | by eapply preserves_process_switch]. }
  destruct Hres as [[_ ->] | (Hnone & c & Hctx & ->)]; [done|].
  pose proof Hle as ((_&_&_&_&_&Hops) & _).
  destruct (Hops _ _ HopS) as (opSa & HopSa & _).
  destruct (resolve_facts sw' opS c (tensor_id inp) sa)
    as (_ & H2 & H3 & _ & _ & _ & H7); [by eexists|].
  unfold switch_at in Hsw. rewrite HopS in Hsw. apply bool_decide_eq_true in Hsw.
  unfold merge_is_last_user. rewrite H7.
  destruct (decide (sw' = sw)) as [->|Hne].
  - right. exists (length (g_operations (ps_graph sa))).
    rewrite bool_decide_eq_true_2 by done. split; [done|].
    destruct (op_facts_current g0 (ps_graph s) sw opS0 opS R2 HopS0 HopS)
      as (_ & Hi & _).
    assert (inp = inp0) as -> by congruence. by rewrite <- Hr.
  - rewrite bool_decide_eq_false_2 by (intros [? _]; done).
    rewrite H3; [done|]. intros [= Heq]. apply Hne.
    by apply (only_switch_at g0 r sw s sw' opS inp).
Qed.

Lemma last_merge_process_inputs g0 n p r sw opS0 inp0 op ins ci ri s s' found :
  only_switch g0 r sw = true ->
  graph_op g0 sw = Some opS0 -> inputs opS0 !! 0 = Some inp0 ->
  tensor_id inp0 = r ->
  n <= p < length (g_operations g0) -> while_at g0 p = false ->
  process_inputs p op ins ci ri s = (s', Ok found) ->
  region_inv g0 n (S p) s ->
  (forall t, t ∈ ins -> dtype t = resource -> tensor_id t <> r) ->
  merge_is_last_user sw r s -> merge_is_last_user sw r s'.
Proof.
  intros Hos HopS0 Hinp0 Hr Hp Hw. revert ci ri s.
  induction ins as [|inp ins IH]; intros ci ri s H Hreg Hno Hm.
  { simpl in H. unfold ret in H. by injection H as <- <-. }
  apply process_inputs_cons_inv in H
    as [[Hskip H] | (Hres & Hnew & sa & Hsa & H)].
  - apply (IH _ _ _ H Hreg); [|done]. intros t Ht. apply Hno. by right.
  - assert (region_inv g0 n (S p) sa /\ merge_is_last_user sw r sa) as [Hra Hma].
    { destruct Hsa as [[Hsw Hcall] | [_ ->]]; [|done].
      split; [by eapply region_inv_process_switch|].
      unfold call_process_switch in Hcall.
      by eapply last_merge_process_switch. }
    apply (IH _ _ _ H).
    + by apply region_inv_use_input.
    + intros t Ht. apply Hno. by right.
    + assert (tensor_id inp <> r) as Hne by (apply Hno; [by left | done]).
      unfold merge_is_last_user, use_input.
      cbn [merge_for_resource last_op_using_resource_tensor].
      rewrite lookup_insert_ne by congruence. done.
Qed.

Lemma last_merge_process_op g0 n p r sw opS0 inp0 s s' :
  only_switch g0 r sw = true ->
  graph_op g0 sw = Some opS0 -> inputs opS0 !! 0 = Some inp0 ->
  tensor_id inp0 = r ->
  n <= p < length (g_operations g0) -> quiet_at g0 r p = true ->
  process_op p s = (s', Ok tt) -> region_inv g0 n p s ->
  merge_is_last_user sw r s -> merge_is_last_user sw r s'.
Proof.
  intros Hos HopS0 Hinp0 Hr Hp Hq H Hreg Hm. pose proof Hreg as (R1 & R2 & _).
  assert (forall op, merge_is_last_user sw r (ensured p op s)) as Hens.
  { intros op. unfold merge_is_last_user, ensured. by destruct (_ || _). }
  pose proof H as H'.
  apply process_op_inv in H as (op & Hop & H).
  destruct H as [[_ ->] | (Hwh & H)]; [done|].
  destruct (op_le_lookup _ _ _ _ R2 Hop ltac:(lia)) as (op0 & Hop0 & Hle0).
  destruct (op_facts_current g0 (ps_graph s) p op0 op R2 Hop0 Hop)
    as (Hty & Hi & Hc).
  unfold quiet_at in Hq. rewrite Hop0 in Hq.
  assert (IsInWhileLoop op0 = false) as Hwh0.
  { unfold IsInWhileLoop in *. by rewrite <- Hc. }
  rewrite Hwh0 in Hq. simpl in Hq.
  destruct (skipped_switch op0) eqn:Hsk.
  { assert (skipped_switch op = true) as Hsk'.
    { unfold skipped_switch in *. by rewrite Hty, Hi. }
    rewrite (process_op_skips_switch p s s' op H' Hop Hwh Hsk'). apply Hens. }
  simpl in Hq. apply andb_true_iff in Hq as [HnM Hnu].
  apply negb_true_iff, bool_decide_eq_false in HnM.
  apply negb_true_iff in Hnu.
  destruct H as [[_ ->] | [[HM _] | [_ H]]]; [apply Hens | congruence |].
  assert (while_at g0 p = false) as Hw.
  { unfold while_at. by rewrite Hop0. }
  assert (region_inv g0 n (S p) (ensured p op s)) as Hre.
  { apply region_inv_ensured; [done | done |].
    eapply region_inv_weaken; [|done]. lia. }
  apply serialize_uses_inv in H as (sb & found & Hin & ->).
  assert (merge_is_last_user sw r sb) as Hmb.
  { eapply (last_merge_process_inputs g0 n p r sw opS0 inp0);
      [done | done | done | done | done | done | exact Hin | done | | apply Hens].
    rewrite Hi. by apply uses_resource_false. }
  unfold merge_is_last_user. rewrite finish_last_Some.
  assert (merge_for_resource (finish p op found sb) = merge_for_resource sb) as ->.
  { unfold finish. by destruct (_ && _). }
  done.
Qed.

Lemma last_merge_run g0 n r sw opS0 inp0 len p s s' :
  only_switch g0 r sw = true ->
  graph_op g0 sw = Some opS0 -> inputs opS0 !! 0 = Some inp0 ->
  tensor_id inp0 = r ->
  n <= p -> p + len <= length (g_operations g0) ->
  forallb (quiet_at g0 r) (seq p len) = true ->
  run_pass (seq p len) s = (s', Ok tt) -> region_inv g0 n p s ->
  merge_is_last_user sw r s -> merge_is_last_user sw r s'.
Proof.
  intros Hos HopS0 Hinp0 Hr. revert p s.
  induction len as [|len IH]; intros p s Hn Hlen Hq H Hreg Hm.
  { simpl in H. unfold ret in H. by injection H as <-. }
  simpl in H, Hq. apply andb_true_iff in Hq as [Hq1 Hq].
  apply bind_ok_inv in H as (s1 & [] & Hstep & Hrest).
  apply (IH (S p) s1); [lia | lia | done | done | |].
  - eapply region_inv_process_op; [|done|done]. lia.
  - eapply (last_merge_process_op g0 n p r sw opS0 inp0); try done. lia.
Qed.

(** * The claims *)

(** ** The region manager *)

(** C6: closing a region when the default graph is no longer the graph
    recorded at entry raises the consistency error, and nothing is changed:
    the graph and the manager are as they were, so no control edge was
    added. *)
Theorem exit_graph_changed_raises (sc : Scope) (graph : nat) :
  executing_eagerly sc = false ->
  _graph (self sc) = Some graph ->
  graph <> g_uid (default_graph sc) ->
  __exit__ sc =
    (sc, Raise (RuntimeError "Graph changed while trying to add control dependencies.")).
Proof.
  intros Heager Hg Hne. unfold __exit__. rewrite Heager, Hg.
  destruct (Nat.eqb_spec graph (g_uid (default_graph sc))); [done|reflexivity].
Qed.

Lemma exit_graph_changed_raises_witness :
  __exit__ changed_scope =
    (changed_scope,
     Raise (RuntimeError "Graph changed while trying to add control dependencies.")).
Proof.
  apply (exit_graph_changed_raises changed_scope 7);
    [reflexivity | reflexivity | simpl; lia].
Defined.

(** C8, as the code has it: for every value, composite or not,
    [mark_as_return] creates one identity operation for each component it
    copies (values and indices of a sparse or slice value, the flow of an
    array, the tensor itself), registers the output of each of them, and
    returns a value of the same kind built from the new outputs; the dense
    shape and the array handle are handed over as they are. *)
Theorem mark_as_return_copies_values_and_indices (v : Value) (sc : Scope) :
  let g := default_graph sc in
  let n := length (g_operations g) in
  exists sc' v',
    mark_as_return v sc = (sc', Ok v')
    /\ g_operations (default_graph sc') =
         g_operations g ++ map (new_identity_op g) (copied_components v)
    /\ _returned_tensors (self sc') =
         _returned_tensors (self sc)
         ∪ list_to_set (imap (fun j t => tensor_id (identity_output n j t))
                             (copied_components v))
    /\ kind_of v' = kind_of v
    /\ copied_components v' = imap (identity_output n) (copied_components v)
    /\ kept_components v' = kept_components v.
Proof.
  intros g n.
  destruct (mark_as_return_spec v sc) as (sc' & v' & H & _ & Hg & Hr & _ & _ & _ & Hk & Hc & Hd).
  exists sc', v'. rewrite Hg. done.
Qed.

(** C8, as stated, fails on a sparse value: its dense shape is a leaf, and no
    identity operation copies it. *)
Lemma mark_as_return_skips_dense_shape :
  ~ Forall (copies_leaf sparse_graph
              (default_graph (mark_as_return sparse_value (sparse_scope false)).1))
           (leaf_components sparse_value).
Proof.
  intros H. apply Forall_cons in H as [_ H]. apply Forall_cons in H as [_ H].
  apply Forall_cons in H as [(i & op & Hi & Hop & Hty & Hin) _].
  simpl in Hi, Hop. unfold graph_op in Hop. simpl in Hop.
  do 3 (destruct i as [|i]; [lia|]).
  destruct i as [|[|i]]; simpl in Hop; [| |done];
    injection Hop as <-; simpl in Hin; discriminate.
Qed.



(** C9: marking an existing plain tensor yields the output of a new identity
    operation that no operation of the graph consumes, so nothing, stateful
    or not, depends on it; and when a region holding it as returned is
    closed, the identity has a control edge on every operation that must run
    and whose context is the identity's. *)
Theorem returned_identity_is_fresh_and_anchored (t : Tensor) (sc : Scope) :
  inputs_exist (default_graph sc) = true ->
  t_op t < length (g_operations (default_graph sc)) ->
  exists sc1 t',
    mark_as_return (PlainTensor t) sc = (sc1, Ok (PlainTensor t'))
    /\ t_op t' = length (g_operations (default_graph sc))
    /\ graph_op (default_graph sc1) (t_op t')
       = Some (new_identity_op (default_graph sc) t)
    /\ tensor_id t' ∈ _returned_tensors (self sc1)
    /\ (forall j op x, graph_op (default_graph sc1) j = Some op ->
          x ∈ inputs op -> tensor_id x <> tensor_id t')
    /\ (forall sc2 sc3 o opO opR,
          executing_eagerly sc2 = false ->
          tensor_id t' ∈ _returned_tensors (self sc2) ->
          __exit__ sc2 = (sc3, Ok tt) ->
          o ∈ self_ops_which_must_run (self sc3) ->
          graph_op (default_graph sc3) o = Some opO ->
          graph_op (default_graph sc3) (t_op t') = Some opR ->
          ctx_is (_control_flow_context opO) (_control_flow_context opR) = true ->
          o ∈ control_inputs opR).
Proof.
  intros Hex Ht.
  destruct sc as [eager g a]. simpl in *.
  eexists _, _. split; [reflexivity|]. simpl.
  split; [done|]. split.
  { unfold graph_op; simpl. rewrite lookup_app_r by done.
    by rewrite Nat.sub_diag. }
  split; [set_solver|]. split.
  - intros j op x Hj Hx Hid. unfold graph_op in Hj; simpl in Hj.
    unfold tensor_id in Hid; simpl in Hid. injection Hid as Hop _.
    apply lookup_app_Some in Hj as [Hj | [_ Hj]].
    + unfold inputs_exist in Hex. rewrite forallb_forall in Hex.
      apply list_elem_of_lookup_2, list_elem_of_In in Hj.
      specialize (Hex _ Hj). rewrite forallb_forall in Hex.
      apply list_elem_of_In in Hx. specialize (Hex _ Hx).
      apply Nat.ltb_lt in Hex. lia.
    + apply list_lookup_singleton_Some in Hj as [_ <-]. simpl in Hx.
      apply list_elem_of_singleton in Hx as ->. lia.
  - intros sc2 sc3 o opO opR Heager Hret Hexit Ho HO HR Hctx.
    destruct (exit_ok_inv _ _ Heager Hexit) as (s & s' & _ & _ & Hanchor & ->).
    simpl in *.
    eapply (for_each_anchor_edges _ _ _ _ (length (g_operations g), 0));
      eauto.
    by apply elem_of_elements.
Qed.

Lemma returned_identity_is_fresh_and_anchored_witness :
  exists sc1 t',
    mark_as_return (PlainTensor (mkTensor 2 0 float32))
      (mkScope false straight_line (mkACD ∅ ∅ (Some 1) 0))
    = (sc1, Ok (PlainTensor t'))
    /\ t_op t' = 3
    /\ control_inputs_of (default_graph (__exit__ sc1).1) 3 = [2; 1; 0].
Proof.
  destruct (returned_identity_is_fresh_and_anchored (mkTensor 2 0 float32)
              (mkScope false straight_line (mkACD ∅ ∅ (Some 1) 0)))
    as (sc1 & t' & H & Ht & _); [reflexivity | simpl; lia |].
  exists sc1, t'. split; [exact H|]. split; [exact Ht|].
  injection H as <- _. vm_compute. reflexivity.
Defined.

(** ** The pass without resources *)




(** ** Merge absorption *)

(** C3, as the code has it: when the pass reaches a Merge outside any while
    loop, the Merge takes every operation that must run as a control input,
    it alone must run afterwards, no other operation and no entry of
    [merge_for_resource] changes, and [last_op_using_resource_tensor] is
    repointed to the Merge at exactly the keys it already had that are the
    identity of an input of an absorbed operation, whoever the last user
    recorded there was. *)
Theorem merge_absorbs_must_run (s : PassState) (op_id : nat) (op : Operation) :
  graph_op (ps_graph s) op_id = Some op ->
  IsInWhileLoop op = false ->
  type op = "Merge" ->
  valid_handles (ps_graph s) (ops_which_must_run s) = true ->
  let must := absorbed s op_id op in
  exists s',
    process_op op_id s = (s', Ok tt)
    /\ ps_graph s' = graph_add_control_inputs op_id must (ps_graph s)
    /\ ops_which_must_run s' = {[ op_id ]}
    /\ merge_for_resource s' = merge_for_resource s
    /\ (forall k, last_op_using_resource_tensor s !! k = None ->
          last_op_using_resource_tensor s' !! k = None)
    /\ (forall k, is_Some (last_op_using_resource_tensor s !! k) ->
          input_of_absorbed (ps_graph s) must k ->
          last_op_using_resource_tensor s' !! k = Some op_id)
    /\ (forall k, ~ input_of_absorbed (ps_graph s) must k ->
          last_op_using_resource_tensor s' !! k
          = last_op_using_resource_tensor s !! k).
Proof.
  intros Hop Hw Hty Hv must. eexists. split; [by apply process_op_merge|].
  simpl. repeat split; try done.
  - intros k Hk. by apply repoint_lookup_None.
  - intros k Hk (o & op' & t & Ho & Hop' & Ht & ->).
    apply repoint_lookup_in; [|done]. apply elem_of_all_ids.
    exists o, op', t. by rewrite elem_of_elements.
  - intros k Hk. apply repoint_lookup_out. intros Hin. apply Hk.
    apply elem_of_all_ids in Hin as (o & op' & t & Ho & Hop' & Ht & ->).
    exists o, op', t. by rewrite elem_of_elements in Ho.
Qed.

Lemma merge_absorbs_must_run_witness :
  exists s',
    process_op 3 before_merge = (s', Ok tt)
    /\ control_inputs_of (ps_graph s') 3 = [1]
    /\ ops_which_must_run s' = {[ 3 ]}
    /\ last_op_using_resource_tensor s' !! Some (0, 0) = Some 3.
Proof.
  destruct (merge_absorbs_must_run before_merge 3
              (plain_op "Merge" [mkTensor 2 0 int32] [int32; int32] None false))
    as (s' & Hrun & Hg & Hmust & _ & _ & Hin & _);
    [reflexivity | reflexivity | reflexivity | vm_compute; reflexivity |].
  exists s'. split; [exact Hrun|]. split; [rewrite Hg; vm_compute; reflexivity|].
  split; [exact Hmust|]. apply Hin.
  - vm_compute. eauto.
  - exists 1, (plain_op "AssignVariableOp" [var_handle] [] None true), var_handle.
    split; [vm_compute; reflexivity|].
    split; [reflexivity|]. split; [apply list_elem_of_singleton; reflexivity|].
    reflexivity.
Defined.

(** C3, as stated, fails on the repointing: the write is absorbed, the
    resource it wrote was last used by the read, which is not absorbed, and
    still the Merge becomes the last user of that resource. *)
Lemma merge_repoints_resource_of_later_user :
  ~ repoints_last_users_of_absorbed before_merge (process_op 3 before_merge).1 3
      (ops_which_must_run before_merge).
Proof.
  intros H. destruct (H (Some (0, 0))) as [H1 _].
  destruct H1 as (o & Ho & Hl); [vm_compute; reflexivity|].
  assert (last_op_using_resource_tensor before_merge !! Some (0, 0) = Some 2) as E
    by (vm_compute; reflexivity).
  rewrite E in Hl. injection Hl as <-.
  assert (bool_decide (2 ∈ ops_which_must_run before_merge) = false) as Hn
    by (vm_compute; reflexivity).
  by apply bool_decide_eq_false in Hn.
Qed.

(** ** Running the pass again *)

(** C5, as the code has it: when no operation consumes a resource tensor
    produced by a Switch, running the pass once more over the slice it has
    processed finds the same slice and ends in the very state the first run
    ended in: no operation and no control edge is added, and the outcome is
    the same. *)
Theorem rerun_without_switched_resources (g : Graph) (n : nat)
    (s1 : PassState) (r : outcome unit) :
  no_switched_resource g = true ->
  run_pass (new_operations g n) (fresh_pass g) = (s1, r) ->
  new_operations (ps_graph s1) n = new_operations g n
  /\ run_pass (new_operations g n) (fresh_pass (ps_graph s1)) = (s1, r).
Proof.
  intros Hn Hrun. apply no_switched_resource_switch_free in Hn.
  split; [|by apply (rerun_is_identity g)].
  pose proof (run_pass_same_kinds _ (fresh_pass g) _ _ Hn Hrun) as [Hlen _].
  unfold new_operations. by rewrite Hlen.
Qed.

Lemma rerun_without_switched_resources_witness :
  let s1 := (run_pass (new_operations straight_line 1) (fresh_pass straight_line)).1 in
  control_inputs_of (ps_graph s1) 2 = [1]
  /\ run_pass (new_operations straight_line 1) (fresh_pass (ps_graph s1))
     = (s1, Ok tt).
Proof.
  intros s1.
  destruct (rerun_without_switched_resources straight_line 1 s1 (Ok tt))
    as [_ H]; [reflexivity | vm_compute; reflexivity |].
  split; [vm_compute; reflexivity | exact H].
Defined.

(** C5, as stated, fails when a consumer reads a resource through a Switch:
    the first run synthesizes a merge for the Switch, and the second run,
    whose memo of merges is empty again, synthesizes another one. *)
Lemma rerun_synthesizes_another_merge : ~ rerun_adds_nothing cond_graph 2.
Proof.
  unfold rerun_adds_nothing. intros H.
  apply (f_equal (fun g => length (g_operations g))) in H.
  vm_compute in H. discriminate.
Qed.

(** ** Exempt kinds *)

(** C7: an operation of a registered kind listed in one of the three tables
    is not stateful for the pass, and processing it never adds it to the
    operations that must run; and when it has a resource input (outside a
    while loop) the pass treats it as it treats an operation of a registered,
    non-exempt kind with the same inputs and context in the same state: same
    outcome, same control edges on every operation, same last users, same
    merges; the only difference is that the non-exempt one, if stateful, must
    run. *)
Theorem exempt_kind_tracked_not_forced (s1 : PassState) (op_id : nat) (op1 : Operation) :
  graph_op (ps_graph s1) op_id = Some op1 ->
  type op1 ∈ ASYNC_STATEFUL_OPS \/ type op1 ∈ LEGACY_RANDOM_OPS
    \/ type op1 ∈ _ORDER_INSENSITIVE_STATEFUL_OPS ->
  type op1 ∈ _registered_ops (ps_graph s1) ->
  op_is_stateful op1 = false
  /\ (forall s1' r, process_op op_id s1 = (s1', r) ->
        op_id ∈ ops_which_must_run s1' -> op_id ∈ ops_which_must_run s1)
  /\ (forall s2 op2,
        IsInWhileLoop op1 = false ->
        (exists t, t ∈ inputs op1 /\ dtype t = resource) ->
        state_sim alike_but_kind 0 ∅ s1 s2 ->
        graph_op (ps_graph s2) op_id = Some op2 ->
        type op2 ∈ _registered_ops (ps_graph s2) ->
        type op2 ∉ _ALL_BLACKLISTED_OPS ->
        type op2 <> "Switch" -> type op2 <> "Merge" ->
        state_sim alike_but_kind 0 (if _is_stateful op2 then {[ op_id ]} else ∅)
          (process_op op_id s1).1 (process_op op_id s2).1
        /\ (process_op op_id s1).2 = (process_op op_id s2).2).
Proof.
  intros Hop Htab Hreg.
  assert (type op1 ∈ _ALL_BLACKLISTED_OPS) as Hb.
  { unfold _ALL_BLACKLISTED_OPS. rewrite !elem_of_union, !elem_of_list_to_set. tauto. }
  split; [by apply blacklisted_not_stateful|]. split.
  - intros s1' r Hrun Hin. rewrite (process_op_lookup _ _ _ Hop) in Hrun.
    destruct (must_only_new_exempt _ _ _ _ _ Hb Hreg Hrun) as [_ Hm].
    destruct (Hm _ Hin) as [?|Hge]; [done|].
    apply lookup_lt_Some in Hop. lia.
  - intros s2 op2 Hw Hres Hsim Hop2 Hreg2 Hnb HnS HnM.
    by apply (exempt_tracked_like_non_exempt s1 s2 op_id op1 op2).
Qed.

Lemma exempt_kind_tracked_not_forced_witness :
  op_is_stateful (plain_op "RandomUniform" [var_handle] [float32] None true) = false
  /\ elements (ops_which_must_run (process_op 1 (fresh_pass exempt_graph)).1) = []
  /\ last_op_using_resource_tensor (process_op 1 (fresh_pass exempt_graph)).1
       !! Some (0, 0) = Some 1
  /\ elements (ops_which_must_run (process_op 1 (fresh_pass non_exempt_graph)).1) = [1]
  /\ last_op_using_resource_tensor (process_op 1 (fresh_pass non_exempt_graph)).1
       !! Some (0, 0) = Some 1.
Proof.
  destruct (exempt_kind_tracked_not_forced (fresh_pass exempt_graph) 1
              (plain_op "RandomUniform" [var_handle] [float32] None true))
    as (H & _ & _);
    [reflexivity | right; left; vm_compute; do 1 constructor | vm_compute; reflexivity |].
  split; [exact H|]. vm_compute. repeat split; reflexivity.
Defined.

(** ** The switch protocol *)

(** C2: when the pass over the slice ends well and a plain operation of the
    slice consumes, as a resource, output [k] of the Switch [sw], the pass has
    synthesized one merge for that switch: [merge_for_resource] leads from
    every such output to the same new operation [m], a Merge over the
    outputs of the switch, in the outer context of the switch; no other new
    operation is a merge over these outputs; [m] was marked as having to run
    (it still must, or a Merge of the slice has absorbed it); and the
    consumer is a control input of [m].  Every consumer gets the same [m],
    the one recorded for output 0.  Moreover a call of the protocol on a
    switch it has resolved, at any later state of the pass, changes
    nothing. *)
Theorem switch_resolved_by_one_merge (g : Graph) (n : nat) (s' : PassState)
    (sw : nat) (opS : Operation) (c : ControlFlowContext)
    (w : nat) (opW : Operation) (k : nat) :
  run_pass (new_operations g n) (fresh_pass g) = (s', Ok tt) ->
  graph_op g sw = Some opS -> type opS = "Switch" ->
  _control_flow_context opS = Some c ->
  n <= w < length (g_operations g) ->
  graph_op g w = Some opW -> plain_consumer opW = true ->
  uses_resource opW (sw, k) = true -> k < length (output_dtypes opS) ->
  (exists m opM,
     merge_for_resource s' !! (sw, k) = Some m
     /\ merge_for_resource s' !! (sw, 0) = Some m
     /\ length (g_operations g) <= m
     /\ graph_op (ps_graph s') m = Some opM
     /\ type opM = "Merge" /\ inputs opM = outputs sw opS
     /\ _control_flow_context opM = outer_context c
     /\ w ∈ control_inputs opM
     /\ (forall m' opM', length (g_operations g) <= m' ->
           graph_op (ps_graph s') m' = Some opM' ->
           inputs opM' = outputs sw opS -> m' = m)
     /\ (m ∈ ops_which_must_run s'
         \/ exists j opJ, graph_op (ps_graph s') j = Some opJ /\ type opJ = "Merge"
              /\ j < length (g_operations g) /\ m ∈ control_inputs opJ))
  /\ (forall st st1 st2,
        call_process_switch sw st = (st1, Ok tt) -> pass_le st1 st2 ->
        call_process_switch sw st2 = (st2, Ok tt)).
Proof.
  intros Hrun HopS HtyS HctxS Hw HopW Hplain Huses Hk.
  split; [|intros st st1 st2; apply call_process_switch_again].
  set (n0 := length (g_operations g)).
  rewrite (new_operations_split g n w Hw) in Hrun.
  apply for_each_app_inv in Hrun as (s1 & Hbefore & Hrun).
  simpl in Hrun. apply bind_ok_inv in Hrun as (s2 & [] & Hstep & Hafter).
  assert (Forall (fun i => i < n0) (seq n (w - n))) as Hl1.
  { apply Forall_forall. intros i Hi. apply list_elem_of_In, in_seq in Hi.
    unfold n0. lia. }
  assert (Forall (fun i => i < n0) (seq (S w) (n0 - S w))) as Hl2.
  { apply Forall_forall. intros i Hi. apply list_elem_of_In, in_seq in Hi. lia. }
  destruct (keeps_merges_run_pass n0 _ Hl1 _ _ _ Hbefore (merges_ok_fresh g))
    as [Hok1 _].
  pose proof (preserves_run_pass _ _ _ _ Hbefore) as ((_&_&_&_&_&Hops1)&_).
  simpl in Hops1.
  destruct (Hops1 _ _ HopW) as (opW1 & HopW1 & (HtyW&HinW&_&HctxW&_)).
  destruct (Hops1 _ _ HopS) as (opS1 & HopS1 & (HtyS1&_&HoutS1&HctxS1&_)).
  destruct (process_op_feeds_merge n0 w s1 s2 opW1 sw k opS1)
    as (m & Hm & Hcm); try done; try congruence.
  { unfold n0. lia. }
  { revert Hplain. unfold plain_consumer, IsInWhileLoop. by rewrite HtyW, HctxW. }
  { revert Huses. unfold uses_resource. by rewrite HinW. }
  assert (w < n0) as Hwn by (unfold n0; lia).
  destruct (keeps_merges_process_op n0 w Hwn _ _ _ Hstep Hok1) as [Hok2 _].
  destruct (keeps_merges_run_pass n0 _ Hl2 _ _ _ Hafter Hok2) as [Hok' Hkept].
  pose proof (preserves_run_pass _ _ _ _ Hafter) as Hle2.
  apply Hkept in Hm.
  apply (control_inputs_at_mono _ _ _ _ (proj1 Hle2)) in Hcm.
  pose proof Hok' as (_ & M1 & M2 & M3 & _).
  destruct (M1 _ _ _ Hm) as (opS' & c' & opM & HopS' & HctxS' & _ & Hall & Hnm & HopM
                              & HtyM & HinM & HctxM).
  assert (graph_le g (ps_graph s')) as Hle.
  { pose proof (preserves_run_pass _ _ _ _ Hbefore) as [Ha _].
    pose proof (preserves_process_op _ _ _ _ Hstep) as [Hb _].
    destruct Hle2 as [Hc _]. simpl in Ha.
    etransitivity; [exact Ha|]. by etransitivity. }
  destruct Hle as (_&_&_&_&_&Hops).
  destruct (Hops _ _ HopS) as (opS'' & HopS'' & (_&_&HoutS&HctxS''&_)).
  assert (opS'' = opS') as -> by congruence.
  assert (outputs sw opS' = outputs sw opS) as Houts.
  { unfold outputs. by rewrite HoutS. }
  assert (c' = c) as -> by congruence.
  assert (merge_for_resource s' !! (sw, 0) = Some m) as Hm0.
  { apply Hall. rewrite <- HoutS. lia. }
  exists m, opM. rewrite <- Houts.
  unfold control_inputs_at in Hcm. rewrite HopM in Hcm.
  do 8 (split; [done|]). split.
  - intros m' opM' Hm' HopM' HinM'.
    destruct (M2 _ _ Hm' HopM') as (_ & sw' & opSx & HopSx & Hinx & Hmfx).
    destruct (M1 _ _ _ Hmfx) as (opSy & _ & _ & HopSy & _ & Hlen0 & _).
    assert (opSy = opSx) as -> by congruence.
    assert (sw' = sw) as ->.
    { rewrite HinM' in Hinx. unfold outputs in Hinx. rewrite HoutS in Hk.
      destruct (output_dtypes opS') as [|d ds]; [simpl in *; lia|].
      destruct (output_dtypes opSx) as [|d' ds']; [simpl in *; lia|].
      simpl in Hinx. by injection Hinx. }
    congruence.
  - apply M3; [done|]. by eapply lookup_lt_Some.
Qed.

Lemma switch_resolved_by_one_merge_witness :
  let s1 := (run_pass (new_operations cond_graph 2) (fresh_pass cond_graph)).1 in
  length (g_operations (ps_graph s1)) = 6
  /\ exists m opM,
       merge_for_resource s1 !! (2, 1) = Some m
       /\ merge_for_resource s1 !! (2, 0) = Some m
       /\ 5 <= m
       /\ graph_op (ps_graph s1) m = Some opM
       /\ type opM = "Merge"
       /\ _control_flow_context opM = None
       /\ 4 ∈ control_inputs opM.
Proof.
  intros s1. split; [vm_compute; reflexivity|].
  destruct (switch_resolved_by_one_merge cond_graph 2 s1 2
              (plain_op "Switch" [var_handle; mkTensor 1 0 int32] [resource; resource]
                        (Some branch) false)
              branch 4
              (plain_op "AssignVariableOp" [mkTensor 2 1 resource] [] (Some branch) true)
              1)
    as [(m & opM & H1 & H0 & Hm & Hop & Hty & _ & Hctx & Hin & _) _];
    [vm_compute; reflexivity | reflexivity | reflexivity | reflexivity
    | vm_compute; lia | reflexivity | reflexivity | vm_compute; reflexivity
    | vm_compute; lia |].
  exists m, opM. repeat split; assumption.
Defined.

(** * Further properties of the code *)

(** ** Leaving a region *)

(** X1: whatever its outcome, also when it raises, [__exit__] removes and
    rewrites nothing: every operation of the default graph is still there
    with its type, inputs, outputs, context and stateful flag, and with at
    least the control inputs it had; the returned tensors on record, the
    graph and the operation count recorded at entry are as they were, and the
    set of operations that must run has only grown. *)
Theorem exit_only_adds_control_inputs (sc sc' : Scope) (out : outcome unit)
    (i : nat) (op : Operation) :
  __exit__ sc = (sc', out) ->
  graph_op (default_graph sc) i = Some op ->
  (exists op', graph_op (default_graph sc') i = Some op'
     /\ type op' = type op /\ inputs op' = inputs op
     /\ output_dtypes op' = output_dtypes op
     /\ _control_flow_context op' = _control_flow_context op
     /\ _is_stateful op' = _is_stateful op
     /\ control_inputs op ⊆ control_inputs op')
  /\ _returned_tensors (self sc') = _returned_tensors (self sc)
  /\ _graph (self sc') = _graph (self sc)
  /\ _n_operations (self sc') = _n_operations (self sc)
  /\ self_ops_which_must_run (self sc) ⊆ self_ops_which_must_run (self sc')
  /\ g_uid (default_graph sc') = g_uid (default_graph sc).
Proof.
  intros H Hop.
  destruct (exit_any_inv _ _ _ H) as (_ & Hr & Hg & Hn & Hm & Hu & _ & _ & Hops).
  destruct (Hops _ _ Hop) as (op' & Hop' & (Ht & Hi & Ho & Hc & Hs & Hci)).
  split; [|done]. exists op'. done.
Qed.

Lemma exit_only_adds_control_inputs_witness :
  exists op', graph_op (default_graph (__exit__ two_prints_scope).1) 1 = Some op'
    /\ type op' = "PrintV2"
    /\ control_inputs (plain_op "PrintV2" [] [] None true) ⊆ control_inputs op'.
Proof.
  destruct (exit_only_adds_control_inputs two_prints_scope
              (__exit__ two_prints_scope).1 (__exit__ two_prints_scope).2
              1 (plain_op "PrintV2" [] [] None true))
    as [(op' & Hop' & Hty & _ & _ & _ & _ & Hci) _];
    [by destruct (__exit__ two_prints_scope) | reflexivity |].
  exists op'. done.
Defined.

(** ** The edges and the bookkeeping of a pass *)

(** X2: after a pass that ends well, every control input of an operation was
    there before the pass or is an edge of the following kind.  Its source is
    an operation of the slice outside the while loops or an operation the
    pass has created, and is an operation of the graph.  Its target is a
    Switch, or an operation the pass has created, or an operation of the
    slice outside the while loops; in the last case the source comes before
    the target in construction order or was created by the pass, a Merge
    that must run itself being the one operation to wait for itself. *)
Theorem pass_adds_edges_in_program_order (g : Graph) (n : nat) (s' : PassState)
    (t : nat) (opT' : Operation) (x : nat) :
  n <= length (g_operations g) ->
  run_pass (new_operations g n) (fresh_pass g) = (s', Ok tt) ->
  graph_op (ps_graph s') t = Some opT' -> x ∈ control_inputs opT' ->
  x ∈ control_inputs_at g t
  \/ edge_ok g n (length (g_operations g)) s' t opT' x.
Proof.
  intros Hn H Ht Hx. apply region_inv_pass in H.
  rewrite Nat.max_r in H by done.
  destruct H as (_ & _ & _ & _ & R5 & _). by eapply R5.
Qed.

Lemma pass_adds_edges_in_program_order_witness :
  1 ∈ control_inputs_at straight_line 2
  \/ edge_ok straight_line 1 3
       (run_pass (new_operations straight_line 1) (fresh_pass straight_line)).1
       2 (add_control {[ 1 ]} (plain_op "ReadVariableOp" [var_handle] [float32] None true))
       1.
Proof.
  apply (pass_adds_edges_in_program_order straight_line 1);
    [vm_compute; lia | vm_compute; reflexivity | vm_compute; reflexivity |].
  simpl. apply elem_of_union_r. by apply elem_of_singleton.
Defined.

(** X3: after a pass that ends well, the operations that must run and the
    last users on record are operations of the slice outside the while
    loops or operations the pass has created, all of them operations of the
    graph: no operation from before the region and none inside a while loop
    is kept alive or waited for. *)
Theorem pass_tracks_only_region (g : Graph) (n : nat) (s' : PassState) :
  n <= length (g_operations g) ->
  run_pass (new_operations g n) (fresh_pass g) = (s', Ok tt) ->
  (forall x, x ∈ ops_which_must_run s' ->
     tracked g n (length (g_operations g)) s' x)
  /\ (forall key v, last_op_using_resource_tensor s' !! key = Some v ->
        tracked g n (length (g_operations g)) s' v).
Proof.
  intros Hn H. apply region_inv_pass in H.
  rewrite Nat.max_r in H by done.
  destruct H as (_ & _ & R3 & R4 & _). done.
Qed.

Lemma pass_tracks_only_region_witness :
  tracked cond_graph 2 5
    (run_pass (new_operations cond_graph 2) (fresh_pass cond_graph)).1 5.
Proof.
  destruct (pass_tracks_only_region cond_graph 2
              (run_pass (new_operations cond_graph 2) (fresh_pass cond_graph)).1)
    as [Hmust _]; [vm_compute; lia | vm_compute; reflexivity |].
  apply Hmust. vm_compute. reflexivity.
Defined.

(** X4: a pass that ends well creates merges and nothing else: every
    operation it has appended to the graph is a Merge over the outputs of a
    Switch of the graph, placed in the outer context of that Switch, and it
    is the merge on record for the outputs of that Switch. *)
Theorem pass_creates_only_merges (g : Graph) (n : nat) (s' : PassState)
    (m : nat) (opM : Operation) :
  run_pass (new_operations g n) (fresh_pass g) = (s', Ok tt) ->
  length (g_operations g) <= m -> graph_op (ps_graph s') m = Some opM ->
  type opM = "Merge"
  /\ exists sw opS c,
       graph_op g sw = Some opS /\ type opS = "Switch"
       /\ _control_flow_context opS = Some c
       /\ inputs opM = outputs sw opS
       /\ _control_flow_context opM = outer_context c
       /\ merge_for_resource s' !! (sw, 0) = Some m.
Proof.
  intros H Hm HopM. apply region_inv_pass in H.
  destruct H as ((_ & M1 & M2 & _) & Hle & _ & _ & _ & R6).
  destruct (M2 _ _ Hm HopM) as (Hty & sw & opS' & HopS' & Hin & Hmf).
  split; [done|].
  destruct (M1 _ _ _ Hmf) as (opS'' & c & opM' & HopS'' & Hc & _ & _ & _ & HopM'
                               & _ & _ & HcM).
  assert (opS'' = opS') as -> by congruence.
  assert (opM' = opM) as -> by congruence.
  pose proof (R6 _ _ _ Hmf) as Hsw. unfold switch_at in Hsw.
  destruct (graph_op g sw) as [opS|] eqn:HopS; [|done].
  apply bool_decide_eq_true in Hsw.
  destruct Hle as (_&_&_&_&_&Hops).
  destruct (Hops _ _ HopS) as (opS2 & HopS2 & (_ & _ & Hout & Hctx & _)).
  assert (opS2 = opS') as -> by congruence.
  exists sw, opS, c. split; [done|]. split; [done|].
  split; [congruence|]. split; [|done].
  rewrite Hin. unfold outputs. by rewrite Hout.
Qed.

Lemma pass_creates_only_merges_witness :
  type (set_context None
          (add_control {[ 3; 4 ]}
             (new_merge_op cond_graph [mkTensor 2 0 resource; mkTensor 2 1 resource])))
  = "Merge".
Proof.
  apply (pass_creates_only_merges cond_graph 2
           (run_pass (new_operations cond_graph 2) (fresh_pass cond_graph)).1 5).
  - vm_compute. reflexivity.
  - vm_compute. lia.
  - vm_compute. reflexivity.
Defined.

(** X5: a pass that ends well leaves alone the operations it does not
    process: an operation that is not a Switch and was created before the
    region, or lies inside a while loop, is after the pass exactly what it
    was, control inputs included. *)
Theorem pass_leaves_other_operations (g : Graph) (n : nat) (s' : PassState)
    (t : nat) (op : Operation) :
  n <= length (g_operations g) ->
  run_pass (new_operations g n) (fresh_pass g) = (s', Ok tt) ->
  graph_op g t = Some op -> type op <> "Switch" ->
  t < n \/ IsInWhileLoop op = true ->
  graph_op (ps_graph s') t = Some op.
Proof.
  intros Hn H Hop Hty Hout. apply region_inv_pass in H.
  rewrite Nat.max_r in H by done.
  destruct H as (_ & Hle & _ & _ & R5 & _).
  destruct Hle as (_&_&_&_&_&Hops).
  destruct (Hops _ _ Hop) as (op' & Hop' & (Ht & Hi & Ho & Hc & Hs & Hci)).
  rewrite Hop'. f_equal.
  assert (control_inputs op' = control_inputs op) as Heq.
  { apply set_eq. intros x. split; [|apply Hci]. intros Hx.
    destruct (R5 _ _ _ Hop' Hx) as [Hold | [_ Hnew]].
    - unfold control_inputs_at in Hold. by rewrite Hop in Hold.
    - apply lookup_lt_Some in Hop.
      destruct Hnew as [Hsw | [Hge | (Ht' & Hw & _)]]; [congruence | lia |].
      destruct Hout as [Hlt | Hwh]; [lia|].
      unfold IsInWhileLoop in *. rewrite <- Hc in Hw. congruence. }
  destruct op, op'. simpl in *. by subst.
Qed.

Lemma pass_leaves_other_operations_witness :
  graph_op
    (ps_graph (run_pass (new_operations cond_graph 2) (fresh_pass cond_graph)).1) 1
  = Some (plain_op "Const" [] [int32] None false).
Proof.
  apply (pass_leaves_other_operations cond_graph 2);
    [vm_compute; lia | vm_compute; reflexivity | reflexivity | discriminate
    | left; lia].
Defined.

(** X6: every operation of the slice outside the while loops that the pass
    forces to run (its kind is not registered, or it is stateful and not of
    an exempt kind) is kept alive by a pass that ends well: it is among the
    operations that must run, or a chain of control edges leads to it from
    one of them, through the Merges that have absorbed it. *)
Theorem forced_operations_are_kept_alive (g : Graph) (n : nat) (s' : PassState)
    (o : nat) (op : Operation) :
  run_pass (new_operations g n) (fresh_pass g) = (s', Ok tt) ->
  n <= o -> graph_op g o = Some op ->
  IsInWhileLoop op = false -> forced g op = true ->
  kept_alive s' o.
Proof.
  intros H Hn Hop Hwh Hf. pose proof (lookup_lt_Some _ _ _ Hop) as Hlt.
  unfold new_operations in H.
  apply (kept_alive_run g n (length (g_operations g) - n) n (fresh_pass g) s')
    with (op := op); try done; [lia | apply merges_ok_fresh | lia | lia].
Qed.

Lemma forced_operations_are_kept_alive_witness :
  kept_alive
    (run_pass (new_operations write_read_merge 1) (fresh_pass write_read_merge)).1 1.
Proof.
  apply (forced_operations_are_kept_alive write_read_merge 1 _ 1
           (plain_op "AssignVariableOp" [var_handle] [] None true));
    [vm_compute; reflexivity | lia | reflexivity | reflexivity
    | vm_compute; reflexivity].
Defined.

(** ** The order of the users of a resource *)

(** X7: let A and B be operations of the slice, A before B, both outside the
    while loops and neither a Switch nor a Merge, that consume the same
    resource tensor [r] in the same control-flow context.  If [r] is not the
    first input of any Switch and every operation strictly between them that
    the pass processes is no Merge and, when it consumes [r], is in that
    context too, then after a pass that ends well a chain of control edges
    leads from B to A through users of [r] that lie between them, and A has
    not been given B as a control input. *)
Theorem users_of_a_resource_are_chained (g : Graph) (n : nat) (s' : PassState)
    (a b : nat) (opA opB : Operation) (r : TensorId) :
  run_pass (new_operations g n) (fresh_pass g) = (s', Ok tt) ->
  n <= a -> a < b ->
  graph_op g a = Some opA -> graph_op g b = Some opB ->
  plain_consumer opA = true -> plain_consumer opB = true ->
  uses_resource opA r = true -> uses_resource opB r = true ->
  ctx_is (_control_flow_context opA) (_control_flow_context opB) = true ->
  not_switched g r = true ->
  quiet_between g r (_control_flow_context opA) a b = true ->
  (exists u path,
     control_chain (ps_graph s') b (u :: path) a = true
     /\ Forall (fun v => a <= v < b /\ uses_at g r v = true) (u :: path))
  /\ (b ∈ control_inputs_at (ps_graph s') a -> b ∈ control_inputs_at g a).
Proof.
  intros H Hn Hab HopA HopB HpA HpB HuA HuB Hctx Hns Hq.
  pose proof (lookup_lt_Some _ _ _ HopB) as Hb.
  pose proof (region_inv_pass _ _ _ H) as Hend.
  rewrite Nat.max_r in Hend by lia.
  split.
  - unfold new_operations in H.
    rewrite (seq_split n _ a) in H by lia.
    apply for_each_app_inv in H as (s1 & H1 & H).
    simpl in H. apply bind_ok_inv in H as (s2 & [] & Ha & H).
    replace (n + (length (g_operations g) - n) - S a)
      with (length (g_operations g) - S a) in H by lia.
    rewrite (seq_split (S a) _ b) in H by lia.
    apply for_each_app_inv in H as (s3 & H3 & H).
    simpl in H. apply bind_ok_inv in H as (s4 & [] & Hb4 & H).
    assert (region_inv g n a s1) as Hr1.
    { replace a with (n + (a - n)) at 1 by lia.
      eapply region_inv_run; [done | lia | exact H1 | apply region_inv_fresh]. }
    assert (region_inv g n (S a) s2) as Hr2
      by (eapply region_inv_process_op; [|done|done]; lia).
    pose proof (chained_to_start g n r a s1 s2 opA Hns) as Hc2.
    destruct (chained_to_run g n r a (_control_flow_context opA) (b - S a) (S a)
                s2 s3 Hns) as [Hr3 Hc3]; try done; [lia | lia | |].
    { apply Hc2; try done. lia. }
    replace (S a + (b - S a)) with b in Hr3, Hc3 by lia.
    destruct (chained_to_end g n r a b (_control_flow_context opA) s3 s4 opB Hns)
      as (u & path & Hchain & Hpath); try done; [lia|].
    exists u, path. split; [|done].
    eapply control_chain_mono; [|exact Hchain].
    by destruct (preserves_run_pass _ _ _ _ H).
  - intros Hin. destruct Hend as (_ & Hle & _ & _ & R5 & _).
    destruct Hle as (_&_&_&_&_&Hops).
    destruct (Hops _ _ HopA) as (opA' & HopA' & (Hty & _)).
    unfold control_inputs_at in Hin. rewrite HopA' in Hin.
    destruct (R5 _ _ _ HopA' Hin) as [Hold | [_ Hnew]]; [done|].
    apply plain_consumer_true in HpA as (_ & HnS & HnM).
    destruct Hnew as [Hsw | [Hge | (_ & _ & [Hlt | [Hge | [Heq HM]]])]];
      try lia; congruence.
Qed.

Lemma users_of_a_resource_are_chained_witness :
  exists u path,
    control_chain
      (ps_graph (run_pass (new_operations three_users 1) (fresh_pass three_users)).1)
      3 (u :: path) 1 = true
    /\ Forall (fun v => 1 <= v < 3 /\ uses_at three_users (0, 0) v = true) (u :: path).
Proof.
  destruct (users_of_a_resource_are_chained three_users 1
              (run_pass (new_operations three_users 1) (fresh_pass three_users)).1
              1 3
              (plain_op "AssignVariableOp" [var_handle] [] None true)
              (plain_op "AssignVariableOp" [var_handle] [] None true)
              (0, 0)) as [Hchain _];
    [vm_compute; reflexivity | lia | lia | reflexivity | reflexivity
    | reflexivity | reflexivity | vm_compute; reflexivity | vm_compute; reflexivity
    | reflexivity | vm_compute; reflexivity | vm_compute; reflexivity |].
  exact Hchain.
Defined.

(** X8: under the same conditions on A, B and [r], if no operation strictly
    between A and B that the pass processes is a Merge or consumes [r], then
    after a pass that ends well A is a control input of B: a user of a
    resource waits for the user before it. *)
Theorem next_user_waits_for_last_user (g : Graph) (n : nat) (s' : PassState)
    (a b : nat) (opA opB : Operation) (r : TensorId) :
  run_pass (new_operations g n) (fresh_pass g) = (s', Ok tt) ->
  n <= a -> a < b ->
  graph_op g a = Some opA -> graph_op g b = Some opB ->
  plain_consumer opA = true -> plain_consumer opB = true ->
  uses_resource opA r = true -> uses_resource opB r = true ->
  ctx_is (_control_flow_context opA) (_control_flow_context opB) = true ->
  not_switched g r = true ->
  forallb (fun x =>
    match graph_op g x with
    | Some op =>
        IsInWhileLoop op
        || (negb (bool_decide (type op = "Merge")) && negb (uses_resource op r))
    | None => true
    end) (seq (S a) (b - S a)) = true ->
  a ∈ control_inputs_at (ps_graph s') b.
Proof.
  intros H Hn Hab HopA HopB HpA HpB HuA HuB Hctx Hns Hq.
  pose proof (lookup_lt_Some _ _ _ HopB) as Hb.
  unfold new_operations in H.
  rewrite (seq_split n _ a) in H by lia.
  apply for_each_app_inv in H as (s1 & H1 & H).
  simpl in H. apply bind_ok_inv in H as (s2 & [] & Ha & H).
  replace (n + (length (g_operations g) - n) - S a)
    with (length (g_operations g) - S a) in H by lia.
  rewrite (seq_split (S a) _ b) in H by lia.
  apply for_each_app_inv in H as (s3 & H3 & H).
  simpl in H. apply bind_ok_inv in H as (s4 & [] & Hb4 & H).
  assert (region_inv g n a s1) as Hr1.
  { replace a with (n + (a - n)) at 1 by lia.
    eapply region_inv_run; [done | lia | exact H1 | apply region_inv_fresh]. }
  assert (region_inv g n (S a) s2) as Hr2
    by (eapply region_inv_process_op; [|done|done]; lia).
  destruct (chained_to_start g n r a s1 s2 opA Hns)
    as (u & path & Hl2 & Hu & _ & Hc2 & _); try done; [lia|].
  assert (u = a) as -> by lia.
  destruct (last_user_kept_run g n r a (_control_flow_context opA) (b - S a) (S a)
              s2 s3 Hns) as (Hr3 & Hl3 & Hc3); try done; [lia | lia |].
  replace (S a + (b - S a)) with b in Hr3 by lia.
  pose proof Hr3 as (_ & R2 & _). pose proof R2 as (_&_&_&_&_&Hops).
  destruct (Hops _ _ HopB) as (op & Hop & _).
  destruct (op_facts_current g _ b opB op R2 HopB Hop) as (Hty & Hin & Hc).
  assert (plain_consumer op = true) as Hplain'.
  { revert HpB. unfold plain_consumer, IsInWhileLoop. by rewrite Hty, Hc. }
  assert (uses_resource op r = true) as Huses'
    by (unfold uses_resource; by rewrite Hin).
  destruct (process_op_last_user g n b r s3 s4 op Hns) as [[_ Hno] | Hnew];
    try done; [lia | | |].
  { left. by apply plain_consumer_true in Hplain' as (_ & _ & ?). }
  { specialize (Hno Hplain'). congruence. }
  destruct Hnew as (_ & _ & _ & Hedge).
  eapply control_inputs_at_mono; [by destruct (preserves_run_pass _ _ _ _ H)|].
  apply Hedge; [done|].
  apply (same_context_trans _ (_control_flow_context opA)); [done|]. by rewrite Hc.
Qed.

Lemma next_user_waits_for_last_user_witness :
  1 ∈ control_inputs_at
        (ps_graph (run_pass (new_operations straight_line 1)
                            (fresh_pass straight_line)).1) 2.
Proof.
  apply (next_user_waits_for_last_user straight_line 1 _ 1 2
           (plain_op "AssignVariableOp" [var_handle] [] None true)
           (plain_op "ReadVariableOp" [var_handle] [float32] None true)
           (0, 0));
    [vm_compute; reflexivity | lia | lia | reflexivity | reflexivity
    | reflexivity | reflexivity | vm_compute; reflexivity | vm_compute; reflexivity
    | reflexivity | vm_compute; reflexivity | vm_compute; reflexivity].
Defined.

(** ** Passes that end well, and passes that do not *)

(** X9: on a well-formed graph the pass ends well, whatever the slice: no
    lookup fails and the recursion of [_process_switch] is never deeper than
    the graph is long.  Well formed means that the producer of every
    resource input is an operation of the graph, and that every Switch has a
    first input, an output and a control-flow context and comes after the
    Switch that produces its first input, if one does. *)
Theorem pass_ends_well (g : Graph) (n : nat) :
  well_formed g = true -> n <= length (g_operations g) ->
  exists s', run_pass (new_operations g n) (fresh_pass g) = (s', Ok tt).
Proof. apply pass_succeeds. Qed.

Lemma pass_ends_well_witness :
  exists s', run_pass (new_operations cond_graph 2) (fresh_pass cond_graph) = (s', Ok tt).
Proof. apply (pass_ends_well cond_graph 2); [vm_compute; reflexivity | vm_compute; lia]. Defined.

(** X10: in graph mode, [__exit__] ends well when the default graph is the
    graph recorded at entry and is well formed, the operation count recorded
    at entry does not exceed its length, and every returned tensor on record
    is the output of one of its operations. *)
Theorem exit_ends_well (sc : Scope) :
  executing_eagerly sc = false ->
  _graph (self sc) = Some (g_uid (default_graph sc)) ->
  well_formed (default_graph sc) = true ->
  _n_operations (self sc) <= length (g_operations (default_graph sc)) ->
  (forall r, r ∈ _returned_tensors (self sc) ->
     r.1 < length (g_operations (default_graph sc))) ->
  exists sc', __exit__ sc = (sc', Ok tt).
Proof. apply exit_succeeds. Qed.

Lemma exit_ends_well_witness : exists sc', __exit__ cond_scope = (sc', Ok tt).
Proof.
  apply (exit_ends_well cond_scope);
    [reflexivity | reflexivity | vm_compute; reflexivity | vm_compute; lia |].
  intros r Hr. by apply not_elem_of_empty in Hr.
Defined.

(** X11: when [_process_switch] is to resolve a Switch that has no
    control-flow context (its first input not being the output of another
    Switch), it raises AttributeError after it has created the merge: the
    graph is left with the new Merge operation appended, while the
    operations that must run and the two maps are as they were. *)
Theorem switch_without_context_leaves_a_merge (sw : nat) (s : PassState)
    (opS : Operation) (inp : Tensor) :
  graph_op (ps_graph s) sw = Some opS -> inputs opS !! 0 = Some inp ->
  dtype inp <> resource
  \/ switch_at (ps_graph s) (t_op inp) = false
     /\ is_Some (graph_op (ps_graph s) (t_op inp)) ->
  0 < length (output_dtypes opS) ->
  merge_for_resource s !! (sw, 0) = None ->
  _control_flow_context opS = None ->
  call_process_switch sw s
  = (mkPass (graph_append (new_merge_op (ps_graph s) (outputs sw opS)) (ps_graph s))
            (last_op_using_resource_tensor s) (ops_which_must_run s)
            (merge_for_resource s),
     Raise AttributeError).
Proof.
  intros HopS Hinp Hprod Hlen Hnone Hctx. unfold call_process_switch.
  by rewrite (process_switch_no_context _ sw s opS inp).
Qed.

Lemma switch_without_context_leaves_a_merge_witness :
  (call_process_switch 2 (fresh_pass bare_switch)).2 = Raise AttributeError
  /\ length (g_operations (ps_graph (call_process_switch 2 (fresh_pass bare_switch)).1))
     = 5.
Proof.
  rewrite (switch_without_context_leaves_a_merge 2 (fresh_pass bare_switch)
             (plain_op "Switch" [var_handle; mkTensor 1 0 int32] [resource; resource]
                       None false) var_handle);
    [split; reflexivity | reflexivity | reflexivity
    | right; split; [reflexivity | by eexists] | simpl; lia | reflexivity
    | reflexivity].
Defined.

(** ** What a region leaves alone *)

(** X12: when [__exit__] ends well in graph mode, an operation that is not a
    Switch, produces none of the returned tensors on record, and was created
    before the region was entered or lies inside a while loop, is exactly
    what it was, control inputs included. *)
Theorem exit_leaves_earlier_operations (sc sc' : Scope) (t : nat) (op : Operation) :
  executing_eagerly sc = false ->
  __exit__ sc = (sc', Ok tt) ->
  _n_operations (self sc) <= length (g_operations (default_graph sc)) ->
  graph_op (default_graph sc) t = Some op -> type op <> "Switch" ->
  t < _n_operations (self sc) \/ IsInWhileLoop op = true ->
  (forall k, (t, k) ∉ _returned_tensors (self sc)) ->
  graph_op (default_graph sc') t = Some op.
Proof.
  intros Heager H Hn Hop Hty Hout Hret.
  destruct (exit_ok_inv sc sc' Heager H) as (s & s' & _ & Hrun & Hanchor & ->).
  cbn [default_graph].
  match type of Hrun with
  | run_pass (new_operations ?g _) _ = _ =>
      pose proof (region_leaves_operation g _ _ t op Hn Hrun Hop Hty Hout) as Hs
  end.
  destruct (for_each_anchor_sub _ _ _ _ _ Hanchor _ _ Hs) as (op' & Hop' & Hle & Hx).
  rewrite Hop'. f_equal. apply op_le_eq; [done|].
  intros x Hin. destruct (Hx _ Hin) as [Hold | [_ (r & Hr & Hrt)]]; [done|].
  apply elem_of_elements in Hr. destruct r as [r1 k]. simpl in Hrt. subst r1.
  by apply Hret in Hr.
Qed.

Lemma exit_leaves_earlier_operations_witness :
  graph_op (default_graph (__exit__ cond_scope).1) 1
  = Some (plain_op "Const" [] [int32] None false).
Proof.
  apply (exit_leaves_earlier_operations cond_scope);
    [reflexivity | vm_compute; reflexivity | vm_compute; lia | reflexivity
    | discriminate | left; vm_compute; lia |].
  intros k Hk. by apply not_elem_of_empty in Hk.
Defined.

(** ** The operations that must run *)

(** X13: when [__exit__] ends well in graph mode, an operation of the region
    outside the while loops that the pass forces to run, and after which the
    region has no Merge outside the while loops, is in the set
    [ops_which_must_run] of the manager, and it is a control input of the
    producer of every returned tensor on record that shares its control-flow
    context. *)
Theorem forced_operations_anchor_returns (sc sc' : Scope) (o : nat) (op : Operation) :
  executing_eagerly sc = false ->
  __exit__ sc = (sc', Ok tt) ->
  _n_operations (self sc) <= o ->
  graph_op (default_graph sc) o = Some op ->
  IsInWhileLoop op = false -> forced (default_graph sc) op = true ->
  forallb (fun x =>
    match graph_op (default_graph sc) x with
    | Some op => IsInWhileLoop op || negb (bool_decide (type op = "Merge"))
    | None => true
    end) (seq (S o) (length (g_operations (default_graph sc)) - S o)) = true ->
  o ∈ self_ops_which_must_run (self sc')
  /\ forall r opR,
       r ∈ _returned_tensors (self sc) ->
       graph_op (default_graph sc') r.1 = Some opR ->
       ctx_is (_control_flow_context op) (_control_flow_context opR) = true ->
       o ∈ control_inputs opR.
Proof. apply exit_forced_anchored. Qed.

Lemma forced_operations_anchor_returns_witness :
  1 ∈ self_ops_which_must_run (self (__exit__ two_prints_scope).1).
Proof.
  destruct (forced_operations_anchor_returns two_prints_scope
              (__exit__ two_prints_scope).1 1 (plain_op "PrintV2" [] [] None true))
    as [Hmust _];
    [reflexivity | vm_compute; reflexivity | vm_compute; lia | reflexivity
    | reflexivity | vm_compute; reflexivity | vm_compute; reflexivity |].
  exact Hmust.
Defined.

(** ** A region without operations *)

(** X14: in graph mode, entering a region and leaving it at once, with no
    returned tensor on record, ends well and leaves the operations of the graph
    and the set of operations that must run as they were; the graph's flag
    [_add_control_dependencies] ends as the outer graph has it, and false
    when there is no outer graph, whatever it was before the region. *)
Theorem empty_region_changes_nothing (sc : Scope) :
  executing_eagerly sc = false ->
  _returned_tensors (self sc) = ∅ ->
  (__enter__ >> __exit__) sc
  = (mkScope false
       (set_add_control_dependencies (default_graph sc)
          (match outer_graph_add_control_dependencies (default_graph sc) with
           | Some outer_val => outer_val
           | None => false
           end))
       (mkACD ∅ (self_ops_which_must_run (self sc))
              (Some (g_uid (default_graph sc)))
              (length (g_operations (default_graph sc)))),
     Ok tt).
Proof.
  intros Heager Hret. destruct sc as [eager g a]. simpl in *. subst eager.
  unfold bind, __enter__. cbn [executing_eagerly default_graph self].
  unfold __exit__.
  cbn [executing_eagerly default_graph self _graph _n_operations _returned_tensors
       self_ops_which_must_run set_add_control_dependencies g_uid g_operations
       outer_graph_add_control_dependencies].
  rewrite Nat.eqb_refl. cbn [negb].
  unfold new_operations. cbn [g_operations]. rewrite Nat.sub_diag. cbn [seq].
  unfold run_pass, bind, gets. cbn [for_each ret ops_which_must_run ps_graph].
  rewrite Hret, elements_empty. cbn [for_each ret].
  by rewrite union_empty_r_L.
Qed.

Lemma empty_region_changes_nothing_witness :
  g_operations (default_graph ((__enter__ >> __exit__) cond_scope).1)
  = g_operations cond_graph.
Proof.
  rewrite (empty_region_changes_nothing cond_scope); reflexivity.
Defined.

(** ** The decorator *)

(** X15: in graph mode, let the wrapped function return its results after
    creating the operation [o], which the pass forces to run, outside the
    while loops, in the context current when the function returns, and with
    no Merge outside the while loops created after it.  If [wrapper] ends
    well, every tensor it returns as a copied component of a result is the
    output of an Identity operation that has [o] among its control inputs:
    the results of the wrapped function wait for its stateful operations. *)
Theorem wrapped_results_wait_for_forced_operations
    (f : M Graph (list Value)) (g g1 g' : Graph) (vs vs' : list Value)
    (o : nat) (op : Operation) (v' : Value) (t' : Tensor) :
  f (set_add_control_dependencies g true) = (g1, Ok vs) ->
  wrapper f false g = (g', Ok vs') ->
  length (g_operations g) <= o -> graph_op g1 o = Some op ->
  IsInWhileLoop op = false -> forced g1 op = true ->
  forallb (fun x =>
    match graph_op g1 x with
    | Some op => IsInWhileLoop op || negb (bool_decide (type op = "Merge"))
    | None => true
    end) (seq (S o) (length (g_operations g1) - S o)) = true ->
  ctx_is (_control_flow_context op) (g_current_context g1) = true ->
  v' ∈ vs' -> t' ∈ copied_components v' ->
  exists opR, graph_op g' (t_op t') = Some opR /\ type opR = "Identity"
    /\ o ∈ control_inputs opR.
Proof.
  intros Hf Hw Ho Hop Hwh Hforced Hq Hctx Hv' Ht'.
  destruct (wrapper_graph_mode_inv f g g1 vs g' vs' Hf Hw)
    as (sc3 & sc4 & Hmark & Hexit & ->).
  destruct (mark_all_spec _ _ _ _ Hmark)
    as (He & _ & _ & Hn & _ & (ids & Hg3 & Hids) & _ & Hcop).
  cbn [executing_eagerly self default_graph _n_operations] in *.
  destruct (Hcop _ _ Hv' Ht') as [Hret Hbound].
  pose proof (lookup_lt_Some _ _ _ Hop) as Hlt.
  assert (forall x opx, graph_op g1 x = Some opx ->
            graph_op (default_graph sc3) x = Some opx) as Hold.
  { intros x opx Hx. rewrite Hg3. unfold graph_op, set_operations. simpl.
    by apply lookup_app_l_Some. }
  destruct (lookup_lt_is_Some_2 (g_operations (default_graph sc3)) (t_op t'))
    as [opI HopI]; [lia|].
  assert (type opI = "Identity"
          /\ _control_flow_context opI = g_current_context g1) as [HtyI HctxI].
  { rewrite Hg3 in HopI. unfold set_operations in HopI. simpl in HopI.
    rewrite lookup_app_r in HopI by lia.
    rewrite Forall_forall in Hids. apply Hids.
    by eapply list_elem_of_lookup_2. }
  destruct (exit_any_inv _ _ _ Hexit) as (_ & _ & _ & _ & _ & _ & _ & _ & Hops).
  destruct (Hops _ _ HopI) as (opR & HopR & (HtyR & _ & _ & HctxR & _)).
  exists opR. split; [done|]. split; [congruence|].
  destruct (exit_forced_anchored sc3 sc4 o op) as [_ Hanchor]; try done.
  - by rewrite Hn.
  - by apply Hold.
  - unfold forced in *. rewrite Hg3. done.
  - apply forallb_forall. intros x Hx. apply in_seq in Hx.
    destruct (graph_op (default_graph sc3) x) as [opx|] eqn:Hopx; [|done].
    destruct (decide (x < length (g_operations g1))) as [Hx1|Hx1].
    + rewrite forallb_forall in Hq. specialize (Hq x).
      destruct (lookup_lt_is_Some_2 _ _ Hx1) as [opx1 Hopx1].
      rewrite (Hold _ _ Hopx1) in Hopx. injection Hopx as <-.
      unfold graph_op in Hq at 1. rewrite Hopx1 in Hq. apply Hq.
      apply in_seq. lia.
    + rewrite Hg3 in Hopx. unfold graph_op, set_operations in Hopx. simpl in Hopx.
      rewrite lookup_app_r in Hopx by lia.
      rewrite Forall_forall in Hids.
      destruct (Hids opx) as [HtyX _]; [by eapply list_elem_of_lookup_2|].
      rewrite HtyX. apply orb_true_iff. right. done.
  - apply (Hanchor (tensor_id t') opR); [done | done |]. congruence.
Qed.

Lemma wrapped_results_wait_for_forced_operations_witness :
  exists opR,
    graph_op (wrapper write_and_return false one_variable).1 3 = Some opR
    /\ type opR = "Identity" /\ 1 ∈ control_inputs opR.
Proof.
  apply (wrapped_results_wait_for_forced_operations write_and_return one_variable
           (write_and_return (set_add_control_dependencies one_variable true)).1
           (wrapper write_and_return false one_variable).1
           [PlainTensor (mkTensor 2 0 int32)]
           [PlainTensor (mkTensor 3 0 int32)]
           1 (plain_op "AssignVariableOp" [var_handle] [] None true)
           (PlainTensor (mkTensor 3 0 int32)) (mkTensor 3 0 int32));
    [reflexivity | vm_compute; reflexivity | vm_compute; lia | reflexivity
    | reflexivity | vm_compute; reflexivity | vm_compute; reflexivity | reflexivity
    | by apply list_elem_of_singleton | by apply list_elem_of_singleton].
Defined.

(** X16: in graph mode, when the wrapped function raises after working on
    the graph of the region, which is well formed, [wrapper] still runs the
    pass over the operations the function has created, and raises the
    exception of the function again: the graph it leaves has the control
    edges of that pass. *)
Theorem wrapper_raises_again_after_the_pass
    (f : M Graph (list Value)) (g g1 : Graph) (e : exn) :
  f (set_add_control_dependencies g true) = (g1, Raise e) ->
  g_uid g1 = g_uid g -> well_formed g1 = true ->
  length (g_operations g) <= length (g_operations g1) ->
  let g2 := set_add_control_dependencies g1
              (match outer_graph_add_control_dependencies g1 with
               | Some outer_val => outer_val
               | None => false
               end) in
  exists s',
    run_pass (new_operations g2 (length (g_operations g))) (fresh_pass g2)
    = (s', Ok tt)
    /\ wrapper f false g = (ps_graph s', Raise e).
Proof.
  intros Hf Huid Hwf Hlen g2.
  destruct (pass_succeeds g2 (length (g_operations g))) as [s' Hs']; [done | done |].
  exists s'. split; [done|].
  unfold wrapper, with_manager, __enter__.
  cbn [executing_eagerly default_graph self __init__ _returned_tensors
       self_ops_which_must_run set_add_control_dependencies g_uid g_operations].
  unfold bind at 1. unfold call. cbn [default_graph executing_eagerly self].
  change (mkGraph (g_uid g) (g_operations g) (_registered_ops g) (g_current_context g)
            true (outer_graph_add_control_dependencies g))
    with (set_add_control_dependencies g true).
  rewrite Hf. unfold __exit__.
  cbn [executing_eagerly default_graph self _graph _n_operations _returned_tensors
       self_ops_which_must_run].
  rewrite Huid, Nat.eqb_refl. cbn [negb].
  fold g2. unfold fresh_pass in Hs'.
  rewrite (bind_ok _ _ _ _ _ Hs'). cbn [gets].
  rewrite elements_empty. reflexivity.
Qed.

Lemma wrapper_raises_again_after_the_pass_witness :
  exists s',
    run_pass (new_operations (set_add_control_dependencies three_users false) 1)
             (fresh_pass (set_add_control_dependencies three_users false))
    = (s', Ok tt)
    /\ wrapper (fun _ => (three_users, Raise IndexError)) false one_variable
       = (ps_graph s', Raise IndexError).
Proof.
  apply (wrapper_raises_again_after_the_pass
           (fun _ => (three_users, Raise IndexError)) one_variable three_users
           IndexError);
    [reflexivity | reflexivity | vm_compute; reflexivity | vm_compute; lia].
Defined.

(** X17: in eager mode [wrapper] runs no pass.  When the wrapped function
    raises, it raises the same exception on the graph the function leaves;
    when the function returns, it returns as many values, of the same kinds,
    after appending to that graph nothing but Identity operations. *)
Theorem wrapper_in_eager_mode (f : M Graph (list Value)) (g g1 : Graph)
    (out : outcome (list Value)) :
  f g = (g1, out) ->
  match out with
  | Raise e => wrapper f true g = (g1, Raise e)
  | Ok vs =>
      exists ids vs',
        wrapper f true g
        = (set_operations g1 (g_operations g1 ++ ids), Ok vs')
        /\ Forall (fun op => type op = "Identity") ids
        /\ Forall2 (fun v v' => kind_of v' = kind_of v) vs vs'
  end.
Proof.
  intros Hf. unfold wrapper, with_manager, __enter__.
  cbn [executing_eagerly]. unfold bind, call.
  cbn [default_graph executing_eagerly self]. rewrite Hf.
  destruct out as [vs|e]; [|reflexivity].
  destruct (mark_all_succeeds vs (mkScope true g1 __init__)) as (sc3 & vs' & Hmark).
  rewrite Hmark.
  destruct (mark_all_spec _ _ _ _ Hmark)
    as (He & _ & _ & _ & _ & (ids & Hg3 & Hids) & Hvs & _).
  cbn [executing_eagerly default_graph] in *.
  unfold __exit__. rewrite He. exists ids, vs'. rewrite Hg3.
  split; [done|]. split.
  - eapply Forall_impl; [exact Hids|]. by intros op [? _].
  - eapply Forall2_impl; [exact Hvs|]. by intros v v' [? _].
Qed.

Lemma wrapper_in_eager_mode_witness :
  exists ids vs',
    wrapper write_and_return true one_variable
    = (set_operations (write_and_return one_variable).1
         (g_operations (write_and_return one_variable).1 ++ ids), Ok vs')
    /\ Forall (fun op => type op = "Identity") ids
    /\ Forall2 (fun v v' => kind_of v' = kind_of v)
               [PlainTensor (mkTensor 2 0 int32)] vs'.
Proof.
  apply (wrapper_in_eager_mode write_and_return one_variable
           (write_and_return one_variable).1
           (Ok [PlainTensor (mkTensor 2 0 int32)])).
  reflexivity.
Defined.

(** ** One resolution of a switch *)

(** X18: when [_process_switch] ends well on a Switch that has no merge yet
    and whose first input is not produced by a Switch, it has appended one
    operation [m] to the graph and added it to the operations that must run;
    the Switch has received the last user of its first input, if there was
    one, as a control input; [m] is now the last user of that input, no other
    last user having changed; and [m] is the merge on record for each output
    of the Switch. *)
Theorem switch_resolution_orders_the_conditional (sw : nat) (s s' : PassState)
    (opS : Operation) (inp : Tensor) :
  call_process_switch sw s = (s', Ok tt) ->
  graph_op (ps_graph s) sw = Some opS -> inputs opS !! 0 = Some inp ->
  dtype inp <> resource \/ switch_at (ps_graph s) (t_op inp) = false ->
  merge_for_resource s !! (sw, 0) = None ->
  let m := length (g_operations (ps_graph s)) in
  length (g_operations (ps_graph s')) = S m
  /\ ops_which_must_run s' = ops_which_must_run s ∪ {[ m ]}
  /\ (forall prev,
        last_op_using_resource_tensor s !! Some (tensor_id inp) = Some prev ->
        prev ∈ control_inputs_at (ps_graph s') sw)
  /\ last_op_using_resource_tensor s' !! Some (tensor_id inp) = Some m
  /\ (forall key, key <> Some (tensor_id inp) ->
        last_op_using_resource_tensor s' !! key
        = last_op_using_resource_tensor s !! key)
  /\ (forall k, k < length (output_dtypes opS) ->
        merge_for_resource s' !! (sw, k) = Some m).
Proof.
  intros H HopS Hinp Hprod Hnone m. unfold call_process_switch in H.
  apply process_switch_inv in H
    as (o & i0 & sa & Ho & Hi0 & Hrec & Hlen & Hres).
  assert (o = opS) as -> by congruence.
  assert (i0 = inp) as -> by congruence.
  assert (sa = s) as ->.
  { destruct Hrec as [(Hd & Hsw & _) | [_ ->]]; [|done].
    destruct Hprod as [?|?]; congruence. }
  destruct Hres as [[[? Hres] _] | (_ & c & Hc & ->)]; [congruence|].
  destruct (resolve_facts sw opS c (tensor_id inp) s)
    as (H1 & H2 & H3 & H4 & H5 & _ & H7); [by eexists|].
  do 5 (split; [done|]).
  intros k Hk. rewrite H7. by rewrite bool_decide_eq_true_2.
Qed.

Lemma switch_resolution_orders_the_conditional_witness :
  length (g_operations
            (ps_graph (call_process_switch 2 (fresh_pass cond_graph)).1)) = 6
  /\ last_op_using_resource_tensor (call_process_switch 2 (fresh_pass cond_graph)).1
       !! Some (0, 0) = Some 5.
Proof.
  destruct (switch_resolution_orders_the_conditional 2 (fresh_pass cond_graph)
              (call_process_switch 2 (fresh_pass cond_graph)).1
              (plain_op "Switch" [var_handle; mkTensor 1 0 int32] [resource; resource]
                        (Some branch) false) var_handle)
    as (H1 & _ & _ & H4 & _);
    [vm_compute; reflexivity | reflexivity | reflexivity | right; reflexivity
    | reflexivity |].
  split; [exact H1 | exact H4].
Defined.

(** X19: nested conditionals.  When [_process_switch] ends well on a Switch
    that has no merge yet and whose first input is a resource output of
    another Switch, itself fed by no Switch, both switches have a merge
    afterwards, the merge of the outer Switch has the merge of the inner one
    as a control input, and the merge of the inner Switch is the last user of
    the tensor that links them. *)
Theorem nested_switch_merges_are_chained (n0 sw : nat) (s s' : PassState)
    (opS opP : Operation) (inp inpP : Tensor) :
  call_process_switch sw s = (s', Ok tt) -> merges_ok n0 s ->
  graph_op (ps_graph s) sw = Some opS -> inputs opS !! 0 = Some inp ->
  dtype inp = resource ->
  graph_op (ps_graph s) (t_op inp) = Some opP -> type opP = "Switch" ->
  t_value_index inp < length (output_dtypes opP) ->
  inputs opP !! 0 = Some inpP ->
  dtype inpP <> resource \/ switch_at (ps_graph s) (t_op inpP) = false ->
  merge_for_resource s !! (sw, 0) = None ->
  exists m_out m_in,
    merge_for_resource s' !! tensor_id inp = Some m_out
    /\ merge_for_resource s' !! (sw, 0) = Some m_in
    /\ m_in ∈ control_inputs_at (ps_graph s') m_out
    /\ last_op_using_resource_tensor s' !! Some (tensor_id inp) = Some m_in.
Proof.
  intros H Hok HopS Hinp Hd HopP HtyP Hidx HinpP HprodP Hnone.
  unfold call_process_switch in H.
  apply process_switch_inv in H
    as (o & i0 & sa & Ho & Hi0 & Hrec & Hlen & Hres).
  assert (o = opS) as -> by congruence.
  assert (i0 = inp) as -> by congruence.
  assert (switch_at (ps_graph s) (t_op inp) = true) as HswP.
  { unfold switch_at. rewrite HopP. by apply bool_decide_eq_true. }
  destruct Hrec as [(_ & _ & Hrec) | [[?|?] _]]; [|done|congruence].
  assert (sw <> t_op inp) as Hne.
  { intros Heq. rewrite <- Heq in HopP.
    assert (opP = opS) as -> by congruence.
    assert (inpP = inp) as -> by congruence.
    destruct HprodP as [?|?]; congruence. }
  pose proof (keeps_merges_process_switch n0 _ _ _ _ _ Hrec Hok) as [Hoka _].
  destruct (process_switch_resolved n0 _ _ _ _ opP (t_value_index inp) Hrec Hok HopP Hidx)
    as [m_out Hm_out].
  assert (merge_for_resource sa !! (sw, 0) = None) as Hnone_a.
  { destruct (length (g_operations (ps_graph s))) as [|fuel]; [done|].
    apply process_switch_inv in Hrec
      as (o & i0 & sb & Ho' & Hi0' & Hrec' & _ & Hres').
    assert (o = opP) as -> by congruence.
    assert (i0 = inpP) as -> by congruence.
    assert (sb = s) as ->.
    { destruct Hrec' as [(Hd' & Hsw' & _) | [_ ->]]; [|done].
      destruct HprodP as [?|?]; congruence. }
    destruct Hres' as [[_ ->] | (_ & c & _ & ->)]; [done|].
    unfold resolve. cbn [merge_for_resource].
    rewrite foldl_insert_merge_lookup.
    rewrite bool_decide_eq_false_2; [done|]. by intros [? _]. }
  destruct Hres as [[[? Hres] _] | (_ & c & Hc & ->)]; [congruence|].
  pose proof (preserves_process_switch _ _ _ _ _ Hrec) as [(_&_&_&_&_&Hops) _].
  destruct (Hops _ _ HopS) as (opSa & HopSa & _).
  destruct (resolve_facts sw opS c (tensor_id inp) sa)
    as (_ & H2 & _ & _ & _ & H6 & H7); [by eexists|].
  change (tensor_id inp) with (t_op inp, t_value_index inp) in *.
  exists m_out, (length (g_operations (ps_graph sa))).
  split; [|split; [|split]].
  - rewrite H7. rewrite bool_decide_eq_false_2; [done|]. by intros [? _].
  - rewrite H7. by rewrite bool_decide_eq_true_2.
  - apply H6; [done|]. destruct Hoka as (_ & M1 & _).
    destruct (M1 _ _ _ Hm_out) as (_&_&opM&_&_&_&_&_&HopM&_). by eexists.
  - done.
Qed.

Lemma nested_switch_merges_are_chained_witness :
  exists m_out m_in,
    merge_for_resource (call_process_switch 3 (fresh_pass nested_cond)).1 !! (2, 0)
    = Some m_out
    /\ merge_for_resource (call_process_switch 3 (fresh_pass nested_cond)).1 !! (3, 0)
       = Some m_in
    /\ m_in ∈ control_inputs_at
                (ps_graph (call_process_switch 3 (fresh_pass nested_cond)).1) m_out
    /\ last_op_using_resource_tensor (call_process_switch 3 (fresh_pass nested_cond)).1
         !! Some (2, 0) = Some m_in.
Proof.
  apply (nested_switch_merges_are_chained 5 3 (fresh_pass nested_cond) _
           (plain_op "Switch" [mkTensor 2 0 resource; mkTensor 1 0 int32]
                     [resource; resource] (Some inner_branch) false)
           (plain_op "Switch" [var_handle; mkTensor 1 0 int32] [resource; resource]
                     (Some branch) false)
           (mkTensor 2 0 resource) var_handle);
    [vm_compute; reflexivity | apply (merges_ok_fresh nested_cond) | reflexivity
    | reflexivity | reflexivity | reflexivity | reflexivity | simpl; lia
    | reflexivity | right; reflexivity | reflexivity].
Defined.

(** ** The stateful operations without resources *)

(** X20: let A and B be operations of the slice, A before B, neither a Switch
    nor a Merge, both stateful, not of an exempt kind, without a resource
    input and outside any control-flow context.  If no operation strictly
    between them is of that sort, then after a pass that ends well A is a
    control input of B: the stateful operations that name no resource are
    chained in construction order. *)
Theorem stateful_operations_without_resources_are_chained
    (g : Graph) (n : nat) (s' : PassState) (a b : nat) (opA opB : Operation) :
  run_pass (new_operations g n) (fresh_pass g) = (s', Ok tt) ->
  n <= a -> a < b ->
  graph_op g a = Some opA -> graph_op g b = Some opB ->
  legacy_stateful opA = true -> legacy_stateful opB = true ->
  type opA <> "Switch" -> type opA <> "Merge" ->
  type opB <> "Switch" -> type opB <> "Merge" ->
  forallb (fun x =>
    match graph_op g x with
    | Some op => negb (legacy_stateful op)
    | None => true
    end) (seq (S a) (b - S a)) = true ->
  a ∈ control_inputs_at (ps_graph s') b.
Proof.
  intros H Hn Hab HopA HopB HlA HlB HsA HmA HsB HmB Hq.
  pose proof (lookup_lt_Some _ _ _ HopB) as Hb.
  unfold new_operations in H.
  rewrite (seq_split n _ a) in H by lia.
  apply for_each_app_inv in H as (s1 & H1 & H).
  simpl in H. apply bind_ok_inv in H as (s2 & [] & Ha & H).
  replace (n + (length (g_operations g) - n) - S a)
    with (length (g_operations g) - S a) in H by lia.
  rewrite (seq_split (S a) _ b) in H by lia.
  apply for_each_app_inv in H as (s3 & H3 & H).
  simpl in H. apply bind_ok_inv in H as (s4 & [] & Hb4 & H).
  set (n0 := length (g_operations g)) in *.
  assert (Forall (fun i => i < n0) (seq n (a - n))) as Hl1.
  { apply Forall_forall. intros i Hi. apply list_elem_of_In, in_seq in Hi. lia. }
  destruct (keeps_merges_run_pass n0 _ Hl1 _ _ _ H1 (merges_ok_fresh g)) as [Hok1 _].
  pose proof (preserves_run_pass _ _ _ _ H1) as [Hle1 _]. simpl in Hle1.
  pose proof Hle1 as (_&_&_&_&_&Hops1).
  destruct (Hops1 _ _ HopA) as (opA1 & HopA1 & _).
  destruct (legacy_current g _ a opA opA1 Hle1 HopA HopA1) as [HlA1 HtA1].
  assert (a < n0) as Han by lia.
  destruct (process_op_last_None n0 a s1 s2 opA1 Han Hok1 Ha HopA1) as [HnewA _].
  destruct HnewA as [Hl2 _]; [congruence | congruence | congruence |].
  destruct (keeps_merges_process_op n0 a Han _ _ _ Ha Hok1) as [Hok2 _].
  assert (graph_le g (ps_graph s2)) as Hle2.
  { etransitivity; [exact Hle1|]. by destruct (preserves_process_op _ _ _ _ Ha). }
  destruct (last_None_kept_run g (b - S a) (S a) s2 s3) as (Hok3 & Hle3 & Hl3);
    try done; [lia|].
  pose proof Hle3 as (_&_&_&_&_&Hops3).
  destruct (Hops3 _ _ HopB) as (opB3 & HopB3 & _).
  destruct (legacy_current g _ b opB opB3 Hle3 HopB HopB3) as [HlB3 HtB3].
  destruct (process_op_last_None n0 b s3 s4 opB3 Hb Hok3 Hb4 HopB3) as [HnewB _].
  destruct HnewB as [_ Hedge]; [congruence | congruence | congruence |].
  eapply control_inputs_at_mono; [by destruct (preserves_run_pass _ _ _ _ H)|].
  apply Hedge. by rewrite Hl3.
Qed.

Lemma stateful_operations_without_resources_are_chained_witness :
  0 ∈ control_inputs_at
        (ps_graph (run_pass (new_operations two_prints 0) (fresh_pass two_prints)).1) 1.
Proof.
  apply (stateful_operations_without_resources_are_chained two_prints 0 _ 0 1
           (plain_op "PrintV2" [] [] None true) (plain_op "PrintV2" [] [] None true));
    [vm_compute; reflexivity | lia | lia | reflexivity | reflexivity
    | vm_compute; reflexivity | vm_compute; reflexivity
    | discriminate | discriminate | discriminate | discriminate | reflexivity].
Defined.

(** ** The contexts of the edges *)

(** X21: a pass that ends well gives an operation that is neither a Switch
    nor a Merge control inputs from its own control-flow context only: every
    control input such an operation has received is an operation of the
    graph whose context is the context of the operation. *)
Theorem pass_adds_edges_within_a_context (g : Graph) (n : nat) (s' : PassState)
    (t : nat) (opT' : Operation) (x : nat) :
  run_pass (new_operations g n) (fresh_pass g) = (s', Ok tt) ->
  graph_op (ps_graph s') t = Some opT' ->
  type opT' <> "Switch" -> type opT' <> "Merge" ->
  x ∈ control_inputs opT' ->
  x ∈ control_inputs_at g t
  \/ exists opX, graph_op (ps_graph s') x = Some opX
       /\ ctx_is (_control_flow_context opX) (_control_flow_context opT') = true.
Proof.
  intros H Ht HnS HnM Hx.
  pose proof (ctx_inv_run g _ _ _ (new_operations_lt g n) (merges_ok_fresh g) H
                (ctx_inv_fresh g)) as [J1 _].
  destruct (J1 _ _ _ Ht HnS HnM Hx) as [Hold | Hctx]; [by left|right].
  unfold same_context in Hctx.
  destruct (graph_op (ps_graph s') x) as [opX|]; [|done]. by exists opX.
Qed.

Lemma pass_adds_edges_within_a_context_witness :
  1 ∈ control_inputs_at straight_line 2
  \/ exists opX,
       graph_op (ps_graph (run_pass (new_operations straight_line 1)
                                    (fresh_pass straight_line)).1) 1 = Some opX
       /\ ctx_is (_control_flow_context opX)
            (_control_flow_context
               (add_control {[ 1 ]}
                  (plain_op "ReadVariableOp" [var_handle] [float32] None true)))
          = true.
Proof.
  apply (pass_adds_edges_within_a_context straight_line 1 _ 2);
    [vm_compute; reflexivity | vm_compute; reflexivity | discriminate | discriminate |].
  simpl. apply elem_of_union_r. by apply elem_of_singleton.
Defined.

(** X22: a resource [r] is the first input of one Switch only, a Switch of a
    conditional in the context [c].  Let W, an operation of the slice outside
    the while loops that is neither a Switch nor a Merge, consume an output
    of that Switch, and let B, a later operation of the same kind in the
    context that encloses [c], consume [r] itself.  If every operation the
    pass processes before B is in a while loop, is a Switch over a resource,
    or is no Merge and does not consume [r], then after a pass that ends
    well a Merge [m] created by the pass has W as a control input and is
    itself a control input of B: B waits for the work done on [r] inside the
    conditional. *)
Theorem user_after_conditional_waits_for_its_merge (g : Graph) (n : nat)
    (s' : PassState) (sw k w b : nat) (opS opW opB : Operation) (inp : Tensor)
    (c : ControlFlowContext) :
  run_pass (new_operations g n) (fresh_pass g) = (s', Ok tt) ->
  n <= w -> w < b ->
  graph_op g sw = Some opS -> type opS = "Switch" ->
  inputs opS !! 0 = Some inp -> _control_flow_context opS = Some c ->
  k < length (output_dtypes opS) ->
  only_switch g (tensor_id inp) sw = true ->
  graph_op g w = Some opW -> plain_consumer opW = true ->
  uses_resource opW (sw, k) = true ->
  graph_op g b = Some opB -> plain_consumer opB = true ->
  uses_resource opB (tensor_id inp) = true ->
  ctx_is (outer_context c) (_control_flow_context opB) = true ->
  forallb (quiet_at g (tensor_id inp)) (seq n (b - n)) = true ->
  exists m opM,
    length (g_operations g) <= m
    /\ graph_op (ps_graph s') m = Some opM /\ type opM = "Merge"
    /\ w ∈ control_inputs_at (ps_graph s') m
    /\ m ∈ control_inputs_at (ps_graph s') b.
Proof.
  intros H Hnw Hwb HopS HtyS Hinp Hc Hk Hos HopW HpW HuW HopB HpB HuB Hctx Hq.
  pose proof (lookup_lt_Some _ _ _ HopB) as Hb.
  unfold new_operations in H.
  rewrite (seq_split n _ b) in H by lia.
  apply for_each_app_inv in H as (s3 & H3 & H).
  simpl in H. apply bind_ok_inv in H as (s4 & [] & Hb4 & H).
  assert (region_inv g n b s3) as Hr3.
  { replace b with (n + (b - n)) at 1 by lia.
    eapply region_inv_run; [done | lia | exact H3 | apply region_inv_fresh]. }
  assert (merge_is_last_user sw (tensor_id inp) s3) as Hm3.
  { eapply (last_merge_run g n (tensor_id inp) sw opS inp (b - n) n);
      [done | done | done | done | lia | lia | done | exact H3
      | apply region_inv_fresh | by left]. }
  pose proof H3 as H3'.
  rewrite (seq_split n _ w) in H3' by lia.
  apply for_each_app_inv in H3' as (s1 & H1 & H3').
  simpl in H3'. apply bind_ok_inv in H3' as (s2 & [] & Hw2 & H23).
  assert (region_inv g n w s1) as Hr1.
  { replace w with (n + (w - n)) at 1 by lia.
    eapply region_inv_run; [done | lia | exact H1 | apply region_inv_fresh]. }
  pose proof Hr1 as (M1 & L1 & _).
  pose proof L1 as (_&_&_&_&_&Hops1).
  destruct (Hops1 _ _ HopW) as (opW1 & HopW1 & (HtW & HiW & _ & HcW & _)).
  destruct (Hops1 _ _ HopS) as (opS1 & HopS1 & (HtS & _ & HoS & _)).
  destruct (process_op_feeds_merge (length (g_operations g)) w s1 s2 opW1 sw k opS1)
    as (m & Hm & Hwm); [lia | done | done | done | | done | congruence | | |].
  { unfold plain_consumer, IsInWhileLoop in *. by rewrite <- HtW, <- HcW. }
  { by rewrite <- HoS. }
  { unfold uses_resource in *. by rewrite <- HiW. }
  assert (merges_ok (length (g_operations g)) s2) as M2.
  { assert (region_inv g n (S w) s2) as [? _]; [|done].
    eapply region_inv_process_op; [|done|done]. lia. }
  assert (merge_kept s2 s3) as Hkept.
  { match type of H23 with
    | for_each ?l _ _ = _ =>
        assert (Forall (fun i => i < length (g_operations g)) l) as Hl
    end.
    { apply Forall_forall. intros i Hi. apply list_elem_of_In, in_seq in Hi. lia. }
    by destruct (keeps_merges_run_pass _ _ Hl _ _ _ H23 M2). }
  apply Hkept in Hm.
  pose proof Hr3 as (M3 & L3 & _).
  pose proof M3 as (_ & M31 & _).
  destruct (M31 _ _ _ Hm)
    as (opS3 & c3 & opM & HopS3 & Hc3 & _ & Hall & Hge & HopM & HtyM & _ & HcM).
  pose proof L3 as (_&_&_&_&_&Hops3).
  destruct (Hops3 _ _ HopS) as (opS3' & HopS3' & (HtS3 & HiS3 & HoS3 & HcS3 & _)).
  assert (opS3' = opS3) as -> by congruence.
  assert (c3 = c) as -> by congruence.
  assert (merge_for_resource s3 !! (sw, 0) = Some m) as Hm0
    by (apply Hall; rewrite <- HoS3; lia).
  assert (last_op_using_resource_tensor s3 !! Some (tensor_id inp) = Some m) as Hlast.
  { destruct Hm3 as [Hnone | (m' & Hm' & Hl)]; congruence. }
  assert (settled (tensor_id inp) s3) as Hs3.
  { intros sw' opS' inp' Ho Ht Hi Hid.
    assert (sw' = sw) as ->
      by (by apply (only_switch_at g (tensor_id inp) sw s3 sw' opS' inp')).
    by eexists. }
  destruct (Hops3 _ _ HopB) as (opB3 & HopB3 & (HtB & HiB & _ & HcB & _)).
  destruct (process_op_last_settled g n b (tensor_id inp) s3 s4 opB3)
    as [_ Hu]; [lia | done | done | done | done | | |].
  { unfold plain_consumer, IsInWhileLoop in *. by rewrite <- HtB, <- HcB. }
  { unfold uses_resource in *. by rewrite <- HiB. }
  pose proof (preserves_run_pass _ _ _ _ H) as [Hle4 _].
  pose proof (preserves_process_op _ _ _ _ Hb4) as [Hle3 _].
  pose proof (preserves_run_pass _ _ _ _ H23) as [Hle2 _].
  assert (graph_le (ps_graph s3) (ps_graph s')) as Hle by (by etransitivity).
  pose proof Hle as (_&_&_&_&_&Hops).
  destruct (Hops _ _ HopM) as (opM' & HopM' & (HtM' & _)).
  exists m, opM'. split; [done|]. split; [done|]. split; [congruence|]. split.
  - eapply control_inputs_at_mono; [|exact Hwm]. by etransitivity.
  - eapply control_inputs_at_mono; [exact Hle4|]. apply Hu; [done|].
    unfold same_context. by rewrite HopM, HcM, <- HcB.
Qed.

Lemma user_after_conditional_waits_for_its_merge_witness :
  exists m opM,
    5 <= m
    /\ graph_op (ps_graph (run_pass (new_operations cond_then_read 2)
                             (fresh_pass cond_then_read)).1) m = Some opM
    /\ type opM = "Merge"
    /\ 3 ∈ control_inputs_at
             (ps_graph (run_pass (new_operations cond_then_read 2)
                          (fresh_pass cond_then_read)).1) m
    /\ m ∈ control_inputs_at
             (ps_graph (run_pass (new_operations cond_then_read 2)
                          (fresh_pass cond_then_read)).1) 4.
Proof.
  apply (user_after_conditional_waits_for_its_merge cond_then_read 2
           (run_pass (new_operations cond_then_read 2) (fresh_pass cond_then_read)).1
           2 0 3 4
           (plain_op "Switch" [var_handle; mkTensor 1 0 int32] [resource; resource]
                     (Some branch) false)
           (plain_op "AssignVariableOp" [mkTensor 2 0 resource] [] (Some branch) true)
           (plain_op "ReadVariableOp" [var_handle] [float32] None true)
           var_handle branch);
    [vm_compute; reflexivity | lia | lia | reflexivity | reflexivity | reflexivity
    | reflexivity | simpl; lia | vm_compute; reflexivity | reflexivity
    | reflexivity | vm_compute; reflexivity | reflexivity | reflexivity
    | vm_compute; reflexivity | reflexivity | vm_compute; reflexivity ].
Defined.
